(** * nacaddr: annotated IP prefixes, collapsing and exclusion

    A shallow embedding of [capirca/lib/nacaddr.py].  Python objects live in
    an explicit object store, lists hold references into it, and methods
    that raise are modelled with a result type.  The parts of the standard
    [ipaddress] module that nacaddr calls (netmask, broadcast address,
    containment, ordering keys, [supernet], [address_exclude]) are written
    out next to the code that uses them. *)

From Stdlib Require Import ZArith Lia.
From stdpp Require Import base list strings gmap sorting.

Open Scope Z_scope.

(** ** Exceptions *)

Inductive exn :=
| TypeError
| ValueError
| AddressValueError
| PrefixlenDiffInvalidError
| AttributeError
| AssertionError
| OutOfFuel.

Inductive result (A : Type) :=
| Ok (a : A)
| Raise (e : exn).
Arguments Ok {A} a.
Arguments Raise {A} e.

#[global] Instance result_ret : MRet result := fun A a => Ok a.
#[global] Instance result_bind : MBind result := fun A B f m =>
  match m with
  | Ok a => f a
  | Raise e => Raise e
  end.

(** ** Addresses and networks *)

Inductive ipclass := IPv4 | IPv6.

#[global] Instance ipclass_eq_dec : EqDecision ipclass.
Proof. solve_decision. Defined.

Definition _version (c : ipclass) : Z :=
  match c with IPv4 => 4 | IPv6 => 6 end.

Definition _max_prefixlen (c : ipclass) : Z :=
  match c with IPv4 => 32 | IPv6 => 128 end.

Definition _ALL_ONES (c : ipclass) : Z := 2 ^ _max_prefixlen c - 1.

(** An address object ([IPv4Address] / [IPv6Address]) is its version and
    its integer; equality and hashing use both. *)
Abbreviation IPAddress := (Z * Z)%type.

(** [_BaseAddress.__lt__]: addresses of different versions do not compare. *)
Definition address_lt (a b : IPAddress) : result bool :=
  if bool_decide (a.1 = b.1) then Ok (a.2 <? b.2) else Raise TypeError.

(** [__le__] as supplied by [functools.total_ordering]: [a < b or a == b]. *)
Definition address_le (a b : IPAddress) : result bool :=
  lt ← address_lt a b; Ok (lt || bool_decide (a = b)).

(** [_BaseAddress.__add__]: the constructor rejects integers outside the
    address range. *)
Definition address_add (c : ipclass) (a : IPAddress) (n : Z) : result IPAddress :=
  if bool_decide (0 <= a.2 + n <= _ALL_ONES c) then Ok (a.1, a.2 + n)
  else Raise AddressValueError.

(** A nacaddr [IPv4] / [IPv6] object: a network with its annotations. *)
Record nacaddr := mkNet {
  cls : ipclass;
  network : Z;
  prefixlen : Z;
  text : string;
  token : string;
  parent_token : string
}.

Definition version (p : nacaddr) : Z := _version (cls p).
Definition max_prefixlen (p : nacaddr) : Z := _max_prefixlen (cls p).

Definition netmask_int (c : ipclass) (len : Z) : Z :=
  Z.lxor (_ALL_ONES c) (Z.shiftr (_ALL_ONES c) len).
Definition hostmask_int (c : ipclass) (len : Z) : Z :=
  Z.lxor (netmask_int c len) (_ALL_ONES c).

Definition network_address (p : nacaddr) : IPAddress := (version p, network p).
Definition netmask (p : nacaddr) : IPAddress :=
  (version p, netmask_int (cls p) (prefixlen p)).
Definition hostmask (p : nacaddr) : IPAddress :=
  (version p, hostmask_int (cls p) (prefixlen p)).
Definition broadcast_address (p : nacaddr) : IPAddress :=
  (version p, Z.lor (network p) (hostmask p).2).

(** The constructor [IPv4(ip, comment, token)]: [parent_token] starts as a
    copy of [token]. *)
Definition new_net (c : ipclass) (net len : Z) (comment tok : string) : nacaddr :=
  mkNet c net len comment tok tok.

(** What every constructed network satisfies: a prefix length in range and
    no host bits set. *)
Definition wf (p : nacaddr) : Prop :=
  0 <= prefixlen p <= max_prefixlen p /\
  0 <= network p < 2 ^ max_prefixlen p /\
  network p mod 2 ^ (max_prefixlen p - prefixlen p) = 0.

(** [address in network] ([_BaseNetwork.__contains__] on an address). *)
Definition contains (p : nacaddr) (x : IPAddress) : bool :=
  bool_decide (version p = x.1) &&
  bool_decide (Z.land x.2 (netmask p).2 = network p).

(** [_BaseNetwork.__eq__]: annotations do not take part. *)
Definition net_eq (a b : nacaddr) : bool :=
  bool_decide (version a = version b) &&
  bool_decide (network_address a = network_address b) &&
  bool_decide ((netmask a).2 = (netmask b).2).

(** [_BaseNetwork._is_subnet_of(a, b)] after the version test of the
    nacaddr overrides. *)
Definition _is_subnet_of (a b : nacaddr) : bool :=
  bool_decide ((network_address b).2 <= (network_address a).2) &&
  bool_decide ((broadcast_address a).2 <= (broadcast_address b).2).

Definition subnet_of (self other : nacaddr) : bool :=
  if bool_decide (version self ≠ version other) then false
  else _is_subnet_of self other.

Definition supernet_of (self other : nacaddr) : bool :=
  if bool_decide (version self ≠ version other) then false
  else _is_subnet_of other self.

(** [_BaseNetwork.overlaps]. *)
Definition overlaps (self other : nacaddr) : bool :=
  contains other (network_address self) ||
  contains other (broadcast_address self) ||
  contains self (network_address other) ||
  contains self (broadcast_address other).

(** [_get_networks_key] / [get_mixed_type_key], and the order of Python
    tuples on them: version first, so keys of different versions never
    reach an address comparison. *)
Definition _get_networks_key (p : nacaddr) : Z * Z * Z :=
  (version p, network p, (netmask p).2).

Definition key_lt (k1 k2 : Z * Z * Z) : bool :=
  let '(v1, a1, m1) := k1 in
  let '(v2, a2, m2) := k2 in
  if bool_decide (v1 ≠ v2) then v1 <? v2
  else if bool_decide (a1 ≠ a2) then a1 <? a2
  else m1 <? m2.

Definition key_le (k1 k2 : Z * Z * Z) : bool := negb (key_lt k2 k1).

(** ** Comments *)

(** Python's [comment in text] on strings: [c] starts at some position of
    [t]. *)
Fixpoint is_prefix (c t : string) : bool :=
  match c, t with
  | EmptyString, _ => true
  | String _ _, EmptyString => false
  | String a c', String b t' => bool_decide (a = b) && is_prefix c' t'
  end.

Fixpoint str_in (c t : string) : bool :=
  is_prefix c t ||
  match t with
  | EmptyString => false
  | String _ t' => str_in c t'
  end.

(** Truth value of a string. *)
Definition truthy (s : string) : bool := negb (bool_decide (s = "")).

Definition set_text (self : nacaddr) (t : string) : nacaddr :=
  mkNet (cls self) (network self) (prefixlen self) t (token self) (parent_token self).

(** [IPv4.AddComment] and [IPv6.AddComment] (the two bodies are the same),
    as the new state of [self]. *)
Definition AddComment (self : nacaddr) (comment : string) : nacaddr :=
  if truthy (text self) then
    if truthy comment && negb (str_in comment (text self)) then
      set_text self (text self +:+ (", " +:+ comment))
    else self
  else set_text self comment.

(** ** Supernet *)

(** [ipaddress.IPv4Network.supernet(self, prefixlen_diff)], reached only
    with [prefixlen self <> 0] and a non-negative new length.  The result is
    built by [self.__class__] with default annotations. *)
Definition ipaddress_supernet (self : nacaddr) (prefixlen_diff : Z) : result nacaddr :=
  if bool_decide (prefixlen_diff < 0) then Raise ValueError
  else
    Ok (new_net (cls self)
          (Z.land (network self) (Z.shiftl (netmask self).2 prefixlen_diff))
          (prefixlen self - prefixlen_diff) "" "").

(** The outcome of [self.supernet(prefixlen_diff)]: either [self] itself or
    a freshly built object. *)
Inductive supernet_res :=
| SameObject
| NewObject (p : nacaddr).

Definition supernet (self : nacaddr) (prefixlen_diff : Z) : result supernet_res :=
  if bool_decide (prefixlen self = 0) then Ok SameObject
  else if bool_decide (prefixlen self - prefixlen_diff < 0) then
    Raise PrefixlenDiffInvalidError
  else
    s ← ipaddress_supernet self prefixlen_diff;
    Ok (NewObject (new_net (cls self) (network s) (prefixlen s) (text self) (token self))).

(** [Supernet = supernet], called with the default [prefixlen_diff=1]. *)
Definition Supernet (self : nacaddr) : result supernet_res := supernet self 1.

(** The network the result denotes. *)
Definition supernet_val (self : nacaddr) (r : supernet_res) : nacaddr :=
  match r with SameObject => self | NewObject p => p end.

(** ** The safety oracle *)

(** [merge_target.netmask <= check_address.netmask < address.netmask]: a
    chained comparison, the second test only runs when the first holds. *)
Definition netmask_between (merge_target check_address address : nacaddr) : result bool :=
  b ← address_le (netmask merge_target) (netmask check_address);
  if b : bool then address_lt (netmask check_address) (netmask address) else Ok false.

Fixpoint _SafeToMerge_loop (address merge_target : nacaddr)
    (l : list nacaddr) : result bool :=
  match l with
  | [] => Ok true
  | check_address :: l' =>
    b ← netmask_between merge_target check_address address;
    if b : bool then Ok false else _SafeToMerge_loop address merge_target l'
  end.

Definition _SafeToMerge (address merge_target : nacaddr)
    (check_addresses : gmap IPAddress (list nacaddr)) : result bool :=
  _SafeToMerge_loop address merge_target
    (default [] (check_addresses !! network_address address)).

(** ** The object store *)

(** Objects are held by reference: a reference is an index into the store,
    a new object is appended, and [AddComment] updates its object in place. *)
Abbreviation ref := nat.
Abbreviation heap := (list nacaddr).

#[global] Instance nacaddr_inhabited : Inhabited nacaddr :=
  populate (mkNet IPv4 0 0 "" "" "").

Definition alloc (h : heap) (o : nacaddr) : heap * ref := (h ++ [o], length h).

Definition heap_AddComment (h : heap) (r : ref) (comment : string) : heap :=
  <[r := AddComment (h !!! r) comment]> h.

(** [r.Supernet()] in the store: the same reference at prefix length 0, a
    new object otherwise. *)
Definition heap_Supernet (h : heap) (r : ref) : result (heap * ref) :=
  s ← Supernet (h !!! r);
  match s with
  | SameObject => Ok (h, r)
  | NewObject p => Ok (alloc h p)
  end.

(** ** The linked list *)

(** [_LinkedList] cells live in an arena; [next] and [prev] are indices. *)
Record _LinkedList := mkNode {
  ll_next : option nat;
  ll_prev : option nat;
  ll_val : ref
}.

#[global] Instance _LinkedList_inhabited : Inhabited _LinkedList :=
  populate (mkNode None None 0%nat).

Definition set_next (n : _LinkedList) (x : option nat) : _LinkedList :=
  mkNode x (ll_prev n) (ll_val n).
Definition set_prev (n : _LinkedList) (x : option nat) : _LinkedList :=
  mkNode (ll_next n) x (ll_val n).
Definition set_val (n : _LinkedList) (v : ref) : _LinkedList :=
  mkNode (ll_next n) (ll_prev n) v.

(** [self.Add(val)]: returns the arena with the new cell and its index. *)
Definition Add (nodes : list _LinkedList) (self : nat) (v : ref) :
    list _LinkedList * nat :=
  let n := length nodes in
  (alter (fun c => set_next c (Some n)) self nodes ++ [mkNode None (Some self) v], n).

(** [self.RemoveNext()]. *)
Definition RemoveNext (nodes : list _LinkedList) (self : nat) :
    result (list _LinkedList) :=
  match ll_next (nodes !!! self) with
  | None => Raise AttributeError
  | Some nx =>
    let new_next := ll_next (nodes !!! nx) in
    let nodes := alter (fun c => set_next c None) nx nodes in
    let nodes := alter (fun c => set_prev c None) nx nodes in
    let nodes := alter (fun c => set_next c new_next) self nodes in
    match new_next with
    | None => Ok nodes
    | Some nn => Ok (alter (fun c => set_prev c (Some self)) nn nodes)
    end
  end.

(** ** The fixed-point collapser *)

Record state := mkState {
  st_heap : heap;
  st_nodes : list _LinkedList;
  st_fringe : list nat
}.

(** The sibling test of the [elif]; [and] stops at the first false
    operand, so the address addition and [Supernet()] only run when the
    tests before them hold. *)
Definition sibling_cond (cur_ip next_ip : nacaddr) : result bool :=
  if negb (bool_decide (version cur_ip = version next_ip)) then Ok false
  else if negb (bool_decide (prefixlen cur_ip = prefixlen next_ip)) then Ok false
  else
    b ← address_add (cls cur_ip) (broadcast_address cur_ip) 1;
    if negb (bool_decide (b = network_address next_ip)) then Ok false
    else
      s ← Supernet cur_ip;
      Ok (bool_decide (network_address (supernet_val cur_ip s) = network_address cur_ip)).

(** One turn of [while fringe], with [cur] already popped from the left. *)
Definition collapse_step (complements_by_network : gmap IPAddress (list nacaddr))
    (h : heap) (nodes : list _LinkedList) (cur : nat) (fringe : list nat) :
    result state :=
  match ll_next (nodes !!! cur) with
  | None => Ok (mkState h nodes fringe)
  | Some nx =>
    let cur_ip := ll_val (nodes !!! cur) in
    let next_ip := ll_val (nodes !!! nx) in
    safe ← _SafeToMerge (h !!! next_ip) (h !!! cur_ip) complements_by_network;
    if negb safe then Ok (mkState h nodes fringe)
    else if supernet_of (h !!! cur_ip) (h !!! next_ip) then
      let h := heap_AddComment h cur_ip (text (h !!! next_ip)) in
      nodes ← RemoveNext nodes cur;
      Ok (mkState h nodes (cur :: fringe))
    else
      c ← sibling_cond (h !!! cur_ip) (h !!! next_ip);
      if c : bool then
        let h := heap_AddComment h cur_ip (text (h !!! next_ip)) in
        nodes ← RemoveNext nodes cur;
        '(h, r) ← heap_Supernet h cur_ip;
        let nodes := alter (fun c => set_val c r) cur nodes in
        let fringe := cur :: fringe in
        match ll_prev (nodes !!! cur) with
        | None => Ok (mkState h nodes fringe)
        | Some p => Ok (mkState h nodes (fringe ++ [p]))
        end
      else Ok (mkState h nodes fringe)
  end.

Fixpoint collapse_loop (fuel : nat)
    (complements_by_network : gmap IPAddress (list nacaddr))
    (st : state) : result state :=
  match st_fringe st with
  | [] => Ok st
  | cur :: fringe =>
    match fuel with
    | O => Raise OutOfFuel
    | S fuel' =>
      st' ← collapse_step complements_by_network (st_heap st) (st_nodes st) cur fringe;
      collapse_loop fuel' complements_by_network st'
    end
  end.

(** [for addr in addresses[1:]: node = node.Add(addr); fringe.append(node)]. *)
Fixpoint build_list (nodes : list _LinkedList) (fringe : list nat) (node : nat)
    (rest : list ref) : list _LinkedList * list nat :=
  match rest with
  | [] => (nodes, fringe)
  | addr :: rest' =>
    let '(nodes', n) := Add nodes node addr in
    build_list nodes' (fringe ++ [n]) n rest'
  end.

(** [while addrs: ret_array.append(addrs.val); addrs = addrs.next]. *)
Fixpoint package (fuel : nat) (nodes : list _LinkedList) (addrs : option nat) :
    result (list ref) :=
  match addrs with
  | None => Ok []
  | Some i =>
    match fuel with
    | O => Raise OutOfFuel
    | S fuel' =>
      rest ← package fuel' nodes (ll_next (nodes !!! i));
      Ok (ll_val (nodes !!! i) :: rest)
    end
  end.

(** Each turn of the loop pops one cell and pushes at most two, and pushes
    only after unlinking a cell: three turns per input element bound the
    run. *)
Definition _CollapseAddrListInternal (h : heap) (addresses : list ref)
    (complements_by_network : gmap IPAddress (list nacaddr)) :
    result (heap * list ref) :=
  match addresses with
  | [] => Ok (h, addresses)
  | a0 :: rest =>
    let '(nodes, fringe) := build_list [mkNode None None a0] [0%nat] 0%nat rest in
    st ← collapse_loop (3 * length addresses) complements_by_network
           (mkState h nodes fringe);
    ret_array ← package (S (length addresses)) (st_nodes st) (Some 0%nat);
    Ok (st_heap st, ret_array)
  end.

(** [sorted(l, key=...)]: a stable sort; an element goes before the first
    one whose key is not smaller. *)
Section sorting.
Context {A K : Type} (key : A -> K) (lt : K -> K -> bool).

Fixpoint sorted_insert (x : A) (l : list A) : list A :=
  match l with
  | [] => [x]
  | y :: l' =>
    if lt (key y) (key x) then y :: sorted_insert x l' else x :: y :: l'
  end.

Definition sorted (l : list A) : list A := foldr sorted_insert [] l.
End sorting.

(** [CollapseAddrList(addresses, complement_addresses)]; a missing
    [complement_addresses] is the empty list. *)
Definition complements_dict (h : heap) (addresses complement_addresses : list ref) :
    gmap IPAddress (list nacaddr) :=
  let address_set : gset IPAddress :=
    list_to_set (map (fun a => network_address (h !!! a)) addresses) in
  fold_left
    (fun d ca =>
       let k := network_address (h !!! ca) in
       if bool_decide (k ∈ address_set)
       then <[k := default [] (d !! k) ++ [h !!! ca]]> d
       else d)
    complement_addresses ∅.

Definition get_mixed_type_key (h : heap) (r : ref) : Z * Z * Z :=
  _get_networks_key (h !!! r).

Definition CollapseAddrList (h : heap) (addresses complement_addresses : list ref) :
    result (heap * list ref) :=
  _CollapseAddrListInternal h
    (sorted (get_mixed_type_key h) key_lt addresses)
    (complements_dict h addresses complement_addresses).

Definition SortAddrList (h : heap) (addresses : list ref) : list ref :=
  sorted (get_mixed_type_key h) key_lt addresses.

(** ** Token-preserving collapse *)

(** [_InNetList(adders, ip)] and [IsSuperNet(supernets, subnets)]. *)
Definition _InNetList (h : heap) (adders : list ref) (ip : ref) : bool :=
  existsb (fun addr => subnet_of (h !!! ip) (h !!! addr)) adders.

Definition IsSuperNet (h : heap) (supernets subnets : list ref) : bool :=
  forallb (fun net => _InNetList h supernets net) subnets.

(** [itertools.groupby]: maximal runs of consecutive elements with equal
    keys. *)
Fixpoint groupby {A K : Type} `{EqDecision K} (key : A -> K) (l : list A) :
    list (K * list A) :=
  match l with
  | [] => []
  | x :: l' =>
    match groupby key l' with
    | (k, g) :: gs =>
      if decide (key x = k) then (k, x :: g) :: gs
      else (key x, [x]) :: (k, g) :: gs
    | [] => [(key x, [x])]
    end
  end.

(** [for grp in groupby(...): ret_array.append(CollapseAddrList(list(grp[1])))]. *)
Fixpoint collapse_groups (h : heap) (groups : list (string * list ref)) :
    result (heap * list (list ref)) :=
  match groups with
  | [] => Ok (h, [])
  | grp :: groups' =>
    '(h, r) ← CollapseAddrList h grp.2 [];
    '(h, rs) ← collapse_groups h groups';
    Ok (h, r :: rs)
  end.

(** The inner [while k < len(dedup_array)] loop; it returns [to_add] and
    the array.  [k] grows by one each turn, so the length of the array on
    entry bounds the turns. *)
Fixpoint dedup_scan (fuel : nat) (h : heap) (ip : list ref)
    (dedup_array : list (list ref)) (k : nat) : result (bool * list (list ref)) :=
  match dedup_array !! k with
  | None => Ok (true, dedup_array)
  | Some d =>
    match fuel with
    | O => Raise OutOfFuel
    | S fuel' =>
      if IsSuperNet h d ip then Ok (false, dedup_array)
      else if IsSuperNet h ip d then
        dedup_scan fuel' h ip (delete k dedup_array) (S k)
      else dedup_scan fuel' h ip dedup_array (S k)
    end
  end.

(** The outer loop: [ret_array.pop(0)] until the array is empty. *)
Fixpoint dedup_loop (h : heap) (ret_array dedup_array : list (list ref)) :
    result (list (list ref)) :=
  match ret_array with
  | [] => Ok dedup_array
  | ip :: ret_array' =>
    '(to_add, dedup_array) ← dedup_scan (length dedup_array) h ip dedup_array 0;
    dedup_loop h ret_array' (if to_add : bool then dedup_array ++ [ip] else dedup_array)
  end.

Definition string_lt (a b : string) : bool := String.ltb a b.

Definition CollapseAddrListPreserveTokens (h : heap) (addresses : list ref) :
    result (heap * list ref) :=
  let by_token := fun r => parent_token (h !!! r) in
  '(h, ret_array) ← collapse_groups h (groupby by_token (sorted by_token string_lt addresses));
  dedup_array ← dedup_loop h ret_array [];
  Ok (h, concat dedup_array).

(** ** Exclusion *)

(** [self.subnets()] with the default [prefixlen_diff=1], unpacked into two
    names: a network of full length has only itself as subnet, and the
    unpacking fails. *)
Definition subnets (self : nacaddr) : result (nacaddr * nacaddr) :=
  if bool_decide (prefixlen self = max_prefixlen self) then Raise ValueError
  else
    let start := network self in
    let step := Z.shiftr ((hostmask self).2 + 1) 1 in
    Ok (new_net (cls self) start (prefixlen self + 1) "" "",
        new_net (cls self) (start + step) (prefixlen self + 1) "" "").

Fixpoint address_exclude_loop (fuel : nat) (other s1 s2 : nacaddr) :
    result (list nacaddr) :=
  if negb (net_eq s1 other) && negb (net_eq s2 other) then
    match fuel with
    | O => Raise OutOfFuel
    | S fuel' =>
      if subnet_of other s1 then
        '(a, b) ← subnets s1;
        rest ← address_exclude_loop fuel' other a b;
        Ok (s2 :: rest)
      else if subnet_of other s2 then
        '(a, b) ← subnets s2;
        rest ← address_exclude_loop fuel' other a b;
        Ok (s1 :: rest)
      else Raise AssertionError
    end
  else if net_eq s1 other then Ok [s2]
  else if net_eq s2 other then Ok [s1]
  else Raise AssertionError.

(** [self.address_exclude(other)], all yielded networks in order.  Every
    turn of its loop moves to a subnet one bit longer. *)
Definition address_exclude (self other : nacaddr) : result (list nacaddr) :=
  if negb (bool_decide (version self = version other)) then Raise TypeError
  else if negb (subnet_of other self) then Raise ValueError
  else if net_eq other self then Ok []
  else
    '(s1, s2) ← subnets self;
    address_exclude_loop (Z.to_nat (max_prefixlen self)) other s1 s2.

(** [IP(x)] on a network object: a new object of the same class and
    network, with the default (empty) comment and token. *)
Definition IP (x : nacaddr) : nacaddr :=
  new_net (cls x) (network x) (prefixlen x) "" "".

Fixpoint alloc_all (h : heap) (l : list nacaddr) : heap * list ref :=
  match l with
  | [] => (h, [])
  | o :: l' =>
    let '(h, r) := alloc h o in
    let '(h, rs) := alloc_all h l' in
    (h, r :: rs)
  end.

(** [sorted(l)] on network objects uses [_BaseNetwork.__lt__], which
    raises on networks of different versions; a sort cannot order a list
    holding both versions without comparing across them.  On one version
    [__lt__] is the order of the network keys. *)
Definition same_versions (h : heap) (l : list ref) : bool :=
  match l with
  | [] => true
  | r :: l' => forallb (fun r' => bool_decide (version (h !!! r') = version (h !!! r))) l'
  end.

Definition sorted_networks (h : heap) (l : list ref) : result (list ref) :=
  if same_versions h l then Ok (sorted (get_mixed_type_key h) key_lt l)
  else Raise TypeError.

Fixpoint RemoveAddressFromList_loop (h : heap) (superset : list ref) (exclude : ref)
    (ret_array : list ref) : result (heap * list ref) :=
  match superset with
  | [] => Ok (h, ret_array)
  | addr :: superset' =>
    if net_eq (h !!! exclude) (h !!! addr) || subnet_of (h !!! addr) (h !!! exclude) then
      RemoveAddressFromList_loop h superset' exclude ret_array
    else if bool_decide (version (h !!! exclude) = version (h !!! addr))
            && subnet_of (h !!! exclude) (h !!! addr) then
      xs ← address_exclude (h !!! addr) (h !!! exclude);
      let '(h, rs) := alloc_all h (map IP xs) in
      RemoveAddressFromList_loop h superset' exclude (ret_array ++ rs)
    else RemoveAddressFromList_loop h superset' exclude (ret_array ++ [addr])
  end.

Definition RemoveAddressFromList (h : heap) (superset : list ref) (exclude : ref) :
    result (heap * list ref) :=
  '(h, ret_array) ← RemoveAddressFromList_loop h superset exclude [];
  ret ← sorted_networks h ret_array;
  Ok (h, ret).

(** [AddressListExclude] uses [superset] and [excludes] as stacks: both
    lists are reversed once and from then on read and changed at their end
    only.  The model keeps each stack with its top first: the reversal
    [[::-1]] of an ascending list is then the list itself, [pop()] takes the
    head, [extend(reversed(l))] puts [l] in front, and [ret_array + superset]
    reverses the stack back. *)
Fixpoint exclude_loop (fuel : nat) (h : heap) (superset excludes ret_array : list ref) :
    result (heap * list ref * list ref) :=
  match superset, excludes with
  | s :: superset', e :: excludes' =>
    match fuel with
    | O => Raise OutOfFuel
    | S fuel' =>
      if overlaps (h !!! s) (h !!! e) then
        '(h, rs) ← RemoveAddressFromList h [s] e;
        exclude_loop fuel' h (rs ++ superset') excludes ret_array
      else if key_lt (_get_networks_key (h !!! s)) (_get_networks_key (h !!! e)) then
        exclude_loop fuel' h superset' excludes (ret_array ++ [s])
      else exclude_loop fuel' h superset excludes' ret_array
    end
  | _, _ => Ok (h, superset, ret_array)
  end.

(** [set(l)] followed by [sorted]: one object is kept for each network. *)
Fixpoint dedup_networks (h : heap) (l : list ref) : list ref :=
  match l with
  | [] => []
  | r :: l' =>
    r :: filter (fun r' => negb (net_eq (h !!! r') (h !!! r))) (dedup_networks h l')
  end.

(** [sorted(l, reverse=True)] keeps equal elements in their order: it is
    the reversal of the stable ascending sort of the reversed list.  Each
    superset entry is taken off the stack once and each cut adds at most one
    entry per address bit, which bounds the turns of the loop. *)
Definition AddressListExclude (h : heap) (superset excludes : list ref)
    (collapse_addrs : bool) : result (heap * list ref) :=
  '(h, superset, excludes) ←
    (if collapse_addrs then
       '(h, superset) ← CollapseAddrList h superset [];
       '(h, excludes) ← CollapseAddrList h excludes [];
       Ok (h, superset, excludes)
     else
       superset ← sorted_networks h (rev superset);
       excludes ← sorted_networks h (rev excludes);
       Ok (h, superset, excludes));
  '(h, superset, ret_array) ←
    exclude_loop ((length superset + 1) * (length excludes + 1) * 130)
      h superset excludes [];
  if collapse_addrs then CollapseAddrList h (ret_array ++ rev superset) []
  else
    ret ← sorted_networks h (dedup_networks h (ret_array ++ rev superset));
    Ok (h, ret).

Definition ExcludeAddrs := AddressListExclude.

(** * Properties *)

(** ** Substrings *)

Lemma append_nil_l (s : string) : "" +:+ s = s.
Proof. reflexivity. Qed.

Lemma append_cons (a : Ascii.ascii) (s t : string) :
  String a s +:+ t = String a (s +:+ t).
Proof. reflexivity. Qed.

Lemma append_nil_r (s : string) : s +:+ "" = s.
Proof. induction s as [|a s IH]; [done | by rewrite append_cons, IH]. Qed.

Lemma append_assoc (s t u : string) : (s +:+ t) +:+ u = s +:+ t +:+ u.
Proof. induction s as [|a s IH]; [done | by rewrite !append_cons, IH]. Qed.

Lemma prefix_spec (c t : string) :
  is_prefix c t = true <-> exists post, t = c +:+ post.
Proof.
  revert t. induction c as [|a c IH]; intros t; simpl.
  - split; [intros _; by exists t | done].
  - destruct t as [|b t].
    + split; [done | intros [post H]; discriminate].
    + rewrite andb_true_iff, bool_decide_eq_true, IH. split.
      * intros [-> [post ->]]. by exists post.
      * intros [post H]. rewrite append_cons in H. injection H as -> ->. eauto.
Qed.

Lemma str_in_spec (c t : string) :
  str_in c t = true <-> exists pre post, t = pre +:+ (c +:+ post).
Proof.
  induction t as [|b t IH]; simpl.
  - rewrite orb_false_r, prefix_spec. split.
    + intros [post H]. by exists "", post.
    + intros [pre [post H]]. destruct pre; [by exists post | discriminate].
  - rewrite orb_true_iff, IH, prefix_spec. split.
    + intros [[post H] | [pre [post H]]].
      * by exists "", post.
      * exists (String b pre), post. by rewrite append_cons, H.
    + intros [pre [post H]]. destruct pre as [|b' pre].
      * left. by exists post.
      * right. exists pre, post. rewrite append_cons in H. congruence.
Qed.

Lemma str_in_refl (c : string) : str_in c c = true.
Proof. apply str_in_spec. exists "", "". by rewrite append_nil_l, append_nil_r. Qed.

Lemma str_in_append_r (c t : string) : str_in c (t +:+ c) = true.
Proof. apply str_in_spec. exists t, "". by rewrite append_nil_r. Qed.

Lemma str_in_empty (t : string) : str_in "" t = true.
Proof. destruct t; reflexivity. Qed.

Lemma truthy_true (s : string) : truthy s = true <-> s <> "".
Proof. unfold truthy. case_bool_decide; split; intros; done. Qed.

Lemma truthy_false (s : string) : truthy s = false <-> s = "".
Proof. unfold truthy. case_bool_decide; split; intros; done. Qed.

Lemma truthy_append (s t : string) : truthy s = true -> truthy (s +:+ t) = true.
Proof. rewrite !truthy_true. destruct s; [done | discriminate]. Qed.

Lemma set_text_id (self : nacaddr) : set_text self (text self) = self.
Proof. by destruct self. Qed.

(** ** The comment-append operation *)

Lemma AddComment_append (self : nacaddr) (c : string) :
  text self <> "" -> c <> "" -> str_in c (text self) = false ->
  AddComment self c = set_text self (text self +:+ (", " +:+ c)).
Proof.
  intros Ht Hc Hin. unfold AddComment.
  apply truthy_true in Ht, Hc. by rewrite Ht, Hc, Hin.
Qed.

Lemma AddComment_keep (self : nacaddr) (c : string) :
  text self <> "" -> c = "" \/ str_in c (text self) = true ->
  AddComment self c = self.
Proof.
  intros Ht Hc. unfold AddComment.
  apply truthy_true in Ht. rewrite Ht.
  destruct Hc as [-> | ->]; [done | by rewrite andb_false_r].
Qed.

Lemma AddComment_set (self : nacaddr) (c : string) :
  text self = "" -> AddComment self c = set_text self c.
Proof. intros Ht. unfold AddComment. apply truthy_false in Ht. by rewrite Ht. Qed.

(** C10: [AddComment] is idempotent, and adding the empty comment leaves the
    object as it is. *)
Theorem AddComment_idempotent (self : nacaddr) (c : string) :
  AddComment (AddComment self c) c = AddComment self c /\
  AddComment self "" = self.
Proof.
  split.
  - destruct (decide (text self = "")) as [Ht|Ht].
    + rewrite (AddComment_set self c Ht).
      destruct (decide (c = "")) as [->|Hc].
      * by rewrite AddComment_set.
      * apply AddComment_keep; simpl; [done | right; apply str_in_refl].
    + destruct (decide (c = "")) as [->|Hc].
      * by rewrite !(AddComment_keep self "") by auto.
      * destruct (str_in c (text self)) eqn:Hin.
        -- by rewrite !(AddComment_keep self c) by auto.
        -- rewrite (AddComment_append self c Ht Hc Hin).
           apply AddComment_keep; simpl.
           ++ destruct (text self); [done | discriminate].
           ++ right. rewrite <- append_assoc. apply str_in_append_r.
  - destruct (decide (text self = "")) as [Ht|Ht].
    + rewrite AddComment_set by done. rewrite <- Ht. apply set_text_id.
    + apply AddComment_keep; auto.
Qed.

(** ** Supernet at prefix length 0 *)

Definition default_route (c : ipclass) : nacaddr := new_net c 0 0 "" "".

(** Against C8 as stated: at prefix length 0 the supernet operation does not
    raise. *)
Lemma supernet_zero_does_not_raise :
  ~ (forall p : nacaddr, prefixlen p = 0 ->
       Supernet p = Raise PrefixlenDiffInvalidError).
Proof. intros H. specialize (H (default_route IPv4) eq_refl). discriminate. Qed.

(** C8, amended: for every prefix whose prefix length is 0, [supernet]
    returns the prefix itself, for any [prefixlen_diff], and raises nothing;
    [PrefixlenDiffInvalidError] is raised exactly for a non-zero prefix length
    smaller than [prefixlen_diff]. *)
Theorem supernet_prefixlen_zero (self : nacaddr) (prefixlen_diff : Z) :
  (prefixlen self = 0 ->
     supernet self prefixlen_diff = Ok SameObject /\ Supernet self = Ok SameObject) /\
  (supernet self prefixlen_diff = Raise PrefixlenDiffInvalidError <->
     prefixlen self <> 0 /\ prefixlen self < prefixlen_diff).
Proof.
  unfold Supernet, supernet, ipaddress_supernet. split.
  - intros H. by rewrite !(bool_decide_eq_true_2 _ H).
  - repeat case_bool_decide; simpl; split; try done; try lia.
Qed.

Lemma supernet_prefixlen_zero_witness :
  supernet (default_route IPv6) 1 = Ok SameObject /\
  Supernet (default_route IPv6) = Ok SameObject.
Proof. apply (supernet_prefixlen_zero (default_route IPv6) 1). reflexivity. Defined.

(** ** The safety oracle *)

#[global] Arguments netmask : simpl never.
#[global] Arguments hostmask : simpl never.
#[global] Arguments broadcast_address : simpl never.
#[global] Arguments network_address : simpl never.
#[global] Arguments version : simpl never.
#[global] Arguments max_prefixlen : simpl never.

Lemma bind_Ok {A B : Type} (a : A) (f : A -> result B) : (Ok a ≫= f) = f a.
Proof. reflexivity. Qed.

Lemma bind_Raise {A B : Type} (e : exn) (f : A -> result B) :
  (Raise e ≫= f) = Raise e.
Proof. reflexivity. Qed.

Lemma bind_Ok_inv {A B : Type} (m : result A) (f : A -> result B) (b : B) :
  (m ≫= f) = Ok b -> exists a, m = Ok a /\ f a = Ok b.
Proof. destruct m as [a|e]; [eauto | discriminate]. Qed.

Ltac rsimpl := repeat (rewrite ?bind_Ok, ?bind_Raise; simpl).

Lemma address_lt_same (a b : IPAddress) :
  a.1 = b.1 -> address_lt a b = Ok (a.2 <? b.2).
Proof. intros H. unfold address_lt. by rewrite bool_decide_eq_true_2. Qed.

Lemma address_le_same (a b : IPAddress) :
  a.1 = b.1 -> address_le a b = Ok (a.2 <=? b.2).
Proof.
  intros H. unfold address_le. rewrite address_lt_same by done. rsimpl.
  f_equal. destruct a as [v x], b as [v' y]. simpl in *. subst v'.
  destruct (Z.ltb_spec x y), (Z.leb_spec x y); simpl; try lia; try done.
  - apply bool_decide_eq_true_2. f_equal. lia.
  - apply bool_decide_eq_false_2. intros [=]. lia.
Qed.

Lemma netmask_between_same_version (m c a : nacaddr) :
  version m = version c -> version c = version a ->
  netmask_between m c a =
    Ok (bool_decide ((netmask m).2 <= (netmask c).2 < (netmask a).2)).
Proof.
  intros Hmc Hca. unfold netmask_between.
  rewrite address_le_same by done. rsimpl.
  destruct (Z.leb_spec (netmask_int (cls m) (prefixlen m))
                       (netmask_int (cls c) (prefixlen c))).
  - rewrite address_lt_same by done. f_equal. simpl.
    destruct (Z.ltb_spec (netmask_int (cls c) (prefixlen c))
                         (netmask_int (cls a) (prefixlen a)));
      symmetry; [apply bool_decide_eq_true_2 | apply bool_decide_eq_false_2]; lia.
  - f_equal. symmetry. apply bool_decide_eq_false_2. lia.
Qed.

Lemma _SafeToMerge_loop_same_version (a m : nacaddr) (l : list nacaddr) :
  version m = version a ->
  Forall (fun c => version c = version a) l ->
  _SafeToMerge_loop a m l =
    Ok (negb (existsb
      (fun c => bool_decide ((netmask m).2 <= (netmask c).2 < (netmask a).2)) l)).
Proof.
  intros Hm. induction 1 as [|c l Hc Hl IH]; simpl; [done |].
  rewrite netmask_between_same_version by congruence. rsimpl.
  case_bool_decide; simpl; [done | apply IH].
Qed.

Lemma _SafeToMerge_empty (a m : nacaddr) : _SafeToMerge a m ∅ = Ok true.
Proof. unfold _SafeToMerge. by rewrite lookup_empty. Qed.

Definition ex_candidate : nacaddr := new_net IPv4 167772160 10 "" "".
Definition ex_target : nacaddr := new_net IPv4 167772160 8 "" "".
Definition ex_complement : nacaddr := new_net IPv4 167772160 9 "" "".

(** Within one IP version: with the candidate, the merge target and the
    complements of the candidate's address all of one version,
    [_SafeToMerge] returns, and it returns [False] exactly when some
    complement [c] at the candidate's network address has
    [m.netmask <= c.netmask < a.netmask]; with no entry at that address it
    returns [True]; for 10.0.0.0/10 into 10.0.0.0/8 against the complement
    10.0.0.0/9 it returns [False]. *)
Theorem SafeToMerge_one_version (a m : nacaddr) (C : gmap IPAddress (list nacaddr)) :
  (version m = version a ->
   Forall (fun c => version c = version a) (default [] (C !! network_address a)) ->
   (exists b, _SafeToMerge a m C = Ok b) /\
   (_SafeToMerge a m C = Ok false <->
    exists c, c ∈ default [] (C !! network_address a) /\
              (netmask m).2 <= (netmask c).2 < (netmask a).2)) /\
  (C !! network_address a = None -> _SafeToMerge a m C = Ok true) /\
  _SafeToMerge ex_candidate ex_target
    {[ network_address ex_candidate := [ex_complement] ]} = Ok false.
Proof.
  split; [| split].
  - intros Hm Hall. unfold _SafeToMerge.
    rewrite (_SafeToMerge_loop_same_version a m _ Hm Hall).
    split; [eauto |].
    split.
    + intros H. injection H as H. apply negb_false_iff, existsb_exists in H.
      destruct H as [c [Hin Hc]]. exists c. split.
      * by apply list_elem_of_In.
      * by apply bool_decide_eq_true in Hc.
    + intros [c [Hin Hc]]. f_equal. apply negb_false_iff, existsb_exists.
      exists c. split; [by apply list_elem_of_In | by apply bool_decide_eq_true].
  - intros Hnone. unfold _SafeToMerge. by rewrite Hnone.
  - unfold _SafeToMerge. rewrite lookup_singleton_eq. reflexivity.
Qed.

Lemma SafeToMerge_one_version_example :
  (exists b, _SafeToMerge ex_candidate ex_target
     {[ network_address ex_candidate := [ex_complement] ]} = Ok b) /\
  (_SafeToMerge ex_candidate ex_target
     {[ network_address ex_candidate := [ex_complement] ]} = Ok false <->
   exists c, c ∈ default [] ((({[ network_address ex_candidate := [ex_complement] ]})
                 : gmap IPAddress (list nacaddr)) !! network_address ex_candidate) /\
             (netmask ex_target).2 <= (netmask c).2 < (netmask ex_candidate).2).
Proof.
  apply (SafeToMerge_one_version ex_candidate ex_target
           {[ network_address ex_candidate := [ex_complement] ]}).
  - reflexivity.
  - rewrite lookup_singleton_eq. simpl. by repeat constructor.
Defined.

(** ** Masks as arithmetic *)

Lemma _ALL_ONES_ones (c : ipclass) : _ALL_ONES c = Z.ones (_max_prefixlen c).
Proof. unfold _ALL_ONES. rewrite Z.ones_equiv. lia. Qed.

Lemma _max_prefixlen_pos (c : ipclass) : 0 < _max_prefixlen c.
Proof. destruct c; simpl; lia. Qed.

Lemma lxor_cancel_l (a b : Z) : Z.lxor (Z.lxor a b) a = b.
Proof.
  rewrite (Z.lxor_comm a b), Z.lxor_assoc, Z.lxor_nilpotent. apply Z.lxor_0_r.
Qed.

Lemma hostmask_int_eq (c : ipclass) (len : Z) :
  0 <= len <= _max_prefixlen c ->
  hostmask_int c len = 2 ^ (_max_prefixlen c - len) - 1.
Proof.
  intros H. unfold hostmask_int, netmask_int.
  rewrite lxor_cancel_l, _ALL_ONES_ones, Z.shiftr_div_pow2 by lia.
  rewrite Z.ones_div_pow2 by lia. rewrite Z.ones_equiv. lia.
Qed.

Lemma netmask_int_eq (c : ipclass) (len : Z) :
  0 <= len <= _max_prefixlen c ->
  netmask_int c len = 2 ^ _max_prefixlen c - 2 ^ (_max_prefixlen c - len).
Proof.
  intros H. unfold netmask_int.
  rewrite _ALL_ONES_ones, Z.shiftr_div_pow2, Z.ones_div_pow2 by lia.
  set (w := _max_prefixlen c). set (h := w - len).
  assert (Hsum : Z.ones h + (2 ^ w - 2 ^ h) = Z.lxor (Z.ones h) (2 ^ w - 2 ^ h)).
  { apply Z.add_nocarry_lxor. rewrite Z.land_comm, Z.land_ones by lia.
    replace (2 ^ w - 2 ^ h) with ((2 ^ len - 1) * 2 ^ h).
    - apply Z.mod_mul. apply Z.pow_nonzero; lia.
    - replace w with (len + h) by lia. rewrite Z.pow_add_r by lia. lia. }
  replace (Z.ones w) with (Z.ones h + (2 ^ w - 2 ^ h)) by (rewrite !Z.ones_equiv; lia).
  rewrite Hsum. apply lxor_cancel_l.
Qed.

Lemma testbit_small (x w i : Z) : 0 <= x < 2 ^ w -> w <= i -> Z.testbit x i = false.
Proof.
  intros Hx Hi. destruct (decide (0 <= w)) as [Hw|Hw].
  - apply (proj1 (Z.bounded_iff_bits_nonneg w x Hw (proj1 Hx))); lia.
  - rewrite Z.pow_neg_r in Hx by lia. lia.
Qed.

Lemma land_shifted_ones (x k j : Z) :
  0 <= j -> 0 <= k -> 0 <= x < 2 ^ (j + k) ->
  Z.land x (2 ^ (j + k) - 2 ^ j) = x / 2 ^ j * 2 ^ j.
Proof.
  intros Hj Hk Hx.
  replace (2 ^ (j + k) - 2 ^ j) with (Z.shiftl (Z.ones k) j).
  2: { rewrite Z.shiftl_mul_pow2, Z.ones_equiv, Z.pow_add_r by lia. lia. }
  rewrite <- Z.shiftl_mul_pow2, <- Z.shiftr_div_pow2 by lia.
  apply Z.bits_inj'. intros i Hi.
  rewrite Z.land_spec, !Z.shiftl_spec by lia.
  destruct (decide (i < j)) as [Hlt|Hge].
  - rewrite (Z.testbit_neg_r _ (i - j)) by lia. rewrite (Z.testbit_neg_r _ (i - j)) by lia.
    apply andb_false_r.
  - rewrite Z.shiftr_spec by lia. replace (i - j + j) with i by lia.
    rewrite Z.testbit_ones_nonneg by lia.
    destruct (Z.ltb_spec (i - j) k); [apply andb_true_r |].
    rewrite andb_false_r. symmetry. apply (testbit_small x (j + k)); lia.
Qed.

(** ** Networks as intervals *)

Definition size (p : nacaddr) : Z := 2 ^ (max_prefixlen p - prefixlen p).
Definition lo (p : nacaddr) : Z := network p.
Definition hi (p : nacaddr) : Z := network p + size p - 1.

Lemma version_eq_cls (a b : nacaddr) : version a = version b <-> cls a = cls b.
Proof.
  unfold version. destruct (cls a), (cls b); simpl; split; intros; done.
Qed.

Lemma wf_size (p : nacaddr) :
  wf p ->
  0 < size p /\ network p mod size p = 0 /\ 0 <= lo p /\ lo p <= hi p /\
  hi p < 2 ^ max_prefixlen p.
Proof.
  intros (Hlen & Hnet & Hmod). unfold hi, lo, size in *.
  set (w := max_prefixlen p) in *. set (h := w - prefixlen p) in *.
  assert (Hs : 0 < 2 ^ h) by (apply Z.pow_pos_nonneg; lia).
  repeat split; try lia.
  assert (Hw : 2 ^ w = 2 ^ h * 2 ^ prefixlen p).
  { rewrite <- Z.pow_add_r by lia. f_equal. lia. }
  apply Z.div_exact in Hmod; [| lia].
  set (q := network p / 2 ^ h) in *.
  assert (q < 2 ^ prefixlen p) by nia.
  nia.
Qed.

Lemma broadcast_eq (p : nacaddr) : wf p -> (broadcast_address p).2 = hi p.
Proof.
  intros Hwf. destruct (wf_size p Hwf) as (Hs & Hmod & _).
  destruct Hwf as (Hlen & Hnet & _).
  unfold broadcast_address, hostmask, hi. simpl.
  rewrite hostmask_int_eq by done. fold (max_prefixlen p). fold (size p).
  rewrite <- Z.add_nocarry_lor; [lia |].
  replace (size p - 1) with (Z.ones (max_prefixlen p - prefixlen p))
    by (rewrite Z.ones_equiv; unfold size; lia).
  rewrite Z.land_ones by lia. apply Hmod.
Qed.

Lemma netmask_eq (p : nacaddr) :
  wf p -> (netmask p).2 = 2 ^ max_prefixlen p - size p.
Proof. intros (Hlen & _). unfold netmask. simpl. by rewrite netmask_int_eq. Qed.

Lemma land_netmask (p : nacaddr) (x : Z) :
  wf p -> 0 <= x < 2 ^ max_prefixlen p ->
  Z.land x (netmask p).2 = x / size p * size p.
Proof.
  intros Hwf Hx. rewrite netmask_eq by done. destruct Hwf as (Hlen & _).
  unfold size. set (h := max_prefixlen p - prefixlen p).
  replace (max_prefixlen p) with (h + prefixlen p) in * by lia.
  apply land_shifted_ones; lia.
Qed.

(** An address of the version of [p] in the range of that version. *)
Definition valid_address (x : IPAddress) : Prop :=
  exists c, x.1 = _version c /\ 0 <= x.2 < 2 ^ _max_prefixlen c.

Lemma _version_inj (c c' : ipclass) : _version c = _version c' -> c = c'.
Proof. destruct c, c'; simpl; intros; done. Qed.

Lemma contains_spec (p : nacaddr) (x : IPAddress) :
  wf p -> valid_address x ->
  contains p x = true <-> x.1 = version p /\ lo p <= x.2 <= hi p.
Proof.
  intros Hwf (c & Hv & Hx). unfold contains.
  rewrite andb_true_iff, !bool_decide_eq_true.
  split.
  - intros [Hver Hland]. split; [done |].
    assert (c = cls p) as -> by (apply _version_inj; unfold version in *; congruence).
    rewrite land_netmask in Hland by done.
    destruct (wf_size p Hwf) as (Hs & _). unfold lo, hi.
    pose proof (Z.mul_div_le x.2 (size p) Hs).
    pose proof (Z.mod_pos_bound x.2 (size p) Hs).
    pose proof (Z.div_mod x.2 (size p)). lia.
  - intros [Hver [Hlo Hhi]]. split; [done |].
    assert (c = cls p) as -> by (apply _version_inj; unfold version in *; congruence).
    rewrite land_netmask by done.
    destruct (wf_size p Hwf) as (Hs & Hmod & _). unfold lo, hi in *.
    apply Z.div_exact in Hmod; [| lia].
    set (q := network p / size p) in *.
    assert (x.2 / size p = q) as ->; [| lia].
    symmetry. apply (Z.div_unique _ _ q (x.2 - size p * q)); lia.
Qed.

Lemma _is_subnet_of_spec (a b : nacaddr) :
  wf a -> wf b ->
  _is_subnet_of a b = true <-> lo b <= lo a /\ hi a <= hi b.
Proof.
  intros Ha Hb. unfold _is_subnet_of.
  rewrite andb_true_iff, !bool_decide_eq_true, !broadcast_eq by done.
  reflexivity.
Qed.

Lemma subnet_of_spec (a b : nacaddr) :
  wf a -> wf b ->
  subnet_of a b = true <-> cls a = cls b /\ lo b <= lo a /\ hi a <= hi b.
Proof.
  intros Ha Hb. unfold subnet_of. case_bool_decide as Hv.
  - rewrite version_eq_cls in Hv. split; [done | intros [? _]; done].
  - rewrite version_eq_cls in Hv.
    rewrite _is_subnet_of_spec by done. tauto.
Qed.

Lemma supernet_of_spec (a b : nacaddr) :
  wf a -> wf b ->
  supernet_of a b = true <-> cls a = cls b /\ lo a <= lo b /\ hi b <= hi a.
Proof.
  intros Ha Hb. unfold supernet_of. case_bool_decide as Hv.
  - rewrite version_eq_cls in Hv. split; [done | intros [? _]; done].
  - rewrite version_eq_cls in Hv.
    rewrite _is_subnet_of_spec by done. tauto.
Qed.

(** Two networks of one class are nested or disjoint. *)
Lemma laminar_le (a b : nacaddr) :
  wf a -> wf b -> cls a = cls b -> prefixlen b <= prefixlen a ->
  (lo b <= lo a /\ hi a <= hi b) \/ hi a < lo b \/ hi b < lo a.
Proof.
  intros Ha Hb Hc Hlen.
  destruct (wf_size a Ha) as (Hsa & Hma & _).
  destruct (wf_size b Hb) as (Hsb & Hmb & _).
  destruct Ha as (Hla & _), Hb as (Hlb & _).
  unfold hi, lo, size in *. unfold max_prefixlen in *. rewrite Hc in *.
  set (w := _max_prefixlen (cls b)) in *.
  assert (Hpow : 2 ^ (w - prefixlen b) =
                 2 ^ (w - prefixlen a) * 2 ^ (prefixlen a - prefixlen b)).
  { rewrite <- Z.pow_add_r by lia. f_equal. lia. }
  assert (Hd : 0 < 2 ^ (prefixlen a - prefixlen b)) by (apply Z.pow_pos_nonneg; lia).
  apply Z.div_exact in Hma; [| lia]. apply Z.div_exact in Hmb; [| lia].
  set (i := network a / 2 ^ (w - prefixlen a)) in *.
  set (j := network b / 2 ^ (w - prefixlen b)) in *.
  set (A := 2 ^ (w - prefixlen a)) in *.
  set (D := 2 ^ (prefixlen a - prefixlen b)) in *.
  rewrite Hpow in *. clearbody i j A D. subst.
  destruct (Z.lt_ge_cases i (D * j)); [right; left; nia |].
  destruct (Z.lt_ge_cases i (D * (j + 1))); [left; nia | right; right; nia].
Qed.

Lemma laminar (a b : nacaddr) :
  wf a -> wf b -> cls a = cls b ->
  (lo b <= lo a /\ hi a <= hi b) \/ (lo a <= lo b /\ hi b <= hi a) \/
  hi a < lo b \/ hi b < lo a.
Proof.
  intros Ha Hb Hc. destruct (Z.le_ge_cases (prefixlen b) (prefixlen a)).
  - destruct (laminar_le a b) as [?|[?|?]]; auto.
  - destruct (laminar_le b a) as [?|[?|?]]; auto.
Qed.

Lemma netmask_inj (a b : nacaddr) :
  wf a -> wf b -> cls a = cls b ->
  (netmask a).2 = (netmask b).2 <-> prefixlen a = prefixlen b.
Proof.
  intros Ha Hb Hc. rewrite !netmask_eq by done.
  destruct Ha as (Hla & _), Hb as (Hlb & _).
  unfold size, max_prefixlen in *. rewrite Hc in *.
  split; [| by intros ->].
  intros H.
  assert (2 ^ (_max_prefixlen (cls b) - prefixlen a) =
          2 ^ (_max_prefixlen (cls b) - prefixlen b)) as Hp by lia.
  apply Z.pow_inj_r in Hp; lia.
Qed.

Lemma netmask_lt (a b : nacaddr) :
  wf a -> wf b -> cls a = cls b ->
  (netmask a).2 < (netmask b).2 <-> prefixlen a < prefixlen b.
Proof.
  intros Ha Hb Hc. rewrite !netmask_eq by done.
  destruct Ha as (Hla & _), Hb as (Hlb & _).
  unfold size, max_prefixlen in *. rewrite Hc in *.
  set (w := _max_prefixlen (cls b)) in *.
  split; intros H.
  - destruct (Z.lt_ge_cases (prefixlen a) (prefixlen b)); [done |].
    assert (2 ^ (w - prefixlen a) <= 2 ^ (w - prefixlen b))
      by (apply Z.pow_le_mono_r; lia). lia.
  - assert (2 ^ (w - prefixlen b) < 2 ^ (w - prefixlen a))
      by (apply Z.pow_lt_mono_r; lia). lia.
Qed.

Lemma size_eq_prefixlen (a b : nacaddr) :
  cls a = cls b -> prefixlen a = prefixlen b -> size a = size b.
Proof. intros Hc Hl. unfold size, max_prefixlen. by rewrite Hc, Hl. Qed.

Lemma net_eq_spec (a b : nacaddr) :
  wf a -> wf b ->
  net_eq a b = true <->
  cls a = cls b /\ network a = network b /\ prefixlen a = prefixlen b.
Proof.
  intros Ha Hb. unfold net_eq.
  rewrite !andb_true_iff, !bool_decide_eq_true, version_eq_cls.
  unfold network_address. split.
  - intros [[Hc Hn] Hm]. split; [done |]. split; [congruence |].
    by apply netmask_inj.
  - intros (Hc & Hn & Hl). split; [split; [done |] |].
    + f_equal; [by apply version_eq_cls | done].
    + by apply netmask_inj.
Qed.

Lemma wf_valid_lo (p : nacaddr) : wf p -> valid_address (network_address p).
Proof. intros (_ & Hn & _). exists (cls p). split; [done | apply Hn]. Qed.

Lemma wf_valid_hi (p : nacaddr) : wf p -> valid_address (broadcast_address p).
Proof.
  intros Hwf. exists (cls p). split; [done |]. rewrite broadcast_eq by done.
  destruct (wf_size p Hwf) as (? & ? & ? & ? & ?). fold (max_prefixlen p). lia.
Qed.

Lemma overlaps_spec (a b : nacaddr) :
  wf a -> wf b ->
  overlaps a b = true <-> cls a = cls b /\ lo a <= hi b /\ lo b <= hi a.
Proof.
  intros Ha Hb. unfold overlaps.
  rewrite !orb_true_iff.
  rewrite !contains_spec by auto using wf_valid_lo, wf_valid_hi.
  rewrite !broadcast_eq by done. unfold network_address. simpl.
  rewrite !version_eq_cls. fold (lo a) (lo b).
  destruct (wf_size a Ha) as (_ & _ & _ & Hla & _).
  destruct (wf_size b Hb) as (_ & _ & _ & Hlb & _).
  split.
  - intros [[[H|H]|H]|H]; destruct H as (Hc & H1 & H2); split; auto; lia.
  - intros (Hc & H1 & H2).
    destruct (laminar a b Ha Hb Hc) as [?|[?|[?|?]]]; try lia.
    + left. left. left. split; [done | lia].
    + left. right. split; [done | lia].
Qed.

(** ** The sibling merge *)

Lemma Supernet_wf (a : nacaddr) :
  wf a -> prefixlen a <> 0 ->
  exists p, Supernet a = Ok (NewObject p) /\
    cls p = cls a /\ prefixlen p = prefixlen a - 1 /\
    network p = network a / (2 * size a) * (2 * size a) /\
    text p = text a /\ token p = token a /\ parent_token p = token a.
Proof.
  intros Hwf Hlen. pose proof Hwf as (Hl & Hn & Hm).
  unfold Supernet, supernet, ipaddress_supernet.
  rewrite bool_decide_eq_false_2 by done.
  rewrite bool_decide_eq_false_2 by lia.
  rewrite bool_decide_eq_false_2 by lia. rsimpl.
  eexists. split; [reflexivity |]. simpl. repeat split; try done.
  change (netmask_int (cls a) (prefixlen a)) with (netmask a).2.
  rewrite netmask_eq by done. rewrite Z.shiftl_mul_pow2 by lia.
  unfold size. set (w := max_prefixlen a) in *. set (h := w - prefixlen a).
  replace ((2 ^ w - 2 ^ h) * 2 ^ 1) with (2 ^ ((h + 1) + prefixlen a) - 2 ^ (h + 1)).
  - rewrite land_shifted_ones.
    + replace (2 ^ (h + 1)) with (2 * 2 ^ h); [done |].
      rewrite Z.pow_add_r by lia. lia.
    + lia.
    + lia.
    + split; [lia |]. replace (h + 1 + prefixlen a) with (w + 1) by lia.
      rewrite Z.pow_add_r by lia. lia.
  - replace (h + 1 + prefixlen a) with (w + 1) by lia.
    rewrite !Z.pow_add_r by lia. lia.
Qed.

Lemma address_add_broadcast (a : nacaddr) :
  wf a ->
  address_add (cls a) (broadcast_address a) 1 =
    if bool_decide (hi a + 1 < 2 ^ max_prefixlen a) then Ok (version a, hi a + 1)
    else Raise AddressValueError.
Proof.
  intros Ha. unfold address_add. rewrite broadcast_eq by done.
  destruct (wf_size a Ha) as (Hsa & Hma & Hloa & Hlh & Hhi).
  unfold _ALL_ONES. fold (max_prefixlen a).
  repeat case_bool_decide; try done; lia.
Qed.

(** What a successful sibling test says about two well-formed networks:
    the supernet of [a] is a new object covering exactly [a] and [b]. *)
Lemma sibling_cond_true (a b : nacaddr) :
  wf a -> wf b -> sibling_cond a b = Ok true ->
  exists p, Supernet a = Ok (NewObject p) /\ wf p /\
    cls p = cls a /\ cls b = cls a /\ network p = network a /\
    prefixlen p = prefixlen a - 1 /\
    lo p = lo a /\ hi p = hi b /\ hi a + 1 = lo b /\
    text p = text a /\ token p = token a /\ parent_token p = token a.
Proof.
  intros Ha Hb. unfold sibling_cond.
  case_bool_decide as Hv; simpl; [| done].
  case_bool_decide as Hl; simpl; [| done].
  rewrite address_add_broadcast by done.
  case_bool_decide as Hrange; rsimpl; [| done].
  case_bool_decide as Hadj; simpl; [| done].
  rewrite version_eq_cls in Hv.
  unfold network_address in Hadj. injection Hadj as _ Hadj.
  destruct (wf_size a Ha) as (Hsa & Hma & Hloa & Hlh & Hhi).
  destruct (wf_size b Hb) as (Hsb & Hmb & Hlob & Hlhb & Hhib).
  assert (Hlen0 : prefixlen a <> 0).
  { intros H0. unfold hi, lo, size in *. rewrite H0, Z.sub_0_r in *. lia. }
  destruct (Supernet_wf a Ha Hlen0) as (p & -> & Hcp & Hlp & Hnp & Htx & Htk & Hpt).
  rsimpl. intros Heq. injection Heq as Heq. apply bool_decide_eq_true in Heq.
  unfold network_address in Heq. injection Heq as _ Heq.
  exists p.
  pose proof (size_eq_prefixlen a b Hv Hl) as Hsz.
  assert (Hmp : max_prefixlen p = max_prefixlen a)
    by (unfold max_prefixlen; by rewrite Hcp).
  assert (Hpow : 2 ^ (max_prefixlen a - (prefixlen a - 1)) = 2 * size a).
  { unfold size. destruct Ha as (? & _).
    replace (max_prefixlen a - (prefixlen a - 1))
      with (max_prefixlen a - prefixlen a + 1) by lia.
    rewrite Z.pow_add_r by lia. lia. }
  assert (Hsp : size p = 2 * size a) by (unfold size; by rewrite Hmp, Hlp).
  assert (Hmod2 : network a mod (2 * size a) = 0).
  { rewrite <- Heq, Hnp. apply Z.mod_mul. lia. }
  assert (Hwfp : wf p).
  { unfold wf. rewrite Hmp, Hlp, Heq, Hpow.
    destruct Ha as (? & ? & _). split; [lia |]. split; done. }
  refine (conj eq_refl (conj Hwfp _)).
  repeat split; try done; unfold hi, lo in *; lia.
Qed.

(** The sibling test does not raise on networks in ascending order of which
    the first does not contain the second. *)
Lemma sibling_cond_no_raise (a b : nacaddr) :
  wf a -> wf b -> supernet_of a b = false ->
  (cls a = cls b -> network a <= network b) ->
  exists r, sibling_cond a b = Ok r.
Proof.
  intros Ha Hb Hsup Hord. unfold sibling_cond.
  case_bool_decide as Hv; simpl; [| eauto].
  case_bool_decide as Hl; simpl; [| eauto].
  rewrite version_eq_cls in Hv. specialize (Hord Hv).
  pose proof (size_eq_prefixlen a b Hv Hl) as Hsz.
  destruct (wf_size a Ha) as (Hsa & Hma & Hloa & Hlh & Hhi).
  destruct (wf_size b Hb) as (Hsb & Hmb & Hlob & Hlhb & Hhib).
  assert (Hdisj : hi a < lo b).
  { destruct (laminar a b Ha Hb Hv) as [H|[H|[H|H]]]; unfold hi, lo in *; try lia.
    all: exfalso; apply not_true_iff_false in Hsup; apply Hsup.
    all: apply supernet_of_spec;
      first [done | split; [done | unfold hi, lo in *; lia]]. }
  rewrite address_add_broadcast by done.
  rewrite bool_decide_eq_true_2; rsimpl.
  2: { unfold max_prefixlen in *. rewrite Hv. unfold lo in *. lia. }
  case_bool_decide; simpl; [| eauto].
  assert (Hlen0 : prefixlen a <> 0).
  { intros H0. unfold hi, lo, size in *. rewrite <- Hl, H0, Z.sub_0_r in *.
    unfold max_prefixlen in *. rewrite Hv in *. lia. }
  destruct (Supernet_wf a Ha Hlen0) as (p & -> & _). rsimpl. eauto.
Qed.

(** ** The linked list as a sequence *)

(** [linked nodes ch]: the cells reachable from the head are, in order, the
    indices [ch]; every other cell has been cut off. *)
Record linked (nodes : list _LinkedList) (ch : list nat) : Prop := {
  lk_nodup : NoDup ch;
  lk_bound : forall i, i ∈ ch -> (i < length nodes)%nat;
  lk_dead : forall i, i ∉ ch -> ll_next (nodes !!! i) = None;
  lk_next : forall k i, ch !! k = Some i -> ll_next (nodes !!! i) = ch !! S k;
  lk_prev : forall k i, ch !! S k = Some i -> ll_prev (nodes !!! i) = ch !! k;
  lk_head : forall i, ch !! 0%nat = Some i -> ll_prev (nodes !!! i) = None
}.

Lemma linked_next_Some (nodes : list _LinkedList) (ch : list nat) (cur nx : nat) :
  linked nodes ch -> ll_next (nodes !!! cur) = Some nx ->
  exists k, ch !! k = Some cur /\ ch !! S k = Some nx.
Proof.
  intros L Hn. destruct (decide (cur ∈ ch)) as [Hin|Hnin].
  - apply list_elem_of_lookup in Hin as [k Hk]. exists k. split; [done |].
    by rewrite <- (lk_next _ _ L k cur Hk).
  - rewrite (lk_dead _ _ L cur Hnin) in Hn. discriminate.
Qed.

Lemma RemoveNext_fields (nodes : list _LinkedList) (cur nx : nat) :
  ll_next (nodes !!! cur) = Some nx ->
  (cur < length nodes)%nat -> (nx < length nodes)%nat ->
  (forall nn, ll_next (nodes !!! nx) = Some nn -> (nn < length nodes)%nat) ->
  exists nodes', RemoveNext nodes cur = Ok nodes' /\
    length nodes' = length nodes /\
    (forall i, ll_val (nodes' !!! i) = ll_val (nodes !!! i)) /\
    (forall i, ll_next (nodes' !!! i) =
       if decide (i = cur) then ll_next (nodes !!! nx)
       else if decide (i = nx) then None else ll_next (nodes !!! i)) /\
    (forall i, ll_prev (nodes' !!! i) =
       if decide (ll_next (nodes !!! nx) = Some i) then Some cur
       else if decide (i = nx) then None else ll_prev (nodes !!! i)).
Proof.
  intros Hn Hc Hx Hnn. unfold RemoveNext. rewrite Hn.
  set (n1 := alter (fun c => set_next c None) nx nodes).
  set (n2 := alter (fun c => set_prev c None) nx n1).
  set (n3 := alter (fun c => set_next c (ll_next (nodes !!! nx))) cur n2).
  assert (Hl3 : length n3 = length nodes) by (unfold n3, n2, n1; by rewrite !length_alter).
  assert (F3 : forall i, n3 !!! i =
     if decide (i = cur) then
       set_next (if decide (i = nx) then set_prev (set_next (nodes !!! i) None) None
                 else nodes !!! i) (ll_next (nodes !!! nx))
     else if decide (i = nx) then set_prev (set_next (nodes !!! i) None) None
     else nodes !!! i).
  { intros i. unfold n3, n2, n1.
    rewrite !list_lookup_total_alter, !length_alter.
    repeat case_decide; subst; try done; try lia; naive_solver. }
  destruct (ll_next (nodes !!! nx)) as [nn|] eqn:Hnx.
  - eexists. split; [reflexivity |].
    rewrite length_alter. split; [done |].
    specialize (Hnn nn eq_refl).
    repeat split; intros i; rewrite list_lookup_total_alter, Hl3;
      repeat case_decide; rewrite !F3;
      repeat case_decide; subst; simpl; try done; try lia; try naive_solver.
  - exists n3. split; [done |]. split; [done |].
    repeat split; intros i; rewrite F3;
      repeat case_decide; subst; simpl; try done; try lia; try naive_solver.
Qed.

Lemma RemoveNext_linked (nodes : list _LinkedList) (ch : list nat) (k cur nx : nat) :
  linked nodes ch -> ch !! k = Some cur -> ch !! S k = Some nx ->
  exists nodes', RemoveNext nodes cur = Ok nodes' /\
    linked nodes' (delete (S k) ch) /\
    length nodes' = length nodes /\
    (forall i, ll_val (nodes' !!! i) = ll_val (nodes !!! i)) /\
    ll_prev (nodes' !!! cur) = ll_prev (nodes !!! cur).
Proof.
  intros L Hk HSk.
  pose proof (lk_next _ _ L k cur Hk) as Hn. rewrite HSk in Hn.
  pose proof (lk_next _ _ L (S k) nx HSk) as Hnn.
  assert (Hpos : forall j j' x, ch !! j = Some x -> ch !! j' = Some x -> j = j')
    by (intros j j' x; apply NoDup_lookup, L).
  assert (Hin : forall j x, ch !! j = Some x -> (x < length nodes)%nat).
  { intros j x Hj. apply (lk_bound _ _ L). apply list_elem_of_lookup. eauto. }
  destruct (RemoveNext_fields nodes cur nx Hn) as (nodes' & HR & Hlen & Hval & Hnext & Hprev).
  { eauto. } { eauto. } { intros nn H. rewrite Hnn in H. eauto. }
  exists nodes'. split; [done |]. split; [| split; [done | split; [done |]]].
  - split.
    + eapply sublist_NoDup; [apply L | apply sublist_delete].
    + intros i Hi. rewrite Hlen. apply (lk_bound _ _ L).
      by apply list_elem_of_delete_inv in Hi.
    + intros i Hi. rewrite Hnext.
      destruct (decide (i = cur)) as [->|Hic].
      { exfalso. apply Hi. apply list_elem_of_lookup. exists k.
        by rewrite list_lookup_delete_lt by lia. }
      destruct (decide (i = nx)) as [->|Hix]; [done |].
      apply (lk_dead _ _ L). intros Hin'. apply Hi.
      apply list_elem_of_lookup in Hin' as [j Hj].
      apply list_elem_of_lookup.
      destruct (decide (j < S k)%nat).
      * exists j. by rewrite list_lookup_delete_lt.
      * destruct j as [|j]; [lia |]. exists j.
        destruct (decide (j = k)) as [->|]; [congruence |].
        by rewrite list_lookup_delete_ge by lia.
    + intros j i Hj. rewrite Hnext.
      rewrite list_lookup_delete in Hj. case_decide as Hlt.
      * destruct (decide (i = cur)) as [->|Hic].
        { assert (j = k) as -> by eauto.
          rewrite list_lookup_delete_ge by lia. done. }
        destruct (decide (i = nx)) as [->|Hix].
        { assert (j = S k) by eauto. lia. }
        rewrite (lk_next _ _ L j i Hj).
        assert (j <> k) by (intros ->; congruence).
        by rewrite list_lookup_delete_lt by lia.
      * destruct (decide (i = cur)) as [->|Hic].
        { assert (S j = k) by eauto. lia. }
        destruct (decide (i = nx)) as [->|Hix].
        { assert (S j = S k) by eauto. lia. }
        rewrite (lk_next _ _ L (S j) i Hj).
        by rewrite list_lookup_delete_ge by lia.
    + intros j i Hj. rewrite Hprev, Hnn.
      rewrite list_lookup_delete in Hj. case_decide as Hlt.
      * case_decide as Hnn'.
        { assert (S (S k) = S j) by eauto. lia. }
        destruct (decide (i = nx)) as [->|Hix].
        { assert (S j = S k) by eauto. lia. }
        rewrite (lk_prev _ _ L j i Hj).
        by rewrite list_lookup_delete_lt by lia.
      * case_decide as Hnn'.
        { assert (S (S k) = S (S j)) by eauto.
          assert (j = k) as -> by lia.
          by rewrite list_lookup_delete_lt by lia. }
        destruct (decide (i = nx)) as [->|Hix].
        { assert (S (S j) = S k) by eauto. lia. }
        rewrite (lk_prev _ _ L (S j) i Hj).
        assert (j <> k) by (intros ->; congruence).
        by rewrite list_lookup_delete_ge by lia.
    + intros i Hi. rewrite Hprev, Hnn.
      rewrite list_lookup_delete_lt in Hi by lia.
      case_decide as Hnn'.
      { assert (S (S k) = 0%nat) by eauto. lia. }
      destruct (decide (i = nx)) as [->|Hix].
      { assert (0%nat = S k) by eauto. lia. }
      by apply (lk_head _ _ L).
  - rewrite Hprev, Hnn. case_decide as Hnn'.
    { assert (S (S k) = k) by eauto. lia. }
    destruct (decide (cur = nx)) as [->|Hix]; [| done].
    assert (k = S k) by eauto. lia.
Qed.

Lemma set_val_linked (nodes : list _LinkedList) (ch : list nat) (cur : nat) (r : ref) :
  linked nodes ch -> linked (alter (fun c => set_val c r) cur nodes) ch.
Proof.
  intros L.
  assert (F : forall i,
    ll_next (alter (fun c => set_val c r) cur nodes !!! i) = ll_next (nodes !!! i) /\
    ll_prev (alter (fun c => set_val c r) cur nodes !!! i) = ll_prev (nodes !!! i)).
  { intros i. rewrite list_lookup_total_alter. case_decide as H; [| done].
    destruct H as [-> _]. done. }
  split.
  - apply L.
  - intros i Hi. rewrite length_alter. by apply (lk_bound _ _ L).
  - intros i Hi. rewrite (proj1 (F i)). by apply (lk_dead _ _ L).
  - intros k i Hk. rewrite (proj1 (F i)). by apply (lk_next _ _ L).
  - intros k i Hk. rewrite (proj2 (F i)). by apply (lk_prev _ _ L).
  - intros i Hi. rewrite (proj2 (F i)). by apply (lk_head _ _ L).
Qed.

(** The list as built from the input: cell [i] points to [i+1] and back. *)
Definition straight (nodes : list _LinkedList) : Prop :=
  forall i, (i < length nodes)%nat ->
    ll_next (nodes !!! i) =
      (if decide (S i < length nodes)%nat then Some (S i) else None) /\
    ll_prev (nodes !!! i) = match i with O => None | S j => Some j end.

Lemma lookup_total_ge {A : Type} `{Inhabited A} (l : list A) (i : nat) :
  (length l <= i)%nat -> l !!! i = inhabitant.
Proof.
  intros Hi. rewrite list_lookup_total_alt. by rewrite lookup_ge_None_2.
Qed.

Lemma straight_linked (nodes : list _LinkedList) :
  straight nodes -> linked nodes (seq 0 (length nodes)).
Proof.
  intros S. split.
  - apply NoDup_seq.
  - intros i Hi. apply elem_of_seq in Hi. lia.
  - intros i Hi. rewrite lookup_total_ge; [done |].
    rewrite elem_of_seq in Hi. lia.
  - intros k i Hk. apply lookup_seq in Hk as [-> Hk]. simpl.
    rewrite (proj1 (S k Hk)). case_decide.
    + by rewrite lookup_seq_lt.
    + by rewrite lookup_seq_ge by lia.
  - intros k i Hk. apply lookup_seq in Hk as [-> Hk]. simpl.
    rewrite (proj2 (S (Datatypes.S k) Hk)). by rewrite lookup_seq_lt by lia.
  - intros i Hi. apply lookup_seq in Hi as [-> Hi]. simpl.
    apply (proj2 (S 0%nat Hi)).
Qed.

Lemma Add_straight (nodes : list _LinkedList) (v : ref) :
  straight nodes -> nodes <> [] ->
  straight (Add nodes (length nodes - 1) v).1 /\
  length (Add nodes (length nodes - 1) v).1 = S (length nodes) /\
  (Add nodes (length nodes - 1) v).2 = length nodes /\
  ll_val <$> (Add nodes (length nodes - 1) v).1 = (ll_val <$> nodes) ++ [v].
Proof.
  intros St Hne. unfold Add. simpl.
  assert (Hpos : (0 < length nodes)%nat) by (destruct nodes; [done | simpl; lia]).
  set (f := fun c => set_next c (Some (length nodes))).
  assert (Hlen : length (alter f (length nodes - 1)%nat nodes ++
                         [mkNode None (Some (length nodes - 1)%nat) v]) = S (length nodes)).
  { rewrite length_app, length_alter. simpl. lia. }
  split; [| split; [done | split; [done |]]].
  - intros i Hi. rewrite Hlen in *.
    destruct (decide (i = length nodes)) as [->|Hne'].
    + rewrite lookup_total_app_r by (rewrite length_alter; lia).
      rewrite length_alter, Nat.sub_diag. simpl.
      case_decide; [lia |]. split; [done |].
      destruct (length nodes); [lia |]. f_equal. lia.
    + rewrite lookup_total_app_l by (rewrite length_alter; lia).
      destruct (St i) as [Hn Hp]; [lia |].
      destruct (decide (i = length nodes - 1)%nat) as [Hd|Hd].
      * subst i. rewrite list_lookup_total_alter_eq by lia.
        simpl. rewrite Hp. clear Hn.
        rewrite decide_True by lia. split; [f_equal; lia | done].
      * rewrite list_lookup_total_alter_ne by lia.
        rewrite Hn, Hp. clear Hn. split; [| done].
        repeat case_decide; try done; lia.
  - rewrite fmap_app. simpl. f_equal.
    apply list_eq. intros i. rewrite !list_lookup_fmap, list_lookup_alter.
    case_decide; [subst | done]. by destruct (nodes !! _).
Qed.

Lemma build_list_spec (rest : list ref) :
  forall nodes fringe,
    straight nodes -> nodes <> [] ->
    straight (build_list nodes fringe (length nodes - 1) rest).1 /\
    ll_val <$> (build_list nodes fringe (length nodes - 1) rest).1 =
      (ll_val <$> nodes) ++ rest /\
    (build_list nodes fringe (length nodes - 1) rest).2 =
      fringe ++ seq (length nodes) (length rest).
Proof.
  induction rest as [|addr rest IH]; intros nodes fringe St Hne; simpl.
  - by rewrite !app_nil_r.
  - destruct (Add_straight nodes addr St Hne) as (St' & Hlen & Hidx & Hval).
    destruct (Add nodes (length nodes - 1) addr) as [nodes' n] eqn:HA.
    simpl in *. subst n.
    assert (Hne' : nodes' <> []) by (intros ->; simpl in *; lia).
    specialize (IH nodes' (fringe ++ [length nodes]) St' Hne').
    replace (length nodes' - 1)%nat with (length nodes) in IH by lia.
    destruct IH as (IH1 & IH2 & IH3).
    unfold Add in HA. injection HA as HA. rewrite HA.
    split; [done |]. split.
    + rewrite IH2, Hval. by rewrite <- app_assoc.
    + rewrite IH3, Hlen. by rewrite <- app_assoc.
Qed.

Lemma package_linked (nodes : list _LinkedList) (ch : list nat) :
  linked nodes ch ->
  forall fuel k, (length ch - k < fuel)%nat ->
    package fuel nodes (ch !! k) =
      Ok ((fun i => ll_val (nodes !!! i)) <$> drop k ch).
Proof.
  intros L. induction fuel as [|fuel IH]; intros k Hf; [lia |].
  destruct (ch !! k) as [i|] eqn:Hk.
  - simpl. rewrite (lk_next _ _ L k i Hk).
    rewrite IH.
    + rsimpl. by rewrite (drop_S _ _ _ Hk).
    + apply lookup_lt_Some in Hk. lia.
  - simpl. apply lookup_ge_None in Hk. by rewrite drop_ge.
Qed.

(** ** The collapser as a machine on sequences *)

(** The state of the loop seen without pointers: the store, the cells still
    linked (index and value, in order) and the work queue. *)
Record astate := mkA {
  a_heap : heap;
  a_chain : list (nat * ref);
  a_fringe : list nat
}.

Definition prev_of (l1 : list (nat * ref)) : list nat :=
  match last l1 with
  | Some (p, _) => [p]
  | None => []
  end.

(** One turn of the loop without complements. *)
Inductive astep : astate -> astate -> Prop :=
| A_gone h ch cur fr :
    cur ∉ ch.*1 ->
    astep (mkA h ch (cur :: fr)) (mkA h ch fr)
| A_last h l1 cur rc fr :
    astep (mkA h (l1 ++ [(cur, rc)]) (cur :: fr)) (mkA h (l1 ++ [(cur, rc)]) fr)
| A_skip h l1 cur rc nx rn l2 fr :
    supernet_of (h !!! rc) (h !!! rn) = false ->
    sibling_cond (h !!! rc) (h !!! rn) = Ok false ->
    astep (mkA h (l1 ++ (cur, rc) :: (nx, rn) :: l2) (cur :: fr))
          (mkA h (l1 ++ (cur, rc) :: (nx, rn) :: l2) fr)
| A_contain h l1 cur rc nx rn l2 fr :
    supernet_of (h !!! rc) (h !!! rn) = true ->
    astep (mkA h (l1 ++ (cur, rc) :: (nx, rn) :: l2) (cur :: fr))
          (mkA (heap_AddComment h rc (text (h !!! rn)))
               (l1 ++ (cur, rc) :: l2) (cur :: fr))
| A_sibling h l1 cur rc nx rn l2 fr h' r' :
    supernet_of (h !!! rc) (h !!! rn) = false ->
    sibling_cond (h !!! rc) (h !!! rn) = Ok true ->
    heap_Supernet (heap_AddComment h rc (text (h !!! rn))) rc = Ok (h', r') ->
    astep (mkA h (l1 ++ (cur, rc) :: (nx, rn) :: l2) (cur :: fr))
          (mkA h' (l1 ++ (cur, r') :: l2) (cur :: fr ++ prev_of l1)).

Record rep (st : state) (a : astate) : Prop := {
  rep_heap : st_heap st = a_heap a;
  rep_fringe : st_fringe st = a_fringe a;
  rep_linked : linked (st_nodes st) (a_chain a).*1;
  rep_val : forall i r, (i, r) ∈ a_chain a -> ll_val (st_nodes st !!! i) = r
}.

(** The tests on a pair of neighbours do not raise. *)
Definition pair_ok (h : heap) (rc rn : ref) : Prop :=
  supernet_of (h !!! rc) (h !!! rn) = true \/
  sibling_cond (h !!! rc) (h !!! rn) = Ok false \/
  (sibling_cond (h !!! rc) (h !!! rn) = Ok true /\
   exists res, heap_Supernet (heap_AddComment h rc (text (h !!! rn))) rc = Ok res).

Lemma chain_split (ch : list (nat * ref)) (k cur nx : nat) :
  ch.*1 !! k = Some cur -> ch.*1 !! S k = Some nx ->
  exists l1 rc rn l2, ch = l1 ++ (cur, rc) :: (nx, rn) :: l2 /\ length l1 = k.
Proof.
  rewrite !list_lookup_fmap. intros Hk HSk.
  destruct (ch !! k) as [[c rc]|] eqn:Ek; [| done].
  destruct (ch !! S k) as [[n rn]|] eqn:ESk; [| done].
  simpl in *. simplify_eq.
  apply list_elem_of_split_length in Ek as (l1 & l' & -> & ->).
  rewrite lookup_app_r in ESk by lia.
  replace (S (length l1) - length l1)%nat with 1%nat in ESk by lia.
  destruct l' as [|x l2]; [done |]. simpl in ESk. simplify_eq.
  by exists l1, rc, rn, l2.
Qed.

Lemma chain_split_last (ch : list (nat * ref)) (k cur : nat) :
  ch.*1 !! k = Some cur -> ch.*1 !! S k = None ->
  exists l1 rc, ch = l1 ++ [(cur, rc)] /\ length l1 = k.
Proof.
  rewrite !list_lookup_fmap. intros Hk HSk.
  destruct (ch !! k) as [[c rc]|] eqn:Ek; [| done].
  simpl in *. simplify_eq.
  apply list_elem_of_split_length in Ek as (l1 & l' & -> & ->).
  destruct (_ !! S _) eqn:E in HSk; [done |].
  apply lookup_ge_None in E. rewrite length_app in E. simpl in E.
  destruct l'; [| simpl in E; lia]. by exists l1, rc.
Qed.

Lemma prev_of_lookup (l1 : list (nat * ref)) (x : nat * ref) (rest : list (nat * ref)) :
  match length l1 with
  | O => None
  | S k' => (l1 ++ x :: rest).*1 !! k'
  end = match prev_of l1 with [] => None | p :: _ => Some p end.
Proof.
  unfold prev_of. destruct (last l1) as [[p r]|] eqn:El.
  - apply last_Some in El as [l' ->].
    rewrite length_app. simpl. replace (length l' + 1)%nat with (S (length l')) by lia.
    rewrite <- app_assoc, fmap_app. simpl.
    by rewrite list_lookup_middle by (by rewrite length_fmap).
  - apply last_None in El. by subst.
Qed.

Lemma delete_chain_mid (l1 l2 : list (nat * ref)) (x y : nat * ref) :
  delete (S (length l1)) (l1 ++ x :: y :: l2).*1 = (l1 ++ x :: l2).*1.
Proof.
  rewrite <- list_fmap_delete. f_equal.
  induction l1 as [|z l1 IH]; simpl; [done |]. by rewrite IH.
Qed.

Lemma collapse_step_refines (st : state) (a : astate) (cur : nat) (fr : list nat) :
  rep st a -> a_fringe a = cur :: fr ->
  (forall l1 rc nx rn l2,
     a_chain a = l1 ++ (cur, rc) :: (nx, rn) :: l2 -> pair_ok (a_heap a) rc rn) ->
  exists st' a',
    collapse_step ∅ (st_heap st) (st_nodes st) cur fr = Ok st' /\
    astep a a' /\ rep st' a'.
Proof.
  intros R Hfr Hok. destruct a as [h ch fringe]. destruct st as [h_ nodes fringe_].
  destruct R as [Rh Rf RL RV]. simpl in *. subst.
  unfold collapse_step.
  destruct (ll_next (nodes !!! cur)) as [nx|] eqn:Hnext.
  - destruct (linked_next_Some _ _ _ _ RL Hnext) as (k & Hk & HSk).
    destruct (chain_split _ _ _ _ Hk HSk) as (l1 & rc & rn & l2 & -> & Hlen).
    assert (Hvc : ll_val (nodes !!! cur) = rc) by (apply RV; set_solver).
    assert (Hvn : ll_val (nodes !!! nx) = rn) by (apply RV; set_solver).
    rewrite Hvc, Hvn, _SafeToMerge_empty. rsimpl.
    destruct (RemoveNext_linked _ _ _ _ _ RL Hk HSk)
      as (nodes' & HR & L' & Hlen' & Hval' & Hprev').
    rewrite <- Hlen, delete_chain_mid in L'.
    assert (Hcur : (cur < length nodes)%nat).
    { apply (lk_bound _ _ RL). apply list_elem_of_lookup. eauto. }
    assert (Hsub : forall i r, (i, r) ∈ l1 ++ (cur, rc) :: l2 ->
                     (i, r) ∈ l1 ++ (cur, rc) :: (nx, rn) :: l2) by set_solver.
    destruct (supernet_of (h !!! rc) (h !!! rn)) eqn:Hsup.
    + rewrite HR. rsimpl. eexists _, _. split; [reflexivity |].
      split; [by apply A_contain |].
      split; simpl; try done.
      intros i r Hin. rewrite Hval'. by apply RV, Hsub.
    + destruct (Hok l1 rc nx rn l2 eq_refl) as [H|[H|[H [[h' r'] Hres]]]];
        [congruence | |].
      * rewrite H. rsimpl. eexists _, _. split; [reflexivity |].
        split; [by apply A_skip |]. by split.
      * rewrite H. rsimpl. rewrite HR. rsimpl. rewrite Hres. rsimpl.
        assert (Hp : ll_prev (alter (fun c => set_val c r') cur nodes' !!! cur) =
                     match prev_of l1 with [] => None | p :: _ => Some p end).
        { rewrite list_lookup_total_alter_eq by lia. simpl.
          rewrite Hprev', <- (prev_of_lookup l1 (cur, rc) ((nx, rn) :: l2)), Hlen.
          destruct k as [|k'].
          - by apply (lk_head _ _ RL).
          - by apply (lk_prev _ _ RL). }
        rewrite Hp.
        exists (mkState h' (alter (fun c => set_val c r') cur nodes')
                  (cur :: fr ++ prev_of l1)).
        exists (mkA h' (l1 ++ (cur, r') :: l2) (cur :: fr ++ prev_of l1)).
        split.
        { unfold prev_of. destruct (last l1) as [[p ?]|]; simpl; [done |].
          by rewrite app_nil_r. }
        split; [by eapply A_sibling |].
        split; simpl; try done.
        -- apply set_val_linked.
           replace ((l1 ++ (cur, r') :: l2).*1) with ((l1 ++ (cur, rc) :: l2).*1); [done |].
           by rewrite !fmap_app.
        -- intros i r Hin.
           destruct (decide (i = cur)) as [->|Hne].
           ++ rewrite list_lookup_total_alter_eq by lia. simpl.
              assert (NoDup (l1 ++ (cur, r') :: l2).*1) as ND.
              { replace ((l1 ++ (cur, r') :: l2).*1) with ((l1 ++ (cur, rc) :: l2).*1);
                  [apply L' | by rewrite !fmap_app]. }
              apply list_elem_of_lookup in Hin as [j Hj].
              assert ((l1 ++ (cur, r') :: l2) !! length l1 = Some (cur, r')) as Hm
                by (by apply list_lookup_middle).
              assert (j = length l1).
              { eapply NoDup_lookup; [apply ND | |].
                - rewrite list_lookup_fmap, Hj. done.
                - rewrite list_lookup_fmap, Hm. done. }
              subst j. congruence.
           ++ rewrite list_lookup_total_alter_ne by done. rewrite Hval'.
              apply RV. set_solver.
  - exists (mkState h nodes fr), (mkA h ch fr). split; [reflexivity |].
    destruct (decide (cur ∈ ch.*1)) as [Hin|Hnin].
    + apply list_elem_of_lookup in Hin as [k Hk].
      pose proof (lk_next _ _ RL k cur Hk) as Hn. rewrite Hnext in Hn.
      destruct (chain_split_last _ _ _ Hk (eq_sym Hn)) as (l1 & rc & -> & _).
      split; [apply A_last | by split].
    + split; [by apply A_gone | by split].
Qed.

(** ** Relations between neighbours *)

(** The part of an object that the tests of the collapser read. *)
Definition net_of (p : nacaddr) : ipclass * Z * Z := (cls p, network p, prefixlen p).

Lemma net_of_eq (a b : nacaddr) :
  net_of a = net_of b <-> cls a = cls b /\ network a = network b /\ prefixlen a = prefixlen b.
Proof. unfold net_of. split; [intros [=] | intros (-> & -> & ->)]; done. Qed.

Lemma net_of_wf (a b : nacaddr) : net_of a = net_of b -> wf a -> wf b.
Proof.
  rewrite net_of_eq. intros (Hc & Hn & Hl). unfold wf, max_prefixlen.
  by rewrite Hc, Hn, Hl.
Qed.

Lemma net_of_lo_hi (a b : nacaddr) :
  net_of a = net_of b -> lo a = lo b /\ hi a = hi b /\ version a = version b.
Proof.
  rewrite net_of_eq. intros (Hc & Hn & Hl).
  unfold lo, hi, size, max_prefixlen, version. by rewrite Hc, Hn, Hl.
Qed.

Lemma AddComment_net (p : nacaddr) (c : string) : net_of (AddComment p c) = net_of p.
Proof.
  unfold AddComment. destruct (truthy (text p)); [| done].
  by destruct (truthy c && negb (str_in c (text p))).
Qed.

Lemma AddComment_tokens (p : nacaddr) (c : string) :
  token (AddComment p c) = token p /\ parent_token (AddComment p c) = parent_token p.
Proof.
  unfold AddComment. destruct (truthy (text p)); [| done].
  by destruct (truthy c && negb (str_in c (text p))).
Qed.

Lemma supernet_of_net (a a' b b' : nacaddr) :
  net_of a = net_of a' -> net_of b = net_of b' ->
  supernet_of a b = supernet_of a' b'.
Proof.
  rewrite !net_of_eq. intros (Hc & Hn & Hl) (Hc' & Hn' & Hl').
  unfold supernet_of, _is_subnet_of, broadcast_address, hostmask, network_address, version.
  simpl. by rewrite Hc, Hn, Hl, Hc', Hn', Hl'.
Qed.

Lemma sibling_cond_net (a a' b b' : nacaddr) :
  net_of a = net_of a' -> net_of b = net_of b' ->
  sibling_cond a b = sibling_cond a' b'.
Proof.
  rewrite !net_of_eq. intros (Hc & Hn & Hl) (Hc' & Hn' & Hl').
  destruct a, a', b, b'. simpl in *. subst.
  unfold sibling_cond, Supernet, supernet, ipaddress_supernet, address_add,
    broadcast_address, hostmask, netmask, network_address, version.
  simpl.
  repeat (case_bool_decide; simpl; try done).
Qed.

Definition separated (a b : nacaddr) : Prop :=
  version a < version b \/ (version a = version b /\ hi a < lo b).

Definition keyle (a b : nacaddr) : Prop :=
  version a < version b \/
  (version a = version b /\
   (network a < network b \/ (network a = network b /\ prefixlen a <= prefixlen b))).

Definition nomerge (a b : nacaddr) : Prop :=
  supernet_of a b = false /\ sibling_cond a b = Ok false.

Lemma separated_net (a a' b b' : nacaddr) :
  net_of a = net_of a' -> net_of b = net_of b' -> separated a b -> separated a' b'.
Proof.
  intros Ha Hb. destruct (net_of_lo_hi _ _ Ha) as (? & ? & ?).
  destruct (net_of_lo_hi _ _ Hb) as (? & ? & ?). unfold separated. lia.
Qed.

Lemma keyle_net (a a' b b' : nacaddr) :
  net_of a = net_of a' -> net_of b = net_of b' -> keyle a b -> keyle a' b'.
Proof.
  intros Ha Hb. destruct (net_of_lo_hi _ _ Ha) as (? & ? & ?).
  destruct (net_of_lo_hi _ _ Hb) as (? & ? & ?).
  apply net_of_eq in Ha as (_ & ? & ?). apply net_of_eq in Hb as (_ & ? & ?).
  unfold keyle. lia.
Qed.

Lemma nomerge_net (a a' b b' : nacaddr) :
  net_of a = net_of a' -> net_of b = net_of b' -> nomerge a b -> nomerge a' b'.
Proof.
  intros Ha Hb [H1 H2]. split.
  - by rewrite <- (supernet_of_net a a' b b').
  - by rewrite <- (sibling_cond_net a a' b b').
Qed.

Lemma keyle_trans (a b c : nacaddr) : keyle a b -> keyle b c -> keyle a c.
Proof. unfold keyle. lia. Qed.

Lemma separated_keyle (a b : nacaddr) : wf a -> separated a b -> keyle a b.
Proof.
  intros Ha. destruct (wf_size a Ha) as (_ & _ & _ & Hl & _).
  unfold separated, keyle, lo, hi in *. lia.
Qed.

Lemma size_mono (a b : nacaddr) :
  wf a -> wf b -> cls a = cls b -> prefixlen a <= prefixlen b -> size b <= size a.
Proof.
  intros (Ha & _) (Hb & _) Hc Hl. unfold size, max_prefixlen in *. rewrite Hc in *.
  apply Z.pow_le_mono_r; lia.
Qed.

Lemma keyle_separated (a b : nacaddr) :
  wf a -> wf b -> keyle a b -> supernet_of a b = false -> separated a b.
Proof.
  intros Ha Hb [Hv | [Hv Hk]] Hsup; [by left |]. right. split; [done |].
  pose proof Hv as Hc. apply version_eq_cls in Hc.
  destruct (wf_size a Ha) as (_ & _ & _ & Hla & _).
  destruct (wf_size b Hb) as (_ & _ & _ & Hlb & _).
  assert (Hn : ~ (lo a <= lo b /\ hi b <= hi a)).
  { intros H. apply not_true_iff_false in Hsup. apply Hsup.
    apply supernet_of_spec; auto. }
  destruct (laminar a b Ha Hb Hc) as [H|[H|[H|H]]]; try done.
  - destruct Hk as [Hk | [Hk1 Hk2]]; unfold lo, hi in *; [lia |].
    pose proof (size_mono a b Ha Hb Hc Hk2). lia.
  - unfold lo, hi in *. lia.
Qed.

Lemma keyle_ord (a b : nacaddr) : keyle a b -> cls a = cls b -> network a <= network b.
Proof.
  intros [Hv | [_ Hk]] Hc; [| lia].
  apply version_eq_cls in Hc. lia.
Qed.

(** Neighbours in a sequence. *)
Definition adj {A : Type} (l : list A) (u v : A) : Prop :=
  exists l1 l2, l = l1 ++ u :: v :: l2.

Lemma adj_cons {A : Type} (z : A) (l : list A) (u v : A) :
  adj (z :: l) u v <-> (z = u /\ head l = Some v) \/ adj l u v.
Proof.
  split.
  - intros (l1 & l2 & H). destruct l1 as [|z' l1]; simpl in H; simplify_eq.
    + by left.
    + right. by exists l1, l2.
  - intros [[-> Hh] | (l1 & l2 & ->)].
    + destruct l as [|v' l]; simplify_eq/=. by exists [], l.
    + by exists (z :: l1), l2.
Qed.

Lemma adj_nil {A : Type} (u v : A) : ~ adj [] u v.
Proof. intros (l1 & l2 & H). by destruct l1. Qed.

Lemma head_app_cons {A : Type} (l1 l2 l2' : list A) (x : A) :
  head (l1 ++ x :: l2) = head (l1 ++ x :: l2').
Proof. by destruct l1. Qed.

Lemma adj_delete_inv {A : Type} (l1 l2 : list A) (x y u v : A) :
  adj (l1 ++ x :: l2) u v ->
  adj (l1 ++ x :: y :: l2) u v \/ (u = x /\ adj (l1 ++ x :: y :: l2) y v).
Proof.
  induction l1 as [|z l1 IH]; simpl; intros H; apply adj_cons in H as [[-> Hh] | H].
  - right. split; [done |]. apply adj_cons. right. apply adj_cons. by left.
  - left. apply adj_cons. right. apply adj_cons. by right.
  - left. apply adj_cons. left. split; [done |]. by rewrite (head_app_cons _ _ l2).
  - destruct (IH H) as [H' | [-> H']].
    + left. apply adj_cons. by right.
    + right. split; [done |]. apply adj_cons. by right.
Qed.

Lemma adj_elem_of {A : Type} (l : list A) (u v : A) : adj l u v -> u ∈ l /\ v ∈ l.
Proof. intros (l1 & l2 & ->). set_solver. Qed.

Lemma adj_replace_inv {A : Type} (l1 l2 : list A) (x x' y u v : A) :
  adj (l1 ++ x' :: l2) u v ->
  (adj (l1 ++ x :: y :: l2) u v /\ ((u ∈ l1 /\ v ∈ l1) \/ (u ∈ l2 /\ v ∈ l2))) \/
  (v = x' /\ adj (l1 ++ x :: y :: l2) u x /\ u ∈ l1) \/
  (u = x' /\ adj (l1 ++ x :: y :: l2) y v /\ v ∈ l2).
Proof.
  induction l1 as [|z l1 IH]; simpl; intros H; apply adj_cons in H as [[-> Hh] | H].
  - right. right. split; [done |]. split.
    + apply adj_cons. right. apply adj_cons. by left.
    + destruct l2; simplify_eq/=. set_solver.
  - left. split.
    + apply adj_cons. right. apply adj_cons. by right.
    + right. by apply adj_elem_of.
  - destruct l1 as [|w l1]; simplify_eq/=.
    + right. left. split; [done |]. split; [| set_solver].
      apply adj_cons. by left.
    + left. split; [| left; set_solver]. apply adj_cons. by left.
  - destruct (IH H) as [[H1 H2] | [(-> & H1 & H2) | (-> & H1 & H2)]].
    + left. split; [apply adj_cons; by right | set_solver].
    + right. left. split; [done |]. split; [apply adj_cons; by right | set_solver].
    + right. right. split; [done |]. split; [apply adj_cons; by right | done].
Qed.

(** ** The store under the collapser *)

Lemma wf_inhabitant : wf (inhabitant : nacaddr).
Proof. repeat split; by vm_compute. Qed.

Lemma wf_lookup_total (h : heap) (r : ref) : Forall wf h -> wf (h !!! r).
Proof.
  intros Hh. destruct (decide (r < length h)%nat) as [Hr|Hr].
  - apply (Forall_lookup_1 _ _ r _ Hh). by apply list_lookup_lookup_total_lt.
  - rewrite lookup_total_ge by lia. apply wf_inhabitant.
Qed.

Lemma heap_AddComment_length (h : heap) (r : ref) (c : string) :
  length (heap_AddComment h r c) = length h.
Proof. apply length_insert. Qed.

Lemma heap_AddComment_lookup (h : heap) (r r' : ref) (c : string) :
  heap_AddComment h r c !!! r' = h !!! r' \/
  (r' = r /\ heap_AddComment h r c !!! r' = AddComment (h !!! r) c).
Proof.
  unfold heap_AddComment. rewrite list_lookup_total_insert.
  case_decide as H; [right | by left]. by destruct H as [-> _].
Qed.

Lemma heap_AddComment_net (h : heap) (r r' : ref) (c : string) :
  net_of (heap_AddComment h r c !!! r') = net_of (h !!! r').
Proof.
  destruct (heap_AddComment_lookup h r r' c) as [-> | [-> ->]]; [done |].
  apply AddComment_net.
Qed.

Lemma heap_AddComment_wf (h : heap) (r : ref) (c : string) :
  Forall wf h -> Forall wf (heap_AddComment h r c).
Proof.
  intros Hh. apply Forall_insert; [done |].
  eapply net_of_wf; [symmetry; apply AddComment_net |]. by apply wf_lookup_total.
Qed.

Lemma heap_Supernet_sibling (h : heap) (rc : ref) (b : nacaddr) :
  wf (h !!! rc) -> wf b -> sibling_cond (h !!! rc) b = Ok true ->
  exists p, heap_Supernet h rc = Ok (h ++ [p], length h) /\ wf p /\
    version p = version (h !!! rc) /\ network p = network (h !!! rc) /\
    prefixlen p = prefixlen (h !!! rc) - 1 /\
    lo p = lo (h !!! rc) /\ hi p = hi b /\ hi (h !!! rc) + 1 = lo b /\
    text p = text (h !!! rc) /\ token p = token (h !!! rc) /\
    parent_token p = token (h !!! rc).
Proof.
  intros Ha Hb Hs.
  destruct (sibling_cond_true _ _ Ha Hb Hs)
    as (p & HS & Hwf & Hc & _ & Hn & Hl & Hlo & Hhi & Hadj & Ht & Htk & Hpt).
  exists p. unfold heap_Supernet. rewrite HS. rsimpl.
  split; [done |]. split; [done |]. split; [by apply version_eq_cls |].
  repeat (split; [done |]). done.
Qed.

(** ** Invariants of the machine *)

Definition nv (h : heap) (x : nat * ref) : nacaddr := h !!! x.2.

Record ainv (a : astate) : Prop := {
  ai_sorted : StronglySorted lt (a_chain a).*1;
  ai_head : (a_chain a).*1 !! 0%nat = Some 0%nat;
  ai_wf : Forall wf (a_heap a);
  ai_valid : forall x, x ∈ a_chain a -> (x.2 < length (a_heap a))%nat;
  ai_sep : exists incr tail,
    a_fringe a = incr ++ tail /\ StronglySorted lt incr /\
    forall u v, adj (a_chain a) u v ->
      separated (nv (a_heap a) u) (nv (a_heap a) v) \/
      (u.1 ∈ incr /\ keyle (nv (a_heap a) u) (nv (a_heap a) v));
  ai_fix : forall u v, adj (a_chain a) u v ->
    u.1 ∈ a_fringe a \/ nomerge (nv (a_heap a) u) (nv (a_heap a) v)
}.

Lemma sorted_chain_before (l1 rest : list (nat * ref)) (x u : nat * ref) :
  StronglySorted lt (l1 ++ x :: rest).*1 -> u ∈ l1 -> (u.1 < x.1)%nat.
Proof.
  rewrite fmap_app. intros HS Hu.
  apply (StronglySorted_app_1_elem_of _ _ _ u.1 x.1 HS); [| set_solver].
  by apply list_elem_of_fmap_2.
Qed.

Lemma sorted_chain_after (l1 rest : list (nat * ref)) (x u : nat * ref) :
  StronglySorted lt (l1 ++ x :: rest).*1 -> u ∈ rest -> (x.1 < u.1)%nat.
Proof.
  rewrite fmap_app. intros HS Hu.
  apply StronglySorted_app_1_r in HS. simpl in HS.
  apply StronglySorted_inv in HS as [_ HF].
  rewrite Forall_forall in HF. apply HF. by apply list_elem_of_fmap_2.
Qed.

Lemma sorted_NoDup (l : list nat) : StronglySorted lt l -> NoDup l.
Proof.
  induction 1 as [|x l HS IH HF]; constructor; [| done].
  intros Hin. rewrite Forall_forall in HF. specialize (HF x Hin). lia.
Qed.

Lemma adj_first_unique (l1 l2 : list (nat * ref)) (x y u v : nat * ref) :
  StronglySorted lt (l1 ++ x :: y :: l2).*1 ->
  adj (l1 ++ x :: y :: l2) u v -> u.1 = x.1 -> u = x /\ v = y.
Proof.
  intros HS (m1 & m2 & Heq) Hu.
  assert (ND : NoDup (l1 ++ x :: y :: l2).*1) by by apply sorted_NoDup.
  assert (length m1 = length l1) as Hlen.
  { eapply (NoDup_lookup _ _ _ u.1 ND).
    - rewrite Heq, list_lookup_fmap, list_lookup_middle by done. done.
    - rewrite Hu, list_lookup_fmap, list_lookup_middle by done. done. }
  apply app_inj_1 in Heq as [_ Heq]; [| done]. by simplify_eq.
Qed.

Lemma adj_last_none (l1 : list (nat * ref)) (x u v : nat * ref) :
  StronglySorted lt (l1 ++ [x]).*1 -> adj (l1 ++ [x]) u v -> u.1 <> x.1.
Proof.
  intros HS (m1 & m2 & Heq) Hu.
  assert (ND : NoDup (l1 ++ [x]).*1) by by apply sorted_NoDup.
  assert (length m1 = length l1) as Hlen.
  { eapply (NoDup_lookup _ _ _ u.1 ND).
    - rewrite Heq, list_lookup_fmap, list_lookup_middle by done. done.
    - rewrite Hu, list_lookup_fmap, list_lookup_middle by done. done. }
  apply app_inj_1 in Heq as [_ Heq]; [| done]. by simplify_eq.
Qed.

Lemma sep_normalise (a : astate) (cur : nat) (fr : list nat) :
  ainv a -> a_fringe a = cur :: fr ->
  exists incr tail,
    fr = incr ++ tail /\ StronglySorted lt (cur :: incr) /\
    forall u v, adj (a_chain a) u v ->
      separated (nv (a_heap a) u) (nv (a_heap a) v) \/
      (u.1 ∈ cur :: incr /\ keyle (nv (a_heap a) u) (nv (a_heap a) v)).
Proof.
  intros I Hfr. destruct (ai_sep _ I) as (incr & tail & Heq & HS & Hp).
  rewrite Hfr in Heq. destruct incr as [|c incr]; simpl in Heq.
  - exists [], fr. split; [done |]. split; [repeat constructor |].
    intros u v Huv. destruct (Hp u v Huv) as [?|[Hin _]]; [by left | set_solver].
  - simplify_eq. exists incr, tail. done.
Qed.

Lemma SS_delete_mid {A : Type} (R : relation A) (l1 l2 : list A) (x y : A) :
  StronglySorted R (l1 ++ x :: y :: l2) -> StronglySorted R (l1 ++ x :: l2).
Proof.
  rewrite !StronglySorted_app. intros (H1 & H2 & H3).
  split; [| split; [done |]].
  - intros a b Ha Hb. apply H1; [done | set_solver].
  - apply StronglySorted_inv in H3 as [H3 H4].
    apply StronglySorted_inv in H3 as [H3 _].
    apply Forall_cons in H4 as [_ H4]. by constructor.
Qed.

Lemma adj_before_last (l1 rest : list (nat * ref)) (x u : nat * ref) :
  StronglySorted lt (l1 ++ x :: rest).*1 -> adj (l1 ++ x :: rest) u x ->
  last l1 = Some u.
Proof.
  intros HS (m1 & m2 & Heq).
  assert (ND : NoDup (l1 ++ x :: rest).*1) by by apply sorted_NoDup.
  assert (length (m1 ++ [u]) = length l1) as Hlen.
  { apply (NoDup_lookup _ (length (m1 ++ [u])) (length l1) x.1 ND).
    - rewrite Heq, (cons_middle u m1 (x :: m2)), app_assoc, list_lookup_fmap.
      rewrite list_lookup_middle by done. done.
    - rewrite list_lookup_fmap, list_lookup_middle by done. done. }
  rewrite (cons_middle u m1 (x :: m2)), app_assoc in Heq.
  apply app_inj_1 in Heq as [-> _]; [| done]. apply last_snoc.
Qed.

Lemma sorted_cons_notin (cur u : nat) (incr : list nat) :
  StronglySorted lt (cur :: incr) -> (u < cur)%nat -> u ∉ cur :: incr.
Proof.
  intros HS Hu Hin. apply StronglySorted_inv in HS as [_ HF].
  rewrite Forall_forall in HF.
  apply elem_of_cons in Hin as [-> | Hin]; [lia |]. specialize (HF u Hin). lia.
Qed.

Lemma ainv_pop (h : heap) (ch : list (nat * ref)) (cur : nat) (fr : list nat) :
  ainv (mkA h ch (cur :: fr)) ->
  (forall u v, adj ch u v -> u.1 = cur ->
     separated (nv h u) (nv h v) /\ nomerge (nv h u) (nv h v)) ->
  ainv (mkA h ch fr).
Proof.
  intros I Hcur.
  destruct (sep_normalise _ cur fr I eq_refl) as (incr & tail & Hfr & HSi & Hsep).
  split; simpl; try apply I.
  - exists incr, tail. split; [done |]. split.
    + by apply StronglySorted_inv in HSi as [? _].
    + intros u v Huv. destruct (decide (u.1 = cur)) as [Hu|Hu].
      * left. by apply Hcur.
      * destruct (Hsep u v Huv) as [?|[Hin ?]]; [by left | right].
        split; [set_solver | done].
  - intros u v Huv. destruct (decide (u.1 = cur)) as [Hu|Hu].
    + right. by apply Hcur.
    + destruct (ai_fix _ I u v Huv) as [Hin|?]; [left | by right].
      simpl in Hin. set_solver.
Qed.

Lemma ainv_nv_wf (a : astate) (x : nat * ref) : ainv a -> wf (nv (a_heap a) x).
Proof. intros I. apply wf_lookup_total, I. Qed.

Lemma ainv_keyle (a : astate) (u v : nat * ref) :
  ainv a -> adj (a_chain a) u v -> keyle (nv (a_heap a) u) (nv (a_heap a) v).
Proof.
  intros I Huv. destruct (ai_sep _ I) as (incr & tail & _ & _ & Hp).
  destruct (Hp u v Huv) as [Hs | [_ Hk]]; [| done].
  apply separated_keyle; [by apply ainv_nv_wf | done].
Qed.

Lemma astep_ainv (a a' : astate) : ainv a -> astep a a' -> ainv a'.
Proof.
  intros I St.
  destruct St as [h ch cur fr Hnin | h l1 cur rc fr
                 | h l1 cur rc nx rn l2 fr Hsup Hsib
                 | h l1 cur rc nx rn l2 fr Hsup
                 | h l1 cur rc nx rn l2 fr h' r' Hsup Hsib HSn].
  - apply (ainv_pop _ _ cur); [done |]. intros u v Huv Hu. exfalso. apply Hnin.
    apply adj_elem_of in Huv as [Hin _]. rewrite <- Hu. by apply list_elem_of_fmap_2.
  - apply (ainv_pop _ _ cur); [done |]. intros u v Huv Hu. exfalso.
    by eapply (adj_last_none l1 (cur, rc) u v (ai_sorted _ I) Huv).
  - apply (ainv_pop _ _ cur); [done |]. intros u v Huv Hu.
    destruct (adj_first_unique l1 l2 (cur, rc) (nx, rn) u v (ai_sorted _ I) Huv Hu)
      as [-> ->].
    split; [| by split].
    apply keyle_separated; [apply (ainv_nv_wf _ _ I) | apply (ainv_nv_wf _ _ I) | | done].
    by apply (ainv_keyle _ _ _ I).
  - pose proof (ai_sorted _ I) as HS. simpl in HS.
    destruct (sep_normalise _ cur fr I eq_refl) as (incr & tail & Hfr & HSi & Hsep).
    simpl in *.
    set (h1 := heap_AddComment h rc (text (h !!! rn))).
    assert (Hnet : forall x, net_of (nv h x) = net_of (nv h1 x))
      by (intros; symmetry; apply heap_AddComment_net).
    assert (Hadj0 : adj (l1 ++ (cur, rc) :: (nx, rn) :: l2) (cur, rc) (nx, rn))
      by (by exists l1, l2).
    split; simpl.
    + rewrite !fmap_app, !fmap_cons in *. by eapply SS_delete_mid.
    + pose proof (ai_head _ I) as Hh. simpl in Hh. by destruct l1.
    + apply heap_AddComment_wf, I.
    + intros x Hx. unfold h1. rewrite heap_AddComment_length.
      apply (ai_valid _ I). simpl. set_solver.
    + exists (cur :: incr), tail. split; [by rewrite Hfr |]. split; [done |].
      intros u v Huv.
      apply (adj_delete_inv _ _ _ (nx, rn)) in Huv as [Huv | [-> Huv]].
      * destruct (Hsep u v Huv) as [Hs | [Hin Hk]].
        -- left. apply (separated_net _ _ _ _ (Hnet u) (Hnet v) Hs).
        -- right. split; [done |]. apply (keyle_net _ _ _ _ (Hnet u) (Hnet v) Hk).
      * right. split; [set_solver |].
        apply (keyle_net _ _ _ _ (Hnet (cur, rc)) (Hnet v)).
        eapply keyle_trans; [apply (ainv_keyle _ _ _ I Hadj0) | apply (ainv_keyle _ _ _ I Huv)].
    + intros u v Huv.
      apply (adj_delete_inv _ _ _ (nx, rn)) in Huv as [Huv | [-> Huv]].
      * destruct (ai_fix _ I u v Huv) as [Hin | Hn]; [by left | right].
        apply (nomerge_net _ _ _ _ (Hnet u) (Hnet v) Hn).
      * left. set_solver.
  - pose proof (ai_sorted _ I) as HS. simpl in HS.
    destruct (sep_normalise _ cur fr I eq_refl) as (incr & tail & Hfr & HSi & Hsep).
    simpl in *.
    set (h1 := heap_AddComment h rc (text (h !!! rn))) in *.
    assert (Hnet1 : forall r, net_of (h1 !!! r) = net_of (h !!! r))
      by (intros; apply heap_AddComment_net).
    assert (Hwf1 : Forall wf h1) by apply heap_AddComment_wf, I.
    assert (Hwfh : forall r, wf (h !!! r)) by (intros; apply wf_lookup_total, I).
    assert (Hsib1 : sibling_cond (h1 !!! rc) (h !!! rn) = Ok true).
    { by rewrite (sibling_cond_net _ (h !!! rc) _ (h !!! rn)). }
    destruct (heap_Supernet_sibling h1 rc (h !!! rn))
      as (p & HSp & Hwfp & Hvp & Hnp & Hlp & Hlop & Hhip & Hadjp & _);
      [by apply wf_lookup_total | done | done |].
    rewrite HSp in HSn. injection HSn as <- <-.
    assert (Hlen1 : length h1 = length h) by apply heap_AddComment_length.
    assert (Hold : forall x, x ∈ l1 ++ (cur, rc) :: (nx, rn) :: l2 ->
                     net_of (nv h x) = net_of (nv (h1 ++ [p]) x)).
    { intros x Hx. unfold nv.
      rewrite lookup_total_app_l by (rewrite Hlen1; apply (ai_valid _ I x Hx)).
      by rewrite Hnet1. }
    assert (Hnew : nv (h1 ++ [p]) (cur, length h1) = p).
    { unfold nv. simpl. rewrite lookup_total_app_r by lia.
      by rewrite Nat.sub_diag. }
    assert (Hadj0 : adj (l1 ++ (cur, rc) :: (nx, rn) :: l2) (cur, rc) (nx, rn))
      by (by exists l1, l2).
    destruct (net_of_lo_hi _ _ (Hnet1 rc)) as (Hlo1 & Hhi1 & Hv1).
    pose proof (proj1 (net_of_eq _ _) (Hnet1 rc)) as (_ & Hn1 & Hl1).
    assert (Hkp : keyle p (nv h (cur, rc))).
    { unfold keyle, nv. simpl. lia. }
    split; simpl.
    + rewrite !fmap_app, !fmap_cons in *. simpl in *. by eapply SS_delete_mid.
    + pose proof (ai_head _ I) as Hh. simpl in Hh. by destruct l1.
    + apply Forall_app. split; [done | by constructor].
    + intros x Hx. rewrite length_app. simpl.
      apply elem_of_app in Hx as [Hx | Hx].
      * pose proof (ai_valid _ I x) as Hv. simpl in Hv.
        specialize (Hv ltac:(set_solver)). lia.
      * apply elem_of_cons in Hx as [-> | Hx]; [simpl; lia |].
        pose proof (ai_valid _ I x) as Hv. simpl in Hv.
        specialize (Hv ltac:(set_solver)). lia.
    + exists (cur :: incr), (tail ++ prev_of l1). split.
      { rewrite Hfr. simpl. by rewrite app_assoc. }
      split; [done |]. intros u v Huv.
      apply (adj_replace_inv _ _ (cur, rc) _ (nx, rn)) in Huv
        as [[Huv Hin] | [(-> & Huv & Hin) | (-> & Huv & Hin)]].
      * assert (u ∈ l1 ++ (cur, rc) :: (nx, rn) :: l2 /\
                v ∈ l1 ++ (cur, rc) :: (nx, rn) :: l2) as [Hu Hv] by set_solver.
        destruct (Hsep u v Huv) as [Hs | [Hi Hk]].
        -- left. apply (separated_net _ _ _ _ (Hold u Hu) (Hold v Hv) Hs).
        -- right. split; [done |].
           apply (keyle_net _ _ _ _ (Hold u Hu) (Hold v Hv) Hk).
      * left. rewrite Hnew.
        assert (Hu : u ∈ l1 ++ (cur, rc) :: (nx, rn) :: l2) by set_solver.
        destruct (net_of_lo_hi _ _ (Hold u Hu)) as (Hlou & Hhiu & Hvu).
        pose proof (sorted_chain_before _ _ _ _ HS Hin) as Hlt. simpl in Hlt.
        destruct (Hsep u (cur, rc) Huv) as [Hs | [Hi _]].
        -- unfold separated, nv in *. simpl in *. lia.
        -- exfalso. by eapply sorted_cons_notin.
      * right. split; [set_solver |]. rewrite Hnew.
        assert (Hv : v ∈ l1 ++ (cur, rc) :: (nx, rn) :: l2) by set_solver.
        apply (keyle_net p p _ _ eq_refl (Hold v Hv)).
        eapply keyle_trans; [exact Hkp |].
        eapply keyle_trans; [apply (ainv_keyle _ _ _ I Hadj0) | apply (ainv_keyle _ _ _ I Huv)].
    + intros u v Huv.
      apply (adj_replace_inv _ _ (cur, rc) _ (nx, rn)) in Huv
        as [[Huv Hin] | [(-> & Huv & Hin) | (-> & Huv & Hin)]].
      * assert (u ∈ l1 ++ (cur, rc) :: (nx, rn) :: l2 /\
                v ∈ l1 ++ (cur, rc) :: (nx, rn) :: l2) as [Hu Hv] by set_solver.
        destruct (ai_fix _ I u v Huv) as [Hi | Hn].
        -- left. simpl in Hi. set_solver.
        -- right. apply (nomerge_net _ _ _ _ (Hold u Hu) (Hold v Hv) Hn).
      * left. pose proof (adj_before_last _ _ _ _ HS Huv) as Hl.
        unfold prev_of. rewrite Hl. destruct u. set_solver.
      * left. set_solver.
Qed.

Lemma ainv_pair_ok (a : astate) (l1 l2 : list (nat * ref)) (cur rc nx rn : nat) :
  ainv a -> a_chain a = l1 ++ (cur, rc) :: (nx, rn) :: l2 ->
  pair_ok (a_heap a) rc rn.
Proof.
  intros I Hch. unfold pair_ok.
  assert (Hadj : adj (a_chain a) (cur, rc) (nx, rn)) by (by exists l1, l2).
  pose proof (ainv_keyle _ _ _ I Hadj) as Hk. unfold nv in Hk. simpl in Hk.
  pose proof (wf_lookup_total _ rc (ai_wf _ I)) as Hwc.
  pose proof (wf_lookup_total _ rn (ai_wf _ I)) as Hwn.
  destruct (supernet_of (a_heap a !!! rc) (a_heap a !!! rn)) eqn:Hsup; [by left | right].
  destruct (sibling_cond_no_raise _ _ Hwc Hwn Hsup (keyle_ord _ _ Hk)) as [[|] Hs];
    [right | by left].
  split; [done |].
  set (h1 := heap_AddComment (a_heap a) rc (text (a_heap a !!! rn))).
  destruct (heap_Supernet_sibling h1 rc (a_heap a !!! rn)) as (p & -> & _).
  - apply wf_lookup_total, heap_AddComment_wf, I.
  - done.
  - rewrite (sibling_cond_net _ (a_heap a !!! rc) _ (a_heap a !!! rn)); [done | | done].
    apply heap_AddComment_net.
  - eauto.
Qed.

(** The loop ends: a turn that pushes also unlinks a cell. *)
Definition measure (a : astate) : nat :=
  (length (a_fringe a) + 2 * length (a_chain a))%nat.

Lemma prev_of_length (l1 : list (nat * ref)) : (length (prev_of l1) <= 1)%nat.
Proof. unfold prev_of. destruct (last l1) as [[? ?]|]; simpl; lia. Qed.

Lemma astep_measure (a a' : astate) :
  astep a a' ->
  (measure a' < measure a)%nat /\ (length (a_chain a') <= length (a_chain a))%nat.
Proof.
  destruct 1; unfold measure; simpl; rewrite ?length_app; simpl;
    rewrite ?length_app; simpl; try lia.
  pose proof (prev_of_length l1). lia.
Qed.

(** ** Matched addresses *)

Definition covered (h : heap) (l : list ref) (x : IPAddress) : Prop :=
  exists r, r ∈ l /\ contains (h !!! r) x = true.

Lemma contains_net (a b : nacaddr) (x : IPAddress) :
  net_of a = net_of b -> contains a x = contains b x.
Proof.
  rewrite net_of_eq. intros (Hc & Hn & Hl).
  unfold contains, netmask, version. by rewrite Hc, Hn, Hl.
Qed.

Lemma covered_perm (h : heap) (l l' : list ref) (x : IPAddress) :
  l ≡ₚ l' -> covered h l x <-> covered h l' x.
Proof.
  intros HP. unfold covered. split; intros (r & Hr & Hc); exists r; split; try done.
  - by rewrite <- HP.
  - by rewrite HP.
Qed.

Lemma astep_covered (a a' : astate) :
  ainv a -> astep a a' ->
  forall x, valid_address x ->
    covered (a_heap a') (a_chain a').*2 x <-> covered (a_heap a) (a_chain a).*2 x.
Proof.
  intros I St x Hx.
  destruct St as [h ch cur fr Hnin | h l1 cur rc fr
                 | h l1 cur rc nx rn l2 fr Hsup Hsib
                 | h l1 cur rc nx rn l2 fr Hsup
                 | h l1 cur rc nx rn l2 fr h' r' Hsup Hsib HSn]; simpl; try done.
  - set (h1 := heap_AddComment h rc (text (h !!! rn))).
    assert (Hc : forall r, contains (h1 !!! r) x = contains (h !!! r) x).
    { intros r. apply contains_net, heap_AddComment_net. }
    unfold covered. rewrite !fmap_app, !fmap_cons. simpl.
    split; intros (r & Hr & Hcr).
    + exists r. rewrite Hc in Hcr. split; [set_solver | done].
    + destruct (decide (r ∈ l1.*2 ++ rc :: l2.*2)) as [Hin|Hnin].
      * exists r. by rewrite Hc.
      * assert (r = rn) as -> by set_solver.
        exists rc. split; [set_solver |]. rewrite Hc.
        pose proof (wf_lookup_total _ rc (ai_wf _ I)) as Hwc.
        pose proof (wf_lookup_total _ rn (ai_wf _ I)) as Hwn. simpl in *.
        apply supernet_of_spec in Hsup as (Hcl & Hlo & Hhi); [| done | done].
        apply contains_spec in Hcr as [Hv Hr']; [| done | done].
        apply contains_spec; [done | done |].
        split; [| lia]. rewrite Hv. symmetry. by apply version_eq_cls.
  - set (h1 := heap_AddComment h rc (text (h !!! rn))) in *.
    assert (Hnet1 : forall r, net_of (h1 !!! r) = net_of (h !!! r))
      by (intros; apply heap_AddComment_net).
    assert (Hwfh : forall r, wf (h !!! r)) by (intros; apply wf_lookup_total, I).
    assert (Hsib1 : sibling_cond (h1 !!! rc) (h !!! rn) = Ok true).
    { by rewrite (sibling_cond_net _ (h !!! rc) _ (h !!! rn)). }
    destruct (heap_Supernet_sibling h1 rc (h !!! rn))
      as (p & HSp & Hwfp & Hvp & Hnp & Hlp & Hlop & Hhip & Hadjp & _);
      [by apply wf_lookup_total, heap_AddComment_wf, I | done | done |].
    rewrite HSp in HSn. injection HSn as <- <-.
    assert (Hlen1 : length h1 = length h) by apply heap_AddComment_length.
    destruct (net_of_lo_hi _ _ (Hnet1 rc)) as (Hlo1 & Hhi1 & Hv1).
    assert (Hc : forall y, y ∈ l1 ++ (cur, rc) :: (nx, rn) :: l2 ->
                   contains ((h1 ++ [p]) !!! y.2) x = contains (h !!! y.2) x).
    { intros y Hy. apply contains_net.
      rewrite lookup_total_app_l by (rewrite Hlen1; apply (ai_valid _ I y Hy)).
      apply Hnet1. }
    assert (Hp : (h1 ++ [p]) !!! length h1 = p).
    { rewrite lookup_total_app_r by lia. by rewrite Nat.sub_diag. }
    assert (Hvcn : version (h !!! rn) = version (h !!! rc)).
    { unfold sibling_cond in Hsib. case_bool_decide; [done | discriminate]. }
    assert (Hpx : contains p x = true <->
                  contains (h !!! rc) x = true \/ contains (h !!! rn) x = true).
    { rewrite !contains_spec by done.
      destruct (wf_size _ (Hwfh rc)) as (_ & _ & _ & ? & _).
      destruct (wf_size _ (Hwfh rn)) as (_ & _ & _ & ? & _). lia. }
    unfold covered. split; intros (r & Hr & Hcr).
    + apply list_elem_of_fmap in Hr as (y & -> & Hy).
      apply elem_of_app in Hy as [Hy | Hy].
      * exists y.2. rewrite Hc in Hcr by set_solver. split; [| done].
        apply list_elem_of_fmap_2. set_solver.
      * apply elem_of_cons in Hy as [-> | Hy].
        -- simpl in Hcr. rewrite Hp in Hcr. apply Hpx in Hcr as [Hcr | Hcr].
           ++ exists rc. split; [| done]. rewrite !fmap_app, !fmap_cons. set_solver.
           ++ exists rn. split; [| done]. rewrite !fmap_app, !fmap_cons. set_solver.
        -- exists y.2. rewrite Hc in Hcr by set_solver. split; [| done].
           apply list_elem_of_fmap_2. set_solver.
    + apply list_elem_of_fmap in Hr as (y & -> & Hy).
      assert (y ∈ l1 \/ y = (cur, rc) \/ y = (nx, rn) \/ y ∈ l2) as Hcases by set_solver.
      destruct Hcases as [Hy' | [-> | [-> | Hy']]].
      * exists y.2. rewrite Hc by done. split; [| done].
        apply list_elem_of_fmap_2. set_solver.
      * exists (length h1). rewrite Hp. split; [| apply Hpx; by left].
        rewrite !fmap_app, !fmap_cons. set_solver.
      * exists (length h1). rewrite Hp. split; [| apply Hpx; by right].
        rewrite !fmap_app, !fmap_cons. set_solver.
      * exists y.2. rewrite Hc by done. split; [| done].
        apply list_elem_of_fmap_2. set_solver.
Qed.

(** ** What a run may change in the store *)

(** Objects are never removed; of an existing object only the comment can
    change, and only by growing at its end. *)
Definition obj_frame (o o' : nacaddr) : Prop :=
  net_of o' = net_of o /\ token o' = token o /\ parent_token o' = parent_token o /\
  exists s, text o' = text o +:+ s.

Definition heap_frame (h h' : heap) : Prop :=
  (length h <= length h')%nat /\
  forall r, (r < length h)%nat -> obj_frame (h !!! r) (h' !!! r).

Lemma obj_frame_refl (o : nacaddr) : obj_frame o o.
Proof. repeat split. exists "". by rewrite append_nil_r. Qed.

Lemma obj_frame_trans (o1 o2 o3 : nacaddr) :
  obj_frame o1 o2 -> obj_frame o2 o3 -> obj_frame o1 o3.
Proof.
  intros (Hn & Ht & Hp & s & Hs) (Hn' & Ht' & Hp' & s' & Hs').
  split; [congruence |]. split; [congruence |]. split; [congruence |].
  exists (s +:+ s'). by rewrite Hs', Hs, append_assoc.
Qed.

Lemma AddComment_frame (o : nacaddr) (c : string) : obj_frame o (AddComment o c).
Proof.
  split; [apply AddComment_net |].
  destruct (AddComment_tokens o c) as [Ht Hp]. split; [done |]. split; [done |].
  unfold AddComment. destruct (truthy (text o)) eqn:Ho.
  - destruct (truthy c && negb (str_in c (text o))); simpl.
    + eauto.
    + exists "". by rewrite append_nil_r.
  - apply truthy_false in Ho. rewrite Ho. simpl. by exists c.
Qed.

Lemma heap_frame_refl (h : heap) : heap_frame h h.
Proof. split; [done |]. intros. apply obj_frame_refl. Qed.

Lemma heap_frame_trans (h1 h2 h3 : heap) :
  heap_frame h1 h2 -> heap_frame h2 h3 -> heap_frame h1 h3.
Proof.
  intros [Hl H] [Hl' H']. split; [lia |]. intros r Hr.
  eapply obj_frame_trans; [by apply H | apply H'; lia].
Qed.

Lemma heap_AddComment_frame (h : heap) (r : ref) (c : string) :
  heap_frame h (heap_AddComment h r c).
Proof.
  split; [by rewrite heap_AddComment_length |]. intros r' Hr'.
  destruct (heap_AddComment_lookup h r r' c) as [-> | [-> ->]].
  - apply obj_frame_refl.
  - apply AddComment_frame.
Qed.

Lemma heap_app_frame (h l : heap) : heap_frame h (h ++ l).
Proof.
  split; [rewrite length_app; lia |]. intros r Hr.
  rewrite lookup_total_app_l by done. apply obj_frame_refl.
Qed.

Lemma astep_frame (a a' : astate) :
  ainv a -> astep a a' -> heap_frame (a_heap a) (a_heap a').
Proof.
  intros I St.
  destruct St as [h ch cur fr Hnin | h l1 cur rc fr
                 | h l1 cur rc nx rn l2 fr Hsup Hsib
                 | h l1 cur rc nx rn l2 fr Hsup
                 | h l1 cur rc nx rn l2 fr h' r' Hsup Hsib HSn]; simpl;
    try apply heap_frame_refl.
  - apply heap_AddComment_frame.
  - set (h1 := heap_AddComment h rc (text (h !!! rn))) in *.
    destruct (heap_Supernet_sibling h1 rc (h !!! rn)) as (p & HSp & _).
    + apply wf_lookup_total, heap_AddComment_wf, I.
    + apply wf_lookup_total, I.
    + rewrite (sibling_cond_net _ (h !!! rc) _ (h !!! rn)); [done | | done].
      apply heap_AddComment_net.
    + rewrite HSp in HSn. injection HSn as <- <-.
      eapply heap_frame_trans; [apply heap_AddComment_frame | apply heap_app_frame].
Qed.

(** ** Running the loop *)

Lemma rtc_astep_ainv (a a' : astate) : ainv a -> rtc astep a a' -> ainv a'.
Proof. intros I R. induction R as [|a b c St R IH]; [done |]. eauto using astep_ainv. Qed.

Lemma rtc_astep_covered (a a' : astate) :
  ainv a -> rtc astep a a' ->
  forall x, valid_address x ->
    covered (a_heap a') (a_chain a').*2 x <-> covered (a_heap a) (a_chain a).*2 x.
Proof.
  intros I R x Hx. induction R as [|a b c St R IH]; [done |].
  rewrite IH by eauto using astep_ainv. by apply astep_covered.
Qed.

Lemma rtc_astep_frame (a a' : astate) :
  ainv a -> rtc astep a a' -> heap_frame (a_heap a) (a_heap a').
Proof.
  intros I R. induction R as [|a b c St R IH]; [apply heap_frame_refl |].
  eapply heap_frame_trans; [by apply astep_frame |]. eauto using astep_ainv.
Qed.

Lemma rtc_astep_length (a a' : astate) :
  rtc astep a a' -> (length (a_chain a') <= length (a_chain a))%nat.
Proof.
  induction 1 as [|a b c St R IH]; [done |].
  destruct (astep_measure _ _ St). lia.
Qed.

Lemma collapse_loop_run (fuel : nat) :
  forall st a, rep st a -> ainv a -> (measure a <= fuel)%nat ->
    exists st' a', collapse_loop fuel ∅ st = Ok st' /\ rep st' a' /\
      rtc astep a a' /\ a_fringe a' = [].
Proof.
  induction fuel as [|fuel IH]; intros st a R I Hm.
  - exists st, a. pose proof (rep_fringe _ _ R) as Hf.
    destruct (a_fringe a) as [|cur fr] eqn:Ha; [| unfold measure in Hm; rewrite Ha in Hm; simpl in Hm; lia].
    destruct st as [h nodes fringe]. simpl in *. subst.
    split; [done |]. split; [done |]. split; [apply rtc_refl | done].
  - pose proof (rep_fringe _ _ R) as Hf.
    destruct (a_fringe a) as [|cur fr] eqn:Ha.
    + exists st, a. destruct st as [h nodes fringe]. simpl in *. subst.
      split; [done |]. split; [done |]. split; [apply rtc_refl | done].
    + destruct (collapse_step_refines st a cur fr R Ha) as (st1 & a1 & Hs & HA & R1).
      { intros l1 rc nx rn l2 Hch. by eapply ainv_pair_ok. }
      destruct (astep_measure _ _ HA) as [Hm1 _].
      destruct (IH st1 a1 R1 (astep_ainv _ _ I HA)) as (st' & a' & Hl & R' & HR & Hf');
        [lia |].
      exists st', a'. split; [| split; [done | split; [| done]]].
      * destruct st as [h nodes fringe]. simpl in *. subst. rewrite Hs. by rsimpl.
      * by eapply rtc_l.
Qed.

(** ** Sorting *)

Section sorting_facts.
Context {A K : Type} (key : A -> K) (lt : K -> K -> bool).
Hypothesis lt_asym : forall a b, lt a b = true -> lt b a = false.

Definition le_key (x y : A) : Prop := lt (key y) (key x) = false.

Lemma sorted_insert_perm (x : A) (l : list A) :
  sorted_insert key lt x l ≡ₚ x :: l.
Proof.
  induction l as [|y l IH]; simpl; [done |].
  destruct (lt (key y) (key x)); [| done].
  rewrite IH. apply Permutation_swap.
Qed.

Lemma sorted_perm (l : list A) : sorted key lt l ≡ₚ l.
Proof.
  induction l as [|x l IH]; simpl; [done |].
  by rewrite sorted_insert_perm, IH.
Qed.

Lemma sorted_insert_HdRel (x y : A) (l : list A) :
  HdRel le_key y l -> le_key y x -> HdRel le_key y (sorted_insert key lt x l).
Proof.
  intros Hl Hx. destruct l as [|z l]; simpl; [by constructor |].
  destruct (lt (key z) (key x)); constructor; [| done].
  by inversion Hl.
Qed.

Lemma sorted_insert_Sorted (x : A) (l : list A) :
  Sorted le_key l -> Sorted le_key (sorted_insert key lt x l).
Proof.
  induction 1 as [|y l HS IH HR]; simpl; [by repeat constructor |].
  destruct (lt (key y) (key x)) eqn:Hlt.
  - constructor; [done |]. apply sorted_insert_HdRel; [done |].
    by apply lt_asym.
  - constructor; [by constructor |]. by constructor.
Qed.

Lemma sorted_Sorted (l : list A) : Sorted le_key (sorted key lt l).
Proof.
  induction l as [|x l IH]; simpl; [constructor |].
  by apply sorted_insert_Sorted.
Qed.

Lemma sorted_id (l : list A) : Sorted le_key l -> sorted key lt l = l.
Proof.
  induction 1 as [|x l HS IH HR]; [done |].
  change (sorted key lt (x :: l)) with (sorted_insert key lt x (sorted key lt l)).
  rewrite IH.
  destruct HR as [|y l' Hxy]; simpl; [done |].
  unfold le_key in Hxy. by rewrite Hxy.
Qed.
End sorting_facts.

Lemma Sorted_adj {A : Type} (R : relation A) (l : list A) (u v : A) :
  Sorted R l -> adj l u v -> R u v.
Proof.
  induction 1 as [|x l HS IH HR]; intros Huv.
  - by apply adj_nil in Huv.
  - apply adj_cons in Huv as [[-> Hh] | Huv]; [| by apply IH].
    destruct HR as [|y l' Hxy]; simplify_eq/=. done.
Qed.

Lemma adj_Sorted {A : Type} (R : relation A) (l : list A) :
  (forall u v, adj l u v -> R u v) -> Sorted R l.
Proof.
  induction l as [|x l IH]; intros H; constructor.
  - apply IH. intros u v Huv. apply H. apply adj_cons. by right.
  - destruct l as [|y l]; constructor. apply H. apply adj_cons. by left.
Qed.

Lemma adj_fmap {A B : Type} (f : A -> B) (l : list A) (u v : A) :
  adj l u v -> adj (f <$> l) (f u) (f v).
Proof. intros (l1 & l2 & ->). exists (f <$> l1), (f <$> l2). by rewrite fmap_app. Qed.

Lemma adj_fmap_inv {A B : Type} (f : A -> B) (l : list A) (a b : B) :
  adj (f <$> l) a b -> exists u v, adj l u v /\ f u = a /\ f v = b.
Proof.
  intros (m1 & m2 & H).
  apply fmap_app_inv in H as (l1 & l' & -> & H & ->).
  symmetry in H. apply fmap_cons_inv in H as (u & l'' & -> & H & ->).
  symmetry in H. apply fmap_cons_inv in H as (v & l2 & -> & -> & ->).
  exists u, v. split; [by exists l1, l2 | done].
Qed.

Lemma key_lt_asym (a b : Z * Z * Z) : key_lt a b = true -> key_lt b a = false.
Proof.
  destruct a as [[v1 a1] m1], b as [[v2 a2] m2]. unfold key_lt.
  repeat case_bool_decide; subst; try done; rewrite ?Z.ltb_lt, ?Z.ltb_ge; lia.
Qed.

Lemma key_le_keyle (a b : nacaddr) :
  wf a -> wf b ->
  key_lt (_get_networks_key b) (_get_networks_key a) = false <-> keyle a b.
Proof.
  intros Ha Hb. unfold _get_networks_key, key_lt, keyle.
  repeat case_bool_decide; rewrite ?Z.ltb_ge.
  - lia.
  - lia.
  - assert (Hc : cls a = cls b) by (by apply version_eq_cls).
    pose proof (netmask_lt b a Hb Ha (eq_sym Hc)). lia.
Qed.

(** The result of a collapse: neighbours are apart and do not merge. *)
Definition collapsed (h : heap) (out : list ref) : Prop :=
  forall r1 r2, adj out r1 r2 ->
    separated (h !!! r1) (h !!! r2) /\ nomerge (h !!! r1) (h !!! r2).

Definition valid_refs (h : heap) (l : list ref) : Prop :=
  Forall (fun r => (r < length h)%nat) l.

(** ** The collapser on a sorted list *)

Lemma init_rep_ainv (h : heap) (nodes : list _LinkedList) (addresses : list ref) :
  addresses <> [] ->
  straight nodes -> ll_val <$> nodes = addresses ->
  Forall wf h -> valid_refs h addresses ->
  Sorted (fun r1 r2 => keyle (h !!! r1) (h !!! r2)) addresses ->
  let a := mkA h (zip (seq 0 (length addresses)) addresses) (seq 0 (length addresses)) in
  rep (mkState h nodes (seq 0 (length addresses))) a /\ ainv a /\
  measure a = (3 * length addresses)%nat /\ (a_chain a).*2 = addresses.
Proof.
  intros Hne St Hval Hwf Hvalid Hsorted a.
  assert (Hlen : length nodes = length addresses) by (by rewrite <- Hval, length_fmap).
  assert (Hfst : (zip (seq 0 (length addresses)) addresses).*1 = seq 0 (length addresses))
    by (apply fst_zip; rewrite length_seq; lia).
  assert (Hsnd : (zip (seq 0 (length addresses)) addresses).*2 = addresses)
    by (apply snd_zip; rewrite length_seq; lia).
  assert (Hzip : forall x, x ∈ zip (seq 0 (length addresses)) addresses ->
                   addresses !! x.1 = Some x.2).
  { intros [i r] Hx. apply list_elem_of_lookup in Hx as [k Hk].
    apply lookup_zip_Some in Hk as [Hk1 Hk2].
    apply lookup_seq in Hk1 as [-> _]. done. }
  split; [| split; [| split; [| done]]].
  - split; simpl; [done | done | |].
    + rewrite Hfst, <- Hlen. by apply straight_linked.
    + intros i r Hin. apply Hzip in Hin. simpl in Hin.
      rewrite <- Hval, list_lookup_fmap in Hin.
      destruct (nodes !! i) as [n|] eqn:Hn; [| done]. simpl in Hin.
      rewrite (list_lookup_total_correct _ _ _ Hn). by simplify_eq.
  - split; simpl.
    + rewrite Hfst.
      apply Sorted_StronglySorted; [intros ???; lia |].
      apply adj_Sorted. intros u v (l1 & l2 & Heq).
      assert (seq 0 (length addresses) !! length l1 = Some u) as H1
        by (rewrite Heq; by apply list_lookup_middle).
      assert (seq 0 (length addresses) !! S (length l1) = Some v) as H2.
      { rewrite Heq, (cons_middle u l1 (v :: l2)), app_assoc.
        apply list_lookup_middle. rewrite length_app. simpl. lia. }
      apply lookup_seq in H1 as [-> _]. apply lookup_seq in H2 as [-> _]. lia.
    + rewrite Hfst. destruct addresses; [done |]. done.
    + done.
    + intros x Hx. apply Hzip in Hx.
      unfold valid_refs in Hvalid. rewrite Forall_lookup in Hvalid. eauto.
    + exists (seq 0 (length addresses)), []. split; [by rewrite app_nil_r |]. split.
      * apply Sorted_StronglySorted; [intros ???; lia |].
        apply adj_Sorted. intros u v (l1 & l2 & Heq).
        assert (seq 0 (length addresses) !! length l1 = Some u) as H1
          by (rewrite Heq; by apply list_lookup_middle).
        assert (seq 0 (length addresses) !! S (length l1) = Some v) as H2.
        { rewrite Heq, (cons_middle u l1 (v :: l2)), app_assoc.
          apply list_lookup_middle. rewrite length_app. simpl. lia. }
        apply lookup_seq in H1 as [-> _]. apply lookup_seq in H2 as [-> _]. lia.
      * intros u v Huv. right. split.
        -- rewrite <- Hfst. apply list_elem_of_fmap_2. by apply adj_elem_of in Huv as [? _].
        -- apply (adj_fmap snd) in Huv. rewrite Hsnd in Huv.
           apply (Sorted_adj _ _ _ _ Hsorted Huv).
    + intros u v Huv. left.
      rewrite <- Hfst. apply list_elem_of_fmap_2. by apply adj_elem_of in Huv as [? _].
  - unfold measure. simpl. rewrite length_seq, length_zip, length_seq. lia.
Qed.

Lemma _CollapseAddrListInternal_run (h : heap) (addresses : list ref) :
  Forall wf h -> valid_refs h addresses ->
  Sorted (fun r1 r2 => keyle (h !!! r1) (h !!! r2)) addresses ->
  exists h' out,
    _CollapseAddrListInternal h addresses ∅ = Ok (h', out) /\
    Forall wf h' /\ valid_refs h' out /\ heap_frame h h' /\
    (forall x, valid_address x -> covered h' out x <-> covered h addresses x) /\
    collapsed h' out /\ (length out <= length addresses)%nat /\
    (collapsed h addresses -> h' = h /\ out = addresses).
Proof.
  intros Hwf Hvalid Hsorted.
  destruct addresses as [|a0 rest] eqn:Haddr.
  - exists h, []. simpl. split; [done |]. split; [done |]. split; [done |].
    split; [apply heap_frame_refl |]. split; [done |]. split; [| done].
    intros r1 r2 H. by apply adj_nil in H.
  - rewrite <- Haddr in *.
    assert (Hne : addresses <> []) by (by rewrite Haddr).
    unfold _CollapseAddrListInternal. rewrite Haddr. cbv beta iota. rewrite <- Haddr.
    assert (St0 : straight [mkNode None None a0]).
    { intros i Hi. simpl in Hi. assert (i = 0%nat) as -> by lia. by split. }
    destruct (build_list_spec rest [mkNode None None a0] [0%nat] St0 ltac:(done))
      as (St & Hval & Hfr). simpl in St, Hval, Hfr.
    destruct (build_list [mkNode None None a0] [0%nat] 0 rest) as [nodes fringe].
    simpl in St, Hval, Hfr.
    assert (Hfr' : fringe = seq 0 (length addresses)) by (by rewrite Haddr, Hfr).
    rewrite <- Haddr in Hval.
    destruct (init_rep_ainv h nodes addresses Hne St Hval Hwf Hvalid Hsorted)
      as (R & I & Hm & Hsnd).
    set (a := mkA h (zip (seq 0 (length addresses)) addresses) (seq 0 (length addresses))) in *.
    rewrite <- Hfr' in R.
    destruct (collapse_loop_run (3 * length addresses) _ a R I) as (st' & a' & Hl & R' & HR & Hf');
      [lia |].
    rewrite Hl, bind_Ok.
    pose proof (rtc_astep_ainv _ _ I HR) as I'.
    pose proof (rtc_astep_length _ _ HR) as Hlen'.
    assert (Hlenz : length (a_chain a) = length addresses).
    { unfold a. simpl. rewrite length_zip, length_seq. lia. }
    pose proof (package_linked _ _ (rep_linked _ _ R') (S (length addresses)) 0%nat) as Hp.
    rewrite (ai_head _ I'), drop_0 in Hp. rewrite Hp by (rewrite length_fmap; lia).
    rewrite bind_Ok.
    assert (Hout : (fun i => ll_val (st_nodes st' !!! i)) <$> (a_chain a').*1 = (a_chain a').*2).
    { rewrite <- list_fmap_compose. apply list_fmap_ext.
      intros i [j r] Hx. simpl. apply (rep_val _ _ R').
      apply list_elem_of_lookup. eauto. }
    rewrite Hout, (rep_heap _ _ R').
    exists (a_heap a'), (a_chain a').*2. split; [done |].
    split; [apply I' |]. split.
    { apply Forall_forall. intros r Hr.
      apply list_elem_of_fmap in Hr as (x & -> & Hx). by apply (ai_valid _ I'). }
    split; [apply (rtc_astep_frame _ _ I HR) |]. split.
    { intros x Hx. rewrite (rtc_astep_covered _ _ I HR x Hx). by rewrite Hsnd. }
    split.
    { intros r1 r2 Hadj. apply adj_fmap_inv in Hadj as (u & v & Huv & <- & <-).
      split.
      - destruct (ai_sep _ I') as (incr & tail & Heq & _ & Hsep).
        rewrite Hf' in Heq. symmetry in Heq. apply app_eq_nil in Heq as [-> ->].
        destruct (Hsep u v Huv) as [? | [Hin _]]; [done | set_solver].
      - destruct (ai_fix _ I' u v Huv) as [Hin | ?]; [| done].
        rewrite Hf' in Hin. set_solver. }
    split; [rewrite length_fmap; lia |].
    intros Hcol.
    assert (Hstay : forall b, rtc astep a b ->
              a_heap b = h /\ a_chain b = a_chain a).
    { intros b Hb.
      apply (rtc_ind_r (R := astep)
               (fun b => a_heap b = h /\ a_chain b = a_chain a) a);
        [done | | done].
      clear b Hb. intros c d Hc St' [IHh IHc].
      assert (Hno : forall u v, adj (a_chain c) u v -> nomerge (nv (a_heap c) u) (nv (a_heap c) v)).
      { intros u v Huv. rewrite IHh, IHc in *. apply Hcol.
        rewrite <- Hsnd. by apply (adj_fmap snd). }
      destruct St' as [h0 ch cur fr Hnin | h0 l1 cur rc fr
                 | h0 l1 cur rc nx rn l2 fr Hsup Hsib
                 | h0 l1 cur rc nx rn l2 fr Hsup
                 | h0 l1 cur rc nx rn l2 fr h1 r1 Hsup Hsib HSn]; simpl in *; try done.
      - destruct (Hno (cur, rc) (nx, rn)) as [Hns _]; [by exists l1, l2 |].
        unfold nv in Hns. simpl in Hns. congruence.
      - destruct (Hno (cur, rc) (nx, rn)) as [_ Hns]; [by exists l1, l2 |].
        unfold nv in Hns. simpl in Hns. congruence. }
    destruct (Hstay a' HR) as [-> ->]. by rewrite Hsnd.
Qed.

(** ** [CollapseAddrList] without complements *)

Lemma valid_refs_perm (h : heap) (l l' : list ref) :
  l ≡ₚ l' -> valid_refs h l -> valid_refs h l'.
Proof. intros HP. unfold valid_refs. by rewrite HP. Qed.

Lemma sorted_keyle (h : heap) (l : list ref) :
  Forall wf h ->
  Sorted (fun r1 r2 => keyle (h !!! r1) (h !!! r2))
         (sorted (get_mixed_type_key h) key_lt l).
Proof.
  intros Hwf. apply adj_Sorted. intros u v Huv.
  apply key_le_keyle; [by apply wf_lookup_total | by apply wf_lookup_total |].
  apply (Sorted_adj _ _ _ _ (sorted_Sorted (get_mixed_type_key h) key_lt key_lt_asym l) Huv).
Qed.

Lemma collapsed_sorted_id (h : heap) (l : list ref) :
  Forall wf h -> collapsed h l -> sorted (get_mixed_type_key h) key_lt l = l.
Proof.
  intros Hwf Hcol. apply sorted_id. apply adj_Sorted. intros u v Huv.
  unfold le_key, get_mixed_type_key.
  apply key_le_keyle; [by apply wf_lookup_total | by apply wf_lookup_total |].
  apply separated_keyle; [by apply wf_lookup_total |]. by apply Hcol.
Qed.

Lemma CollapseAddrList_run (h : heap) (addresses : list ref) :
  Forall wf h -> valid_refs h addresses ->
  exists h' out,
    CollapseAddrList h addresses [] = Ok (h', out) /\
    Forall wf h' /\ valid_refs h' out /\ heap_frame h h' /\
    (forall x, valid_address x -> covered h' out x <-> covered h addresses x) /\
    collapsed h' out /\ (length out <= length addresses)%nat /\
    (collapsed h addresses -> h' = h /\ out = addresses).
Proof.
  intros Hwf Hvalid. unfold CollapseAddrList.
  change (complements_dict h addresses []) with (∅ : gmap IPAddress (list nacaddr)).
  pose proof (sorted_perm (get_mixed_type_key h) key_lt addresses) as HP.
  destruct (_CollapseAddrListInternal_run h (sorted (get_mixed_type_key h) key_lt addresses))
    as (h' & out & Hrun & Hwf' & Hv' & Hfr & Hcov & Hcol & Hlen & Hid).
  - done.
  - eapply valid_refs_perm; [symmetry; apply HP | done].
  - by apply sorted_keyle.
  - exists h', out. split; [done |]. split; [done |]. split; [done |].
    split; [done |]. split.
    { intros x Hx. rewrite (Hcov x Hx). by apply covered_perm. }
    split; [done |]. split.
    { by rewrite (Permutation_length HP) in Hlen. }
    intros Hc. rewrite (collapsed_sorted_id h addresses Hwf Hc) in Hid.
    by apply Hid.
Qed.

(** C2: collapsing changes the prefixes, never the set of matched
    addresses: an address is in some prefix of the result exactly when it is in
    some prefix of the input. *)
Theorem CollapseAddrList_same_addresses (h : heap) (S : list ref) :
  Forall wf h -> valid_refs h S ->
  exists h' out,
    CollapseAddrList h S [] = Ok (h', out) /\
    forall x, valid_address x -> covered h' out x <-> covered h S x.
Proof.
  intros Hwf Hv.
  destruct (CollapseAddrList_run h S Hwf Hv) as (h' & out & Hrun & _ & _ & _ & Hcov & _).
  eauto.
Qed.

(** C4: collapsing a collapsed list gives the same list back, prefix by
    prefix and comment by comment, and leaves the store as it is. *)
Theorem CollapseAddrList_idempotent (h : heap) (S : list ref) :
  Forall wf h -> valid_refs h S ->
  exists h' out,
    CollapseAddrList h S [] = Ok (h', out) /\
    CollapseAddrList h' out [] = Ok (h', out).
Proof.
  intros Hwf Hv.
  destruct (CollapseAddrList_run h S Hwf Hv)
    as (h' & out & Hrun & Hwf' & Hv' & _ & _ & Hcol & _).
  exists h', out. split; [done |].
  destruct (CollapseAddrList_run h' out Hwf' Hv')
    as (h2 & out2 & Hrun2 & _ & _ & _ & _ & _ & _ & Hid).
  destruct (Hid Hcol) as [-> ->]. done.
Qed.

(** ** Comments through a merge *)

Definition substring (c t : string) : Prop :=
  exists pre post, t = pre +:+ (c +:+ post).

(** The network [a.b.c.d/len], for examples. *)
Definition ip4 (a b c d len : Z) (comment tok : string) : nacaddr :=
  new_net IPv4 (((a * 256 + b) * 256 + c) * 256 + d) len comment tok.

Definition ex_a : nacaddr := ip4 1 1 0 0 24 "a" "".
Definition ex_b : nacaddr := ip4 1 1 1 0 24 "b" "".
Definition ex_a' : nacaddr := ip4 1 1 1 0 24 "a" "".

(** C6: on a non-empty text [AddComment] appends [", " + comment] exactly
    when the comment is non-empty and not a substring of the text, and leaves
    the text alone otherwise; on an empty text it sets the text to the comment.
    Collapsing 1.1.0.0/24 "a" with 1.1.1.0/24 "b" yields the single prefix
    1.1.0.0/23 with comment "a, b"; with both comments "a" the merged comment
    is "a". *)
Theorem AddComment_spec (self : nacaddr) (comment : string) :
  (text self <> "" -> comment <> "" -> ~ substring comment (text self) ->
     AddComment self comment = set_text self (text self +:+ (", " +:+ comment))) /\
  (text self <> "" -> comment = "" \/ substring comment (text self) ->
     AddComment self comment = self) /\
  (text self = "" -> AddComment self comment = set_text self comment) /\
  (exists h, CollapseAddrList [ex_a; ex_b] [0; 1]%nat [] = Ok (h, [2%nat]) /\
             h !!! 2%nat = ip4 1 1 0 0 23 "a, b" "") /\
  (exists h, CollapseAddrList [ex_a; ex_a'] [0; 1]%nat [] = Ok (h, [2%nat]) /\
             h !!! 2%nat = ip4 1 1 0 0 23 "a" "") /\
  text (AddComment ex_a "a") = "a".
Proof.
  split; [| split; [| split; [| split; [| split]]]].
  - intros Ht Hc Hn. apply AddComment_append; [done | done |].
    apply not_true_iff_false. intros H. apply Hn. by apply str_in_spec.
  - intros Ht [Hc | Hs]; apply AddComment_keep; auto.
    right. by apply str_in_spec.
  - apply AddComment_set.
  - eexists. split; [by vm_compute | by vm_compute].
  - eexists. split; [by vm_compute | by vm_compute].
  - by vm_compute.
Qed.

Lemma AddComment_spec_witness :
  AddComment ex_a "b" = set_text ex_a ("a" +:+ (", " +:+ "b")).
Proof.
  apply (AddComment_spec ex_a "b"); [done | done |].
  intros H. apply str_in_spec in H. by vm_compute in H.
Defined.

(** ** Cutting a network out of another *)

(** A network built without annotations. *)
Definition bare (p : nacaddr) : Prop :=
  text p = "" /\ token p = "" /\ parent_token p = "".

Lemma subnets_spec (p : nacaddr) :
  wf p -> prefixlen p < max_prefixlen p ->
  exists a b, subnets p = Ok (a, b) /\ wf a /\ wf b /\
    cls a = cls p /\ cls b = cls p /\
    prefixlen a = prefixlen p + 1 /\ prefixlen b = prefixlen p + 1 /\
    lo a = lo p /\ hi a + 1 = lo b /\ hi b = hi p /\ bare a /\ bare b.
Proof.
  intros Hwf Hlt. pose proof Hwf as (Hl & Hn & Hm).
  destruct (wf_size p Hwf) as (Hs & _ & _ & _ & Hhi).
  unfold subnets. rewrite bool_decide_eq_false_2 by lia.
  eexists _, _. split; [reflexivity |].
  unfold hostmask. simpl. rewrite hostmask_int_eq by done.
  fold (max_prefixlen p). set (w := max_prefixlen p) in *.
  set (h := w - prefixlen p) in *.
  replace (2 ^ h - 1 + 1) with (2 ^ h) by lia.
  rewrite Z.shiftr_div_pow2 by lia.
  assert (Hh : 2 ^ h = 2 * 2 ^ (h - 1)).
  { replace h with (1 + (h - 1)) at 1 by lia. rewrite Z.pow_add_r by lia. lia. }
  assert (Hp : 0 < 2 ^ (h - 1)) by (apply Z.pow_pos_nonneg; lia).
  replace (2 ^ h / 2 ^ 1) with (2 ^ (h - 1)).
  2: { rewrite Hh. change (2 ^ 1) with 2. by rewrite Z.mul_comm, Z.div_mul by lia. }
  assert (Hm' : network p mod 2 ^ (h - 1) = 0).
  { apply Z.div_exact in Hm; [| lia]. rewrite Hm, Hh.
    rewrite (Z.mul_comm 2), <- Z.mul_assoc, Z.mul_comm. apply Z.mod_mul. lia. }
  unfold hi, size in Hhi. fold w in Hhi. fold h in Hhi.
  assert (Hsz : forall q : nacaddr, cls q = cls p -> prefixlen q = prefixlen p + 1 ->
                  2 ^ (max_prefixlen q - prefixlen q) = 2 ^ (h - 1)).
  { intros q Hc Hq. unfold max_prefixlen. rewrite Hc, Hq. f_equal. unfold h, w, max_prefixlen. lia. }
  assert (Hwfq : forall q : nacaddr, cls q = cls p -> prefixlen q = prefixlen p + 1 ->
                   0 <= network q -> network q + 2 ^ (h - 1) <= 2 ^ w ->
                   network q mod 2 ^ (h - 1) = 0 -> wf q).
  { intros q Hc Hq H0 H1 H2. unfold wf. rewrite (Hsz q Hc Hq).
    unfold max_prefixlen. rewrite Hc, Hq. fold (max_prefixlen p). fold w. lia. }
  set (a := new_net (cls p) (network p) (prefixlen p + 1) "" "").
  set (b := new_net (cls p) (network p + 2 ^ (h - 1)) (prefixlen p + 1) "" "").
  assert (Hsa : size a = 2 ^ (h - 1)) by (unfold size; by apply Hsz).
  assert (Hsb : size b = 2 ^ (h - 1)) by (unfold size; by apply Hsz).
  assert (Hsp : size p = 2 ^ h) by done.
  split; [apply Hwfq; simpl; try done; lia |].
  split.
  { apply Hwfq; simpl; try done; try lia.
    rewrite <- Z.add_mod_idemp_l, Hm' by lia. simpl. apply Z.mod_same. lia. }
  split; [done |]. split; [done |]. split; [done |]. split; [done |].
  split; [done |].
  split; [unfold hi, lo; rewrite Hsa; simpl; lia |].
  split; [unfold hi; rewrite Hsb, Hsp; simpl; lia |].
  by repeat split.
Qed.

Definition disjoint (p q : nacaddr) : Prop := hi p < lo q \/ hi q < lo p.

(** A network yielded while cutting [other] out of the pair [s1], [s2]. *)
Definition piece (other s1 s2 p : nacaddr) : Prop :=
  wf p /\ cls p = cls other /\ bare p /\
  lo s1 <= lo p /\ hi p <= hi s2 /\ disjoint p other /\
  prefixlen s1 <= prefixlen p <= prefixlen other.

Lemma address_exclude_loop_eq (fuel : nat) (other s1 s2 : nacaddr) :
  address_exclude_loop fuel other s1 s2 =
  if negb (net_eq s1 other) && negb (net_eq s2 other) then
    match fuel with
    | O => Raise OutOfFuel
    | S fuel' =>
      if subnet_of other s1 then
        '(a, b) ← subnets s1;
        rest ← address_exclude_loop fuel' other a b;
        Ok (s2 :: rest)
      else if subnet_of other s2 then
        '(a, b) ← subnets s2;
        rest ← address_exclude_loop fuel' other a b;
        Ok (s1 :: rest)
      else Raise AssertionError
    end
  else if net_eq s1 other then Ok [s2]
  else if net_eq s2 other then Ok [s1]
  else Raise AssertionError.
Proof. by destruct fuel. Qed.

Lemma address_exclude_loop_spec (fuel : nat) :
  forall other s1 s2,
    wf other -> wf s1 -> wf s2 -> bare s1 -> bare s2 ->
    cls s1 = cls other -> cls s2 = cls other ->
    prefixlen s1 = prefixlen s2 -> hi s1 + 1 = lo s2 ->
    lo s1 <= lo other -> hi other <= hi s2 ->
    prefixlen s1 <= prefixlen other ->
    prefixlen other - prefixlen s1 <= Z.of_nat fuel ->
    exists xs, address_exclude_loop fuel other s1 s2 = Ok xs /\
      Forall (piece other s1 s2) xs /\
      (forall z, lo s1 <= z <= hi s2 ->
         lo other <= z <= hi other \/ Exists (fun p => lo p <= z <= hi p) xs) /\
      ForallOrdPairs disjoint xs /\
      Z.of_nat (length xs) = prefixlen other - prefixlen s1 + 1.
Proof.
  induction fuel as [|fuel IH];
    intros other s1 s2 Ho H1 H2 Hb1 Hb2 Hc1 Hc2 Hl Hadj Hlo Hhi Hle Hfuel.
  all: rewrite address_exclude_loop_eq.
  all: destruct (wf_size other Ho) as (Hso & _ & _ & Hloo & _).
  all: destruct (wf_size s1 H1) as (Hs1 & _ & _ & Hlo1 & _).
  all: destruct (wf_size s2 H2) as (Hs2 & _ & _ & Hlo2 & _).
  all: assert (Hsz12 : size s1 = size s2) by (apply size_eq_prefixlen; congruence).
  all: assert (Hcase : (lo s1 <= lo other /\ hi other <= hi s1) \/
                       (lo s2 <= lo other /\ hi other <= hi s2))
         by (destruct (laminar_le other s1 Ho H1 (eq_sym Hc1) Hle) as [?|[?|?]]; lia).
  all: assert (Heq1 : net_eq s1 other = true <->
                      (prefixlen other = prefixlen s1 /\ lo other = lo s1))
         by (rewrite net_eq_spec by done; unfold lo; intuition congruence).
  all: assert (Heq2 : net_eq s2 other = true <->
                      (prefixlen other = prefixlen s1 /\ lo other = lo s2))
         by (rewrite net_eq_spec by done; unfold lo; intuition congruence).
  all: assert (Hsame : prefixlen other = prefixlen s1 -> size other = size s1)
         by (intros; apply size_eq_prefixlen; congruence).
  all: assert (Hp1 : disjoint s1 other -> piece other s1 s2 s1)
         by (intros; refine (conj H1 (conj Hc1 (conj Hb1 _)));
             repeat split; try done; lia).
  all: assert (Hp2 : disjoint s2 other -> piece other s1 s2 s2)
         by (intros; refine (conj H2 (conj Hc2 (conj Hb2 _)));
             repeat split; try done; lia).
  all: destruct (net_eq s1 other) eqn:E1; simpl.
  1,3: destruct (proj1 Heq1 eq_refl) as [E1a E1']; specialize (Hsame E1a);
       exists [s2]; split; [done |];
       split; [constructor; [apply Hp2; unfold disjoint in *; unfold hi, lo in *; lia | constructor] |];
       split; [intros z Hz; destruct (decide (z <= hi s1));
               [left; unfold hi, lo in *; lia | right; constructor; lia] |];
       split; [repeat constructor | simpl; lia].
  all: destruct (net_eq s2 other) eqn:E2; simpl.
  1,3: destruct (proj1 Heq2 eq_refl) as [E2a E2']; specialize (Hsame E2a);
       exists [s1]; split; [done |];
       split; [constructor; [apply Hp1; unfold disjoint in *; unfold hi, lo in *; lia | constructor] |];
       split; [intros z Hz; destruct (decide (z <= hi s1));
               [right; constructor; lia | left; unfold hi, lo in *; lia] |];
       split; [repeat constructor | simpl; lia].
  all: assert (Hstrict : prefixlen s1 < prefixlen other)
         by (destruct (decide (prefixlen other = prefixlen s1)) as [He|]; [| lia];
             exfalso; specialize (Hsame He); unfold hi, lo in *;
             destruct Hcase; [assert (false = true) by (apply Heq1; lia)
                             | assert (false = true) by (apply Heq2; lia)];
             done).
  - lia.
  - pose proof Ho as (Hlen_o & _). unfold max_prefixlen in Hlen_o.
    assert (Hmax1 : prefixlen s1 < max_prefixlen s1)
      by (unfold max_prefixlen; rewrite Hc1; lia).
    assert (Hmax2 : prefixlen s2 < max_prefixlen s2)
      by (unfold max_prefixlen; rewrite Hc2; lia).
    destruct (subnet_of other s1) eqn:Hsub1.
    + apply subnet_of_spec in Hsub1 as (_ & Hsa & Hsb); [| done | done].
      destruct (subnets_spec s1 H1 Hmax1)
        as (a & b & -> & Ha & Hb & Hca & Hcb & Hla & Hlb & Hloa & Hab & Hhib & Hba & Hbb).
      rewrite bind_Ok.
      destruct (IH other a b) as (rest & -> & HF & Hcov & Hdis & Hlen);
        try done; try congruence; try lia.
      rewrite bind_Ok. exists (s2 :: rest).
      split; [done |]. split; [| split; [| split]].
      * constructor.
        -- apply Hp2. unfold disjoint. lia.
        -- eapply Forall_impl; [exact HF |]. unfold piece.
           intros p (Hw & Hcp & Hbp & ? & ? & ? & ?).
           refine (conj Hw (conj Hcp (conj Hbp _))). repeat split; try done; lia.
      * intros z Hz. destruct (decide (z <= hi s1)).
        -- destruct (Hcov z) as [?|Hex]; [lia | by left |].
           right. by apply Exists_cons_tl.
        -- right. apply Exists_cons_hd. lia.
      * constructor; [| done]. rewrite Forall_forall in HF.
        apply Forall_forall. intros p Hp. destruct (HF p Hp) as (_ & _ & _ & ? & ? & _).
        unfold disjoint. lia.
      * simpl length. lia.
    + destruct (subnet_of other s2) eqn:Hsub2.
      * apply subnet_of_spec in Hsub2 as (_ & Hsa & Hsb); [| done | done].
        destruct (subnets_spec s2 H2 Hmax2)
          as (a & b & -> & Ha & Hb & Hca & Hcb & Hla & Hlb & Hloa & Hab & Hhib & Hba & Hbb).
        rewrite bind_Ok.
        destruct (IH other a b) as (rest & -> & HF & Hcov & Hdis & Hlen);
          try done; try congruence; try lia.
        rewrite bind_Ok. exists (s1 :: rest).
        split; [done |]. split; [| split; [| split]].
        -- constructor.
           ++ apply Hp1. unfold disjoint. lia.
           ++ eapply Forall_impl; [exact HF |]. unfold piece.
              intros p (Hw & Hcp & Hbp & ? & ? & ? & ?).
           refine (conj Hw (conj Hcp (conj Hbp _))). repeat split; try done; lia.
        -- intros z Hz. destruct (decide (z <= hi s1)).
           ++ right. apply Exists_cons_hd. lia.
           ++ destruct (Hcov z) as [?|Hex]; [lia | by left |].
              right. by apply Exists_cons_tl.
        -- constructor; [| done]. rewrite Forall_forall in HF.
           apply Forall_forall. intros p Hp. destruct (HF p Hp) as (_ & _ & _ & ? & ? & _).
           unfold disjoint. lia.
        -- simpl length. lia.
      * exfalso. apply not_true_iff_false in Hsub1, Hsub2.
        destruct Hcase; [apply Hsub1 | apply Hsub2];
          apply subnet_of_spec; try done; split; try congruence; lia.
Qed.

Lemma contained_prefixlen (a b : nacaddr) :
  wf a -> wf b -> cls a = cls b -> lo b <= lo a -> hi a <= hi b ->
  prefixlen b <= prefixlen a.
Proof.
  intros Ha Hb Hc Hlo Hhi.
  destruct (Z.le_gt_cases (prefixlen b) (prefixlen a)) as [|Hgt]; [done |].
  exfalso. destruct Ha as (Hla & _), Hb as (Hlb & _).
  unfold hi, lo, size, max_prefixlen in *. rewrite Hc in *.
  assert (2 ^ (_max_prefixlen (cls b) - prefixlen b) <
          2 ^ (_max_prefixlen (cls b) - prefixlen a))
    by (apply Z.pow_lt_mono_r; lia).
  lia.
Qed.

Lemma contained_strict (a b : nacaddr) :
  wf a -> wf b -> cls a = cls b -> lo b <= lo a -> hi a <= hi b ->
  net_eq a b = false -> prefixlen b < prefixlen a.
Proof.
  intros Ha Hb Hc Hlo Hhi Hne.
  pose proof (contained_prefixlen a b Ha Hb Hc Hlo Hhi).
  destruct (decide (prefixlen a = prefixlen b)) as [He|]; [| lia].
  exfalso. apply not_true_iff_false in Hne. apply Hne.
  apply net_eq_spec; [done | done |]. split; [done |]. split; [| done].
  pose proof (size_eq_prefixlen a b Hc He). unfold hi, lo in *. lia.
Qed.

(** The networks left of [self] when [other], strictly inside it, is cut
    out. *)
Definition remainder (self other p : nacaddr) : Prop :=
  wf p /\ cls p = cls self /\ bare p /\
  lo self <= lo p /\ hi p <= hi self /\ disjoint p other.

Lemma address_exclude_spec (self other : nacaddr) :
  wf self -> wf other -> cls self = cls other ->
  lo self <= lo other -> hi other <= hi self -> net_eq other self = false ->
  exists xs, address_exclude self other = Ok xs /\
    Forall (remainder self other) xs /\
    (forall z, lo self <= z <= hi self ->
       lo other <= z <= hi other \/ Exists (fun p => lo p <= z <= hi p) xs) /\
    ForallOrdPairs disjoint xs /\
    0 < Z.of_nat (length xs) <= max_prefixlen self.
Proof.
  intros Hs Ho Hc Hlo Hhi Hne.
  pose proof (contained_strict other self Ho Hs (eq_sym Hc) Hlo Hhi Hne) as Hstrict.
  pose proof Ho as (Hlen_o & _). pose proof Hs as (Hlen_s & _).
  assert (Hmax : max_prefixlen other = max_prefixlen self)
    by (unfold max_prefixlen; by rewrite Hc).
  unfold address_exclude.
  rewrite bool_decide_eq_true_2 by (by apply version_eq_cls). simpl.
  assert (Hsub : subnet_of other self = true)
    by (apply subnet_of_spec; auto).
  rewrite Hsub, Hne. simpl.
  destruct (subnets_spec self Hs ltac:(lia))
    as (a & b & -> & Ha & Hb & Hca & Hcb & Hla & Hlb & Hloa & Hab & Hhib & Hba & Hbb).
  rewrite bind_Ok.
  destruct (address_exclude_loop_spec (Z.to_nat (max_prefixlen self)) other a b)
    as (xs & -> & HF & Hcov & Hdis & Hlen); try done; try congruence; try lia.
  exists xs. split; [done |]. split; [| split; [| split; [done | lia]]].
  - eapply Forall_impl; [exact HF |].
    intros p (Hw & Hcp & Hbp & ? & ? & ? & ?).
    refine (conj Hw (conj _ (conj Hbp _))); [congruence |].
    repeat split; try done; lia.
  - intros z Hz. apply Hcov. lia.
Qed.

Lemma alloc_all_spec (l : list nacaddr) :
  forall h, alloc_all h l = (h ++ l, seq (length h) (length l)).
Proof.
  induction l as [|o l IH]; intros h; simpl.
  - by rewrite app_nil_r.
  - rewrite IH. rewrite length_app. simpl.
    rewrite <- app_assoc. simpl. do 2 f_equal. f_equal. lia.
Qed.

Lemma FOP_lookup {A : Type} (R : A -> A -> Prop) (l : list A) (i j : nat) (x y : A) :
  ForallOrdPairs R l -> (i < j)%nat -> l !! i = Some x -> l !! j = Some y -> R x y.
Proof.
  intros H. revert i j. induction H as [|a l Ha H IH]; intros i j Hij Hi Hj; [done |].
  destruct j as [|j]; [lia |]. destruct i as [|i]; simpl in *.
  - simplify_eq. rewrite Forall_forall in Ha. apply Ha.
    apply list_elem_of_lookup. eauto.
  - apply (IH i j); [lia | done | done].
Qed.

(** ** Removing one network from one prefix *)

Lemma IP_bare (y : nacaddr) : bare y -> IP y = y.
Proof. destruct y. unfold bare, IP, new_net. simpl. by intros (-> & -> & ->). Qed.

Lemma sorted_networks_Ok (h : heap) (l : list ref) (c : ipclass) :
  Forall (fun r => cls (h !!! r) = c) l ->
  sorted_networks h l = Ok (sorted (get_mixed_type_key h) key_lt l).
Proof.
  intros Hc. unfold sorted_networks.
  assert (same_versions h l = true) as ->; [| done].
  destruct l as [|r l]; [done |]. simpl.
  apply Forall_cons in Hc as [Hr Hl].
  apply forallb_forall. intros r' Hin. apply bool_decide_eq_true.
  rewrite Forall_forall in Hl. apply version_eq_cls.
  rewrite Hr. apply Hl. by apply list_elem_of_In.
Qed.

Lemma RemoveAddressFromList_inside (h : heap) (s e : ref) :
  Forall wf h -> cls (h !!! s) = cls (h !!! e) ->
  lo (h !!! e) <= lo (h !!! s) -> hi (h !!! s) <= hi (h !!! e) ->
  RemoveAddressFromList h [s] e = Ok (h, []).
Proof.
  intros Hwf Hc Hlo Hhi. unfold RemoveAddressFromList. simpl.
  assert (subnet_of (h !!! s) (h !!! e) = true) as ->.
  { apply subnet_of_spec; auto using wf_lookup_total. }
  rewrite orb_true_r. by rewrite bind_Ok.
Qed.

Definition sepref (h : heap) (r1 r2 : ref) : Prop := separated (h !!! r1) (h !!! r2).

Lemma disjoint_not_supernet (a b : nacaddr) :
  wf a -> wf b -> disjoint a b -> supernet_of a b = false.
Proof.
  intros Ha Hb Hd. apply not_true_iff_false. intros H.
  apply supernet_of_spec in H as (_ & ? & ?); [| done | done].
  destruct (wf_size a Ha) as (_ & _ & _ & ? & _).
  destruct (wf_size b Hb) as (_ & _ & _ & ? & _).
  unfold disjoint in Hd. lia.
Qed.

Lemma RemoveAddressFromList_cut (h : heap) (s e : ref) :
  Forall wf h -> cls (h !!! s) = cls (h !!! e) ->
  lo (h !!! s) <= lo (h !!! e) -> hi (h !!! e) <= hi (h !!! s) ->
  net_eq (h !!! e) (h !!! s) = false ->
  exists xs out,
    RemoveAddressFromList h [s] e = Ok (h ++ xs, out) /\
    Forall (remainder (h !!! s) (h !!! e)) xs /\
    out ≡ₚ seq (length h) (length xs) /\
    Sorted (sepref (h ++ xs)) out /\
    (forall z, lo (h !!! s) <= z <= hi (h !!! s) ->
       lo (h !!! e) <= z <= hi (h !!! e) \/ Exists (fun p => lo p <= z <= hi p) xs) /\
    0 < Z.of_nat (length xs) <= max_prefixlen (h !!! s).
Proof.
  intros Hwf Hc Hlo Hhi Hne.
  pose proof (wf_lookup_total h s Hwf) as Hws.
  pose proof (wf_lookup_total h e Hwf) as Hwe.
  destruct (address_exclude_spec (h !!! s) (h !!! e) Hws Hwe Hc Hlo Hhi Hne)
    as (xs & Hae & HF & Hcov & Hdis & Hlen).
  pose proof (contained_strict _ _ Hwe Hws (eq_sym Hc) Hlo Hhi Hne) as Hstrict.
  unfold RemoveAddressFromList. simpl. rewrite Hne. simpl.
  assert (subnet_of (h !!! s) (h !!! e) = false) as ->.
  { apply not_true_iff_false. intros H.
    apply subnet_of_spec in H as (_ & ? & ?); [| done | done].
    pose proof (contained_prefixlen _ _ Hws Hwe Hc ltac:(done) ltac:(done)). lia. }
  rewrite bool_decide_eq_true_2 by (symmetry; by apply version_eq_cls).
  assert (subnet_of (h !!! e) (h !!! s) = true) as ->
    by (apply subnet_of_spec; auto).
  simpl. rewrite Hae, bind_Ok.
  assert (Hbare : map IP xs = xs).
  { clear -HF. induction HF as [|y xs (_ & _ & Hb & _) HF IH]; simpl; [done |].
    by rewrite IH, IP_bare. }
  rewrite Hbare, alloc_all_spec. rewrite bind_Ok.
  set (h' := h ++ xs). set (rs := seq (length h) (length xs)).
  assert (Hnew : forall r, r ∈ rs -> exists i, r = (length h + i)%nat /\ xs !! i = Some (h' !!! r)).
  { intros r Hr. apply elem_of_seq in Hr. exists (r - length h)%nat. split; [lia |].
    unfold h'. rewrite lookup_total_app_r by lia.
    apply list_lookup_lookup_total_lt. lia. }
  assert (Hrem : forall r, r ∈ rs -> remainder (h !!! s) (h !!! e) (h' !!! r)).
  { intros r Hr. destruct (Hnew r Hr) as (i & _ & Hi).
    rewrite Forall_lookup in HF. by apply (HF i). }
  assert (Hwf' : Forall wf h').
  { apply Forall_app. split; [done |]. eapply Forall_impl; [exact HF |].
    by intros p (? & _). }
  rewrite (sorted_networks_Ok h' rs (cls (h !!! s))).
  2: { apply Forall_forall. intros r Hr. by destruct (Hrem r Hr) as (_ & ? & _). }
  rewrite bind_Ok. exists xs, (sorted (get_mixed_type_key h') key_lt rs).
  pose proof (sorted_perm (get_mixed_type_key h') key_lt rs) as HP.
  split; [done |]. split; [done |]. split; [done |].
  split; [| split; [done | done]].
  apply adj_Sorted. intros u v Huv.
  pose proof (Sorted_adj _ _ _ _ (sorted_keyle h' rs Hwf') Huv) as Hk.
  simpl in Hk.
  assert (Hnd : NoDup (sorted (get_mixed_type_key h') key_lt rs)).
  { rewrite HP. apply NoDup_seq. }
  assert (Huv' : u <> v).
  { destruct Huv as (l1 & l2 & Heq). rewrite Heq in Hnd.
    apply NoDup_app in Hnd as (_ & _ & Hnd).
    apply NoDup_cons in Hnd as [Hn _]. set_solver. }
  apply adj_elem_of in Huv as [Hu Hv]. rewrite HP in Hu, Hv.
  destruct (Hnew u Hu) as (i & -> & Hi). destruct (Hnew v Hv) as (j & -> & Hj).
  assert (Hd : disjoint (h' !!! (length h + i)%nat) (h' !!! (length h + j)%nat)).
  { destruct (decide (i < j)%nat).
    - by apply (FOP_lookup _ _ i j _ _ Hdis).
    - assert (j < i)%nat by lia.
      pose proof (FOP_lookup _ _ j i _ _ Hdis ltac:(done) Hj Hi) as Hd.
      unfold disjoint in *. lia. }
  apply keyle_separated; [by apply wf_lookup_total | by apply wf_lookup_total | done |].
  apply disjoint_not_supernet; [by apply wf_lookup_total | by apply wf_lookup_total | done].
Qed.

Definition ex_cut : heap := [ip4 10 0 0 0 8 "big" "A"; ip4 10 1 0 0 16 "hole" "B"].

(** Against C7 as stated: the children of 10.0.0.0/8 (comment "big", token
    "A") cut by 10.1.0.0/16 carry neither its comment nor its token. *)
Lemma RemoveAddressFromList_drops_annotations :
  exists h' out r,
    RemoveAddressFromList ex_cut [0%nat] 1%nat = Ok (h', out) /\ r ∈ out /\
    version (ex_cut !!! 1%nat) = version (ex_cut !!! 0%nat) /\
    subnet_of (ex_cut !!! 1%nat) (ex_cut !!! 0%nat) = true /\
    net_eq (ex_cut !!! 1%nat) (ex_cut !!! 0%nat) = false /\
    text (h' !!! r) <> text (ex_cut !!! 0%nat) /\
    token (h' !!! r) <> token (ex_cut !!! 0%nat).
Proof.
  eexists _, _, 2%nat. split; [by vm_compute |].
  split; [set_solver |]. by vm_compute.
Qed.

(** C7, amended: for a prefix [p] and an exclude [e] of the same version
    strictly inside it, [RemoveAddressFromList([p], e)] returns at least one
    child, and every child is a new object with the empty comment and the
    empty token and parent token. *)
Theorem RemoveAddressFromList_children (h : heap) (p e : ref) :
  Forall wf h ->
  version (h !!! e) = version (h !!! p) ->
  subnet_of (h !!! e) (h !!! p) = true ->
  net_eq (h !!! e) (h !!! p) = false ->
  exists h' out,
    RemoveAddressFromList h [p] e = Ok (h', out) /\ out <> [] /\
    forall r, r ∈ out ->
      (length h <= r)%nat /\
      text (h' !!! r) = "" /\ token (h' !!! r) = "" /\ parent_token (h' !!! r) = "".
Proof.
  intros Hwf Hv Hsub Hne.
  apply subnet_of_spec in Hsub as (Hc & Hlo & Hhi); [| by apply wf_lookup_total ..].
  destruct (RemoveAddressFromList_cut h p e Hwf (eq_sym Hc) Hlo Hhi Hne)
    as (xs & out & HR & HF & HP & _ & _ & Hlen).
  exists (h ++ xs), out. split; [done |]. split.
  { intros ->. apply Permutation_length in HP. rewrite length_seq in HP. simpl in HP. lia. }
  intros r Hr. rewrite HP in Hr. apply elem_of_seq in Hr. split; [lia |].
  rewrite lookup_total_app_r by lia.
  assert (xs !! (r - length h)%nat = Some (xs !!! (r - length h)%nat)) as Hx
    by (apply list_lookup_lookup_total_lt; lia).
  rewrite Forall_lookup in HF. by destruct (HF _ _ Hx) as (_ & _ & ? & _).
Qed.

Lemma RemoveAddressFromList_children_witness :
  exists h' out,
    RemoveAddressFromList ex_cut [0%nat] 1%nat = Ok (h', out) /\ out <> [] /\
    forall r, r ∈ out ->
      (length ex_cut <= r)%nat /\
      text (h' !!! r) = "" /\ token (h' !!! r) = "" /\ parent_token (h' !!! r) = "".
Proof.
  apply (RemoveAddressFromList_children ex_cut 0%nat 1%nat).
  - repeat constructor; by vm_compute.
  - reflexivity.
  - by vm_compute.
  - by vm_compute.
Defined.

(** ** The exclusion loop *)

Lemma separated_trans (a b c : nacaddr) :
  wf b -> separated a b -> separated b c -> separated a c.
Proof.
  intros Hb. destruct (wf_size b Hb) as (_ & _ & _ & ? & _).
  unfold separated. lia.
Qed.

Lemma separated_not_both (a b : nacaddr) (x : IPAddress) :
  wf a -> wf b -> valid_address x -> separated a b ->
  contains a x = true -> contains b x = true -> False.
Proof.
  intros Ha Hb Hx Hs Hca Hcb.
  apply contains_spec in Hca; [| done | done].
  apply contains_spec in Hcb; [| done | done].
  unfold separated in Hs. lia.
Qed.

Lemma overlaps_false (a b : nacaddr) :
  wf a -> wf b -> overlaps a b = false ->
  cls a <> cls b \/ hi b < lo a \/ hi a < lo b.
Proof.
  intros Ha Hb Ho.
  destruct (decide (cls a = cls b)) as [Hc | Hc]; [| by left].
  right. destruct (decide (lo a <= hi b /\ lo b <= hi a)) as [H | H]; [| lia].
  assert (overlaps a b = true) as Ht by (by apply overlaps_spec).
  congruence.
Qed.

Lemma no_overlap_separated (a b : nacaddr) :
  wf a -> wf b -> keyle a b -> overlaps a b = false -> separated a b.
Proof.
  intros Ha Hb Hk Ho.
  destruct (wf_size b Hb) as (_ & _ & _ & ? & _).
  destruct (overlaps_false a b Ha Hb Ho) as [Hc | Hd].
  - rewrite <- version_eq_cls in Hc. unfold keyle in Hk. unfold separated. lia.
  - unfold keyle in Hk. unfold separated. unfold lo in *. lia.
Qed.

Lemma overlaps_sym_false (a b : nacaddr) :
  wf a -> wf b -> overlaps a b = false -> overlaps b a = false.
Proof.
  intros Ha Hb Ho. apply not_true_iff_false. intros Ht.
  apply overlaps_spec in Ht as (Hc & ? & ?); [| done | done].
  destruct (overlaps_false a b Ha Hb Ho) as [? | ?]; [congruence | lia].
Qed.

Lemma covered_nil (h : heap) (x : IPAddress) : covered h [] x <-> False.
Proof. unfold covered. set_solver. Qed.

Lemma covered_cons (h : heap) (r : ref) (l : list ref) (x : IPAddress) :
  covered h (r :: l) x <-> contains (h !!! r) x = true \/ covered h l x.
Proof. unfold covered. set_solver. Qed.

Lemma covered_app (h : heap) (l1 l2 : list ref) (x : IPAddress) :
  covered h (l1 ++ l2) x <-> covered h l1 x \/ covered h l2 x.
Proof. unfold covered. set_solver. Qed.

Lemma covered_rev (h : heap) (l : list ref) (x : IPAddress) :
  covered h (rev l) x <-> covered h l x.
Proof. apply covered_perm. symmetry. apply Permutation_rev. Qed.

(** Two stores agree on the networks of the objects of [l]. *)
Definition same_nets (h h' : heap) (l : list ref) : Prop :=
  forall r, r ∈ l -> net_of (h' !!! r) = net_of (h !!! r).

Lemma frame_same_nets (h h' : heap) (l : list ref) :
  heap_frame h h' -> valid_refs h l -> same_nets h h' l.
Proof.
  intros [_ Hf] Hv r Hr. unfold valid_refs in Hv. rewrite Forall_forall in Hv.
  by destruct (Hf r (Hv r Hr)) as (? & _).
Qed.

Lemma covered_same_nets (h h' : heap) (l : list ref) (x : IPAddress) :
  same_nets h h' l -> covered h' l x <-> covered h l x.
Proof.
  intros Hs. unfold covered.
  split; intros (r & Hr & Hc); exists r; (split; [done |]).
  - by rewrite <- (contains_net _ _ x (Hs r Hr)).
  - by rewrite (contains_net _ _ x (Hs r Hr)).
Qed.

Lemma chain_same_nets (h h' : heap) (l : list ref) :
  same_nets h h' l -> StronglySorted (sepref h) l -> StronglySorted (sepref h') l.
Proof.
  induction l as [| r l IH]; intros Hs Hss; [constructor |].
  apply StronglySorted_cons in Hss as [HF Hss].
  apply StronglySorted_cons. split.
  - rewrite Forall_forall in HF |- *. intros r' Hr'.
    unfold sepref.
    refine (separated_net _ _ _ _ _ _ (HF r' Hr')); symmetry; apply Hs; set_solver.
  - apply IH; [| done]. intros r' Hr'. apply Hs. set_solver.
Qed.

Lemma valid_refs_frame (h h' : heap) (l : list ref) :
  heap_frame h h' -> valid_refs h l -> valid_refs h' l.
Proof.
  intros [Hl _] Hv. unfold valid_refs in *. eapply Forall_impl; [exact Hv |].
  intros r. simpl. lia.
Qed.

Lemma sepref_StronglySorted (h : heap) (l : list ref) :
  Forall wf h -> Sorted (sepref h) l -> StronglySorted (sepref h) l.
Proof.
  intros Hwf.
  assert (Transitive (sepref h)) as Htr.
  { intros a b c. unfold sepref. apply separated_trans. by apply wf_lookup_total. }
  apply Sorted_StronglySorted. exact Htr.
Qed.

Lemma collapsed_chain (h : heap) (l : list ref) :
  Forall wf h -> collapsed h l -> StronglySorted (sepref h) l.
Proof.
  intros Hwf Hc. apply sepref_StronglySorted; [done |].
  apply adj_Sorted. intros u v Huv. by destruct (Hc u v Huv).
Qed.

(** An exclude cuts a superset entry that overlaps it and is not inside
    it.  Each exclude cuts at most once, which the potential pays for in
    advance. *)
Definition cuts (h : heap) (e s : ref) : bool :=
  overlaps (h !!! s) (h !!! e) && negb (subnet_of (h !!! s) (h !!! e)).

Definition credit (h : heap) (ss es : list ref) : nat :=
  match es with
  | [] => 0%nat
  | e :: _ => if existsb (cuts h e) ss then 128%nat else 0%nat
  end.

Definition potential (h : heap) (ss es : list ref) : nat :=
  (length ss + 129 * length es + credit h ss es)%nat.

Lemma credit_le (h : heap) (ss es : list ref) : (credit h ss es <= 128)%nat.
Proof. destruct es; simpl; [lia |]. destruct (existsb _ _); lia. Qed.

Lemma credit_tail (h : heap) (s : ref) (ss es : list ref) :
  (credit h ss es <= credit h (s :: ss) es)%nat.
Proof.
  destruct es as [| e es]; simpl; [lia |].
  destruct (cuts h e s), (existsb _ _); simpl; lia.
Qed.

Lemma credit_none (h : heap) (ss : list ref) (e : ref) (es : list ref) :
  (forall s, s ∈ ss -> cuts h e s = false) -> credit h ss (e :: es) = 0%nat.
Proof.
  intros Hf. simpl. destruct (existsb _ _) eqn:Hex; [| done].
  apply existsb_exists in Hex as (s & Hin & Hc).
  apply list_elem_of_In in Hin. rewrite (Hf s Hin) in Hc. done.
Qed.

Lemma max_prefixlen_le (p : nacaddr) : max_prefixlen p <= 128.
Proof. unfold max_prefixlen. destruct (cls p); simpl; lia. Qed.

Lemma contains_mono (a b : nacaddr) (x : IPAddress) :
  wf a -> wf b -> valid_address x -> cls a = cls b ->
  lo b <= lo a -> hi a <= hi b -> contains a x = true -> contains b x = true.
Proof.
  intros Ha Hb Hx Hc Hlo Hhi H.
  apply contains_spec in H as [Hv ?]; [| done | done].
  apply contains_spec; [done | done |].
  apply version_eq_cls in Hc. split; [congruence | lia].
Qed.

Lemma apart_not_covered (h : heap) (a : nacaddr) (l : list ref) (x : IPAddress) :
  Forall wf h -> wf a -> valid_address x ->
  (forall r, r ∈ l -> separated a (h !!! r) \/ separated (h !!! r) a) ->
  contains a x = true -> ~ covered h l x.
Proof.
  intros Hwf Ha Hx Hs Hc (r & Hr & Hcr).
  pose proof (wf_lookup_total h r Hwf) as Hwr.
  destruct (Hs r Hr) as [H | H].
  - exact (separated_not_both _ _ x Ha Hwr Hx H Hc Hcr).
  - exact (separated_not_both _ _ x Hwr Ha Hx H Hcr Hc).
Qed.

Lemma cut_lookup (h xs : heap) (out : list ref) (P : nacaddr -> Prop) (r : ref) :
  out ≡ₚ seq (length h) (length xs) -> Forall P xs -> r ∈ out ->
  (r < length (h ++ xs))%nat /\ P ((h ++ xs) !!! r).
Proof.
  intros HP HF Hr. rewrite HP in Hr. apply elem_of_seq in Hr.
  rewrite length_app. split; [lia |].
  rewrite lookup_total_app_r by lia.
  assert (xs !! (r - length h)%nat = Some (xs !!! (r - length h)%nat)) as Hx
    by (apply list_lookup_lookup_total_lt; lia).
  rewrite Forall_lookup in HF. exact (HF _ _ Hx).
Qed.

Lemma exclude_loop_step (fuel : nat) (h : heap) (s : ref) (ss : list ref)
    (e : ref) (es rs : list ref) :
  exclude_loop (S fuel) h (s :: ss) (e :: es) rs =
    if overlaps (h !!! s) (h !!! e) then
      '(h, cs) ← RemoveAddressFromList h [s] e;
      exclude_loop fuel h (cs ++ ss) (e :: es) rs
    else if key_lt (_get_networks_key (h !!! s)) (_get_networks_key (h !!! e)) then
      exclude_loop fuel h ss (e :: es) (rs ++ [s])
    else exclude_loop fuel h (s :: ss) es rs.
Proof. reflexivity. Qed.

Definition loop_post (h : heap) (ss es rs : list ref)
    (res : result (heap * list ref * list ref)) : Prop :=
  exists h' ss' rs',
    res = Ok (h', ss', rs') /\
    Forall wf h' /\ heap_frame h h' /\ valid_refs h' (rs' ++ rev ss') /\
    forall x, valid_address x ->
      covered h' (rs' ++ rev ss') x <->
      covered h rs x \/ (covered h ss x /\ ~ covered h es x).

Lemma exclude_loop_base (fuel : nat) (h : heap) (ss es rs : list ref) :
  Forall wf h -> valid_refs h ss -> valid_refs h rs -> ss = [] \/ es = [] ->
  loop_post h ss es rs (exclude_loop fuel h ss es rs).
Proof.
  intros Hwf Hvs Hvr Hd. exists h, ss, rs. split.
  { destruct Hd as [-> | ->]; [by destruct fuel | by destruct ss, fuel]. }
  split; [done |]. split; [apply heap_frame_refl |]. split.
  { apply Forall_app. split; [done |].
    apply (valid_refs_perm h ss); [apply Permutation_rev | done]. }
  intros x Hx. rewrite covered_app, covered_rev.
  destruct Hd as [-> | ->]; rewrite ?covered_nil; tauto.
Qed.

Lemma exclude_loop_run (fuel : nat) (h : heap) (ss es rs : list ref) :
  Forall wf h -> valid_refs h ss -> valid_refs h es -> valid_refs h rs ->
  StronglySorted (sepref h) ss -> StronglySorted (sepref h) es ->
  (potential h ss es <= fuel)%nat ->
  loop_post h ss es rs (exclude_loop fuel h ss es rs).
Proof.
  revert h ss es rs.
  induction fuel as [| fuel IH]; intros h ss es rs Hwf Hvs Hve Hvr Hcs Hce Hpot.
  { destruct ss as [| s ss]; [apply exclude_loop_base; auto |].
    destruct es as [| e es]; [apply exclude_loop_base; auto |].
    unfold potential in Hpot. simpl in Hpot. lia. }
  destruct ss as [| s ss]; [apply exclude_loop_base; auto |].
  destruct es as [| e es]; [apply exclude_loop_base; auto |].
  rewrite exclude_loop_step.
  pose proof (wf_lookup_total h s Hwf) as Hws.
  pose proof (wf_lookup_total h e Hwf) as Hwe.
  pose proof (proj1 (StronglySorted_cons _ _ _) Hcs) as [Hs_all Hcs'].
  pose proof (proj1 (StronglySorted_cons _ _ _) Hce) as [He_all Hce'].
  rewrite Forall_forall in Hs_all, He_all.
  pose proof (Forall_inv Hvs) as Hvs0. pose proof (Forall_inv_tail Hvs) as Hvs'.
  pose proof (Forall_inv_tail Hve) as Hve'.
  unfold potential in Hpot. simpl length in Hpot.
  destruct (overlaps (h !!! s) (h !!! e)) eqn:Ho.
  - pose proof (proj1 (overlaps_spec _ _ Hws Hwe) Ho) as (Hc & Ho1 & Ho2).
    destruct (decide (lo (h !!! e) <= lo (h !!! s) /\ hi (h !!! s) <= hi (h !!! e)))
      as [[Ha Hb] | Hn].
    + rewrite (RemoveAddressFromList_inside h s e Hwf Hc Ha Hb), bind_Ok.
      cbv beta iota. rewrite app_nil_l.
      destruct (IH h ss (e :: es) rs) as (h' & ss' & rs' & Hrun & Hwf' & Hfr & Hv' & Hcov);
        auto.
      { pose proof (credit_tail h s ss (e :: es)). unfold potential. simpl length. lia. }
      exists h', ss', rs'. repeat (split; [done |]).
      intros x Hx. rewrite (Hcov x Hx), !covered_cons.
      pose proof (contains_mono _ _ x Hws Hwe Hx Hc Ha Hb). tauto.
    + destruct (laminar _ _ Hws Hwe Hc) as [? | [[Ha Hb] | ?]]; [lia | | lia].
      assert (net_eq (h !!! e) (h !!! s) = false) as Hne.
      { apply not_true_iff_false. intros Ht.
        apply net_eq_spec in Ht; [| done | done]. apply net_of_eq in Ht.
        destruct (net_of_lo_hi _ _ Ht) as (? & ? & _). lia. }
      destruct (RemoveAddressFromList_cut h s e Hwf Hc Ha Hb Hne)
        as (xs & out & HR & HF & HP & Hso & Hcv & Hlen).
      rewrite HR, bind_Ok. cbv beta iota.
      assert (Forall wf (h ++ xs)) as Hwf1.
      { apply Forall_app. split; [done |].
        eapply Forall_impl; [exact HF |]. intros p Hp. apply Hp. }
      pose proof (heap_app_frame h xs) as Hfr1.
      assert (forall r, (r < length h)%nat -> (h ++ xs) !!! r = h !!! r) as Hold.
      { intros r Hr. by rewrite lookup_total_app_l. }
      rewrite Forall_forall in Hvs'.
      assert (forall r, r ∈ out ++ ss -> cuts (h ++ xs) e r = false) as Hnocut.
      { intros r Hr. unfold cuts. apply andb_false_iff. left.
        apply not_true_iff_false. intros Ht.
        apply overlaps_spec in Ht as (Hc' & ? & ?); [| by apply wf_lookup_total ..].
        rewrite (Hold e) in * by exact (Forall_inv Hve).
        apply elem_of_app in Hr as [Hr | Hr].
        - destruct (cut_lookup h xs out _ r HP HF Hr) as (_ & _ & _ & _ & _ & _ & Hd).
          unfold disjoint in Hd. lia.
        - rewrite (Hold r) in * by auto.
          pose proof (Hs_all r Hr) as Hsep. unfold sepref, separated in Hsep.
          rewrite <- version_eq_cls in Hc'. rewrite <- version_eq_cls in Hc. lia. }
      destruct (IH (h ++ xs) (out ++ ss) (e :: es) rs)
        as (h' & ss' & rs' & Hrun & Hwf' & Hfr & Hv' & Hcov); auto.
      { apply Forall_app. split.
        - apply Forall_forall. intros r Hr.
          by destruct (cut_lookup h xs out _ r HP HF Hr).
        - apply (valid_refs_frame h); [done |]. by apply Forall_forall. }
      { by apply (valid_refs_frame h). }
      { by apply (valid_refs_frame h). }
      { apply StronglySorted_app_2.
        - intros r1 r2 Hr1 Hr2. unfold sepref.
          destruct (cut_lookup h xs out _ r1 HP HF Hr1) as (_ & _ & Hc1 & _ & _ & Hh1 & _).
          rewrite (Hold r2) by auto.
          pose proof (Hs_all r2 Hr2) as Hsep. unfold sepref, separated in Hsep.
          apply version_eq_cls in Hc1. unfold separated. lia.
        - by apply sepref_StronglySorted.
        - apply (chain_same_nets h); [| done].
          apply frame_same_nets; [done |]. by apply Forall_forall. }
      { apply (chain_same_nets h); [| done]. by apply frame_same_nets. }
      { unfold potential. rewrite (credit_none _ _ _ _ Hnocut).
        assert (credit h (s :: ss) (e :: es) = 128%nat) as Hcr.
        { simpl. unfold cuts at 1. rewrite Ho.
          assert (subnet_of (h !!! s) (h !!! e) = false) as ->; [| done].
          apply not_true_iff_false. intros Ht.
          apply subnet_of_spec in Ht as (_ & ? & ?); [| done | done]. lia. }
        rewrite Hcr in Hpot.
        apply Permutation_length in HP. rewrite length_seq in HP.
        pose proof (max_prefixlen_le (h !!! s)).
        rewrite length_app. simpl length. lia. }
      exists h', ss', rs'. split; [done |]. split; [done |].
      split; [by apply (heap_frame_trans _ (h ++ xs)) |]. split; [done |].
      intros x Hx. rewrite (Hcov x Hx).
      rewrite (covered_same_nets h (h ++ xs) rs) by (by apply frame_same_nets).
      rewrite (covered_same_nets h (h ++ xs) (e :: es)) by (by apply frame_same_nets).
      rewrite covered_app.
      rewrite (covered_same_nets h (h ++ xs) ss)
        by (apply frame_same_nets; [done | by apply Forall_forall]).
      rewrite !covered_cons.
      assert (covered (h ++ xs) out x -> contains (h !!! s) x = true) as Hin.
      { intros (r & Hr & Hcr).
        destruct (cut_lookup h xs out _ r HP HF Hr)
          as (_ & Hwp & Hcp & _ & Hlp & Hhp & _).
        exact (contains_mono _ _ x Hwp Hws Hx Hcp Hlp Hhp Hcr). }
      assert (contains (h !!! s) x = true -> contains (h !!! e) x = false ->
              covered (h ++ xs) out x) as Hrest.
      { intros Hcs0 Hce0. apply contains_spec in Hcs0 as [Hv Hz]; [| done | done].
        destruct (Hcv _ Hz) as [Hz' | Hex].
        - assert (contains (h !!! e) x = true) as Ht; [| congruence].
          apply contains_spec; [done | done |]. apply version_eq_cls in Hc.
          split; [congruence | done].
        - apply Exists_exists in Hex as (p & Hp & Hzp).
          apply list_elem_of_lookup in Hp as [i Hi].
          pose proof (lookup_lt_Some _ _ _ Hi) as Hlt.
          exists (length h + i)%nat. split.
          + rewrite HP. apply elem_of_seq. lia.
          + rewrite lookup_total_app_r by lia.
            replace (length h + i - length h)%nat with i by lia.
            rewrite (list_lookup_total_correct _ _ _ Hi).
            rewrite Forall_lookup in HF.
            destruct (HF _ _ Hi) as (Hwp & Hcp & _).
            apply contains_spec; [done | done |].
            apply version_eq_cls in Hcp. split; [congruence | done]. }
      destruct (contains (h !!! e) x) eqn:Hce0; [tauto |].
      split.
      * intros [? | [[? | ?] ?]]; auto.
      * intros [? | [[? | ?] ?]]; auto.
  - pose proof I.
    destruct (key_lt (_get_networks_key (h !!! s)) (_get_networks_key (h !!! e))) eqn:Hk.
    + apply key_lt_asym in Hk. apply (key_le_keyle _ _ Hws Hwe) in Hk.
      pose proof (no_overlap_separated _ _ Hws Hwe Hk Ho) as Hsep.
      destruct (IH h ss (e :: es) (rs ++ [s]))
        as (h' & ss' & rs' & Hrun & Hwf' & Hfr & Hv' & Hcov); auto.
      { apply Forall_app. split; [done |]. by constructor. }
      { pose proof (credit_tail h s ss (e :: es)). unfold potential. simpl length. lia. }
      exists h', ss', rs'. repeat (split; [done |]).
      intros x Hx. rewrite (Hcov x Hx), covered_app, !(covered_cons h s), covered_nil.
      assert (contains (h !!! s) x = true -> ~ covered h (e :: es) x) as Hout.
      { apply apart_not_covered; [done | done | done |].
        intros r Hr. left. apply elem_of_cons in Hr as [-> | Hr]; [done |].
        apply (separated_trans _ (h !!! e)); [done | done |]. by apply He_all. }
      tauto.
    + apply (key_le_keyle _ _ Hwe Hws) in Hk.
      pose proof (overlaps_sym_false _ _ Hws Hwe Ho) as Ho'.
      pose proof (no_overlap_separated _ _ Hwe Hws Hk Ho') as Hsep.
      destruct (IH h (s :: ss) es rs)
        as (h' & ss' & rs' & Hrun & Hwf' & Hfr & Hv' & Hcov); auto.
      { pose proof (credit_le h (s :: ss) es). unfold potential. simpl length. lia. }
      exists h', ss', rs'. repeat (split; [done |]).
      intros x Hx. rewrite (Hcov x Hx), (covered_cons h e).
      assert (contains (h !!! e) x = true -> ~ covered h (s :: ss) x) as Hout.
      { apply apart_not_covered; [done | done | done |].
        intros r Hr. left. apply elem_of_cons in Hr as [-> | Hr]; [done |].
        apply (separated_trans _ (h !!! s)); [done | done |]. by apply Hs_all. }
      tauto.
Qed.

Lemma AddressListExclude_run (h : heap) (A E : list ref) :
  Forall wf h -> valid_refs h A -> valid_refs h E ->
  exists h' out,
    AddressListExclude h A E true = Ok (h', out) /\
    Forall wf h' /\ valid_refs h' out /\ heap_frame h h' /\ collapsed h' out /\
    forall x, valid_address x ->
      (covered h' out x <-> covered h A x /\ ~ covered h E x).
Proof.
  intros Hwf HvA HvE. unfold AddressListExclude.
  destruct (CollapseAddrList_run h A Hwf HvA)
    as (h1 & S1 & H1 & Hwf1 & Hv1 & Hfr1 & Hcov1 & Hcol1 & _).
  rewrite H1, bind_Ok. cbv beta iota.
  destruct (CollapseAddrList_run h1 E Hwf1 (valid_refs_frame _ _ _ Hfr1 HvE))
    as (h2 & E2 & H2 & Hwf2 & Hv2 & Hfr2 & Hcov2 & Hcol2 & _).
  rewrite H2, !bind_Ok. cbv beta iota.
  destruct (exclude_loop_run ((length S1 + 1) * (length E2 + 1) * 130) h2 S1 E2 [])
    as (h3 & S3 & R3 & H3 & Hwf3 & Hfr3 & Hv3 & Hcov3); auto.
  { by apply (valid_refs_frame h1). }
  { constructor. }
  { apply (chain_same_nets h1); [by apply frame_same_nets |].
    by apply collapsed_chain. }
  { by apply collapsed_chain. }
  { pose proof (credit_le h2 S1 E2). unfold potential. nia. }
  rewrite H3, bind_Ok. cbv beta iota.
  destruct (CollapseAddrList_run h3 (R3 ++ rev S3) Hwf3 Hv3)
    as (h4 & out & H4 & Hwf4 & Hv4 & Hfr4 & Hcov4 & Hcol4 & _).
  exists h4, out. split; [done |]. split; [done |]. split; [done |].
  split.
  { apply (heap_frame_trans _ h1); [done |]. apply (heap_frame_trans _ h2); [done |].
    by apply (heap_frame_trans _ h3). }
  split; [done |].
  intros x Hx.
  rewrite (Hcov4 x Hx), (Hcov3 x Hx), covered_nil, (Hcov2 x Hx).
  rewrite (covered_same_nets h1 h2 S1) by (by apply frame_same_nets).
  rewrite (Hcov1 x Hx).
  rewrite (covered_same_nets h h1 E) by (by apply frame_same_nets).
  tauto.
Qed.

(** C3: for every store of well-formed prefixes and every superset list
    [A] and excludes list [E] in it, [AddressListExclude(A, E)] returns
    normally, and an address is contained in a prefix of the result exactly
    when it is contained in a prefix of [A] and in no prefix of [E]. *)
Theorem AddressListExclude_spec (h : heap) (A E : list ref) :
  Forall wf h -> valid_refs h A -> valid_refs h E ->
  exists h' out,
    AddressListExclude h A E true = Ok (h', out) /\
    forall x, valid_address x ->
      (covered h' out x <-> covered h A x /\ ~ covered h E x).
Proof.
  intros Hwf HvA HvE.
  destruct (AddressListExclude_run h A E Hwf HvA HvE)
    as (h' & out & Hrun & _ & _ & _ & _ & Hcov).
  eauto.
Qed.

Lemma AddressListExclude_spec_witness :
  exists h' out,
    AddressListExclude ex_cut [0%nat] [1%nat] true = Ok (h', out) /\
    forall x, valid_address x ->
      (covered h' out x <-> covered ex_cut [0%nat] x /\ ~ covered ex_cut [1%nat] x).
Proof.
  apply (AddressListExclude_spec ex_cut [0%nat] [1%nat]).
  - repeat constructor; by vm_compute.
  - repeat constructor.
  - repeat constructor.
Defined.

(** 10.0.0.0/8 without 10.1.0.0/16 is the eight prefixes 10.0.0.0/16,
    10.2.0.0/15, 10.4.0.0/14, 10.8.0.0/13, 10.16.0.0/12, 10.32.0.0/11,
    10.64.0.0/10 and 10.128.0.0/9. *)
Lemma AddressListExclude_example :
  exists h' out,
    AddressListExclude ex_cut [0%nat] [1%nat] true = Ok (h', out) /\
    map (fun r => net_of (h' !!! r)) out =
      map net_of
        [ip4 10 0 0 0 16 "" ""; ip4 10 2 0 0 15 "" ""; ip4 10 4 0 0 14 "" "";
         ip4 10 8 0 0 13 "" ""; ip4 10 16 0 0 12 "" ""; ip4 10 32 0 0 11 "" "";
         ip4 10 64 0 0 10 "" ""; ip4 10 128 0 0 9 "" ""].
Proof. eexists _, _. split; by vm_compute. Qed.

(** ** The token-preserving collapse *)

(** Three partitions: 10.0.0.0/24 with token "a", 10.0.1.0/24 with token
    "b", and 10.0.0.0/16 with token "c", which contains both. *)
Definition ex_tokens : heap :=
  [ip4 10 0 0 0 24 "x" "a"; ip4 10 0 1 0 24 "y" "b"; ip4 10 0 0 0 16 "z" "c"].

(** C5, where the code departs from it: on [ex_tokens] the partition of
    token "b" is kept in the result next to the partition of token "c",
    although [IsSuperNet] finds every member of "b" contained in a member of
    "c".  Removing the accepted partition "a" at index [k] moves "b" to index
    [k], and the following [k += 1] steps over it. *)
Theorem CollapseAddrListPreserveTokens_keeps_consumed_partition :
  exists h',
    CollapseAddrListPreserveTokens ex_tokens [0%nat; 1%nat; 2%nat]
      = Ok (h', [1%nat; 2%nat]) /\
    parent_token (h' !!! 1%nat) = "b" /\ parent_token (h' !!! 2%nat) = "c" /\
    IsSuperNet h' [2%nat] [1%nat] = true /\
    dedup_scan 2 h' [2%nat] [[0%nat]; [1%nat]] 0 = Ok (true, [[1%nat]]).
Proof. eexists. split; [by vm_compute |]. by vm_compute. Qed.

Lemma groupby_Forall {A K : Type} `{EqDecision K} (key : A -> K) (P : A -> Prop)
    (l : list A) :
  Forall P l -> Forall (fun g => Forall P g.2) (groupby key l).
Proof.
  induction 1 as [| x l Hx Hl IH]; simpl; [constructor |].
  destruct (groupby key l) as [| [k g] gs].
  - repeat constructor. done.
  - apply Forall_cons in IH as [Hg Hgs]. simpl in Hg.
    destruct (decide (key x = k)).
    + constructor; [by constructor | done].
    + constructor; [by repeat constructor |]. by constructor.
Qed.

Lemma collapse_groups_run (groups : list (string * list ref)) (h : heap) :
  Forall wf h -> Forall (fun g => valid_refs h g.2) groups ->
  exists h' rs,
    collapse_groups h groups = Ok (h', rs) /\ Forall wf h' /\ heap_frame h h'.
Proof.
  revert h. induction groups as [| g groups IH]; intros h Hwf Hv.
  - exists h, []. split; [done |]. split; [done |]. apply heap_frame_refl.
  - apply Forall_cons in Hv as [Hg Hgs].
    destruct (CollapseAddrList_run h g.2 Hwf Hg)
      as (h1 & r & H1 & Hwf1 & _ & Hfr1 & _).
    destruct (IH h1 Hwf1) as (h2 & rs & H2 & Hwf2 & Hfr2).
    { eapply Forall_impl; [exact Hgs |]. intros g'. by apply valid_refs_frame. }
    exists h2, (r :: rs). simpl. rewrite H1, bind_Ok. cbv beta iota.
    rewrite H2, bind_Ok. cbv beta iota.
    split; [done |]. split; [done |]. by apply (heap_frame_trans _ h1).
Qed.

Lemma dedup_scan_run (fuel : nat) (h : heap) (ip : list ref)
    (dedup_array : list (list ref)) (k : nat) :
  (length dedup_array <= fuel + k)%nat ->
  exists to_add d, dedup_scan fuel h ip dedup_array k = Ok (to_add, d).
Proof.
  revert dedup_array k. induction fuel as [| fuel IH]; intros d k Hlen.
  - simpl. destruct (d !! k) eqn:Hk; [| eauto].
    apply lookup_lt_Some in Hk. lia.
  - simpl. destruct (d !! k) eqn:Hk; [| eauto].
    destruct (IsSuperNet h l ip); [eauto |].
    destruct (IsSuperNet h ip l).
    + apply IH. rewrite length_delete by (rewrite Hk; eauto).
      apply lookup_lt_Some in Hk. lia.
    + apply IH. lia.
Qed.

Lemma dedup_loop_run (h : heap) (ret_array dedup_array : list (list ref)) :
  exists d, dedup_loop h ret_array dedup_array = Ok d.
Proof.
  revert dedup_array. induction ret_array as [| ip ret IH]; intros d; [by eexists |].
  simpl.
  destruct (dedup_scan_run (length d) h ip d 0) as (b & d' & ->); [lia |].
  rewrite bind_Ok. cbv beta iota. apply IH.
Qed.

Lemma CollapseAddrListPreserveTokens_run (h : heap) (addresses : list ref) :
  Forall wf h -> valid_refs h addresses ->
  exists h' out,
    CollapseAddrListPreserveTokens h addresses = Ok (h', out) /\
    Forall wf h' /\ heap_frame h h'.
Proof.
  intros Hwf Hv. unfold CollapseAddrListPreserveTokens.
  destruct (collapse_groups_run
    (groupby (fun r => parent_token (h !!! r))
       (sorted (fun r => parent_token (h !!! r)) string_lt addresses)) h Hwf)
    as (h1 & rs & H1 & Hwf1 & Hfr1).
  { apply (groupby_Forall _ (fun r => (r < length h)%nat)).
    apply (valid_refs_perm h addresses); [| done]. symmetry. apply sorted_perm. }
  rewrite H1, bind_Ok. cbv beta iota.
  destruct (dedup_loop_run h1 rs []) as (d & ->).
  rewrite bind_Ok. eauto.
Qed.

(** ** What the entry points change *)

Definition ex_nested : heap := [ip4 10 0 0 0 8 "a" ""; ip4 10 1 0 0 16 "b" ""].

(** Against C9 as stated: collapsing 10.0.0.0/8 "a" with 10.1.0.0/16 "b"
    changes the comment of the first input object from "a" to "a, b". *)
Lemma CollapseAddrList_changes_input_comment :
  exists h' out,
    CollapseAddrList ex_nested [0%nat; 1%nat] [] = Ok (h', out) /\
    text (ex_nested !!! 0%nat) = "a" /\ text (h' !!! 0%nat) = "a, b".
Proof. eexists _, _. split; by vm_compute. Qed.

Definition ex_pair : heap := [ex_a; ex_b].

Lemma CollapseAddrList_same_addresses_witness :
  exists h' out,
    CollapseAddrList ex_pair [0%nat; 1%nat] [] = Ok (h', out) /\
    forall x, valid_address x -> covered h' out x <-> covered ex_pair [0%nat; 1%nat] x.
Proof.
  apply (CollapseAddrList_same_addresses ex_pair [0%nat; 1%nat]).
  - repeat constructor; by vm_compute.
  - repeat constructor.
Defined.

Lemma CollapseAddrList_idempotent_witness :
  exists h' out,
    CollapseAddrList ex_pair [0%nat; 1%nat] [] = Ok (h', out) /\
    CollapseAddrList h' out [] = Ok (h', out).
Proof.
  apply (CollapseAddrList_idempotent ex_pair [0%nat; 1%nat]).
  - repeat constructor; by vm_compute.
  - repeat constructor.
Defined.

(** * Further properties *)

(** ** Containment of prefixes *)

Lemma network_address_eq (p : nacaddr) : network_address p = (version p, lo p).
Proof. reflexivity. Qed.

Lemma broadcast_address_eq (p : nacaddr) :
  wf p -> broadcast_address p = (version p, hi p).
Proof.
  intros Hp. rewrite <- (broadcast_eq p Hp). reflexivity.
Qed.

Lemma contains_lo (p : nacaddr) : wf p -> contains p (network_address p) = true.
Proof.
  intros Hp. apply contains_spec; [done | by apply wf_valid_lo |].
  destruct (wf_size p Hp) as (_ & _ & _ & ? & _).
  rewrite network_address_eq. split; [done |]. simpl. lia.
Qed.

Lemma contains_hi (p : nacaddr) : wf p -> contains p (broadcast_address p) = true.
Proof.
  intros Hp. apply contains_spec; [done | by apply wf_valid_hi |].
  destruct (wf_size p Hp) as (_ & _ & _ & ? & _).
  rewrite broadcast_address_eq by done. split; [done |]. simpl. lia.
Qed.

(** X1: [a.subnet_of(b)] holds exactly when [a] and [b] have the same
    version and every address of [a] is an address of [b]; [supernet_of] is
    the same test with the operands exchanged, and across versions both
    answer [False]. *)
Theorem subnet_of_addresses (a b : nacaddr) :
  wf a -> wf b ->
  (subnet_of a b = true <->
   version a = version b /\
   forall x, valid_address x -> contains a x = true -> contains b x = true) /\
  supernet_of b a = subnet_of a b /\
  (version a <> version b -> subnet_of a b = false /\ supernet_of a b = false).
Proof.
  intros Ha Hb. split; [| split].
  - split.
    + intros H. apply subnet_of_spec in H as (Hc & Hlo & Hhi); [| done | done].
      split; [by apply version_eq_cls |].
      intros x Hx. by apply contains_mono.
    + intros [Hv Hall]. apply subnet_of_spec; [done | done |].
      split; [by apply version_eq_cls |].
      pose proof (Hall _ (wf_valid_lo a Ha) (contains_lo a Ha)) as H1.
      pose proof (Hall _ (wf_valid_hi a Ha) (contains_hi a Ha)) as H2.
      apply contains_spec in H1 as [_ H1]; [| done | by apply wf_valid_lo].
      apply contains_spec in H2 as [_ H2]; [| done | by apply wf_valid_hi].
      rewrite broadcast_address_eq in H2 by done. rewrite network_address_eq in H1.
      simpl in H1, H2. lia.
  - unfold supernet_of, subnet_of. repeat case_bool_decide; congruence.
  - intros Hv. unfold supernet_of, subnet_of.
    by rewrite !bool_decide_eq_true_2 by done.
Qed.

Lemma subnet_of_addresses_witness :
  subnet_of (ip4 10 1 0 0 16 "" "") (ip4 10 0 0 0 8 "" "") = true <->
  version (ip4 10 1 0 0 16 "" "") = version (ip4 10 0 0 0 8 "" "") /\
  forall x, valid_address x ->
    contains (ip4 10 1 0 0 16 "" "") x = true -> contains (ip4 10 0 0 0 8 "" "") x = true.
Proof.
  apply (subnet_of_addresses (ip4 10 1 0 0 16 "" "") (ip4 10 0 0 0 8 "" ""));
    repeat split; by vm_compute.
Defined.

(** X2: on well-formed prefixes [subnet_of] is a partial order up to
    network equality: reflexive, transitive, and two prefixes that are subnets
    of each other are equal as networks. *)
Theorem subnet_of_order (a b c : nacaddr) :
  wf a -> wf b -> wf c ->
  subnet_of a a = true /\
  (subnet_of a b = true -> subnet_of b c = true -> subnet_of a c = true) /\
  (subnet_of a b = true -> subnet_of b a = true -> net_eq a b = true).
Proof.
  intros Ha Hb Hc. split; [| split].
  - apply subnet_of_spec; [done | done |]. split; [done | lia].
  - intros H1 H2.
    apply subnet_of_spec in H1 as (? & ? & ?); [| done | done].
    apply subnet_of_spec in H2 as (? & ? & ?); [| done | done].
    apply subnet_of_spec; [done | done |]. split; [congruence | lia].
  - intros H1 H2.
    apply subnet_of_spec in H1 as (Hcl & ? & ?); [| done | done].
    apply subnet_of_spec in H2 as (_ & ? & ?); [| done | done].
    destruct (net_eq a b) eqn:Hne; [done |].
    pose proof (contained_strict a b Ha Hb Hcl ltac:(lia) ltac:(lia) Hne) as Hlt.
    pose proof (contained_prefixlen b a Hb Ha (eq_sym Hcl) ltac:(lia) ltac:(lia)). lia.
Qed.

Lemma subnet_of_order_witness :
  subnet_of ex_a ex_a = true /\
  (subnet_of ex_a ex_b = true -> subnet_of ex_b ex_a' = true -> subnet_of ex_a ex_a' = true) /\
  (subnet_of ex_a ex_b = true -> subnet_of ex_b ex_a = true -> net_eq ex_a ex_b = true).
Proof.
  apply (subnet_of_order ex_a ex_b ex_a'); repeat split; by vm_compute.
Defined.

(** X3: two well-formed prefixes overlap exactly when one is a subnet of
    the other: prefixes are nested or disjoint, never partly overlapping. *)
Theorem overlaps_nested (a b : nacaddr) :
  wf a -> wf b ->
  overlaps a b = subnet_of a b || subnet_of b a.
Proof.
  intros Ha Hb.
  destruct (overlaps a b) eqn:Ho.
  - apply overlaps_spec in Ho as (Hc & ? & ?); [| done | done].
    symmetry. apply orb_true_iff.
    destruct (laminar a b Ha Hb Hc) as [? | [? | ?]]; [| | lia].
    + left. apply subnet_of_spec; [done | done |]. split; [done | lia].
    + right. apply subnet_of_spec; [done | done |]. split; [done | lia].
  - symmetry. apply orb_false_iff.
    destruct (wf_size a Ha) as (_ & _ & _ & ? & _).
    destruct (wf_size b Hb) as (_ & _ & _ & ? & _).
    split; apply not_true_iff_false; intros Hsub;
      apply subnet_of_spec in Hsub as (Hc & ? & ?); try done;
      destruct (overlaps_false a b Ha Hb Ho) as [? | ?]; (congruence || lia).
Qed.

Lemma overlaps_nested_witness :
  overlaps ex_a ex_b = subnet_of ex_a ex_b || subnet_of ex_b ex_a.
Proof. apply (overlaps_nested ex_a ex_b); repeat split; by vm_compute. Defined.

(** ** Supernets of any length difference *)

(** X4: for a well-formed prefix of non-zero length and a difference
    [0 <= d <= prefixlen], [supernet(d)] returns a new well-formed object
    [d] bits shorter that contains the prefix; it carries the prefix's
    comment and token, and its parent token is the prefix's token, not the
    prefix's parent token.  A negative difference raises [ValueError]. *)
Theorem supernet_spec (self : nacaddr) (d : Z) :
  wf self -> prefixlen self <> 0 ->
  (0 <= d <= prefixlen self ->
   exists p, supernet self d = Ok (NewObject p) /\ wf p /\
     cls p = cls self /\ prefixlen p = prefixlen self - d /\
     supernet_of p self = true /\
     text p = text self /\ token p = token self /\ parent_token p = token self) /\
  (d < 0 -> supernet self d = Raise ValueError).
Proof.
  intros Hwf Hlen. pose proof Hwf as (Hl & Hn & Hm). split.
  - intros Hd. unfold supernet, ipaddress_supernet.
    rewrite bool_decide_eq_false_2 by done.
    rewrite bool_decide_eq_false_2 by lia.
    rewrite bool_decide_eq_false_2 by lia. rsimpl.
    eexists. split; [reflexivity |].
    change (netmask_int (cls self) (prefixlen self)) with (netmask self).2.
    rewrite netmask_eq by done. rewrite Z.shiftl_mul_pow2 by lia.
    unfold size. set (w := max_prefixlen self) in *. set (h := w - prefixlen self).
    assert (0 < 2 ^ h) as Hh by (apply Z.pow_pos_nonneg; lia).
    assert (0 < 2 ^ d) as Hpd by (apply Z.pow_pos_nonneg; lia).
    assert (2 ^ (h + d) = 2 ^ h * 2 ^ d) as Hhd by (rewrite Z.pow_add_r by lia; lia).
    replace ((2 ^ w - 2 ^ h) * 2 ^ d)
      with (2 ^ ((h + d) + prefixlen self) - 2 ^ (h + d)).
    2: { replace (h + d + prefixlen self) with (w + d) by lia.
         rewrite !Z.pow_add_r by lia. lia. }
    rewrite land_shifted_ones; [| lia | lia |].
    2: { split; [lia |]. replace (h + d + prefixlen self) with (w + d) by lia.
         rewrite Z.pow_add_r by lia. nia. }
    set (q := network self / 2 ^ (h + d)).
    assert (network self = q * 2 ^ (h + d) + network self mod 2 ^ (h + d)) as Hdiv.
    { unfold q. rewrite Z.mul_comm. apply Z.div_mod. lia. }
    assert (0 <= network self mod 2 ^ (h + d) <= 2 ^ (h + d) - 2 ^ h) as Hrem.
    { fold h in Hm. apply Z.div_exact in Hm; [| lia].
      rewrite Hm at 1 2. rewrite Hhd, Z.mul_mod_distr_l by lia.
      pose proof (Z.mod_pos_bound (network self / 2 ^ h) (2 ^ d) Hpd). nia. }
    assert (wf (new_net (cls self) (q * 2 ^ (h + d)) (prefixlen self - d)
                  (text self) (token self))) as Hwp.
    { unfold wf, max_prefixlen. simpl. fold (max_prefixlen self). fold w.
      assert (0 <= q * 2 ^ (h + d)) as Hq0.
      { apply Z.mul_nonneg_nonneg; [apply Z.div_pos |]; lia. }
      split; [lia |]. split; [lia |].
      replace (w - (prefixlen self - d)) with (h + d) by lia.
      apply Z.mod_mul. lia. }
    split; [exact Hwp |]. split; [done |]. split; [done |].
    split; [| done].
    apply supernet_of_spec; [done | done |]. split; [done |].
    unfold lo, hi, size, max_prefixlen. simpl. fold (max_prefixlen self). fold w.
    replace (w - (prefixlen self - d)) with (h + d) by lia. fold h. lia.
  - intros Hd. unfold supernet, ipaddress_supernet.
    rewrite bool_decide_eq_false_2 by done.
    rewrite bool_decide_eq_false_2 by lia.
    by rewrite bool_decide_eq_true_2 by lia.
Qed.

Lemma supernet_spec_witness :
  (0 <= 8 <= prefixlen (ip4 10 1 0 0 16 "c" "T") ->
   exists p, supernet (ip4 10 1 0 0 16 "c" "T") 8 = Ok (NewObject p) /\ wf p /\
     cls p = cls (ip4 10 1 0 0 16 "c" "T") /\
     prefixlen p = prefixlen (ip4 10 1 0 0 16 "c" "T") - 8 /\
     supernet_of p (ip4 10 1 0 0 16 "c" "T") = true /\
     text p = text (ip4 10 1 0 0 16 "c" "T") /\
     token p = token (ip4 10 1 0 0 16 "c" "T") /\
     parent_token p = token (ip4 10 1 0 0 16 "c" "T")) /\
  (8 < 0 -> supernet (ip4 10 1 0 0 16 "c" "T") 8 = Raise ValueError).
Proof.
  apply (supernet_spec (ip4 10 1 0 0 16 "c" "T") 8).
  - repeat split; by vm_compute.
  - by vm_compute.
Defined.

(** ** Comments *)

Lemma is_prefix_str_in (c t : string) : is_prefix c t = true -> str_in c t = true.
Proof. intros H. destruct t; simpl in *; by rewrite H. Qed.

(** X5: after [p.AddComment(c)] the comment [c] occurs in [p]'s text; the
    old text is the beginning of the new one, and the network, the token and
    the parent token are untouched. *)
Theorem AddComment_records (self : nacaddr) (c : string) :
  str_in c (text (AddComment self c)) = true /\
  (exists s, text (AddComment self c) = text self +:+ s) /\
  net_of (AddComment self c) = net_of self /\
  token (AddComment self c) = token self /\
  parent_token (AddComment self c) = parent_token self.
Proof.
  split.
  - unfold AddComment.
    destruct (truthy (text self)) eqn:Ht.
    + destruct (truthy c) eqn:Hc; simpl.
      * destruct (str_in c (text self)) eqn:Hin; simpl; [done |].
        rewrite <- append_assoc. apply str_in_append_r.
      * apply negb_false_iff, bool_decide_eq_true in Hc. subst c.
        apply str_in_empty.
    + simpl. apply str_in_refl.
  - destruct (AddComment_frame self c) as (? & ? & ? & ?). done.
Qed.

(** ** The linked list *)

Lemma delete_middle {A : Type} (l1 : list A) (x y : A) (l2 : list A) :
  delete (S (length l1)) (l1 ++ x :: y :: l2) = l1 ++ x :: l2.
Proof. induction l1 as [| z l1 IH]; simpl; [done |]. by rewrite IH. Qed.

(** X6: in a well-linked list, [cur.RemoveNext()] unlinks exactly the
    successor of [cur]: the list is the old one without that cell, the values
    of all cells are unchanged, and the unlinked cell has neither [next] nor
    [prev].  On the last cell [RemoveNext] raises [AttributeError]. *)
Theorem RemoveNext_unlinks (nodes : list _LinkedList) (l1 : list nat) (cur : nat) :
  (forall nx l2, linked nodes (l1 ++ cur :: nx :: l2) ->
     exists nodes', RemoveNext nodes cur = Ok nodes' /\
       linked nodes' (l1 ++ cur :: l2) /\
       (forall i, ll_val (nodes' !!! i) = ll_val (nodes !!! i)) /\
       ll_next (nodes' !!! nx) = None /\ ll_prev (nodes' !!! nx) = None) /\
  (linked nodes (l1 ++ [cur]) -> RemoveNext nodes cur = Raise AttributeError).
Proof.
  split.
  - intros nx l2 L.
    assert (Hk : (l1 ++ cur :: nx :: l2) !! length l1 = Some cur).
    { by rewrite lookup_app_r, Nat.sub_diag by lia. }
    assert (HSk : (l1 ++ cur :: nx :: l2) !! S (length l1) = Some nx).
    { rewrite lookup_app_r by lia.
      by replace (S (length l1) - length l1)%nat with 1%nat by lia. }
    destruct (RemoveNext_linked nodes _ _ cur nx L Hk HSk)
      as (nodes' & HR & L' & Hlen & Hval & _).
    rewrite delete_middle in L'.
    exists nodes'. split; [done |]. split; [done |]. split; [done |].
    assert (Hnx : nx ∉ l1 ++ cur :: l2).
    { pose proof (lk_nodup _ _ L) as Hnd.
      apply NoDup_app in Hnd as (_ & Hd & Hnd2).
      apply NoDup_cons in Hnd2 as [Hc Hnd2]. apply NoDup_cons in Hnd2 as [Hn _].
      intros Hin. apply elem_of_app in Hin as [Hin | Hin].
      - apply (Hd nx Hin). set_solver.
      - set_solver. }
    split; [by apply (lk_dead _ _ L') |].
    assert (Hnext : ll_next (nodes !!! cur) = Some nx).
    { by rewrite (lk_next _ _ L _ _ Hk). }
    destruct (RemoveNext_fields nodes cur nx Hnext) as (n2 & HR2 & _ & _ & _ & Hprev).
    + apply (lk_bound _ _ L). set_solver.
    + apply (lk_bound _ _ L). set_solver.
    + intros nn Hnn. apply (lk_bound _ _ L).
      rewrite (lk_next _ _ L _ _ HSk) in Hnn. by apply list_elem_of_lookup_2 in Hnn.
    + rewrite HR in HR2. injection HR2 as <-. rewrite Hprev.
      destruct (decide (ll_next (nodes !!! nx) = Some nx)) as [Hself | _].
      * rewrite (lk_next _ _ L _ _ HSk) in Hself.
        pose proof (lk_nodup _ _ L) as Hnd.
        pose proof (NoDup_lookup _ _ _ _ Hnd HSk Hself). lia.
      * by rewrite decide_True.
  - intros L. unfold RemoveNext.
    assert (Hk : (l1 ++ [cur]) !! length l1 = Some cur).
    { by rewrite lookup_app_r, Nat.sub_diag by lia. }
    rewrite (lk_next _ _ L _ _ Hk).
    rewrite lookup_ge_None_2; [done |]. rewrite length_app. simpl. lia.
Qed.

Lemma RemoveNext_unlinks_witness :
  exists nodes', RemoveNext
      [mkNode (Some 1%nat) None 7%nat; mkNode (Some 2%nat) (Some 0%nat) 8%nat;
       mkNode None (Some 1%nat) 9%nat] 0%nat = Ok nodes' /\
    linked nodes' ([] ++ 0%nat :: [2%nat]) /\
    (forall i, ll_val (nodes' !!! i) =
       ll_val ([mkNode (Some 1%nat) None 7%nat; mkNode (Some 2%nat) (Some 0%nat) 8%nat;
                mkNode None (Some 1%nat) 9%nat] !!! i)) /\
    ll_next (nodes' !!! 1%nat) = None /\ ll_prev (nodes' !!! 1%nat) = None.
Proof.
  apply (proj1 (RemoveNext_unlinks
    [mkNode (Some 1%nat) None 7%nat; mkNode (Some 2%nat) (Some 0%nat) 8%nat;
     mkNode None (Some 1%nat) 9%nat] [] 0%nat) 1%nat [2%nat]).
  apply straight_linked.
  intros i Hi. simpl in Hi.
  destruct i as [| [| [| i]]]; simpl; [done | done | done | lia].
Defined.

Lemma Add_lookup (nodes : list _LinkedList) (t : nat) (v : ref) (i : nat) :
  (t < length nodes)%nat ->
  (Add nodes t v).1 !!! i =
    if decide (i = t) then set_next (nodes !!! t) (Some (length nodes))
    else if decide (i = length nodes) then mkNode None (Some t) v
    else nodes !!! i.
Proof.
  intros Ht. unfold Add. simpl.
  destruct (decide (i = t)) as [-> | Hne].
  - rewrite lookup_total_app_l by (rewrite length_alter; lia).
    by rewrite list_lookup_total_alter_eq by done.
  - destruct (decide (i = length nodes)) as [-> | Hne2].
    + rewrite lookup_total_app_r by (rewrite length_alter; lia).
      by rewrite length_alter, Nat.sub_diag.
    + destruct (decide (i < length nodes)%nat).
      * rewrite lookup_total_app_l by (rewrite length_alter; lia).
        by rewrite list_lookup_total_alter_ne by done.
      * rewrite !lookup_total_ge; [done | lia |].
        rewrite length_app, length_alter. simpl. lia.
Qed.

(** X7: on the last cell [t] of a well-linked list, [t.Add(v)] appends a
    new cell holding [v] after [t] and returns it; all other cells keep their
    values.  A following [t.RemoveNext()] leaves a list linked as before. *)
Theorem Add_appends (nodes : list _LinkedList) (l : list nat) (t : nat) (v : ref) :
  linked nodes (l ++ [t]) ->
  (Add nodes t v).2 = length nodes /\
  linked (Add nodes t v).1 (l ++ [t; length nodes]) /\
  ll_val ((Add nodes t v).1 !!! length nodes) = v /\
  (forall i, (i < length nodes)%nat ->
     ll_val ((Add nodes t v).1 !!! i) = ll_val (nodes !!! i)) /\
  exists nodes', RemoveNext (Add nodes t v).1 t = Ok nodes' /\ linked nodes' (l ++ [t]).
Proof.
  intros L.
  assert (Ht : (t < length nodes)%nat) by (apply (lk_bound _ _ L); set_solver).
  assert (Hkt : (l ++ [t]) !! length l = Some t).
  { by rewrite lookup_app_r, Nat.sub_diag by lia. }
  assert (Hfresh : length nodes ∉ l ++ [t]).
  { intros Hin. apply (lk_bound _ _ L) in Hin. lia. }
  assert (Hnd : NoDup (l ++ [t; length nodes])).
  { replace (l ++ [t; length nodes]) with ((l ++ [t]) ++ [length nodes])
      by (by rewrite <- app_assoc).
    apply NoDup_app. split; [apply (lk_nodup _ _ L) |]. split.
    - intros x Hx Hx'. apply list_elem_of_singleton in Hx'. subst x. done.
    - apply NoDup_singleton. }
  assert (Hlook : forall k i, (l ++ [t; length nodes]) !! k = Some i ->
            (k < length l /\ (l ++ [t]) !! k = Some i /\ i <> t /\ i <> length nodes)%nat \/
            (k = length l /\ i = t) \/ (k = S (length l) /\ i = length nodes)).
  { intros k i Hk. destruct (decide (k < length l)%nat) as [Hlt | Hge].
    - left. rewrite lookup_app_l in Hk by done.
      split; [done |]. split; [by rewrite lookup_app_l |].
      split.
      + intros ->. pose proof (lk_nodup _ _ L) as Hn.
        assert ((l ++ [t]) !! k = Some t) as Hk' by (by rewrite lookup_app_l).
        pose proof (NoDup_lookup _ _ _ _ Hn Hk' Hkt). lia.
      + intros ->. apply Hfresh. apply elem_of_app. left.
        by apply list_elem_of_lookup_2 in Hk.
    - right. rewrite lookup_app_r in Hk by lia.
      destruct (k - length l)%nat as [| [| j]] eqn:E; simpl in Hk; simplify_eq.
      + left. split; [lia | done].
      + right. split; [lia | done]. }
  assert (L' : linked (Add nodes t v).1 (l ++ [t; length nodes])).
  { split.
    + done.
    + intros i Hi. unfold Add. simpl. rewrite length_app, length_alter. simpl.
      apply elem_of_app in Hi as [Hi | Hi].
      * assert (i < length nodes)%nat; [| lia]. apply (lk_bound _ _ L). set_solver.
      * apply elem_of_cons in Hi as [-> | Hi]; [lia |].
        apply list_elem_of_singleton in Hi. lia.
    + intros i Hi. rewrite Add_lookup by done.
      rewrite decide_False by set_solver. rewrite decide_False by set_solver.
      apply (lk_dead _ _ L). set_solver.
    + intros k i Hk. rewrite Add_lookup by done.
      destruct (Hlook k i Hk) as [(Hlt & Hk' & Hn1 & Hn2) | [[-> ->] | [-> ->]]].
      * rewrite !decide_False by done. rewrite (lk_next _ _ L _ _ Hk').
        destruct (decide (S k < length l)%nat).
        -- by rewrite !lookup_app_l by lia.
        -- assert (S k = length l) as Hs by lia. rewrite Hs.
           by rewrite !lookup_app_r, Nat.sub_diag by lia.
      * rewrite decide_True by done. simpl.
        rewrite lookup_app_r by lia.
        by replace (S (length l) - length l)%nat with 1%nat by lia.
      * rewrite decide_False by lia. rewrite decide_True by done. simpl.
        rewrite lookup_ge_None_2; [done |]. rewrite length_app. simpl. lia.
    + intros k i Hk. rewrite Add_lookup by done.
      destruct (Hlook (S k) i Hk) as [(Hlt & Hk' & Hn1 & Hn2) | [[Hs ->] | [Hs ->]]].
      * rewrite !decide_False by done. rewrite (lk_prev _ _ L _ _ Hk').
        by rewrite !lookup_app_l by lia.
      * rewrite decide_True by done. simpl.
        rewrite (lk_prev _ _ L k t) by (by rewrite Hs).
        by rewrite !lookup_app_l by lia.
      * rewrite decide_False by lia. rewrite decide_True by done. simpl.
        assert (k = length l) as -> by lia.
        by rewrite lookup_app_r, Nat.sub_diag by lia.
    + intros i Hk. rewrite Add_lookup by done.
      destruct (Hlook 0%nat i Hk) as [(Hlt & Hk' & Hn1 & Hn2) | [[Hs ->] | [Hs ->]]].
      * rewrite !decide_False by done. by apply (lk_head _ _ L).
      * rewrite decide_True by done. simpl. apply (lk_head _ _ L). by rewrite Hs.
      * lia. }
  split; [done |]. split; [done |]. split; [| split].
  - rewrite Add_lookup by done. rewrite decide_False by lia. by rewrite decide_True.
  - intros i Hi. rewrite Add_lookup by done.
    destruct (decide (i = t)) as [-> | ?]; [done |]. by rewrite decide_False by lia.
  - destruct (RemoveNext_linked _ _ (length l) t (length nodes) L')
      as (nodes' & HR & L'' & _).
    + by rewrite lookup_app_r, Nat.sub_diag by lia.
    + rewrite lookup_app_r by lia.
      by replace (S (length l) - length l)%nat with 1%nat by lia.
    + rewrite delete_middle in L''. eauto.
Qed.

Lemma Add_appends_witness :
  (Add [mkNode None None 7%nat] 0%nat 8%nat).2 = length [mkNode None None 7%nat] /\
  linked (Add [mkNode None None 7%nat] 0%nat 8%nat).1
    ([] ++ [0%nat; length [mkNode None None 7%nat]]) /\
  ll_val ((Add [mkNode None None 7%nat] 0%nat 8%nat).1
            !!! length [mkNode None None 7%nat]) = 8%nat /\
  (forall i, (i < length [mkNode None None 7%nat])%nat ->
     ll_val ((Add [mkNode None None 7%nat] 0%nat 8%nat).1 !!! i) =
     ll_val ([mkNode None None 7%nat] !!! i)) /\
  exists nodes', RemoveNext (Add [mkNode None None 7%nat] 0%nat 8%nat).1 0%nat = Ok nodes' /\
    linked nodes' ([] ++ [0%nat]).
Proof.
  apply (Add_appends [mkNode None None 7%nat] [] 0%nat 8%nat).
  apply (straight_linked [mkNode None None 7%nat]).
  intros i Hi. simpl in Hi. destruct i as [| i]; simpl; [done | lia].
Defined.


(** ** Sorting and the shape of a collapse *)

Definition keyle_ref (h : heap) (r1 r2 : ref) : Prop := keyle (h !!! r1) (h !!! r2).

(** X8: [SortAddrList] returns a permutation of its argument in which
    every element is followed only by elements with a larger or equal key
    (version, then network address, then prefix length): IPv4 comes before
    IPv6.  A list already in that order is returned as it is. *)
Theorem SortAddrList_sorts (h : heap) (l : list ref) :
  Forall wf h ->
  SortAddrList h l ≡ₚ l /\
  StronglySorted (keyle_ref h) (SortAddrList h l) /\
  (Sorted (keyle_ref h) l -> SortAddrList h l = l).
Proof.
  intros Hwf. unfold SortAddrList. split; [apply sorted_perm |]. split.
  - assert (Transitive (keyle_ref h)) as Htr.
    { intros a b c. unfold keyle_ref. apply keyle_trans. }
    apply Sorted_StronglySorted; [exact Htr |]. by apply sorted_keyle.
  - intros Hs. apply sorted_id. apply adj_Sorted. intros u v Huv.
    unfold le_key, get_mixed_type_key.
    apply key_le_keyle; [by apply wf_lookup_total | by apply wf_lookup_total |].
    exact (Sorted_adj _ _ _ _ Hs Huv).
Qed.

Lemma SortAddrList_sorts_witness :
  SortAddrList ex_cut [1%nat; 0%nat] ≡ₚ [1%nat; 0%nat] /\
  StronglySorted (keyle_ref ex_cut) (SortAddrList ex_cut [1%nat; 0%nat]) /\
  (Sorted (keyle_ref ex_cut) [1%nat; 0%nat] ->
   SortAddrList ex_cut [1%nat; 0%nat] = [1%nat; 0%nat]).
Proof.
  apply (SortAddrList_sorts ex_cut [1%nat; 0%nat]).
  repeat constructor; by vm_compute.
Defined.

Lemma chain_no_overlap (h : heap) (l : list ref) (i j : nat) (r1 r2 : ref) :
  Forall wf h -> StronglySorted (sepref h) l ->
  l !! i = Some r1 -> l !! j = Some r2 -> i <> j ->
  overlaps (h !!! r1) (h !!! r2) = false.
Proof.
  intros Hwf Hss Hi Hj Hne.
  assert (forall i j r1 r2, (i < j)%nat -> l !! i = Some r1 -> l !! j = Some r2 ->
            separated (h !!! r1) (h !!! r2)) as Hlt.
  { clear i j r1 r2 Hi Hj Hne. intros i j r1 r2 Hij Hi Hj.
    apply list_elem_of_split_length in Hi as (l1 & l2 & -> & ->).
    apply StronglySorted_app_1_r in Hss.
    apply StronglySorted_cons in Hss as [HF _]. rewrite Forall_forall in HF.
    apply HF. rewrite lookup_app_r in Hj by lia.
    destruct (j - length l1)%nat as [| k] eqn:E; [lia |]. simpl in Hj.
    by apply list_elem_of_lookup_2 in Hj. }
  pose proof (wf_lookup_total h r1 Hwf) as H1.
  pose proof (wf_lookup_total h r2 Hwf) as H2.
  destruct (wf_size _ H1) as (_ & _ & _ & ? & _).
  destruct (wf_size _ H2) as (_ & _ & _ & ? & _).
  apply not_true_iff_false. intros Ho.
  apply overlaps_spec in Ho as (Hc & ? & ?); [| done | done].
  apply version_eq_cls in Hc.
  destruct (decide (i < j)%nat).
  - pose proof (Hlt i j r1 r2 ltac:(lia) Hi Hj) as Hs. unfold separated in Hs. lia.
  - pose proof (Hlt j i r2 r1 ltac:(lia) Hj Hi) as Hs. unfold separated in Hs. lia.
Qed.

(** X9: the result of [CollapseAddrList] is never longer than its input,
    is in ascending order with every prefix ending before the next one begins,
    holds no two overlapping prefixes, and no prefix of it contains its
    successor or is the lower half of a pair of siblings with it. *)
Theorem CollapseAddrList_shape (h : heap) (addresses : list ref) :
  Forall wf h -> valid_refs h addresses ->
  exists h' out,
    CollapseAddrList h addresses [] = Ok (h', out) /\
    (length out <= length addresses)%nat /\
    StronglySorted (sepref h') out /\
    (forall i j r1 r2, out !! i = Some r1 -> out !! j = Some r2 -> i <> j ->
       overlaps (h' !!! r1) (h' !!! r2) = false) /\
    (forall i r1 r2, out !! i = Some r1 -> out !! S i = Some r2 ->
       supernet_of (h' !!! r1) (h' !!! r2) = false /\
       sibling_cond (h' !!! r1) (h' !!! r2) = Ok false).
Proof.
  intros Hwf Hv.
  destruct (CollapseAddrList_run h addresses Hwf Hv)
    as (h' & out & Hrun & Hwf' & Hv' & _ & _ & Hcol & Hlen & _).
  exists h', out. split; [done |]. split; [done |].
  pose proof (collapsed_chain h' out Hwf' Hcol) as Hch.
  split; [done |]. split.
  - intros i j r1 r2. by apply chain_no_overlap.
  - intros i r1 r2 Hi HSi.
    apply list_elem_of_split_length in Hi as (l1 & l2 & -> & ->).
    rewrite lookup_app_r in HSi by lia.
    replace (S (length l1) - length l1)%nat with 1%nat in HSi by lia.
    destruct l2 as [| r2' l2]; [done |]. simpl in HSi. simplify_eq.
    destruct (Hcol r1 r2) as [_ Hn]; [by exists l1, l2 |]. exact Hn.
Qed.

Lemma CollapseAddrList_shape_witness :
  exists h' out,
    CollapseAddrList ex_cut [0%nat; 1%nat] [] = Ok (h', out) /\
    (length out <= length [0%nat; 1%nat])%nat /\
    StronglySorted (sepref h') out /\
    (forall i j r1 r2, out !! i = Some r1 -> out !! j = Some r2 -> i <> j ->
       overlaps (h' !!! r1) (h' !!! r2) = false) /\
    (forall i r1 r2, out !! i = Some r1 -> out !! S i = Some r2 ->
       supernet_of (h' !!! r1) (h' !!! r2) = false /\
       sibling_cond (h' !!! r1) (h' !!! r2) = Ok false).
Proof.
  apply (CollapseAddrList_shape ex_cut [0%nat; 1%nat]).
  - repeat constructor; by vm_compute.
  - repeat constructor.
Defined.

(** ** Partitions of prefixes *)

Lemma _InNetList_spec (h : heap) (adders : list ref) (ip : ref) :
  _InNetList h adders ip = true <->
  exists a, a ∈ adders /\ subnet_of (h !!! ip) (h !!! a) = true.
Proof.
  unfold _InNetList. rewrite existsb_exists.
  split; intros (a & Ha & Hs); exists a; (split; [by apply list_elem_of_In | done]).
Qed.

Lemma IsSuperNet_spec (h : heap) (supernets subnets : list ref) :
  IsSuperNet h supernets subnets = true <->
  forall n, n ∈ subnets -> exists a, a ∈ supernets /\ subnet_of (h !!! n) (h !!! a) = true.
Proof.
  unfold IsSuperNet. rewrite forallb_forall. split.
  - intros H n Hn. apply _InNetList_spec, H. by apply list_elem_of_In.
  - intros H n Hn. apply _InNetList_spec, H. by apply list_elem_of_In.
Qed.

Lemma IsSuperNet_covered (h : heap) (S T : list ref) (x : IPAddress) :
  Forall wf h -> valid_address x ->
  IsSuperNet h S T = true -> covered h T x -> covered h S x.
Proof.
  intros Hwf Hx. rewrite IsSuperNet_spec. intros H1 (t & Ht & Hc).
  destruct (H1 t Ht) as (s & Hs & Hts). exists s. split; [done |].
  apply subnet_of_spec in Hts as (? & ? & ?); [| by apply wf_lookup_total ..].
  apply (contains_mono (h !!! t)); auto using wf_lookup_total.
Qed.

(** X10: [IsSuperNet] is reflexive and transitive on lists of well-formed
    prefixes, it holds for every list against the empty list, and when
    [IsSuperNet(S, T)] holds every address matched by a prefix of [T] is
    matched by a prefix of [S]. *)
Theorem IsSuperNet_order (h : heap) (S T U : list ref) :
  Forall wf h ->
  IsSuperNet h S S = true /\
  IsSuperNet h S [] = true /\
  (IsSuperNet h S T = true -> IsSuperNet h T U = true -> IsSuperNet h S U = true) /\
  (IsSuperNet h S T = true ->
   forall x, valid_address x -> covered h T x -> covered h S x).
Proof.
  intros Hwf.
  assert (forall r, wf (h !!! r)) as Hw by (intros r; by apply wf_lookup_total).
  split; [| split; [| split]].
  - apply IsSuperNet_spec. intros n Hn. exists n. split; [done |].
    apply subnet_of_spec; [done | done |]. split; [done | lia].
  - reflexivity.
  - rewrite !IsSuperNet_spec. intros H1 H2 n Hn.
    destruct (H2 n Hn) as (t & Ht & Hnt). destruct (H1 t Ht) as (s & Hs & Hts).
    exists s. split; [done |].
    apply subnet_of_spec in Hnt as (? & ? & ?); [| done | done].
    apply subnet_of_spec in Hts as (? & ? & ?); [| done | done].
    apply subnet_of_spec; [done | done |]. split; [congruence | lia].
  - intros H1 x Hx. by apply IsSuperNet_covered.
Qed.

Lemma IsSuperNet_order_witness :
  IsSuperNet ex_cut [0%nat] [0%nat] = true /\
  IsSuperNet ex_cut [0%nat] [] = true /\
  (IsSuperNet ex_cut [0%nat] [1%nat] = true -> IsSuperNet ex_cut [1%nat] [1%nat] = true ->
   IsSuperNet ex_cut [0%nat] [1%nat] = true) /\
  (IsSuperNet ex_cut [0%nat] [1%nat] = true ->
   forall x, valid_address x -> covered ex_cut [1%nat] x -> covered ex_cut [0%nat] x).
Proof.
  apply (IsSuperNet_order ex_cut [0%nat] [1%nat] [1%nat]).
  repeat constructor; by vm_compute.
Defined.

(** ** Exclusion at its edges *)

Lemma complements_dict_nil (h : heap) (addresses : list ref) :
  complements_dict h addresses [] = ∅.
Proof. reflexivity. Qed.

Lemma chain_NoDup (h : heap) (l : list ref) :
  Forall wf h -> StronglySorted (sepref h) l -> NoDup l.
Proof.
  intros Hwf. induction 1 as [| r l Hss IH HF]; [constructor |].
  constructor; [| done]. intros Hin. rewrite Forall_forall in HF.
  pose proof (HF r Hin) as Hs. unfold sepref, separated in Hs.
  destruct (wf_size _ (wf_lookup_total h r Hwf)) as (_ & _ & _ & ? & _). lia.
Qed.

Lemma chain_keyle (h : heap) (l : list ref) :
  Forall wf h -> StronglySorted (sepref h) l -> StronglySorted (keyle_ref h) l.
Proof.
  intros Hwf. induction 1 as [| r l Hss IH HF]; constructor; [done |].
  eapply Forall_impl; [exact HF |].
  intros r2 Hs. apply separated_keyle; [by apply wf_lookup_total | exact Hs].
Qed.

Lemma sorted_chain_perm (h : heap) (l l' : list ref) :
  Forall wf h -> StronglySorted (sepref h) l -> l' ≡ₚ l ->
  sorted (get_mixed_type_key h) key_lt l' = l.
Proof.
  intros Hwf Hss HP.
  assert (Transitive (keyle_ref h)) as Htr.
  { intros a b c. unfold keyle_ref. apply keyle_trans. }
  apply (StronglySorted_unique_strong (keyle_ref h)).
  - intros r1 r2 Hr1 Hr2 H12 H21.
    rewrite sorted_perm, HP in Hr1.
    apply list_elem_of_lookup in Hr1 as [i Hi]. apply list_elem_of_lookup in Hr2 as [j Hj].
    destruct (decide (i = j)) as [-> | Hne]; [congruence |].
    pose proof (chain_no_overlap h l i j r1 r2 Hwf Hss Hi Hj Hne) as Ho.
    pose proof (wf_lookup_total h r1 Hwf) as H1.
    pose proof (wf_lookup_total h r2 Hwf) as H2.
    pose proof (no_overlap_separated _ _ H1 H2 H12 Ho) as Hs1.
    pose proof (no_overlap_separated _ _ H2 H1 H21
                  (overlaps_sym_false _ _ H1 H2 Ho)) as Hs2.
    destruct (wf_size _ H1) as (_ & _ & _ & ? & _).
    destruct (wf_size _ H2) as (_ & _ & _ & ? & _).
    unfold separated in *. lia.
  - apply Sorted_StronglySorted; [exact Htr |]. by apply sorted_keyle.
  - by apply chain_keyle.
  - by rewrite sorted_perm.
Qed.

(** X11: with no excludes, [AddressListExclude(A, [])] is
    [CollapseAddrList(A)]: the same objects in the same order with the same
    comments. *)
Theorem AddressListExclude_no_excludes (h : heap) (A : list ref) :
  Forall wf h -> valid_refs h A ->
  AddressListExclude h A [] true = CollapseAddrList h A [].
Proof.
  intros Hwf Hv.
  destruct (CollapseAddrList_run h A Hwf Hv)
    as (h1 & S1 & H1 & Hwf1 & Hv1 & _ & _ & Hcol1 & _).
  unfold AddressListExclude. rewrite H1, bind_Ok. cbv beta iota.
  change (CollapseAddrList h1 [] []) with (Ok (h1, @nil ref) : result (heap * list ref)).
  rewrite !bind_Ok. cbv beta iota.
  assert (forall fuel, exclude_loop fuel h1 S1 [] [] = Ok (h1, S1, [])) as ->.
  { intros fuel. by destruct S1, fuel. }
  rewrite bind_Ok. cbv beta iota. rewrite app_nil_l.
  unfold CollapseAddrList at 1. rewrite complements_dict_nil.
  rewrite (sorted_chain_perm h1 S1 (rev S1) Hwf1 (collapsed_chain _ _ Hwf1 Hcol1))
    by (symmetry; apply Permutation_rev).
  destruct (_CollapseAddrListInternal_run h1 S1 Hwf1 Hv1)
    as (h2 & out & H2 & _ & _ & _ & _ & _ & _ & Hid).
  { apply StronglySorted_Sorted, (chain_keyle h1 S1 Hwf1), (collapsed_chain _ _ Hwf1 Hcol1). }
  destruct (Hid Hcol1) as [-> ->]. exact H2.
Qed.

Lemma AddressListExclude_no_excludes_witness :
  AddressListExclude ex_cut [0%nat; 1%nat] [] true = CollapseAddrList ex_cut [0%nat; 1%nat] [].
Proof.
  apply (AddressListExclude_no_excludes ex_cut [0%nat; 1%nat]).
  - repeat constructor; by vm_compute.
  - repeat constructor.
Defined.

(** X12: when every address of the superset is matched by an exclude, the
    result of [AddressListExclude] is the empty list. *)
Theorem AddressListExclude_all_excluded (h : heap) (A E : list ref) :
  Forall wf h -> valid_refs h A -> valid_refs h E ->
  (forall x, valid_address x -> covered h A x -> covered h E x) ->
  exists h', AddressListExclude h A E true = Ok (h', []).
Proof.
  intros Hwf HvA HvE Hall.
  destruct (AddressListExclude_run h A E Hwf HvA HvE)
    as (h' & out & Hrun & Hwf' & _ & _ & _ & Hcov).
  exists h'. rewrite Hrun. do 2 f_equal.
  destruct out as [| r out]; [done |]. exfalso.
  pose proof (wf_lookup_total h' r Hwf') as Hr.
  assert (covered h' (r :: out) (network_address (h' !!! r))) as Hc.
  { exists r. split; [set_solver |]. by apply contains_lo. }
  apply Hcov in Hc as [HA HE]; [| by apply wf_valid_lo].
  apply HE, Hall; [by apply wf_valid_lo | done].
Qed.

Lemma AddressListExclude_all_excluded_witness :
  exists h', AddressListExclude ex_cut [1%nat] [0%nat] true = Ok (h', []).
Proof.
  apply (AddressListExclude_all_excluded ex_cut [1%nat] [0%nat]).
  - repeat constructor; by vm_compute.
  - repeat constructor.
  - repeat constructor.
  - intros x Hx (r & Hr & Hc). apply list_elem_of_singleton in Hr. subst r.
    exists 0%nat. split; [set_solver |].
    refine (contains_mono (ex_cut !!! 1%nat) (ex_cut !!! 0%nat) x _ _ Hx _ _ _ Hc);
      try (repeat split; by vm_compute).
Defined.

(** ** The token-preserving collapse keeps the matched addresses *)

Lemma groupby_concat {A K : Type} `{EqDecision K} (key : A -> K) (l : list A) :
  concat (groupby key l).*2 = l.
Proof.
  induction l as [| x l IH]; simpl; [done |].
  destruct (groupby key l) as [| [k g] gs]; simpl in *.
  - by rewrite <- IH.
  - destruct (decide (key x = k)); simpl; by rewrite <- IH.
Qed.

Lemma groupby_keys {A K : Type} `{EqDecision K} (key : A -> K) (l : list A) :
  Forall (fun kg => forall x, x ∈ kg.2 -> key x = kg.1) (groupby key l).
Proof.
  induction l as [| x l IH]; simpl; [constructor |].
  destruct (groupby key l) as [| [k g] gs].
  - repeat constructor. simpl. intros y Hy. apply list_elem_of_singleton in Hy. by subst.
  - apply Forall_cons in IH as [Hg Hgs]. simpl in Hg.
    destruct (decide (key x = k)) as [Hk | Hk].
    + constructor; [| done]. simpl. intros y Hy.
      apply elem_of_cons in Hy as [-> | Hy]; auto.
    + constructor; [| by constructor]. simpl. intros y Hy.
      apply list_elem_of_singleton in Hy. by subst.
Qed.

Lemma elem_of_concat {A : Type} (x : A) (ls : list (list A)) :
  x ∈ concat ls <-> exists l, l ∈ ls /\ x ∈ l.
Proof.
  induction ls as [| l ls IH]; simpl.
  - set_solver.
  - rewrite elem_of_app, IH. set_solver.
Qed.

Lemma covered_concat (h : heap) (d : list (list ref)) (x : IPAddress) :
  covered h (concat d) x <-> exists e, e ∈ d /\ covered h e x.
Proof.
  unfold covered. split.
  - intros (r & Hr & Hc). apply elem_of_concat in Hr as (e & He & Hre). eauto.
  - intros (e & He & r & Hr & Hc). exists r. split; [| done].
    apply elem_of_concat. eauto.
Qed.

Lemma collapse_groups_spec (groups : list (string * list ref)) (h : heap) :
  Forall wf h -> Forall (fun g => valid_refs h g.2) groups ->
  exists h' rs,
    collapse_groups h groups = Ok (h', rs) /\ Forall wf h' /\ heap_frame h h' /\
    Forall2 (fun g r => forall x, valid_address x -> covered h' r x <-> covered h g.2 x)
      groups rs.
Proof.
  revert h. induction groups as [| g groups IH]; intros h Hwf Hv.
  - exists h, []. split; [done |]. split; [done |]. split; [apply heap_frame_refl |].
    constructor.
  - apply Forall_cons in Hv as [Hg Hgs].
    destruct (CollapseAddrList_run h g.2 Hwf Hg)
      as (h1 & r & H1 & Hwf1 & Hv1 & Hfr1 & Hcov1 & _).
    destruct (IH h1 Hwf1) as (h2 & rs & H2 & Hwf2 & Hfr2 & HF2).
    { eapply Forall_impl; [exact Hgs |]. intros g'. by apply valid_refs_frame. }
    exists h2, (r :: rs). simpl. rewrite H1, bind_Ok. cbv beta iota.
    rewrite H2, bind_Ok. cbv beta iota.
    split; [done |]. split; [done |]. split; [by apply (heap_frame_trans _ h1) |].
    constructor.
    + intros x Hx. rewrite <- (Hcov1 x Hx).
      apply covered_same_nets. by apply frame_same_nets.
    + clear H2 IH. induction HF2 as [| g' r' gs' rs' Hgr HF2 IH2]; [constructor |].
      apply Forall_cons in Hgs as [Hg' Hgs].
      constructor; [| by apply IH2].
      intros x Hx. rewrite (Hgr x Hx).
      apply covered_same_nets. by apply frame_same_nets.
Qed.

Lemma dedup_scan_spec (fuel : nat) (h : heap) (ip : list ref)
    (d : list (list ref)) (k : nat) (b : bool) (d' : list (list ref)) :
  Forall wf h ->
  dedup_scan fuel h ip d k = Ok (b, d') ->
  (forall e, e ∈ d' -> e ∈ d) /\
  (forall x, valid_address x -> covered h (concat d) x ->
     covered h (concat d') x \/ covered h ip x) /\
  (b = false -> forall x, valid_address x -> covered h ip x -> covered h (concat d') x).
Proof.
  intros Hwf. revert d k. induction fuel as [| fuel IH]; intros d k Hrun.
  - simpl in Hrun. destruct (d !! k) eqn:Hk; [done |]. simplify_eq.
    split; [done |]. split; [auto | done].
  - simpl in Hrun. destruct (d !! k) as [e |] eqn:Hk.
    2: { simplify_eq. split; [done |]. split; [auto | done]. }
    destruct (IsSuperNet h e ip) eqn:H1.
    { simplify_eq. split; [done |]. split; [auto |].
      intros _ x Hx Hc. apply covered_concat. exists e.
      split; [by apply list_elem_of_lookup_2 in Hk |].
      by apply (IsSuperNet_covered h e ip). }
    destruct (IsSuperNet h ip e) eqn:H2.
    + destruct (IH _ _ Hrun) as (Hsub & Hcov & Hb).
      split; [| split; [| done]].
      * intros e' He'. apply Hsub in He'.
        apply list_elem_of_lookup in He' as [i Hi].
        rewrite list_lookup_delete in Hi.
        destruct (decide (i < k)%nat); by apply list_elem_of_lookup_2 in Hi.
      * intros x Hx Hc. apply covered_concat in Hc as (e' & He' & Hc).
        apply list_elem_of_lookup in He' as [i Hi].
        destruct (decide (i = k)) as [-> | Hne].
        -- right. rewrite Hk in Hi. simplify_eq.
           by apply (IsSuperNet_covered h ip e').
        -- apply Hcov; [done |]. apply covered_concat. exists e'. split; [| done].
           destruct (decide (i < k)%nat).
           ++ apply (list_elem_of_lookup_2 _ i). by rewrite list_lookup_delete_lt.
           ++ apply (list_elem_of_lookup_2 _ (pred i)).
              rewrite list_lookup_delete_ge by lia.
              by replace (S (pred i)) with i by lia.
    + by apply (IH _ _ Hrun).
Qed.

Lemma dedup_loop_spec (h : heap) (ret d res : list (list ref)) :
  Forall wf h ->
  dedup_loop h ret d = Ok res ->
  (forall e, e ∈ res -> e ∈ d \/ e ∈ ret) /\
  (forall x, valid_address x ->
     covered h (concat res) x <-> covered h (concat d) x \/ covered h (concat ret) x).
Proof.
  intros Hwf. revert d. induction ret as [| ip ret IH]; intros d Hrun.
  - simpl in Hrun. simplify_eq. split; [auto |].
    intros x Hx. simpl. rewrite covered_nil. tauto.
  - simpl in Hrun.
    destruct (dedup_scan_run (length d) h ip d 0) as (b & d' & Hscan); [lia |].
    rewrite Hscan, bind_Ok in Hrun. cbv beta iota in Hrun.
    destruct (dedup_scan_spec _ _ _ _ _ _ _ Hwf Hscan) as (Hsub & Hcov & Hb).
    destruct (IH _ Hrun) as (Hel & Hc).
    split.
    + intros e He. destruct (Hel e He) as [Hd | Hr]; [| right; set_solver].
      destruct b.
      * apply elem_of_app in Hd as [Hd | Hd]; [left; auto | right; set_solver].
      * left. auto.
    + intros x Hx. rewrite (Hc x Hx). simpl. rewrite (covered_app h ip).
      assert (covered h (concat d') x -> covered h (concat d) x) as Hsub'.
      { rewrite !covered_concat. intros (e & He & Hce). eauto. }
      specialize (Hcov x Hx).
      destruct b.
      * rewrite concat_app, covered_app. simpl. rewrite app_nil_r. tauto.
      * specialize (Hb eq_refl x Hx). tauto.
Qed.

Lemma Forall2_covered (h h' : heap) (groups : list (string * list ref))
    (rs : list (list ref)) (x : IPAddress) :
  Forall2 (fun g r => forall x, valid_address x -> covered h' r x <-> covered h g.2 x)
    groups rs ->
  valid_address x ->
  covered h' (concat rs) x <-> covered h (concat groups.*2) x.
Proof.
  intros HF Hx. induction HF as [| g r gs rs Hgr HF IH]; simpl.
  - by rewrite !covered_nil.
  - by rewrite !covered_app, (Hgr x Hx), IH.
Qed.

(** X13: [CollapseAddrListPreserveTokens] returns, and its result matches
    exactly the addresses its argument matches: dropping a partition that
    another one consumes loses no address. *)
Theorem CollapseAddrListPreserveTokens_addresses (h : heap) (addresses : list ref) :
  Forall wf h -> valid_refs h addresses ->
  exists h' out,
    CollapseAddrListPreserveTokens h addresses = Ok (h', out) /\
    forall x, valid_address x -> (covered h' out x <-> covered h addresses x).
Proof.
  intros Hwf Hv. unfold CollapseAddrListPreserveTokens.
  set (by_token := fun r : ref => parent_token (h !!! r)).
  destruct (collapse_groups_spec
    (groupby by_token (sorted by_token string_lt addresses)) h Hwf)
    as (h1 & rs & H1 & Hwf1 & Hfr1 & HF).
  { apply (groupby_Forall _ (fun r => (r < length h)%nat)).
    apply (valid_refs_perm h addresses); [| done]. symmetry. apply sorted_perm. }
  rewrite H1, bind_Ok. cbv beta iota.
  destruct (dedup_loop_run h1 rs []) as (d & Hd).
  rewrite Hd, bind_Ok.
  exists h1, (concat d). split; [done |].
  intros x Hx.
  destruct (dedup_loop_spec _ _ _ _ Hwf1 Hd) as (_ & Hc).
  rewrite (Hc x Hx). simpl. rewrite covered_nil.
  rewrite (Forall2_covered h h1 _ _ x HF Hx), groupby_concat.
  rewrite (covered_perm h _ addresses x) by apply sorted_perm. tauto.
Qed.

Lemma CollapseAddrListPreserveTokens_addresses_witness :
  exists h' out,
    CollapseAddrListPreserveTokens ex_tokens [0%nat; 1%nat; 2%nat] = Ok (h', out) /\
    forall x, valid_address x ->
      (covered h' out x <-> covered ex_tokens [0%nat; 1%nat; 2%nat] x).
Proof.
  apply (CollapseAddrListPreserveTokens_addresses ex_tokens [0%nat; 1%nat; 2%nat]).
  - repeat constructor; by vm_compute.
  - repeat constructor.
Defined.

(** X14: [CollapseAddrListPreserveTokens] never merges across parent
    tokens: for every prefix of the result there is one parent token such
    that each address of the prefix is matched by an input prefix with that
    parent token. *)
Theorem CollapseAddrListPreserveTokens_isolation (h : heap) (addresses : list ref) :
  Forall wf h -> valid_refs h addresses ->
  exists h' out,
    CollapseAddrListPreserveTokens h addresses = Ok (h', out) /\
    forall r, r ∈ out ->
      exists t, forall x, valid_address x -> contains (h' !!! r) x = true ->
        exists a, a ∈ addresses /\ parent_token (h !!! a) = t /\
                  contains (h !!! a) x = true.
Proof.
  intros Hwf Hv. unfold CollapseAddrListPreserveTokens.
  set (by_token := fun r : ref => parent_token (h !!! r)).
  set (groups := groupby by_token (sorted by_token string_lt addresses)).
  destruct (collapse_groups_spec groups h Hwf) as (h1 & rs & H1 & Hwf1 & Hfr1 & HF).
  { apply (groupby_Forall _ (fun r => (r < length h)%nat)).
    apply (valid_refs_perm h addresses); [| done]. symmetry. apply sorted_perm. }
  rewrite H1, bind_Ok. cbv beta iota.
  destruct (dedup_loop_run h1 rs []) as (d & Hd).
  rewrite Hd, bind_Ok.
  exists h1, (concat d). split; [done |].
  intros r Hr. apply elem_of_concat in Hr as (e & He & Hre).
  destruct (dedup_loop_spec _ _ _ _ Hwf1 Hd) as (Hel & _).
  destruct (Hel e He) as [Hin | Hin]; [set_solver |].
  apply list_elem_of_lookup in Hin as [i Hi].
  destruct (Forall2_lookup_r _ _ _ _ _ HF Hi) as (g & Hg & Hge).
  exists g.1. intros x Hx Hc.
  assert (covered h1 e x) as Hce by (exists r; done).
  apply (Hge x Hx) in Hce as (a & Ha & Hca).
  exists a. split; [| split; [| done]].
  - rewrite <- (sorted_perm by_token string_lt addresses).
    rewrite <- (groupby_concat by_token (sorted by_token string_lt addresses)).
    apply elem_of_concat. exists g.2. split; [| done].
    apply list_elem_of_fmap. exists g. split; [done |].
    by apply list_elem_of_lookup_2 in Hg.
  - pose proof (groupby_keys by_token (sorted by_token string_lt addresses)) as Hk.
    rewrite Forall_forall in Hk.
    apply (Hk g); [| done]. by apply list_elem_of_lookup_2 in Hg.
Qed.

Lemma CollapseAddrListPreserveTokens_isolation_witness :
  exists h' out,
    CollapseAddrListPreserveTokens ex_tokens [0%nat; 1%nat; 2%nat] = Ok (h', out) /\
    forall r, r ∈ out ->
      exists t, forall x, valid_address x -> contains (h' !!! r) x = true ->
        exists a, a ∈ [0%nat; 1%nat; 2%nat] /\ parent_token (ex_tokens !!! a) = t /\
                  contains (ex_tokens !!! a) x = true.
Proof.
  apply (CollapseAddrListPreserveTokens_isolation ex_tokens [0%nat; 1%nat; 2%nat]).
  - repeat constructor; by vm_compute.
  - repeat constructor.
Defined.

(** ** Removing one network from a list *)

Lemma remainder_covered (h xs : heap) (s e : ref) (x : IPAddress) :
  Forall wf h -> valid_address x ->
  cls (h !!! s) = cls (h !!! e) ->
  Forall (remainder (h !!! s) (h !!! e)) xs ->
  (forall z, lo (h !!! s) <= z <= hi (h !!! s) ->
     lo (h !!! e) <= z <= hi (h !!! e) \/ Exists (fun p => lo p <= z <= hi p) xs) ->
  covered (h ++ xs) (seq (length h) (length xs)) x <->
  contains (h !!! s) x = true /\ contains (h !!! e) x = false.
Proof.
  intros Hwf Hx Hc HF Hcv.
  pose proof (wf_lookup_total h s Hwf) as Hws.
  pose proof (wf_lookup_total h e Hwf) as Hwe.
  split.
  - intros (r & Hr & Hcr).
    destruct (cut_lookup h xs (seq (length h) (length xs)) _ r (reflexivity _) HF Hr)
      as (_ & Hwp & Hcp & _ & Hlp & Hhp & Hd).
    split; [exact (contains_mono _ _ x Hwp Hws Hx Hcp Hlp Hhp Hcr) |].
    apply not_true_iff_false. intros Hce.
    apply contains_spec in Hcr as [_ ?]; [| done | done].
    apply contains_spec in Hce as [_ ?]; [| done | done].
    unfold disjoint in Hd. lia.
  - intros [Hcs Hce]. apply contains_spec in Hcs as [Hv Hz]; [| done | done].
    destruct (Hcv _ Hz) as [Hz' | Hex].
    + assert (contains (h !!! e) x = true) as Ht; [| congruence].
      apply contains_spec; [done | done |]. apply version_eq_cls in Hc.
      split; [congruence | done].
    + apply Exists_exists in Hex as (p & Hp & Hzp).
      apply list_elem_of_lookup in Hp as [i Hi].
      pose proof (lookup_lt_Some _ _ _ Hi) as Hlt.
      exists (length h + i)%nat. split.
      * apply elem_of_seq. lia.
      * rewrite lookup_total_app_r by lia.
        replace (length h + i - length h)%nat with i by lia.
        rewrite (list_lookup_total_correct _ _ _ Hi).
        rewrite Forall_lookup in HF.
        destruct (HF _ _ Hi) as (Hwp & Hcp & _).
        apply contains_spec; [done | done |].
        apply version_eq_cls in Hcp. split; [congruence | done].
Qed.

Lemma RemoveAddressFromList_loop_spec (superset : list ref) (e : ref) :
  forall (h : heap) (ret : list ref),
  Forall wf h -> valid_refs h superset -> (e < length h)%nat -> valid_refs h ret ->
  exists xs out,
    RemoveAddressFromList_loop h superset e ret = Ok (h ++ xs, out) /\
    Forall wf (h ++ xs) /\ valid_refs (h ++ xs) out /\
    (forall c, Forall (fun r => cls (h !!! r) = c) (ret ++ superset) ->
       Forall (fun r => cls ((h ++ xs) !!! r) = c) out) /\
    (forall r, r ∈ ret \/ (r ∈ superset /\ overlaps (h !!! r) (h !!! e) = false) ->
       r ∈ out) /\
    forall x, valid_address x ->
      covered (h ++ xs) out x <->
      covered h ret x \/ (covered h superset x /\ contains (h !!! e) x = false).
Proof.
  induction superset as [| addr superset IH]; intros h ret Hwf Hvs He Hvr.
  - exists [], ret. simpl. rewrite !app_nil_r in *.
    split; [done |]. split; [done |]. split; [done |].
    split; [by intros c |].
    split; [intros r [? | [? _]]; [done | set_solver] |].
    intros x Hx. rewrite covered_nil. tauto.
  - apply Forall_cons in Hvs as [Hva Hvs].
    pose proof (wf_lookup_total h addr Hwf) as Hwa.
    pose proof (wf_lookup_total h e Hwf) as Hwe.
    assert (Hcls' : forall c, Forall (fun r => cls (h !!! r) = c) (ret ++ addr :: superset) ->
              Forall (fun r => cls (h !!! r) = c) (ret ++ superset) /\ cls (h !!! addr) = c).
    { intros c Hcls. rewrite Forall_app in Hcls |- *. destruct Hcls as [? Hc2].
      apply Forall_cons in Hc2 as [? ?]. done. }
    simpl.
    destruct (net_eq (h !!! e) (h !!! addr) || subnet_of (h !!! addr) (h !!! e)) eqn:H1.
    { destruct (IH h ret Hwf Hvs He Hvr) as (xs & out & Hrun & Hw & Hv & Hc & Hkeep & Hcov).
      assert (forall x, valid_address x ->
                contains (h !!! addr) x = true -> contains (h !!! e) x = true) as Hin.
      { intros x Hx. apply orb_true_iff in H1 as [H1 | H1].
        - apply net_eq_spec in H1; [| done | done]. apply net_of_eq in H1.
          by rewrite (contains_net _ _ x H1).
        - apply subnet_of_spec in H1 as (? & ? & ?); [| done | done].
          by apply contains_mono. }
      assert (overlaps (h !!! addr) (h !!! e) = true) as Hov.
      { pose proof (Hin _ (wf_valid_lo _ Hwa) (contains_lo _ Hwa)) as Hl.
        apply contains_spec in Hl as [Hv1 Hl]; [| done | by apply wf_valid_lo].
        rewrite network_address_eq in Hv1, Hl. simpl in Hv1, Hl.
        destruct (wf_size _ Hwa) as (_ & _ & _ & ? & _).
        apply overlaps_spec; [done | done |].
        split; [by apply version_eq_cls |]. lia. }
      exists xs, out. split; [done |]. split; [done |]. split; [done |].
      split; [intros c Hcls; apply Hc; by destruct (Hcls' c Hcls) |].
      split.
      { intros r [Hr | [Hr Hno]]; [by apply Hkeep; left |].
        apply elem_of_cons in Hr as [-> | Hr]; [congruence |]. apply Hkeep. by right. }
      intros x Hx. rewrite (Hcov x Hx), covered_cons.
      assert (contains (h !!! addr) x = true -> contains (h !!! e) x = false -> False)
        as Hno.
      { intros Ha Hf. rewrite (Hin x Hx Ha) in Hf. done. }
      clear Hin. tauto. }
    apply orb_false_iff in H1 as [Hne Hns].
    destruct (bool_decide (version (h !!! e) = version (h !!! addr))
              && subnet_of (h !!! e) (h !!! addr)) eqn:H2.
    + apply andb_true_iff in H2 as [Hv2 Hsub]. apply bool_decide_eq_true in Hv2.
      apply subnet_of_spec in Hsub as (Hc2 & Hlo & Hhi); [| done | done].
      destruct (address_exclude_spec (h !!! addr) (h !!! e) Hwa Hwe (eq_sym Hc2) Hlo Hhi Hne)
        as (xs & Hae & HF & Hcv & _ & _).
      rewrite Hae, bind_Ok.
      assert (Hbare : map IP xs = xs).
      { clear -HF. induction HF as [|y xs (_ & _ & Hb & _) HF IH]; simpl; [done |].
        by rewrite IH, IP_bare. }
      rewrite Hbare, alloc_all_spec.
      assert (Hwf1 : Forall wf (h ++ xs)).
      { apply Forall_app. split; [done |]. eapply Forall_impl; [exact HF |].
        by intros p (? & _). }
      pose proof (heap_app_frame h xs) as Hfr.
      assert (Hnew : forall r, r ∈ seq (length h) (length xs) ->
                (r < length (h ++ xs))%nat /\ cls ((h ++ xs) !!! r) = cls (h !!! addr)).
      { intros r Hr.
        destruct (cut_lookup h xs _ _ r (reflexivity _) HF Hr) as (? & _ & ? & _). done. }
      assert (Hold : forall r, (r < length h)%nat -> (h ++ xs) !!! r = h !!! r).
      { intros r Hr. by rewrite lookup_total_app_l. }
      unfold valid_refs in Hvr, Hvs. rewrite Forall_forall in Hvr, Hvs.
      destruct (IH (h ++ xs) (ret ++ seq (length h) (length xs)))
        as (xs2 & out & Hrun & Hw & Hv & Hc & Hkeep & Hcov); auto.
      { apply (valid_refs_frame h); [done |]. by apply Forall_forall. }
      { rewrite length_app. lia. }
      { apply Forall_app. split.
        - apply (valid_refs_frame h); [done |]. by apply Forall_forall.
        - apply Forall_forall. intros r Hr. by destruct (Hnew r Hr). }
      exists (xs ++ xs2), out. rewrite app_assoc.
      split; [done |]. split; [done |]. split; [done |].
      split.
      { intros c Hcls. destruct (Hcls' c Hcls) as [Hcl1 Hca]. apply Hc.
        rewrite <- app_assoc. rewrite Forall_app in Hcl1 |- *.
        destruct Hcl1 as [Hr1 Hr2]. split; [| apply Forall_app; split].
        - rewrite Forall_forall in Hr1 |- *. intros r Hr.
          rewrite Hold by auto. by apply Hr1.
        - apply Forall_forall. intros r Hr. destruct (Hnew r Hr) as [_ ->]. done.
        - rewrite Forall_forall in Hr2 |- *. intros r Hr.
          rewrite Hold by auto. by apply Hr2. }
      split.
      { intros r [Hr | [Hr Hno]].
        - apply Hkeep. left. set_solver.
        - apply elem_of_cons in Hr as [-> | Hr].
          + exfalso. assert (overlaps (h !!! addr) (h !!! e) = true); [| congruence].
            apply overlaps_spec; [done | done |].
            destruct (wf_size _ Hwa) as (_ & _ & _ & ? & _).
            destruct (wf_size _ Hwe) as (_ & _ & _ & ? & _).
            split; [done | lia].
          + apply Hkeep. right. split; [done |].
            rewrite (Hold r) by auto. by rewrite (Hold e). }
      intros x Hx. rewrite (Hcov x Hx), covered_app, covered_cons.
      rewrite (covered_same_nets h (h ++ xs) ret)
        by (apply frame_same_nets; [done | by apply Forall_forall]).
      rewrite (covered_same_nets h (h ++ xs) superset)
        by (apply frame_same_nets; [done | by apply Forall_forall]).
      rewrite (remainder_covered h xs addr e x Hwf Hx (eq_sym Hc2) HF Hcv).
      rewrite (lookup_total_app_l h xs e) by done.
      tauto.
    + destruct (IH h (ret ++ [addr])) as (xs & out & Hrun & Hw & Hv & Hc & Hkeep & Hcov); auto.
      { apply Forall_app. split; [done |]. by constructor. }
      exists xs, out. split; [done |]. split; [done |]. split; [done |].
      split.
      { intros c Hcls. apply Hc. by rewrite <- app_assoc. }
      split.
      { intros r [Hr | [Hr Hno]].
        - apply Hkeep. left. set_solver.
        - apply elem_of_cons in Hr as [-> | Hr].
          + apply Hkeep. left. set_solver.
          + apply Hkeep. by right. }
      intros x Hx. rewrite (Hcov x Hx), covered_app, !covered_cons, covered_nil.
      assert (contains (h !!! addr) x = true -> contains (h !!! e) x = false) as Hout.
      { intros Ha. apply not_true_iff_false. intros Hce.
        apply contains_spec in Ha as [Hv1 ?]; [| done | done].
        apply contains_spec in Hce as [Hv2 ?]; [| done | done].
        assert (cls (h !!! addr) = cls (h !!! e)) as Hcl
          by (apply version_eq_cls; congruence).
        apply andb_false_iff in H2 as [H2 | H2].
        - apply bool_decide_eq_false in H2. congruence.
        - destruct (laminar _ _ Hwa Hwe Hcl) as [Hn | [Hn | Hn]]; [| | lia].
          + assert (subnet_of (h !!! addr) (h !!! e) = true); [| congruence].
            apply subnet_of_spec; [done | done |]. split; [done | lia].
          + assert (subnet_of (h !!! e) (h !!! addr) = true); [| congruence].
            apply subnet_of_spec; [done | done |]. split; [done | lia]. }
      tauto.
Qed.

(** X15: on a superset of one IP version, [RemoveAddressFromList(superset,
    exclude)] returns a list that matches exactly the addresses of the
    superset outside [exclude]; existing objects are left as they are. *)
Theorem RemoveAddressFromList_addresses (h : heap) (superset : list ref) (e : ref)
    (c : ipclass) :
  Forall wf h -> valid_refs h superset -> (e < length h)%nat ->
  Forall (fun r => cls (h !!! r) = c) superset ->
  exists xs out,
    RemoveAddressFromList h superset e = Ok (h ++ xs, out) /\
    forall x, valid_address x ->
      covered (h ++ xs) out x <->
      covered h superset x /\ contains (h !!! e) x = false.
Proof.
  intros Hwf Hvs He Hcls. unfold RemoveAddressFromList.
  destruct (RemoveAddressFromList_loop_spec superset e h [] Hwf Hvs He)
    as (xs & out & Hrun & Hw & Hv & Hc & _ & Hcov); [constructor |].
  rewrite Hrun, bind_Ok. cbv beta iota.
  rewrite (sorted_networks_Ok _ _ c (Hc c Hcls)), bind_Ok.
  exists xs, (sorted (get_mixed_type_key (h ++ xs)) key_lt out). split; [done |].
  intros x Hx. rewrite (covered_perm _ _ out x) by apply sorted_perm.
  rewrite (Hcov x Hx), covered_nil. tauto.
Qed.

Lemma RemoveAddressFromList_addresses_witness :
  exists xs out,
    RemoveAddressFromList ex_cut [0%nat] 1%nat = Ok (ex_cut ++ xs, out) /\
    forall x, valid_address x ->
      covered (ex_cut ++ xs) out x <->
      covered ex_cut [0%nat] x /\ contains (ex_cut !!! 1%nat) x = false.
Proof.
  apply (RemoveAddressFromList_addresses ex_cut [0%nat] 1%nat IPv4).
  - repeat constructor; by vm_compute.
  - repeat constructor.
  - simpl. lia.
  - repeat constructor.
Defined.

(** ** The shape of an exclusion *)

(** X16: the result of [AddressListExclude] is in ascending order with
    every prefix ending before the next one begins, and no prefix of the
    result overlaps a prefix of the excludes. *)
Theorem AddressListExclude_shape (h : heap) (A E : list ref) :
  Forall wf h -> valid_refs h A -> valid_refs h E ->
  exists h' out,
    AddressListExclude h A E true = Ok (h', out) /\
    StronglySorted (sepref h') out /\
    forall r e, r ∈ out -> e ∈ E -> overlaps (h' !!! r) (h !!! e) = false.
Proof.
  intros Hwf HvA HvE.
  destruct (AddressListExclude_run h A E Hwf HvA HvE)
    as (h' & out & Hrun & Hwf' & Hv' & Hfr & Hcol & Hcov).
  exists h', out. split; [done |]. split; [by apply collapsed_chain |].
  intros r e Hr He.
  pose proof (wf_lookup_total h' r Hwf') as Hwr.
  pose proof (wf_lookup_total h e Hwf) as Hwe.
  apply not_true_iff_false. intros Ho.
  apply overlaps_spec in Ho as (Hc & ? & ?); [| done | done].
  destruct (laminar _ _ Hwr Hwe Hc) as [[? ?] | [[? ?] | ?]]; [| | lia].
  - assert (covered h' out (network_address (h' !!! r))) as Hx.
    { exists r. split; [done |]. by apply contains_lo. }
    apply Hcov in Hx as [_ Hn]; [| by apply wf_valid_lo].
    apply Hn. exists e. split; [done |].
    apply (contains_mono (h' !!! r)); auto using wf_valid_lo, contains_lo.
  - assert (covered h' out (network_address (h !!! e))) as Hx.
    { exists r. split; [done |].
      apply (contains_mono (h !!! e)); auto using wf_valid_lo, contains_lo. }
    apply Hcov in Hx as [_ Hn]; [| by apply wf_valid_lo].
    apply Hn. exists e. split; [done |]. by apply contains_lo.
Qed.

Lemma AddressListExclude_shape_witness :
  exists h' out,
    AddressListExclude ex_cut [0%nat] [1%nat] true = Ok (h', out) /\
    StronglySorted (sepref h') out /\
    forall r e, r ∈ out -> e ∈ [1%nat] -> overlaps (h' !!! r) (ex_cut !!! e) = false.
Proof.
  apply (AddressListExclude_shape ex_cut [0%nat] [1%nat]).
  - repeat constructor; by vm_compute.
  - repeat constructor.
  - repeat constructor.
Defined.

(** ** The complement index *)

Lemma complements_fold_lookup (h : heap) (aset : gset IPAddress) (k : IPAddress)
    (C : list ref) :
  forall d : gmap IPAddress (list nacaddr),
  default [] (fold_left
    (fun d ca =>
       let k := network_address (h !!! ca) in
       if bool_decide (k ∈ aset)
       then <[k := default [] (d !! k) ++ [h !!! ca]]> d
       else d) C d !! k) =
  default [] (d !! k) ++
    (if bool_decide (k ∈ aset)
     then (fun ca => h !!! ca) <$>
            filter (fun ca => network_address (h !!! ca) = k) C
     else []).
Proof.
  induction C as [| ca C IH]; intros d; simpl.
  - case_bool_decide; simpl; by rewrite app_nil_r.
  - rewrite IH. rewrite filter_cons.
    destruct (decide (network_address (h !!! ca) = k)) as [Hk | Hk].
    + rewrite Hk. destruct (bool_decide (k ∈ aset)); simpl.
      * rewrite lookup_insert_eq. simpl. by rewrite <- app_assoc.
      * done.
    + destruct (bool_decide (network_address (h !!! ca) ∈ aset)); [| done].
      by rewrite lookup_insert_ne.
Qed.

Lemma complements_dict_default (h : heap) (addresses complement_addresses : list ref)
    (k : IPAddress) :
  default [] (complements_dict h addresses complement_addresses !! k) =
    if bool_decide (k ∈ (fun a => network_address (h !!! a)) <$> addresses)
    then (fun ca => h !!! ca) <$>
           filter (fun ca => network_address (h !!! ca) = k) complement_addresses
    else [].
Proof.
  unfold complements_dict. rewrite complements_fold_lookup, lookup_empty. simpl.
  assert (k ∈ (list_to_set (map (fun a => network_address (h !!! a)) addresses)
               : gset IPAddress) <->
          k ∈ (fun a => network_address (h !!! a)) <$> addresses) as Hiff.
  { by rewrite elem_of_list_to_set. }
  repeat case_bool_decide; tauto.
Qed.

(** X17: the complement index built by [CollapseAddrList] holds, at the
    network address of an input prefix, the complements with that network
    address in their order; a complement whose network address is the network
    address of no input prefix is left out, and the lookup of any other
    address finds nothing. *)
Theorem complements_dict_lookup (h : heap) (addresses complement_addresses : list ref)
    (k : IPAddress) :
  default [] (complements_dict h addresses complement_addresses !! k) =
    if bool_decide (k ∈ (fun a => network_address (h !!! a)) <$> addresses)
    then (fun ca => h !!! ca) <$>
           filter (fun ca => network_address (h !!! ca) = k) complement_addresses
    else [].
Proof. apply complements_dict_default. Qed.

(** ** Complements and mixed versions *)

Lemma netmask_between_true (m c a : nacaddr) :
  netmask_between m c a = Ok true -> version m = version c /\ version c = version a.
Proof.
  unfold netmask_between, address_le, address_lt.
  change (netmask m).1 with (version m). change (netmask c).1 with (version c).
  change (netmask a).1 with (version a).
  destruct (bool_decide (version m = version c)) eqn:H1; [| done].
  rewrite bind_Ok, bind_Ok. apply bool_decide_eq_true in H1.
  destruct (_ || _); [| done].
  destruct (bool_decide (version c = version a)) eqn:H2; [| done].
  apply bool_decide_eq_true in H2. done.
Qed.

Lemma _SafeToMerge_loop_false (a m : nacaddr) (l : list nacaddr) :
  _SafeToMerge_loop a m l = Ok false -> version m = version a.
Proof.
  induction l as [| c l IH]; simpl; [done |].
  destruct (netmask_between m c a) as [[|] |] eqn:Hb; simpl; [| done | done].
  intros _. apply netmask_between_true in Hb. destruct Hb. congruence.
Qed.

(** X18: when the merge target and the candidate have different IP
    versions, [_SafeToMerge] never answers [False]; and if the first complement
    at the candidate's network address has the candidate's version, it raises
    [TypeError], because netmasks of different versions do not compare. *)
Theorem SafeToMerge_mixed_versions (a m : nacaddr) (C : gmap IPAddress (list nacaddr)) :
  version m <> version a ->
  _SafeToMerge a m C <> Ok false /\
  (forall c l, C !! network_address a = Some (c :: l) -> version c = version a ->
     _SafeToMerge a m C = Raise TypeError).
Proof.
  intros Hv. split.
  - intros H. by apply _SafeToMerge_loop_false in H.
  - intros c l HC Hc. unfold _SafeToMerge. rewrite HC. simpl.
    unfold netmask_between, address_le, address_lt.
    change (netmask m).1 with (version m). change (netmask c).1 with (version c).
    rewrite (bool_decide_eq_false_2 (version m = version c)) by congruence. done.
Qed.

Lemma SafeToMerge_mixed_versions_witness :
  _SafeToMerge (new_net IPv6 0 64 "" "") ex_target
    {[ network_address (new_net IPv6 0 64 "" "") := [new_net IPv6 0 32 "" ""] ]}
    <> Ok false /\
  (forall c l,
     ({[ network_address (new_net IPv6 0 64 "" "") := [new_net IPv6 0 32 "" ""] ]}
        : gmap IPAddress (list nacaddr)) !! network_address (new_net IPv6 0 64 "" "")
       = Some (c :: l) ->
     version c = version (new_net IPv6 0 64 "" "") ->
     _SafeToMerge (new_net IPv6 0 64 "" "") ex_target
       {[ network_address (new_net IPv6 0 64 "" "") := [new_net IPv6 0 32 "" ""] ]}
       = Raise TypeError).
Proof.
  apply (SafeToMerge_mixed_versions (new_net IPv6 0 64 "" "") ex_target).
  by vm_compute.
Defined.

Lemma key_lt_versions (p q : nacaddr) :
  version p < version q ->
  key_lt (_get_networks_key p) (_get_networks_key q) = true /\
  key_lt (_get_networks_key q) (_get_networks_key p) = false.
Proof.
  intros Hv. unfold _get_networks_key, key_lt.
  rewrite !bool_decide_eq_true_2 by lia. split; lia.
Qed.

(** X19: collapsing an IPv4 prefix and an IPv6 prefix, in either order,
    with a complement at the network address of the IPv6 prefix raises
    [TypeError]: the safety test compares the IPv4 netmask with the
    complement's IPv6 netmask. *)
Theorem CollapseAddrList_mixed_complement (h : heap) (a b c : ref) :
  version (h !!! a) < version (h !!! b) ->
  network_address (h !!! c) = network_address (h !!! b) ->
  CollapseAddrList h [a; b] [c] = Raise TypeError /\
  CollapseAddrList h [b; a] [c] = Raise TypeError.
Proof.
  intros Hv Hc.
  destruct (key_lt_versions _ _ Hv) as [Hab Hba].
  assert (Hvc : version (h !!! c) = version (h !!! b)).
  { unfold network_address in Hc. by injection Hc. }
  assert (Hdict : forall l, b ∈ l ->
            default [] (complements_dict h l [c] !! network_address (h !!! b)) = [h !!! c]).
  { intros l Hb. rewrite complements_dict_default.
    rewrite bool_decide_eq_true_2.
    - rewrite filter_cons, decide_True by done. done.
    - apply list_elem_of_fmap. eauto. }
  assert (Hrun : forall l, b ∈ l ->
            _CollapseAddrListInternal h [a; b] (complements_dict h l [c]) = Raise TypeError).
  { intros l Hb. unfold _CollapseAddrListInternal. simpl.
    unfold collapse_step. simpl. unfold _SafeToMerge. rewrite (Hdict l Hb). simpl.
    unfold netmask_between, address_le, address_lt.
    change (netmask (h !!! a)).1 with (version (h !!! a)).
    change (netmask (h !!! c)).1 with (version (h !!! c)).
    rewrite (bool_decide_eq_false_2 (version (h !!! a) = version (h !!! c))) by lia.
    done. }
  split; unfold CollapseAddrList.
  - change (sorted (get_mixed_type_key h) key_lt [a; b])
      with (if key_lt (get_mixed_type_key h b) (get_mixed_type_key h a)
            then [b; a] else [a; b]).
    unfold get_mixed_type_key. rewrite Hba. apply Hrun. set_solver.
  - change (sorted (get_mixed_type_key h) key_lt [b; a])
      with (if key_lt (get_mixed_type_key h a) (get_mixed_type_key h b)
            then [a; b] else [b; a]).
    unfold get_mixed_type_key. rewrite Hab. apply Hrun. set_solver.
Qed.

Definition ex_mixed : heap :=
  [ip4 10 0 0 0 8 "" ""; new_net IPv6 0 64 "" ""; new_net IPv6 0 32 "" ""].

Lemma CollapseAddrList_mixed_complement_witness :
  CollapseAddrList ex_mixed [0%nat; 1%nat] [2%nat] = Raise TypeError /\
  CollapseAddrList ex_mixed [1%nat; 0%nat] [2%nat] = Raise TypeError.
Proof.
  apply (CollapseAddrList_mixed_complement ex_mixed 0%nat 1%nat 2%nat); by vm_compute.
Defined.

(** ** No comment is lost in a collapse *)

Lemma str_in_trans (a b c : string) :
  str_in a b = true -> str_in b c = true -> str_in a c = true.
Proof.
  rewrite !str_in_spec. intros (p1 & q1 & ->) (p2 & q2 & ->).
  exists (p2 +:+ p1), (q1 +:+ q2). by rewrite !append_assoc.
Qed.

Lemma str_in_append_l (c t s : string) :
  str_in c t = true -> str_in c (t +:+ s) = true.
Proof.
  rewrite !str_in_spec. intros (p & q & ->).
  exists p, (q +:+ s). by rewrite !append_assoc.
Qed.

Lemma AddComment_str_in (self : nacaddr) (c : string) :
  str_in c (text (AddComment self c)) = true.
Proof.
  unfold AddComment.
  destruct (truthy (text self)) eqn:Ht.
  - destruct (truthy c) eqn:Hc; simpl.
    + destruct (str_in c (text self)) eqn:Hin; simpl; [done |].
      rewrite <- append_assoc. apply str_in_append_r.
    + apply negb_false_iff, bool_decide_eq_true in Hc. subst c.
      apply str_in_empty.
  - simpl. apply str_in_refl.
Qed.

(** [o] lies within [p] and its comment occurs in that of [p]. *)
Definition within (o p : nacaddr) : Prop :=
  cls o = cls p /\ lo p <= lo o /\ hi o <= hi p /\ str_in (text o) (text p) = true.

Lemma within_refl (o : nacaddr) : within o o.
Proof. repeat split; try lia. apply str_in_refl. Qed.

Lemma within_trans (o p q : nacaddr) : within o p -> within p q -> within o q.
Proof.
  intros (? & ? & ? & ?) (? & ? & ? & ?).
  split; [congruence |]. split; [lia |]. split; [lia |]. by apply (str_in_trans _ (text p)).
Qed.

Lemma frame_within (o o' : nacaddr) : obj_frame o o' -> within o o'.
Proof.
  intros (Hn & _ & _ & s & Hs).
  destruct (net_of_lo_hi _ _ Hn) as (? & ? & ?). apply net_of_eq in Hn as (? & _).
  split; [done |]. split; [lia |]. split; [lia |].
  rewrite Hs. apply str_in_append_l, str_in_refl.
Qed.

Lemma astep_within (a a' : astate) :
  Forall wf (a_heap a) ->
  (forall x, x ∈ a_chain a -> (x.2 < length (a_heap a))%nat) ->
  astep a a' ->
  forall y, y ∈ a_chain a ->
    exists y', y' ∈ a_chain a' /\ within (nv (a_heap a) y) (nv (a_heap a') y').
Proof.
  intros Hwf0 Hvalid0 St y Hy.
  destruct St as [h ch cur fr Hnin | h l1 cur rc fr
                 | h l1 cur rc nx rn l2 fr Hsup Hsib
                 | h l1 cur rc nx rn l2 fr Hsup
                 | h l1 cur rc nx rn l2 fr h' r' Hsup Hsib HSn]; simpl in *;
    try (exists y; split; [done | apply within_refl]).
  - set (h1 := heap_AddComment h rc (text (h !!! rn))).
    pose proof (heap_AddComment_frame h rc (text (h !!! rn))) as [_ Hfr].
    assert (Hvalid : forall z, z ∈ l1 ++ (cur, rc) :: (nx, rn) :: l2 -> (z.2 < length h)%nat)
      by (intros z Hz; apply (Hvalid0 z Hz)).
    assert (within (nv h (cur, rc)) (nv h1 (cur, rc))) as Hcur.
    { apply frame_within, Hfr. apply (Hvalid (cur, rc)). set_solver. }
    destruct (decide (y = (nx, rn))) as [-> | Hne].
    + exists (cur, rc). split; [set_solver |].
      unfold nv. simpl.
      assert (h1 !!! rc = AddComment (h !!! rc) (text (h !!! rn))) as ->.
      { unfold h1, heap_AddComment. rewrite list_lookup_total_insert_eq; [done |].
        apply (Hvalid (cur, rc)). set_solver. }
      pose proof (wf_lookup_total _ rc Hwf0) as Hwc.
      pose proof (wf_lookup_total _ rn Hwf0) as Hwn. simpl in *.
      apply supernet_of_spec in Hsup as (Hcl & Hlo & Hhi); [| done | done].
      destruct (net_of_lo_hi _ _ (AddComment_net (h !!! rc) (text (h !!! rn))))
        as (Hl & Hh & _).
      pose proof (proj1 (net_of_eq _ _) (AddComment_net (h !!! rc) (text (h !!! rn))))
        as (Hc & _).
      split; [congruence |]. split; [lia |]. split; [lia |]. apply AddComment_str_in.
    + exists y. split; [set_solver |].
      apply frame_within, Hfr. by apply Hvalid.
  - set (h1 := heap_AddComment h rc (text (h !!! rn))) in *.
    pose proof (heap_AddComment_frame h rc (text (h !!! rn))) as [_ Hfr].
    assert (Hvalid : forall z, z ∈ l1 ++ (cur, rc) :: (nx, rn) :: l2 -> (z.2 < length h)%nat)
      by (intros z Hz; apply (Hvalid0 z Hz)).
    assert (Hnet1 : forall r, net_of (h1 !!! r) = net_of (h !!! r))
      by (intros; apply heap_AddComment_net).
    assert (Hwfh : forall r, wf (h !!! r)) by (intros; by apply wf_lookup_total).
    assert (Hsib1 : sibling_cond (h1 !!! rc) (h !!! rn) = Ok true).
    { by rewrite (sibling_cond_net _ (h !!! rc) _ (h !!! rn)). }
    destruct (heap_Supernet_sibling h1 rc (h !!! rn))
      as (p & HSp & Hwfp & Hvp & Hnp & Hlp & Hlop & Hhip & Hadjp & Htp & _);
      [by apply wf_lookup_total, heap_AddComment_wf | done | done |].
    rewrite HSp in HSn. injection HSn as <- <-.
    assert (Hlen1 : length h1 = length h) by apply heap_AddComment_length.
    destruct (net_of_lo_hi _ _ (Hnet1 rc)) as (Hlo1 & Hhi1 & Hv1).
    assert (Hp : (h1 ++ [p]) !!! length h1 = p).
    { rewrite lookup_total_app_r by lia. by rewrite Nat.sub_diag. }
    assert (Hrc1 : h1 !!! rc = AddComment (h !!! rc) (text (h !!! rn))).
    { unfold h1, heap_AddComment. rewrite list_lookup_total_insert_eq; [done |].
      apply (Hvalid (cur, rc)). set_solver. }
    assert (Hvcn : version (h !!! rn) = version (h !!! rc)).
    { unfold sibling_cond in Hsib. case_bool_decide; [done | discriminate]. }
    destruct (wf_size _ (Hwfh rc)) as (_ & _ & _ & ? & _).
    destruct (wf_size _ (Hwfh rn)) as (_ & _ & _ & ? & _).
    assert (Hclp : cls p = cls (h !!! rc)).
    { apply version_eq_cls. rewrite Hvp. by apply version_eq_cls, net_of_eq. }
    assert (y ∈ l1 \/ y = (cur, rc) \/ y = (nx, rn) \/ y ∈ l2) as Hcases by set_solver.
    assert (Hother : forall z, z ∈ l1 ++ (cur, rc) :: (nx, rn) :: l2 ->
              within (nv h z) (nv (h1 ++ [p]) z)).
    { intros z Hz. unfold nv.
      rewrite lookup_total_app_l by (rewrite Hlen1; by apply Hvalid).
      apply frame_within, Hfr. by apply Hvalid. }
    destruct Hcases as [Hy' | [-> | [-> | Hy']]].
    + exists y. split; [set_solver |]. apply Hother. set_solver.
    + exists (cur, length h1). split; [set_solver |]. unfold nv. simpl. rewrite Hp.
      split; [done |]. split; [lia |]. split; [lia |].
      rewrite Htp, Hrc1.
      destruct (AddComment_frame (h !!! rc) (text (h !!! rn))) as (_ & _ & _ & s & ->).
      apply str_in_append_l, str_in_refl.
    + exists (cur, length h1). split; [set_solver |]. unfold nv. simpl. rewrite Hp.
      split; [rewrite Hclp; by apply version_eq_cls |]. split; [lia |]. split; [lia |].
      rewrite Htp, Hrc1. apply AddComment_str_in.
    + exists y. split; [set_solver |]. apply Hother. set_solver.
Qed.

Lemma rtc_astep_within (a a' : astate) :
  ainv a -> rtc astep a a' ->
  forall y, y ∈ a_chain a ->
    exists y', y' ∈ a_chain a' /\ within (nv (a_heap a) y) (nv (a_heap a') y').
Proof.
  intros I R. induction R as [| a b c St R IH]; intros y Hy.
  - exists y. split; [done | apply within_refl].
  - destruct (astep_within a b (ai_wf _ I) (ai_valid _ I) St y Hy) as (y1 & Hy1 & Hw1).
    destruct (IH (astep_ainv _ _ I St) y1 Hy1) as (y2 & Hy2 & Hw2).
    exists y2. split; [done |]. by apply (within_trans _ (nv (a_heap b) y1)).
Qed.

(** The run of the collapser on a sorted, non-empty list as a sequence of
    steps of the machine. *)
Lemma _CollapseAddrListInternal_trace (h : heap) (addresses : list ref) :
  addresses <> [] -> Forall wf h -> valid_refs h addresses ->
  Sorted (fun r1 r2 => keyle (h !!! r1) (h !!! r2)) addresses ->
  exists a a',
    a_heap a = h /\ (a_chain a).*2 = addresses /\ ainv a /\
    rtc astep a a' /\ a_fringe a' = [] /\
    _CollapseAddrListInternal h addresses ∅ = Ok (a_heap a', (a_chain a').*2).
Proof.
  intros Hne Hwf Hvalid Hsorted.
  destruct addresses as [|a0 rest] eqn:Haddr; [done |].
  rewrite <- Haddr in *.
  unfold _CollapseAddrListInternal. rewrite Haddr. cbv beta iota. rewrite <- Haddr.
  assert (St0 : straight [mkNode None None a0]).
  { intros i Hi. simpl in Hi. assert (i = 0%nat) as -> by lia. by split. }
  destruct (build_list_spec rest [mkNode None None a0] [0%nat] St0 ltac:(done))
    as (St & Hval & Hfr). simpl in St, Hval, Hfr.
  destruct (build_list [mkNode None None a0] [0%nat] 0 rest) as [nodes fringe].
  simpl in St, Hval, Hfr.
  assert (Hfr' : fringe = seq 0 (length addresses)) by (by rewrite Haddr, Hfr).
  rewrite <- Haddr in Hval.
  destruct (init_rep_ainv h nodes addresses Hne St Hval Hwf Hvalid Hsorted)
    as (R & I & Hm & Hsnd).
  set (a := mkA h (zip (seq 0 (length addresses)) addresses) (seq 0 (length addresses))) in *.
  rewrite <- Hfr' in R.
  destruct (collapse_loop_run (3 * length addresses) _ a R I) as (st' & a' & Hl & R' & HR & Hf');
    [lia |].
  rewrite Hl, bind_Ok.
  pose proof (rtc_astep_ainv _ _ I HR) as I'.
  pose proof (rtc_astep_length _ _ HR) as Hlen'.
  assert (Hlenz : length (a_chain a) = length addresses).
  { unfold a. simpl. rewrite length_zip, length_seq. lia. }
  pose proof (package_linked _ _ (rep_linked _ _ R') (S (length addresses)) 0%nat) as Hp.
  rewrite (ai_head _ I'), drop_0 in Hp. rewrite Hp by (rewrite length_fmap; lia).
  rewrite bind_Ok.
  assert (Hout : (fun i => ll_val (st_nodes st' !!! i)) <$> (a_chain a').*1 = (a_chain a').*2).
  { rewrite <- list_fmap_compose. apply list_fmap_ext.
    intros i [j r] Hx. simpl. apply (rep_val _ _ R').
    apply list_elem_of_lookup. eauto. }
  rewrite Hout, (rep_heap _ _ R').
  exists a, a'. done.
Qed.

(** X20: no comment is lost in a collapse: for every input prefix there
    is a prefix in the result of [CollapseAddrList] that contains it and whose
    comment text contains the input prefix's comment as a substring. *)
Theorem CollapseAddrList_keeps_comments (h : heap) (addresses : list ref) :
  Forall wf h -> valid_refs h addresses ->
  exists h' out,
    CollapseAddrList h addresses [] = Ok (h', out) /\
    forall r0, r0 ∈ addresses ->
      exists r, r ∈ out /\ subnet_of (h !!! r0) (h' !!! r) = true /\
                str_in (text (h !!! r0)) (text (h' !!! r)) = true.
Proof.
  intros Hwf Hv. unfold CollapseAddrList.
  change (complements_dict h addresses []) with (∅ : gmap IPAddress (list nacaddr)).
  pose proof (sorted_perm (get_mixed_type_key h) key_lt addresses) as HP.
  set (l := sorted (get_mixed_type_key h) key_lt addresses) in *.
  destruct (decide (l = [])) as [Hnil | Hne].
  { rewrite Hnil. exists h, []. split; [done |].
    intros r0 Hr0. rewrite <- HP, Hnil in Hr0. set_solver. }
  destruct (_CollapseAddrListInternal_trace h l Hne Hwf)
    as (a & a' & Hh & Hch & I & HR & _ & Hrun).
  { by apply (valid_refs_perm h addresses). }
  { by apply sorted_keyle. }
  rewrite Hrun. exists (a_heap a'), (a_chain a').*2. split; [done |].
  intros r0 Hr0. rewrite <- HP, <- Hch in Hr0.
  apply list_elem_of_fmap in Hr0 as (y & -> & Hy).
  destruct (rtc_astep_within a a' I HR y Hy) as (y' & Hy' & Hc & Hlo & Hhi & Hs).
  exists y'.2. split; [by apply list_elem_of_fmap_2 |].
  unfold nv in *. rewrite Hh in *. split; [| done].
  apply subnet_of_spec; [by apply wf_lookup_total | | done].
  apply wf_lookup_total, (rtc_astep_ainv _ _ I HR).
Qed.

Lemma CollapseAddrList_keeps_comments_witness :
  exists h' out,
    CollapseAddrList ex_pair [0%nat; 1%nat] [] = Ok (h', out) /\
    forall r0, r0 ∈ [0%nat; 1%nat] ->
      exists r, r ∈ out /\ subnet_of (ex_pair !!! r0) (h' !!! r) = true /\
                str_in (text (ex_pair !!! r0)) (text (h' !!! r)) = true.
Proof.
  apply (CollapseAddrList_keeps_comments ex_pair [0%nat; 1%nat]).
  - repeat constructor; by vm_compute.
  - repeat constructor.
Defined.

(** ** The result of a collapse is canonical *)

(** Two neighbouring halves of one supernet pass the sibling test. *)
Lemma sibling_cond_halves (a b : nacaddr) :
  wf a -> wf b -> cls a = cls b -> prefixlen a = prefixlen b ->
  hi a + 1 = lo b -> network a mod (2 * size a) = 0 ->
  sibling_cond a b = Ok true.
Proof.
  intros Ha Hb Hc Hl Hadj Hmod.
  destruct (wf_size a Ha) as (Hsa & _ & _ & _ & Hha).
  destruct (wf_size b Hb) as (_ & _ & ? & ? & Hhb).
  assert (max_prefixlen a = max_prefixlen b) as Hw by (unfold max_prefixlen; by rewrite Hc).
  assert (prefixlen a <> 0) as Hnz.
  { intros Hz0. pose proof Ha as (_ & Hn & _). pose proof Hb as (_ & ? & _).
    unfold hi, lo, size in *. rewrite Hz0, Z.sub_0_r, Hw in *. lia. }
  unfold sibling_cond.
  rewrite (bool_decide_eq_true_2 (version a = version b)) by (by apply version_eq_cls).
  rewrite (bool_decide_eq_true_2 (prefixlen a = prefixlen b)) by done. simpl.
  rewrite address_add_broadcast by done.
  rewrite bool_decide_eq_true_2 by (rewrite Hw; lia). rewrite bind_Ok.
  rewrite (bool_decide_eq_true_2 (_ = network_address b)).
  2: { rewrite network_address_eq. f_equal; [by apply version_eq_cls | done]. }
  simpl.
  destruct (Supernet_wf a Ha Hnz) as (p & -> & Hcp & _ & Hnp & _).
  rewrite bind_Ok. simpl. f_equal. apply bool_decide_eq_true.
  unfold network_address. f_equal; [by apply version_eq_cls |].
  rewrite Hnp. apply Z.div_exact in Hmod; lia.
Qed.

Lemma chain_adjacent (h : heap) (l : list ref) (r1 r2 : ref) :
  Forall wf h -> StronglySorted (sepref h) l -> r1 ∈ l -> r2 ∈ l ->
  version (h !!! r1) = version (h !!! r2) -> hi (h !!! r1) + 1 = lo (h !!! r2) ->
  adj l r1 r2.
Proof.
  intros Hwf Hss H1 H2 Hv Hadj.
  assert (forall r, wf (h !!! r)) as Hw by (intros; by apply wf_lookup_total).
  assert (forall r, lo (h !!! r) <= hi (h !!! r)) as Hlh.
  { intros r. by destruct (wf_size _ (Hw r)) as (_ & _ & _ & ? & _). }
  apply list_elem_of_split in H1 as (l1 & l2 & ->).
  pose proof (StronglySorted_app_1_elem_of _ _ _ r2 r1 Hss) as Hbefore.
  apply elem_of_app in H2 as [H2 | H2].
  { specialize (Hbefore H2 ltac:(set_solver)). unfold sepref, separated in Hbefore.
    pose proof (Hlh r1). pose proof (Hlh r2). lia. }
  apply elem_of_cons in H2 as [-> | H2].
  { pose proof (Hlh r1). lia. }
  apply StronglySorted_app_1_r in Hss.
  apply StronglySorted_cons in Hss as [HF Hss]. rewrite Forall_forall in HF.
  destruct l2 as [| m l2]; [set_solver |].
  apply elem_of_cons in H2 as [-> | H2]; [by exists l1, l2 |].
  exfalso.
  apply StronglySorted_cons in Hss as [HF2 _]. rewrite Forall_forall in HF2.
  pose proof (HF m ltac:(set_solver)) as S1. pose proof (HF2 r2 H2) as S2.
  unfold sepref, separated in S1, S2. pose proof (Hlh m). lia.
Qed.

(** In a collapsed list, a prefix all of whose addresses are matched lies
    within a single member. *)
Lemma collapsed_inside (h : heap) (l : list ref) :
  Forall wf h -> collapsed h l ->
  forall (n : nat) (q : nacaddr),
    wf q -> max_prefixlen q - prefixlen q = Z.of_nat n ->
    (forall x, valid_address x -> contains q x = true -> covered h l x) ->
    exists r, r ∈ l /\ subnet_of q (h !!! r) = true.
Proof.
  intros Hwf Hcol.
  pose proof (collapsed_chain h l Hwf Hcol) as Hss.
  assert (forall r, wf (h !!! r)) as Hw by (intros; by apply wf_lookup_total).
  induction n as [| n IH]; intros q Hq Hn Hfill.
  - destruct (Hfill _ (wf_valid_lo q Hq) (contains_lo q Hq)) as (r & Hr & Hc).
    exists r. split; [done |].
    apply contains_spec in Hc as [Hv Hz]; [| done | by apply wf_valid_lo].
    apply subnet_of_spec; [done | done |].
    rewrite network_address_eq in Hv, Hz. simpl in Hv, Hz.
    split; [by apply version_eq_cls |].
    assert (hi q = lo q) as Hql by (unfold hi, size, lo; rewrite Hn; simpl; lia).
    lia.
  - destruct (subnets_spec q Hq ltac:(lia))
      as (a & b & _ & Ha & Hb & Hca & Hcb & Hla & Hlb & Hloa & Hab & Hhib & _).
    destruct (wf_size a Ha) as (? & _ & _ & ? & _).
    destruct (wf_size b Hb) as (? & _ & _ & ? & _).
    destruct (IH a Ha) as (r1 & Hr1 & Hs1).
    { unfold max_prefixlen in *. rewrite Hca. lia. }
    { intros x Hx Hc. apply Hfill; [done |].
      apply (contains_mono a q); auto; lia. }
    destruct (IH b Hb) as (r2 & Hr2 & Hs2).
    { unfold max_prefixlen in *. rewrite Hcb. lia. }
    { intros x Hx Hc. apply Hfill; [done |].
      apply (contains_mono b q); auto; lia. }
    apply subnet_of_spec in Hs1 as (Hc1 & Hlo1 & Hhi1); [| done | done].
    apply subnet_of_spec in Hs2 as (Hc2 & Hlo2 & Hhi2); [| done | done].
    assert (forall p r, wf p -> cls p = cls q -> prefixlen p = prefixlen q + 1 ->
              lo q <= lo p -> hi p <= hi q ->
              cls p = cls (h !!! r) -> lo (h !!! r) <= lo p -> hi p <= hi (h !!! r) ->
              net_eq p (h !!! r) = false ->
              subnet_of q (h !!! r) = true) as Hup.
    { intros p r Hp Hcp Hlp Hlop Hhip Hcr Hlor Hhir Hne.
      pose proof (contained_strict p (h !!! r) Hp (Hw r) Hcr Hlor Hhir Hne) as Hlt.
      assert (cls q = cls (h !!! r)) as Hqr by congruence.
      apply subnet_of_spec; [done | done |]. split; [done |].
      destruct (laminar q (h !!! r) Hq (Hw r) Hqr) as [? | [[? ?] | ?]];
        [lia | | destruct (wf_size p Hp) as (_ & _ & _ & ? & _); lia].
      assert (prefixlen q <= prefixlen (h !!! r)) as Hge.
      { apply (contained_prefixlen (h !!! r) q); auto. }
      assert (prefixlen (h !!! r) = prefixlen q) as Heq by lia.
      pose proof (size_eq_prefixlen (h !!! r) q (eq_sym Hqr) Heq) as Hsz.
      unfold hi, lo in *. lia. }
    destruct (net_eq a (h !!! r1)) eqn:E1.
    2: { exists r1. split; [done |]. apply (Hup a r1); auto; lia. }
    destruct (net_eq b (h !!! r2)) eqn:E2.
    2: { exists r2. split; [done |]. apply (Hup b r2); auto; lia. }
    exfalso.
    apply net_eq_spec in E1; [| done | done]. apply net_of_eq in E1.
    apply net_eq_spec in E2; [| done | done]. apply net_of_eq in E2.
    destruct (net_of_lo_hi _ _ E1) as (El1 & Eh1 & Ev1).
    destruct (net_of_lo_hi _ _ E2) as (El2 & Eh2 & Ev2).
    assert (adj l r1 r2) as Hadj.
    { apply (chain_adjacent h); auto.
      - rewrite <- Ev1, <- Ev2. apply version_eq_cls. congruence.
      - lia. }
    destruct (Hcol r1 r2 Hadj) as [_ [_ Hno]].
    rewrite <- (sibling_cond_net a _ b _ E1 E2) in Hno.
    rewrite sibling_cond_halves in Hno; [done | done | done | congruence | lia | lia |].
    destruct (wf_size q Hq) as (_ & Hmq & _).
    assert (2 * size a = size q) as ->; [| by unfold lo in *; rewrite Hloa].
    unfold size, max_prefixlen. rewrite Hca, Hla. fold (max_prefixlen q).
    replace (max_prefixlen q - prefixlen q) with (1 + (max_prefixlen q - (prefixlen q + 1)))
      by lia.
    rewrite Z.pow_add_r by lia. lia.
Qed.

Definition of_net (n : ipclass * Z * Z) : nacaddr := mkNet n.1.1 n.1.2 n.2 "" "" "".

Definition sep_net (n1 n2 : ipclass * Z * Z) : Prop := separated (of_net n1) (of_net n2).

Lemma net_of_of_net (n : ipclass * Z * Z) : net_of (of_net n) = n.
Proof. by destruct n as [[c a] l]. Qed.

Lemma StronglySorted_irrefl_NoDup {A : Type} (R : relation A) (l : list A) :
  StronglySorted R l -> (forall x, x ∈ l -> ~ R x x) -> NoDup l.
Proof.
  induction 1 as [| x l Hss IH HF]; intros Hirr; [constructor |].
  constructor.
  - intros Hin. rewrite Forall_forall in HF. apply (Hirr x); [set_solver | by apply HF].
  - apply IH. intros y Hy. apply Hirr. set_solver.
Qed.

Lemma separated_asym (a b : nacaddr) : wf a -> wf b -> separated a b -> separated b a -> False.
Proof.
  intros Ha Hb.
  destruct (wf_size a Ha) as (_ & _ & _ & ? & _).
  destruct (wf_size b Hb) as (_ & _ & _ & ? & _).
  unfold separated. lia.
Qed.

Lemma collapsed_member (h1 h2 : heap) (l1 l2 : list ref) :
  Forall wf h1 -> Forall wf h2 -> collapsed h1 l1 -> collapsed h2 l2 ->
  (forall x, valid_address x -> covered h1 l1 x <-> covered h2 l2 x) ->
  forall r, r ∈ l1 -> exists r', r' ∈ l2 /\ net_of (h1 !!! r) = net_of (h2 !!! r').
Proof.
  intros Hwf1 Hwf2 Hc1 Hc2 Hcov r Hr.
  assert (forall r, wf (h1 !!! r)) as Hw1 by (intros; by apply wf_lookup_total).
  assert (forall r, wf (h2 !!! r)) as Hw2 by (intros; by apply wf_lookup_total).
  assert (forall q, wf q -> exists n : nat, max_prefixlen q - prefixlen q = Z.of_nat n) as Hn.
  { intros q (Hl & _). exists (Z.to_nat (max_prefixlen q - prefixlen q)). lia. }
  destruct (Hn _ (Hw1 r)) as (n1 & Hn1).
  destruct (collapsed_inside h2 l2 Hwf2 Hc2 n1 (h1 !!! r) (Hw1 r) Hn1) as (r' & Hr' & Hs1).
  { intros x Hx Hc. apply Hcov; [done |]. by exists r. }
  destruct (Hn _ (Hw2 r')) as (n2 & Hn2).
  destruct (collapsed_inside h1 l1 Hwf1 Hc1 n2 (h2 !!! r') (Hw2 r') Hn2) as (r'' & Hr'' & Hs2).
  { intros x Hx Hc. apply Hcov; [done |]. by exists r'. }
  exists r'. split; [done |].
  apply subnet_of_spec in Hs1 as (Hcl1 & ? & ?); [| done | done].
  apply subnet_of_spec in Hs2 as (Hcl2 & ? & ?); [| done | done].
  assert (r = r'') as <-.
  { apply list_elem_of_lookup in Hr as [i Hi]. apply list_elem_of_lookup in Hr'' as [j Hj].
    destruct (decide (i = j)) as [-> | Hne]; [congruence |].
    pose proof (chain_no_overlap h1 l1 i j r r'' Hwf1 (collapsed_chain _ _ Hwf1 Hc1)
                  Hi Hj Hne) as Ho.
    assert (overlaps (h1 !!! r) (h1 !!! r'') = true) as Ht; [| congruence].
    destruct (wf_size _ (Hw1 r)) as (_ & _ & _ & ? & _).
    apply overlaps_spec; [done | done |]. split; [congruence | lia]. }
  apply net_of_eq. split; [done |]. split; [unfold lo in *; lia |].
  pose proof (contained_prefixlen _ _ (Hw1 r) (Hw2 r') Hcl1 ltac:(done) ltac:(done)).
  pose proof (contained_prefixlen _ _ (Hw2 r') (Hw1 r) Hcl2 ltac:(done) ltac:(done)).
  lia.
Qed.

Lemma collapsed_same_nets (h1 h2 : heap) (l1 l2 : list ref) :
  Forall wf h1 -> Forall wf h2 -> collapsed h1 l1 -> collapsed h2 l2 ->
  (forall x, valid_address x -> covered h1 l1 x <-> covered h2 l2 x) ->
  (fun r => net_of (h1 !!! r)) <$> l1 = (fun r => net_of (h2 !!! r)) <$> l2.
Proof.
  intros Hwf1 Hwf2 Hc1 Hc2 Hcov.
  assert (forall (h : heap) (l : list ref), Forall wf h -> collapsed h l ->
            StronglySorted sep_net ((fun r => net_of (h !!! r)) <$> l)) as Hss.
  { intros h l Hwf Hc. apply (StronglySorted_fmap _ (sepref h)); [| by apply collapsed_chain].
    intros x y Hxy. unfold sep_net.
    refine (separated_net _ _ _ _ _ _ Hxy); by rewrite net_of_of_net. }
  assert (forall (h : heap) (l : list ref) n, Forall wf h -> n ∈ (fun r => net_of (h !!! r)) <$> l ->
            wf (of_net n)) as Hwn.
  { intros h l n Hwf Hin. apply list_elem_of_fmap in Hin as (r & -> & _).
    apply (net_of_wf (h !!! r)); [by rewrite net_of_of_net | by apply wf_lookup_total]. }
  assert (forall (h : heap) (l : list ref), Forall wf h -> collapsed h l ->
            NoDup ((fun r => net_of (h !!! r)) <$> l)) as Hnd.
  { intros h l Hwf Hc. apply (StronglySorted_irrefl_NoDup sep_net); [by apply Hss |].
    intros n Hin Hs. pose proof (Hwn h l n Hwf Hin) as Hw.
    exact (separated_asym _ _ Hw Hw Hs Hs). }
  apply (StronglySorted_unique_strong sep_net).
  - intros n1 n2 Hn1 Hn2 H12 H21. exfalso.
    exact (separated_asym _ _ (Hwn _ _ _ Hwf1 Hn1) (Hwn _ _ _ Hwf2 Hn2) H12 H21).
  - by apply Hss.
  - by apply Hss.
  - apply NoDup_Permutation; [by apply Hnd | by apply Hnd |].
    intros n. rewrite !list_elem_of_fmap. split.
    + intros (r & -> & Hr).
      destruct (collapsed_member h1 h2 l1 l2 Hwf1 Hwf2 Hc1 Hc2 Hcov r Hr) as (r' & Hr' & Hn).
      eauto.
    + intros (r & -> & Hr).
      destruct (collapsed_member h2 h1 l2 l1 Hwf2 Hwf1 Hc2 Hc1
                  (fun x Hx => iff_sym (Hcov x Hx)) r Hr) as (r' & Hr' & Hn).
      eauto.
Qed.

(** X21: the result of [CollapseAddrList] consists of the largest
    prefixes of the matched address set: all addresses of a well-formed
    prefix are matched by the input exactly when the prefix is a subnet of a
    single prefix of the result. *)
Theorem CollapseAddrList_maximal (h : heap) (addresses : list ref) :
  Forall wf h -> valid_refs h addresses ->
  exists h' out,
    CollapseAddrList h addresses [] = Ok (h', out) /\
    forall q, wf q ->
      ((forall x, valid_address x -> contains q x = true -> covered h addresses x) <->
       exists r, r ∈ out /\ subnet_of q (h' !!! r) = true).
Proof.
  intros Hwf Hv.
  destruct (CollapseAddrList_run h addresses Hwf Hv)
    as (h' & out & Hrun & Hwf' & _ & _ & Hcov & Hcol & _).
  exists h', out. split; [done |]. intros q Hq. split.
  - intros Hfill.
    apply (collapsed_inside h' out Hwf' Hcol
             (Z.to_nat (max_prefixlen q - prefixlen q)) q Hq).
    + destruct Hq as (? & _). lia.
    + intros x Hx Hc. apply Hcov; auto.
  - intros (r & Hr & Hs) x Hx Hc. apply Hcov; [done |]. exists r. split; [done |].
    apply subnet_of_spec in Hs as (? & ? & ?); [| done | by apply wf_lookup_total].
    apply (contains_mono q); auto using wf_lookup_total.
Qed.

Lemma CollapseAddrList_maximal_witness :
  exists h' out,
    CollapseAddrList ex_pair [0%nat; 1%nat] [] = Ok (h', out) /\
    forall q, wf q ->
      ((forall x, valid_address x -> contains q x = true ->
          covered ex_pair [0%nat; 1%nat] x) <->
       exists r, r ∈ out /\ subnet_of q (h' !!! r) = true).
Proof.
  apply (CollapseAddrList_maximal ex_pair [0%nat; 1%nat]).
  - repeat constructor; by vm_compute.
  - repeat constructor.
Defined.

(** X22: the networks returned by [CollapseAddrList] depend only on the
    matched address set: two inputs that match the same addresses, in any
    order, with or without duplicates or nested prefixes, collapse to the same
    list of networks. *)
Theorem CollapseAddrList_canonical (h1 h2 : heap) (A1 A2 : list ref) :
  Forall wf h1 -> valid_refs h1 A1 -> Forall wf h2 -> valid_refs h2 A2 ->
  (forall x, valid_address x -> covered h1 A1 x <-> covered h2 A2 x) ->
  exists h1' out1 h2' out2,
    CollapseAddrList h1 A1 [] = Ok (h1', out1) /\
    CollapseAddrList h2 A2 [] = Ok (h2', out2) /\
    (fun r => net_of (h1' !!! r)) <$> out1 = (fun r => net_of (h2' !!! r)) <$> out2.
Proof.
  intros Hwf1 Hv1 Hwf2 Hv2 Hsame.
  destruct (CollapseAddrList_run h1 A1 Hwf1 Hv1)
    as (h1' & out1 & Hrun1 & Hwf1' & _ & _ & Hcov1 & Hcol1 & _).
  destruct (CollapseAddrList_run h2 A2 Hwf2 Hv2)
    as (h2' & out2 & Hrun2 & Hwf2' & _ & _ & Hcov2 & Hcol2 & _).
  exists h1', out1, h2', out2. split; [done |]. split; [done |].
  apply collapsed_same_nets; auto.
  intros x Hx. by rewrite (Hcov1 x Hx), (Hcov2 x Hx), (Hsame x Hx).
Qed.

Lemma CollapseAddrList_canonical_witness :
  exists h1' out1 h2' out2,
    CollapseAddrList ex_pair [0%nat; 1%nat] [] = Ok (h1', out1) /\
    CollapseAddrList ex_pair [1%nat; 0%nat; 1%nat] [] = Ok (h2', out2) /\
    (fun r => net_of (h1' !!! r)) <$> out1 = (fun r => net_of (h2' !!! r)) <$> out2.
Proof.
  apply (CollapseAddrList_canonical ex_pair ex_pair [0%nat; 1%nat] [1%nat; 0%nat; 1%nat]).
  - repeat constructor; by vm_compute.
  - repeat constructor.
  - repeat constructor; by vm_compute.
  - repeat constructor.
  - intros x Hx. unfold covered. set_solver.
Defined.

(** X23: the networks returned by [AddressListExclude] depend only on the
    address sets of its arguments: supersets that match the same addresses and
    excludes that match the same addresses give the same list of networks. *)
Theorem AddressListExclude_canonical (h1 h2 : heap) (A1 E1 A2 E2 : list ref) :
  Forall wf h1 -> valid_refs h1 A1 -> valid_refs h1 E1 ->
  Forall wf h2 -> valid_refs h2 A2 -> valid_refs h2 E2 ->
  (forall x, valid_address x -> covered h1 A1 x <-> covered h2 A2 x) ->
  (forall x, valid_address x -> covered h1 E1 x <-> covered h2 E2 x) ->
  exists h1' out1 h2' out2,
    AddressListExclude h1 A1 E1 true = Ok (h1', out1) /\
    AddressListExclude h2 A2 E2 true = Ok (h2', out2) /\
    (fun r => net_of (h1' !!! r)) <$> out1 = (fun r => net_of (h2' !!! r)) <$> out2.
Proof.
  intros Hwf1 HvA1 HvE1 Hwf2 HvA2 HvE2 HA HE.
  destruct (AddressListExclude_run h1 A1 E1 Hwf1 HvA1 HvE1)
    as (h1' & out1 & Hrun1 & Hwf1' & _ & _ & Hcol1 & Hcov1).
  destruct (AddressListExclude_run h2 A2 E2 Hwf2 HvA2 HvE2)
    as (h2' & out2 & Hrun2 & Hwf2' & _ & _ & Hcol2 & Hcov2).
  exists h1', out1, h2', out2. split; [done |]. split; [done |].
  apply collapsed_same_nets; auto.
  intros x Hx. by rewrite (Hcov1 x Hx), (Hcov2 x Hx), (HA x Hx), (HE x Hx).
Qed.

Lemma AddressListExclude_canonical_witness :
  exists h1' out1 h2' out2,
    AddressListExclude ex_cut [0%nat] [1%nat] true = Ok (h1', out1) /\
    AddressListExclude ex_cut [0%nat; 0%nat] [1%nat; 1%nat] true = Ok (h2', out2) /\
    (fun r => net_of (h1' !!! r)) <$> out1 = (fun r => net_of (h2' !!! r)) <$> out2.
Proof.
  apply (AddressListExclude_canonical ex_cut ex_cut [0%nat] [1%nat]
           [0%nat; 0%nat] [1%nat; 1%nat]).
  - repeat constructor; by vm_compute.
  - repeat constructor.
  - repeat constructor.
  - repeat constructor; by vm_compute.
  - repeat constructor.
  - repeat constructor.
  - intros x Hx. unfold covered. set_solver.
  - intros x Hx. unfold covered. set_solver.
Defined.

(** ** Exclusion without collapsing *)

(** No two entries of the list overlap. *)
Definition apart (h : heap) (l : list ref) : Prop :=
  ForallOrdPairs (fun r1 r2 => overlaps (h !!! r1) (h !!! r2) = false) l.

Lemma apart_perm (h : heap) (l l' : list ref) :
  Forall wf h -> l ≡ₚ l' -> apart h l -> apart h l'.
Proof.
  intros Hwf HP. unfold apart.
  induction HP as [| x l l' HP IH | x y l | l1 l2 l3 HP1 IH1 HP2 IH2]; intros H.
  - constructor.
  - inversion H as [| ? ? HF Hl]; subst. constructor; [by rewrite <- HP | by apply IH].
  - inversion H as [| ? ? HF Hl]; subst. inversion Hl as [| ? ? HF2 Hl2]; subst.
    apply Forall_cons in HF as [Hyx HF].
    constructor; [| by constructor].
    constructor; [| done].
    apply overlaps_sym_false; auto using wf_lookup_total.
  - auto.
Qed.

Lemma apart_chain (h : heap) (l : list ref) :
  Forall wf h -> StronglySorted (keyle_ref h) l -> apart h l ->
  StronglySorted (sepref h) l.
Proof.
  intros Hwf Hss. induction Hss as [| r l Hss IH HF]; intros Ha; [constructor |].
  inversion Ha as [| ? ? HFa Hl]; subst.
  constructor; [by apply IH |].
  rewrite Forall_forall in HF, HFa |- *. intros r' Hr'.
  apply no_overlap_separated;
    [by apply wf_lookup_total | by apply wf_lookup_total | by apply HF | by apply HFa].
Qed.

Lemma sorted_apart_chain (h : heap) (l : list ref) :
  Forall wf h -> apart h l ->
  StronglySorted (sepref h) (sorted (get_mixed_type_key h) key_lt (rev l)).
Proof.
  intros Hwf Ha.
  assert (Transitive (keyle_ref h)) as Htr.
  { intros a b c. unfold keyle_ref. apply keyle_trans. }
  apply apart_chain; [done | |].
  - apply Sorted_StronglySorted; [exact Htr |]. by apply sorted_keyle.
  - apply (apart_perm h l); [done | | done].
    rewrite sorted_perm. apply Permutation_rev.
Qed.

Lemma dedup_networks_sub (h : heap) (l : list ref) (r : ref) :
  r ∈ dedup_networks h l -> r ∈ l.
Proof.
  revert r. induction l as [| a l IH]; intros r; simpl; [done |].
  intros Hr. apply elem_of_cons in Hr as [-> | Hr]; [set_solver |].
  apply list_elem_of_filter in Hr as [_ Hr]. set_solver.
Qed.

Lemma dedup_networks_covered (h : heap) (l : list ref) (x : IPAddress) :
  Forall wf h -> covered h (dedup_networks h l) x <-> covered h l x.
Proof.
  intros Hwf. split.
  - intros (r & Hr & Hc). exists r. split; [by apply (dedup_networks_sub h) | done].
  - induction l as [| a l IH]; [done |].
    intros (r & Hr & Hc). simpl.
    apply elem_of_cons in Hr as [-> | Hr]; [exists a; split; [set_solver | done] |].
    destruct IH as (r' & Hr' & Hc'); [by exists r |].
    destruct (net_eq (h !!! r') (h !!! a)) eqn:Hne.
    + exists a. split; [set_solver |].
      apply net_eq_spec in Hne; [| by apply wf_lookup_total ..].
      apply net_of_eq in Hne. by rewrite <- (contains_net _ _ x Hne).
    + exists r'. split; [| done]. apply elem_of_cons. right.
      apply list_elem_of_filter. split; [by rewrite Hne | done].
Qed.

(** X24: with [collapse_addrs=False], for a superset and excludes of one
    IP version in each of which no two prefixes overlap,
    [AddressListExclude] returns a list that matches exactly the addresses of
    the superset outside the excludes. *)
Theorem AddressListExclude_no_collapse (h : heap) (A E : list ref) (c : ipclass) :
  Forall wf h -> valid_refs h A -> valid_refs h E ->
  Forall (fun r => cls (h !!! r) = c) A -> Forall (fun r => cls (h !!! r) = c) E ->
  apart h A -> apart h E ->
  exists h' out,
    AddressListExclude h A E false = Ok (h', out) /\
    forall x, valid_address x ->
      (covered h' out x <-> covered h A x /\ ~ covered h E x).
Proof.
  intros Hwf HvA HvE HcA HcE HaA HaE. unfold AddressListExclude.
  rewrite (sorted_networks_Ok h (rev A) c) by (by apply Forall_rev).
  rewrite bind_Ok.
  rewrite (sorted_networks_Ok h (rev E) c) by (by apply Forall_rev).
  rewrite bind_Ok. cbv beta iota. rewrite bind_Ok. cbv beta iota.
  set (S1 := sorted (get_mixed_type_key h) key_lt (rev A)).
  set (E1 := sorted (get_mixed_type_key h) key_lt (rev E)).
  assert (HP1 : S1 ≡ₚ A).
  { unfold S1. rewrite sorted_perm. symmetry. apply Permutation_rev. }
  assert (HP2 : E1 ≡ₚ E).
  { unfold E1. rewrite sorted_perm. symmetry. apply Permutation_rev. }
  destruct (exclude_loop_run ((length S1 + 1) * (length E1 + 1) * 130) h S1 E1 [])
    as (h3 & S3 & R3 & H3 & Hwf3 & Hfr3 & Hv3 & Hcov3); auto.
  { by apply (valid_refs_perm h A). }
  { by apply (valid_refs_perm h E). }
  { constructor. }
  { by apply sorted_apart_chain. }
  { by apply sorted_apart_chain. }
  { pose proof (credit_le h S1 E1). unfold potential. nia. }
  rewrite H3, bind_Ok. cbv beta iota.
  assert (Hcov : forall x, valid_address x ->
            covered h3 (R3 ++ rev S3) x <-> covered h A x /\ ~ covered h E x).
  { intros x Hx. rewrite (Hcov3 x Hx), covered_nil.
    rewrite (covered_perm h S1 A x HP1), (covered_perm h E1 E x HP2). tauto. }
  rewrite (sorted_networks_Ok h3 _ c).
  2: { apply Forall_forall. intros r Hr. apply (dedup_networks_sub h3) in Hr.
       pose proof (wf_lookup_total h3 r Hwf3) as Hwr.
       assert (covered h3 (R3 ++ rev S3) (network_address (h3 !!! r))) as Hx.
       { exists r. split; [done |]. by apply contains_lo. }
       apply Hcov in Hx as [(a & Ha & Hca) _]; [| by apply wf_valid_lo].
       apply contains_spec in Hca as [Hv _];
         [| by apply wf_lookup_total | by apply wf_valid_lo].
       rewrite network_address_eq in Hv. simpl in Hv.
       apply version_eq_cls in Hv. rewrite Hv.
       rewrite Forall_forall in HcA. by apply HcA. }
  rewrite bind_Ok. eexists _, _. split; [reflexivity |].
  intros x Hx. rewrite (covered_perm _ _ _ x (sorted_perm _ _ _)).
  rewrite dedup_networks_covered by done. by apply Hcov.
Qed.

Definition ex_apart : heap := [ip4 10 0 0 0 8 "" ""; ip4 11 0 0 0 8 "" ""; ip4 10 1 0 0 16 "" ""].

Lemma AddressListExclude_no_collapse_witness :
  exists h' out,
    AddressListExclude ex_apart [0%nat; 1%nat] [2%nat] false = Ok (h', out) /\
    forall x, valid_address x ->
      (covered h' out x <-> covered ex_apart [0%nat; 1%nat] x /\ ~ covered ex_apart [2%nat] x).
Proof.
  apply (AddressListExclude_no_collapse ex_apart [0%nat; 1%nat] [2%nat] IPv4).
  - repeat constructor; by vm_compute.
  - repeat constructor.
  - repeat constructor.
  - repeat constructor.
  - repeat constructor.
  - repeat constructor.
  - repeat constructor.
Defined.

(** Without collapsing, a superset with nested entries keeps excluded
    addresses: 10.0.0.0/8 and 10.0.0.0/16 without 10.0.0.0/24 still holds
    10.0.0.0/16. *)
Lemma AddressListExclude_no_collapse_nested :
  exists h' out r,
    AddressListExclude
      [ip4 10 0 0 0 8 "" ""; ip4 10 0 0 0 16 "" ""; ip4 10 0 0 0 24 "" ""]
      [0%nat; 1%nat] [2%nat] false = Ok (h', out) /\
    r ∈ out /\ net_of (h' !!! r) = net_of (ip4 10 0 0 0 16 "" "").
Proof. eexists _, _, 1%nat. split; [by vm_compute |]. split; [set_solver | done]. Qed.

(** ** One token, and lists that are already collapsed *)

Lemma string_lt_irrefl (s : string) : string_lt s s = false.
Proof.
  unfold string_lt, String.ltb.
  pose proof (String.compare_antisym s s) as H.
  destruct (String.compare s s); [done | discriminate | done].
Qed.

Lemma sorted_constant {A : Type} (key : A -> string) (t : string) (l : list A) :
  (forall x, x ∈ l -> key x = t) -> sorted key string_lt l = l.
Proof.
  intros Hk. apply sorted_id. apply adj_Sorted. intros u v Huv.
  apply adj_elem_of in Huv as [Hu Hv]. unfold le_key.
  rewrite (Hk u Hu), (Hk v Hv). apply string_lt_irrefl.
Qed.

Lemma groupby_constant {A K : Type} `{EqDecision K} (key : A -> K) (t : K)
    (x : A) (l : list A) :
  (forall y, y ∈ x :: l -> key y = t) -> groupby key (x :: l) = [(t, x :: l)].
Proof.
  revert x. induction l as [| y l IH]; intros x Hk.
  - simpl. rewrite (Hk x) by set_solver. done.
  - change (groupby key (x :: y :: l))
      with (match groupby key (y :: l) with
            | (k, g) :: gs =>
              if decide (key x = k) then (k, x :: g) :: gs
              else (key x, [x]) :: (k, g) :: gs
            | [] => [(key x, [x])]
            end).
    rewrite IH by (intros z Hz; apply Hk; set_solver).
    rewrite decide_True by (apply Hk; set_solver). done.
Qed.

(** X25: when all prefixes carry the same parent token,
    [CollapseAddrListPreserveTokens] is [CollapseAddrList]: the same result,
    the same objects and the same comments. *)
Theorem CollapseAddrListPreserveTokens_one_token (h : heap) (addresses : list ref)
    (t : string) :
  (forall r, r ∈ addresses -> parent_token (h !!! r) = t) ->
  CollapseAddrListPreserveTokens h addresses = CollapseAddrList h addresses [].
Proof.
  intros Hk. unfold CollapseAddrListPreserveTokens.
  rewrite (sorted_constant _ t addresses Hk).
  destruct addresses as [| x l]; [done |].
  rewrite (groupby_constant _ t x l Hk).
  cbn [collapse_groups snd].
  destruct (CollapseAddrList h (x :: l) []) as [[h1 r] | e]; [| done].
  rewrite !bind_Ok. cbv beta iota.
  change (dedup_loop h1 [r] []) with (Ok [r] : result (list (list ref))).
  rewrite bind_Ok. simpl. by rewrite app_nil_r.
Qed.

Lemma CollapseAddrListPreserveTokens_one_token_witness :
  CollapseAddrListPreserveTokens ex_pair [0%nat; 1%nat] = CollapseAddrList ex_pair [0%nat; 1%nat] [].
Proof.
  apply (CollapseAddrListPreserveTokens_one_token ex_pair [0%nat; 1%nat] "").
  intros r Hr.
  apply elem_of_cons in Hr as [-> | Hr]; [done |].
  apply list_elem_of_singleton in Hr. by subst.
Defined.

Lemma collapsed_frame (h h' : heap) (l : list ref) :
  heap_frame h h' -> valid_refs h l -> collapsed h' l -> collapsed h l.
Proof.
  intros Hfr Hv Hc r1 r2 Hadj.
  pose proof (frame_same_nets h h' l Hfr Hv) as Hn.
  destruct (adj_elem_of _ _ _ Hadj) as [H1 H2].
  destruct (Hc r1 r2 Hadj) as [Hs Hm]. split.
  - exact (separated_net _ _ _ _ (Hn r1 H1) (Hn r2 H2) Hs).
  - exact (nomerge_net _ _ _ _ (Hn r1 H1) (Hn r2 H2) Hm).
Qed.

(** X26: [CollapseAddrList] returns its argument list itself exactly when
    the list is already collapsed (ascending, each prefix ending before the
    next begins, no neighbours that merge); in that case the store, and so
    every comment, is unchanged. *)
Theorem CollapseAddrList_fixpoint (h : heap) (addresses : list ref) :
  Forall wf h -> valid_refs h addresses ->
  (collapsed h addresses <-> exists h', CollapseAddrList h addresses [] = Ok (h', addresses)) /\
  (collapsed h addresses -> CollapseAddrList h addresses [] = Ok (h, addresses)).
Proof.
  intros Hwf Hv.
  destruct (CollapseAddrList_run h addresses Hwf Hv)
    as (h' & out & Hrun & _ & _ & Hfr & _ & Hcol & _ & Hid).
  split; [split |].
  - intros Hc. destruct (Hid Hc) as [-> ->]. eauto.
  - intros (h2 & H2). rewrite Hrun in H2. injection H2 as -> ->.
    by apply (collapsed_frame h h2).
  - intros Hc. destruct (Hid Hc) as [-> ->]. done.
Qed.

Lemma CollapseAddrList_fixpoint_witness :
  (collapsed ex_cut [1%nat] <-> exists h', CollapseAddrList ex_cut [1%nat] [] = Ok (h', [1%nat])) /\
  (collapsed ex_cut [1%nat] -> CollapseAddrList ex_cut [1%nat] [] = Ok (ex_cut, [1%nat])).
Proof.
  apply (CollapseAddrList_fixpoint ex_cut [1%nat]).
  - repeat constructor; by vm_compute.
  - repeat constructor.
Defined.

(** ** Collapsing with complements *)

(** With complements a turn of the loop can also give up on a pair that
    is not safe to merge. *)
Inductive cstep : astate -> astate -> Prop :=
| C_step a a' : astep a a' -> cstep a a'
| C_unsafe h ch cur fr : cstep (mkA h ch (cur :: fr)) (mkA h ch fr).

(** The order neighbours keep when unsafe pairs stay in the list: the key
    order, or the same network address with the longer prefix first. *)
Definition rnest (a b : nacaddr) : Prop :=
  keyle a b \/
  (version a = version b /\ network a = network b /\ prefixlen b < prefixlen a).

Lemma rnest_net (a a' b b' : nacaddr) :
  net_of a = net_of a' -> net_of b = net_of b' -> rnest a b -> rnest a' b'.
Proof.
  intros Ha Hb [Hk | Hr]; [left; by apply (keyle_net a a' b b') |].
  right. destruct (net_of_lo_hi _ _ Ha) as (_ & _ & ?).
  destruct (net_of_lo_hi _ _ Hb) as (_ & _ & ?).
  apply net_of_eq in Ha as (_ & ? & ?). apply net_of_eq in Hb as (_ & ? & ?). lia.
Qed.

Lemma rnest_ord (a b : nacaddr) : rnest a b -> cls a = cls b -> network a <= network b.
Proof. intros [Hk | Hr] Hc; [by apply keyle_ord | lia]. Qed.

Lemma rnest_contain (a b c : nacaddr) :
  wf a -> wf b -> supernet_of a b = true -> rnest b c -> rnest a c.
Proof.
  intros Ha Hb Hsup Hbc.
  apply supernet_of_spec in Hsup as (Hcl & Hlo & Hhi); [| done | done].
  pose proof (contained_prefixlen b a Hb Ha (eq_sym Hcl) Hlo Hhi) as Hlen.
  apply version_eq_cls in Hcl. unfold lo in *.
  unfold rnest, keyle in *. lia.
Qed.

Record winv (c : ipclass) (a : astate) : Prop := {
  wi_sorted : StronglySorted lt (a_chain a).*1;
  wi_head : (a_chain a).*1 !! 0%nat = Some 0%nat;
  wi_wf : Forall wf (a_heap a);
  wi_valid : forall x, x ∈ a_chain a -> (x.2 < length (a_heap a))%nat;
  wi_cls : forall x, x ∈ a_chain a -> cls (nv (a_heap a) x) = c;
  wi_ord : forall u v, adj (a_chain a) u v -> rnest (nv (a_heap a) u) (nv (a_heap a) v)
}.

Lemma winv_fringe (c : ipclass) (h : heap) (ch : list (nat * ref)) (fr fr' : list nat) :
  winv c (mkA h ch fr) -> winv c (mkA h ch fr').
Proof. intros [? ? ? ? ? ?]. by split. Qed.

Lemma astep_winv (c : ipclass) (a a' : astate) : winv c a -> astep a a' -> winv c a'.
Proof.
  intros I St.
  destruct St as [h ch cur fr Hnin | h l1 cur rc fr
                 | h l1 cur rc nx rn l2 fr Hsup Hsib
                 | h l1 cur rc nx rn l2 fr Hsup
                 | h l1 cur rc nx rn l2 fr h' r' Hsup Hsib HSn];
    try (by apply (winv_fringe c _ _ (cur :: fr))).
  - pose proof (wi_sorted _ _ I) as HS. simpl in HS.
    set (h1 := heap_AddComment h rc (text (h !!! rn))).
    assert (Hnet : forall x, net_of (nv h x) = net_of (nv h1 x))
      by (intros; symmetry; apply heap_AddComment_net).
    assert (Hwfh : forall r, wf (h !!! r)) by (intros; apply wf_lookup_total, I).
    split; simpl.
    + rewrite !fmap_app, !fmap_cons in *. by eapply SS_delete_mid.
    + pose proof (wi_head _ _ I) as Hh. simpl in Hh. by destruct l1.
    + apply heap_AddComment_wf, I.
    + intros x Hx. unfold h1. rewrite heap_AddComment_length.
      apply (wi_valid _ _ I). simpl. set_solver.
    + intros x Hx. destruct (proj1 (net_of_eq _ _) (Hnet x)) as (<- & _).
      apply (wi_cls _ _ I). simpl. set_solver.
    + intros u v Huv.
      apply (adj_delete_inv _ _ _ (nx, rn)) in Huv as [Huv | [-> Huv]].
      * apply (rnest_net _ _ _ _ (Hnet u) (Hnet v)). by apply (wi_ord _ _ I).
      * apply (rnest_net _ _ _ _ (Hnet (cur, rc)) (Hnet v)).
        apply (rnest_contain _ (nv h (nx, rn))); [apply Hwfh | apply Hwfh | done |].
        by apply (wi_ord _ _ I).
  - pose proof (wi_sorted _ _ I) as HS. simpl in HS.
    set (h1 := heap_AddComment h rc (text (h !!! rn))) in *.
    assert (Hnet1 : forall r, net_of (h1 !!! r) = net_of (h !!! r))
      by (intros; apply heap_AddComment_net).
    assert (Hwf1 : Forall wf h1) by apply heap_AddComment_wf, I.
    assert (Hwfh : forall r, wf (h !!! r)) by (intros; apply wf_lookup_total, I).
    assert (Hsib1 : sibling_cond (h1 !!! rc) (h !!! rn) = Ok true).
    { by rewrite (sibling_cond_net _ (h !!! rc) _ (h !!! rn)). }
    destruct (heap_Supernet_sibling h1 rc (h !!! rn))
      as (p & HSp & Hwfp & Hvp & Hnp & Hlp & Hlop & Hhip & Hadjp & _);
      [by apply wf_lookup_total | done | done |].
    rewrite HSp in HSn. injection HSn as <- <-.
    assert (Hlen1 : length h1 = length h) by apply heap_AddComment_length.
    assert (Hold : forall x, x ∈ l1 ++ (cur, rc) :: (nx, rn) :: l2 ->
                     net_of (nv h x) = net_of (nv (h1 ++ [p]) x)).
    { intros x Hx. unfold nv.
      rewrite lookup_total_app_l by (rewrite Hlen1; apply (wi_valid _ _ I x Hx)).
      by rewrite Hnet1. }
    assert (Hnew : nv (h1 ++ [p]) (cur, length h1) = p).
    { unfold nv. simpl. rewrite lookup_total_app_r by lia.
      by rewrite Nat.sub_diag. }
    destruct (net_of_lo_hi _ _ (Hnet1 rc)) as (Hlo1 & Hhi1 & Hv1).
    pose proof (proj1 (net_of_eq _ _) (Hnet1 rc)) as (Hc1 & Hn1 & Hl1).
    assert (Hvcn : version (h !!! rn) = version (h !!! rc)).
    { unfold sibling_cond in Hsib. case_bool_decide; [done | discriminate]. }
    destruct (wf_size _ (Hwfh rc)) as (_ & _ & _ & ? & _).
    destruct (wf_size _ (Hwfh rn)) as (_ & _ & _ & ? & _).
    split; simpl.
    + rewrite !fmap_app, !fmap_cons in *. simpl in *. by eapply SS_delete_mid.
    + pose proof (wi_head _ _ I) as Hh. simpl in Hh. by destruct l1.
    + apply Forall_app. split; [done | by constructor].
    + intros x Hx. rewrite length_app. simpl.
      apply elem_of_app in Hx as [Hx | Hx].
      * pose proof (wi_valid _ _ I x) as Hv. simpl in Hv.
        specialize (Hv ltac:(set_solver)). lia.
      * apply elem_of_cons in Hx as [-> | Hx]; [simpl; lia |].
        pose proof (wi_valid _ _ I x) as Hv. simpl in Hv.
        specialize (Hv ltac:(set_solver)). lia.
    + intros x Hx.
      assert (x ∈ l1 ++ l2 \/ x = (cur, length h1)) as [Hx' | ->] by set_solver.
      * assert (x ∈ l1 ++ (cur, rc) :: (nx, rn) :: l2) as Hin by set_solver.
        destruct (proj1 (net_of_eq _ _) (Hold x Hin)) as (<- & _).
        by apply (wi_cls _ _ I).
      * rewrite Hnew. apply version_eq_cls in Hvp. rewrite Hvp, Hc1.
        apply (wi_cls _ _ I (cur, rc)). simpl. set_solver.
    + intros u v Huv.
      apply (adj_replace_inv _ _ (cur, rc) _ (nx, rn)) in Huv
        as [[Huv Hin] | [(-> & Huv & Hin) | (-> & Huv & Hin)]].
      * assert (u ∈ l1 ++ (cur, rc) :: (nx, rn) :: l2 /\
                v ∈ l1 ++ (cur, rc) :: (nx, rn) :: l2) as [Hu Hv] by set_solver.
        apply (rnest_net _ _ _ _ (Hold u Hu) (Hold v Hv)). by apply (wi_ord _ _ I).
      * rewrite Hnew.
        assert (Hu : u ∈ l1 ++ (cur, rc) :: (nx, rn) :: l2) by set_solver.
        apply (rnest_net (nv h u) _ p p (Hold u Hu) eq_refl).
        pose proof (wi_ord _ _ I u (cur, rc) Huv) as Hr. simpl in Hr.
        unfold rnest, keyle, nv in *. simpl in *. lia.
      * rewrite Hnew.
        assert (Hv : v ∈ l1 ++ (cur, rc) :: (nx, rn) :: l2) by set_solver.
        apply (rnest_net p p (nv h v) _ eq_refl (Hold v Hv)).
        pose proof (wi_ord _ _ I (nx, rn) v Huv) as Hr. simpl in Hr.
        unfold rnest, keyle, nv, lo in *. simpl in *. lia.
Qed.

Lemma cstep_winv (c : ipclass) (a a' : astate) : winv c a -> cstep a a' -> winv c a'.
Proof.
  intros I St. destruct St as [a1 a2 St | h ch cur fr].
  - exact (astep_winv c a1 a2 I St).
  - exact (winv_fringe c _ _ (cur :: fr) fr I).
Qed.

Lemma cstep_measure (a a' : astate) :
  cstep a a' ->
  (measure a' < measure a)%nat /\ (length (a_chain a') <= length (a_chain a))%nat.
Proof.
  intros [a1 a2 St | h ch cur fr]; [by apply astep_measure |].
  unfold measure. simpl. lia.
Qed.

Lemma astep_covered_w (a a' : astate) :
  Forall wf (a_heap a) ->
  (forall x, x ∈ a_chain a -> (x.2 < length (a_heap a))%nat) ->
  astep a a' ->
  forall x, valid_address x ->
    covered (a_heap a') (a_chain a').*2 x <-> covered (a_heap a) (a_chain a).*2 x.
Proof.
  intros Hwf0 Hvalid0 St x Hx.
  destruct St as [h ch cur fr Hnin | h l1 cur rc fr
                 | h l1 cur rc nx rn l2 fr Hsup Hsib
                 | h l1 cur rc nx rn l2 fr Hsup
                 | h l1 cur rc nx rn l2 fr h' r' Hsup Hsib HSn]; simpl in *; try done.
  - set (h1 := heap_AddComment h rc (text (h !!! rn))).
    assert (Hc : forall r, contains (h1 !!! r) x = contains (h !!! r) x).
    { intros r. apply contains_net, heap_AddComment_net. }
    unfold covered. rewrite !fmap_app, !fmap_cons. simpl.
    split; intros (r & Hr & Hcr).
    + exists r. rewrite Hc in Hcr. split; [set_solver | done].
    + destruct (decide (r ∈ l1.*2 ++ rc :: l2.*2)) as [Hin|Hnin].
      * exists r. by rewrite Hc.
      * assert (r = rn) as -> by set_solver.
        exists rc. split; [set_solver |]. rewrite Hc.
        pose proof (wf_lookup_total _ rc Hwf0) as Hwc.
        pose proof (wf_lookup_total _ rn Hwf0) as Hwn.
        apply supernet_of_spec in Hsup as (Hcl & Hlo & Hhi); [| done | done].
        apply contains_spec in Hcr as [Hv Hr']; [| done | done].
        apply contains_spec; [done | done |].
        split; [| lia]. rewrite Hv. symmetry. by apply version_eq_cls.
  - set (h1 := heap_AddComment h rc (text (h !!! rn))) in *.
    assert (Hnet1 : forall r, net_of (h1 !!! r) = net_of (h !!! r))
      by (intros; apply heap_AddComment_net).
    assert (Hwfh : forall r, wf (h !!! r)) by (intros; by apply wf_lookup_total).
    assert (Hsib1 : sibling_cond (h1 !!! rc) (h !!! rn) = Ok true).
    { by rewrite (sibling_cond_net _ (h !!! rc) _ (h !!! rn)). }
    destruct (heap_Supernet_sibling h1 rc (h !!! rn))
      as (p & HSp & Hwfp & Hvp & Hnp & Hlp & Hlop & Hhip & Hadjp & _);
      [by apply wf_lookup_total, heap_AddComment_wf | done | done |].
    rewrite HSp in HSn. injection HSn as <- <-.
    assert (Hlen1 : length h1 = length h) by apply heap_AddComment_length.
    destruct (net_of_lo_hi _ _ (Hnet1 rc)) as (Hlo1 & Hhi1 & Hv1).
    assert (Hc : forall y, y ∈ l1 ++ (cur, rc) :: (nx, rn) :: l2 ->
                   contains ((h1 ++ [p]) !!! y.2) x = contains (h !!! y.2) x).
    { intros y Hy. apply contains_net.
      rewrite lookup_total_app_l by (rewrite Hlen1; apply (Hvalid0 y Hy)).
      apply Hnet1. }
    assert (Hp : (h1 ++ [p]) !!! length h1 = p).
    { rewrite lookup_total_app_r by lia. by rewrite Nat.sub_diag. }
    assert (Hvcn : version (h !!! rn) = version (h !!! rc)).
    { unfold sibling_cond in Hsib. case_bool_decide; [done | discriminate]. }
    assert (Hpx : contains p x = true <->
                  contains (h !!! rc) x = true \/ contains (h !!! rn) x = true).
    { rewrite !contains_spec by done.
      destruct (wf_size _ (Hwfh rc)) as (_ & _ & _ & ? & _).
      destruct (wf_size _ (Hwfh rn)) as (_ & _ & _ & ? & _). lia. }
    unfold covered. split; intros (r & Hr & Hcr).
    + apply list_elem_of_fmap in Hr as (y & -> & Hy).
      apply elem_of_app in Hy as [Hy | Hy].
      * exists y.2. rewrite Hc in Hcr by set_solver. split; [| done].
        apply list_elem_of_fmap_2. set_solver.
      * apply elem_of_cons in Hy as [-> | Hy].
        -- simpl in Hcr. rewrite Hp in Hcr. apply Hpx in Hcr as [Hcr | Hcr].
           ++ exists rc. split; [| done]. rewrite !fmap_app, !fmap_cons. set_solver.
           ++ exists rn. split; [| done]. rewrite !fmap_app, !fmap_cons. set_solver.
        -- exists y.2. rewrite Hc in Hcr by set_solver. split; [| done].
           apply list_elem_of_fmap_2. set_solver.
    + apply list_elem_of_fmap in Hr as (y & -> & Hy).
      assert (y ∈ l1 \/ y = (cur, rc) \/ y = (nx, rn) \/ y ∈ l2) as Hcases by set_solver.
      destruct Hcases as [Hy' | [-> | [-> | Hy']]].
      * exists y.2. rewrite Hc by done. split; [| done].
        apply list_elem_of_fmap_2. set_solver.
      * exists (length h1). rewrite Hp. split; [| apply Hpx; by left].
        rewrite !fmap_app, !fmap_cons. set_solver.
      * exists (length h1). rewrite Hp. split; [| apply Hpx; by right].
        rewrite !fmap_app, !fmap_cons. set_solver.
      * exists y.2. rewrite Hc by done. split; [| done].
        apply list_elem_of_fmap_2. set_solver.
Qed.

Lemma astep_frame_w (a a' : astate) :
  Forall wf (a_heap a) -> astep a a' -> heap_frame (a_heap a) (a_heap a').
Proof.
  intros Hwf0 St.
  destruct St as [h ch cur fr Hnin | h l1 cur rc fr
                 | h l1 cur rc nx rn l2 fr Hsup Hsib
                 | h l1 cur rc nx rn l2 fr Hsup
                 | h l1 cur rc nx rn l2 fr h' r' Hsup Hsib HSn]; simpl in *;
    try apply heap_frame_refl.
  - apply heap_AddComment_frame.
  - set (h1 := heap_AddComment h rc (text (h !!! rn))) in *.
    destruct (heap_Supernet_sibling h1 rc (h !!! rn)) as (p & HSp & _).
    + by apply wf_lookup_total, heap_AddComment_wf.
    + by apply wf_lookup_total.
    + rewrite (sibling_cond_net _ (h !!! rc) _ (h !!! rn)); [done | | done].
      apply heap_AddComment_net.
    + rewrite HSp in HSn. injection HSn as <- <-.
      eapply heap_frame_trans; [apply heap_AddComment_frame | apply heap_app_frame].
Qed.

(** What a run with complements keeps: the matched addresses, the old
    objects, and for every cell of the list a cell that holds it and its
    comment. *)
Lemma rtc_cstep_keeps (c : ipclass) (a a' : astate) :
  winv c a -> rtc cstep a a' ->
  winv c a' /\
  (length (a_chain a') <= length (a_chain a))%nat /\
  heap_frame (a_heap a) (a_heap a') /\
  (forall x, valid_address x ->
     covered (a_heap a') (a_chain a').*2 x <-> covered (a_heap a) (a_chain a).*2 x) /\
  (forall y, y ∈ a_chain a ->
     exists y', y' ∈ a_chain a' /\ within (nv (a_heap a) y) (nv (a_heap a') y')).
Proof.
  intros I R. induction R as [| a b d St R IH].
  - split; [done |]. split; [done |]. split; [apply heap_frame_refl |].
    split; [done |]. intros y Hy. exists y. split; [done | apply within_refl].
  - destruct (IH (cstep_winv c _ _ I St)) as (I' & Hlen & Hfr & Hcov & Hw).
    destruct (cstep_measure _ _ St) as [_ Hlen0].
    split; [done |]. split; [lia |].
    destruct St as [a1 a2 St | h ch cur fr].
    + split; [| split].
      * eapply heap_frame_trans; [| exact Hfr].
        apply astep_frame_w; [apply I | done].
      * intros x Hx. rewrite (Hcov x Hx).
        apply astep_covered_w; [apply I | apply I | done | done].
      * intros y Hy.
        destruct (astep_within a1 a2 (wi_wf _ _ I) (wi_valid _ _ I) St y Hy)
          as (y1 & Hy1 & Hw1).
        destruct (Hw y1 Hy1) as (y2 & Hy2 & Hw2).
        exists y2. split; [done |]. by apply (within_trans _ (nv (a_heap a2) y1)).
    + simpl in *. done.
Qed.

Lemma collapse_step_cases (C : gmap IPAddress (list nacaddr)) (h : heap)
    (nodes : list _LinkedList) (cur : nat) (fr : list nat) :
  collapse_step C h nodes cur fr =
    match ll_next (nodes !!! cur) with
    | None => collapse_step ∅ h nodes cur fr
    | Some nx =>
      match _SafeToMerge (h !!! ll_val (nodes !!! nx)) (h !!! ll_val (nodes !!! cur)) C with
      | Ok true => collapse_step ∅ h nodes cur fr
      | Ok false => Ok (mkState h nodes fr)
      | Raise e => Raise e
      end
    end.
Proof.
  unfold collapse_step. destruct (ll_next (nodes !!! cur)) as [nx |]; [| done].
  rewrite _SafeToMerge_empty.
  by destruct (_SafeToMerge _ _ C) as [[|] | e].
Qed.

Lemma collapse_step_refines_C (C : gmap IPAddress (list nacaddr)) (st : state)
    (a : astate) (cur : nat) (fr : list nat) :
  rep st a -> a_fringe a = cur :: fr ->
  (forall l1 rc nx rn l2,
     a_chain a = l1 ++ (cur, rc) :: (nx, rn) :: l2 ->
     pair_ok (a_heap a) rc rn /\
     exists b, _SafeToMerge (a_heap a !!! rn) (a_heap a !!! rc) C = Ok b) ->
  exists st' a',
    collapse_step C (st_heap st) (st_nodes st) cur fr = Ok st' /\
    cstep a a' /\ rep st' a'.
Proof.
  intros R Hfr Hok. rewrite collapse_step_cases.
  assert (Hplain : exists st' a',
            collapse_step ∅ (st_heap st) (st_nodes st) cur fr = Ok st' /\
            cstep a a' /\ rep st' a').
  { destruct (collapse_step_refines st a cur fr R Hfr) as (st' & a' & Hs & HA & R').
    - intros l1 rc nx rn l2 Hch. by destruct (Hok l1 rc nx rn l2 Hch).
    - exists st', a'. split; [done |]. split; [by apply C_step | done]. }
  destruct (ll_next (st_nodes st !!! cur)) as [nx |] eqn:Hnext; [| done].
  destruct a as [h ch fringe]. destruct st as [h_ nodes fringe_].
  destruct R as [Rh Rf RL RV]. simpl in *. subst.
  destruct (linked_next_Some _ _ _ _ RL Hnext) as (k & Hk & HSk).
  destruct (chain_split _ _ _ _ Hk HSk) as (l1 & rc & rn & l2 & -> & Hlen).
  assert (Hvc : ll_val (nodes !!! cur) = rc) by (apply RV; set_solver).
  assert (Hvn : ll_val (nodes !!! nx) = rn) by (apply RV; set_solver).
  rewrite Hvc, Hvn.
  destruct (Hok l1 rc nx rn l2 eq_refl) as [_ [[|] ->]]; [done |].
  exists (mkState h nodes fr), (mkA h (l1 ++ (cur, rc) :: (nx, rn) :: l2) fr).
  split; [done |]. split; [apply C_unsafe | by split].
Qed.

(** Every list of the index holds complements of the version of its key. *)
Definition dict_ok (C : gmap IPAddress (list nacaddr)) : Prop :=
  forall k l, C !! k = Some l -> Forall (fun c => version c = k.1) l.

Lemma complements_dict_ok (h : heap) (addresses complement_addresses : list ref) :
  dict_ok (complements_dict h addresses complement_addresses).
Proof.
  intros k l Hl.
  pose proof (complements_dict_default h addresses complement_addresses k) as Hd.
  rewrite Hl in Hd. simpl in Hd. rewrite Hd.
  case_bool_decide; [| constructor].
  apply Forall_forall. intros c Hc.
  apply list_elem_of_fmap in Hc as (ca & -> & Hca).
  apply list_elem_of_filter in Hca as [<- _]. done.
Qed.

Lemma winv_pair_ok (c : ipclass) (C : gmap IPAddress (list nacaddr)) (a : astate)
    (l1 l2 : list (nat * ref)) (cur rc nx rn : nat) :
  winv c a -> dict_ok C -> a_chain a = l1 ++ (cur, rc) :: (nx, rn) :: l2 ->
  pair_ok (a_heap a) rc rn /\
  exists b, _SafeToMerge (a_heap a !!! rn) (a_heap a !!! rc) C = Ok b.
Proof.
  intros I HC Hch.
  assert (Hadj : adj (a_chain a) (cur, rc) (nx, rn)) by (by exists l1, l2).
  pose proof (wi_ord _ _ I _ _ Hadj) as Hk. unfold nv in Hk. simpl in Hk.
  pose proof (wf_lookup_total _ rc (wi_wf _ _ I)) as Hwc.
  pose proof (wf_lookup_total _ rn (wi_wf _ _ I)) as Hwn.
  split.
  - unfold pair_ok.
    destruct (supernet_of (a_heap a !!! rc) (a_heap a !!! rn)) eqn:Hsup; [by left | right].
    destruct (sibling_cond_no_raise _ _ Hwc Hwn Hsup (rnest_ord _ _ Hk)) as [[|] Hs];
      [right | by left].
    split; [done |].
    set (h1 := heap_AddComment (a_heap a) rc (text (a_heap a !!! rn))).
    destruct (heap_Supernet_sibling h1 rc (a_heap a !!! rn)) as (p & -> & _).
    + apply wf_lookup_total, heap_AddComment_wf, I.
    + done.
    + rewrite (sibling_cond_net _ (a_heap a !!! rc) _ (a_heap a !!! rn)); [done | | done].
      apply heap_AddComment_net.
    + eauto.
  - pose proof (wi_cls _ _ I (cur, rc)) as Hc1. pose proof (wi_cls _ _ I (nx, rn)) as Hc2.
    rewrite Hch in Hc1, Hc2. unfold nv in Hc1, Hc2. simpl in Hc1, Hc2.
    specialize (Hc1 ltac:(set_solver)). specialize (Hc2 ltac:(set_solver)).
    unfold _SafeToMerge. rewrite _SafeToMerge_loop_same_version; [eauto | |].
    + apply version_eq_cls. congruence.
    + destruct (C !! network_address (a_heap a !!! rn)) as [l |] eqn:Hl; [| constructor].
      simpl. exact (HC _ _ Hl).
Qed.

Lemma collapse_loop_run_C (c : ipclass) (C : gmap IPAddress (list nacaddr)) (fuel : nat) :
  dict_ok C ->
  forall st a, rep st a -> winv c a -> (measure a <= fuel)%nat ->
    exists st' a', collapse_loop fuel C st = Ok st' /\ rep st' a' /\
      rtc cstep a a' /\ a_fringe a' = [].
Proof.
  intros HC. induction fuel as [|fuel IH]; intros st a R I Hm.
  - exists st, a. pose proof (rep_fringe _ _ R) as Hf.
    destruct (a_fringe a) as [|cur fr] eqn:Ha;
      [| unfold measure in Hm; rewrite Ha in Hm; simpl in Hm; lia].
    destruct st as [h nodes fringe]. simpl in *. subst.
    split; [done |]. split; [done |]. split; [apply rtc_refl | done].
  - pose proof (rep_fringe _ _ R) as Hf.
    destruct (a_fringe a) as [|cur fr] eqn:Ha.
    + exists st, a. destruct st as [h nodes fringe]. simpl in *. subst.
      split; [done |]. split; [done |]. split; [apply rtc_refl | done].
    + destruct (collapse_step_refines_C C st a cur fr R Ha) as (st1 & a1 & Hs & HA & R1).
      { intros l1 rc nx rn l2 Hch. by eapply winv_pair_ok. }
      destruct (cstep_measure _ _ HA) as [Hm1 _].
      destruct (IH st1 a1 R1 (cstep_winv c _ _ I HA)) as (st' & a' & Hl & R' & HR & Hf');
        [lia |].
      exists st', a'. split; [| split; [done | split; [| done]]].
      * destruct st as [h nodes fringe]. simpl in *. subst. rewrite Hs. by rsimpl.
      * by eapply rtc_l.
Qed.

(** The run of the collapser with complements on a sorted, non-empty list
    of one version. *)
Lemma _CollapseAddrListInternal_trace_C (c : ipclass) (C : gmap IPAddress (list nacaddr))
    (h : heap) (addresses : list ref) :
  dict_ok C -> addresses <> [] -> Forall wf h -> valid_refs h addresses ->
  Forall (fun r => cls (h !!! r) = c) addresses ->
  Sorted (fun r1 r2 => keyle (h !!! r1) (h !!! r2)) addresses ->
  exists a a',
    a_heap a = h /\ (a_chain a).*2 = addresses /\ winv c a /\
    rtc cstep a a' /\
    _CollapseAddrListInternal h addresses C = Ok (a_heap a', (a_chain a').*2).
Proof.
  intros HC Hne Hwf Hvalid Hcls Hsorted.
  destruct addresses as [|a0 rest] eqn:Haddr; [done |].
  rewrite <- Haddr in *.
  unfold _CollapseAddrListInternal. rewrite Haddr. cbv beta iota. rewrite <- Haddr.
  assert (St0 : straight [mkNode None None a0]).
  { intros i Hi. simpl in Hi. assert (i = 0%nat) as -> by lia. by split. }
  destruct (build_list_spec rest [mkNode None None a0] [0%nat] St0 ltac:(done))
    as (St & Hval & Hfr). simpl in St, Hval, Hfr.
  destruct (build_list [mkNode None None a0] [0%nat] 0 rest) as [nodes fringe].
  simpl in St, Hval, Hfr.
  assert (Hfr' : fringe = seq 0 (length addresses)) by (by rewrite Haddr, Hfr).
  rewrite <- Haddr in Hval.
  destruct (init_rep_ainv h nodes addresses Hne St Hval Hwf Hvalid Hsorted)
    as (R & I & Hm & Hsnd).
  set (a := mkA h (zip (seq 0 (length addresses)) addresses) (seq 0 (length addresses))) in *.
  rewrite <- Hfr' in R.
  assert (W : winv c a).
  { split.
    - apply I.
    - apply I.
    - apply I.
    - apply I.
    - intros x Hx. rewrite Forall_forall in Hcls. apply Hcls.
      rewrite <- Hsnd. by apply list_elem_of_fmap_2.
    - intros u v Huv. left. by apply (ainv_keyle a). }
  destruct (collapse_loop_run_C c C (3 * length addresses) HC _ a R W)
    as (st' & a' & Hl & R' & HR & Hf'); [lia |].
  rewrite Hl, bind_Ok.
  destruct (rtc_cstep_keeps c a a' W HR) as (W' & Hlen' & _).
  assert (Hlenz : length (a_chain a) = length addresses).
  { unfold a. simpl. rewrite length_zip, length_seq. lia. }
  pose proof (package_linked _ _ (rep_linked _ _ R') (S (length addresses)) 0%nat) as Hp.
  rewrite (wi_head _ _ W'), drop_0 in Hp. rewrite Hp by (rewrite length_fmap; lia).
  rewrite bind_Ok.
  assert (Hout : (fun i => ll_val (st_nodes st' !!! i)) <$> (a_chain a').*1 = (a_chain a').*2).
  { rewrite <- list_fmap_compose. apply list_fmap_ext.
    intros i [j r] Hx. simpl. apply (rep_val _ _ R').
    apply list_elem_of_lookup. eauto. }
  rewrite Hout, (rep_heap _ _ R').
  exists a, a'. done.
Qed.

Lemma CollapseAddrList_run_C (h : heap) (addresses complement_addresses : list ref)
    (c : ipclass) :
  Forall wf h -> valid_refs h addresses ->
  Forall (fun r => cls (h !!! r) = c) addresses ->
  exists h' out,
    CollapseAddrList h addresses complement_addresses = Ok (h', out) /\
    Forall wf h' /\ heap_frame h h' /\ (length out <= length addresses)%nat /\
    (forall x, valid_address x -> covered h' out x <-> covered h addresses x) /\
    (forall r0, r0 ∈ addresses ->
       exists r, r ∈ out /\ within (h !!! r0) (h' !!! r)).
Proof.
  intros Hwf Hv Hcls. unfold CollapseAddrList.
  set (C := complements_dict h addresses complement_addresses).
  pose proof (sorted_perm (get_mixed_type_key h) key_lt addresses) as HP.
  set (l := sorted (get_mixed_type_key h) key_lt addresses) in *.
  destruct (decide (l = [])) as [Hnil | Hne].
  { rewrite Hnil. exists h, []. split; [done |]. split; [done |].
    split; [apply heap_frame_refl |]. split; [simpl; lia |].
    split.
    - intros x Hx. by rewrite <- (covered_perm h l addresses x HP), Hnil.
    - intros r0 Hr0. rewrite <- HP, Hnil in Hr0. set_solver. }
  destruct (_CollapseAddrListInternal_trace_C c C h l) as (a & a' & Hh & Hch & W & HR & Hrun).
  { apply complements_dict_ok. }
  { done. }
  { done. }
  { by apply (valid_refs_perm h addresses). }
  { by rewrite HP. }
  { by apply sorted_keyle. }
  destruct (rtc_cstep_keeps c a a' W HR) as (W' & Hlen & Hfr & Hcov & Hw).
  rewrite Hrun. exists (a_heap a'), (a_chain a').*2. split; [done |].
  split; [apply W' |]. split; [by rewrite <- Hh |].
  split.
  { rewrite length_fmap. rewrite <- (Permutation_length HP), <- Hch, length_fmap. lia. }
  split.
  - intros x Hx. rewrite (Hcov x Hx), Hh, Hch. by apply covered_perm.
  - intros r0 Hr0. rewrite <- HP, <- Hch in Hr0.
    apply list_elem_of_fmap in Hr0 as (y & -> & Hy).
    destruct (Hw y Hy) as (y' & Hy' & Hwi).
    exists y'.2. split; [by apply list_elem_of_fmap_2 |].
    unfold nv in Hwi. by rewrite Hh in Hwi.
Qed.

(** X27: on prefixes of one IP version, [CollapseAddrList] with any list
    of complements returns; the result is not longer than the input and
    matches exactly the addresses the input matches: complements can stop a
    merge, never change the matched set. *)
Theorem CollapseAddrList_complements (h : heap) (addresses complement_addresses : list ref)
    (c : ipclass) :
  Forall wf h -> valid_refs h addresses ->
  Forall (fun r => cls (h !!! r) = c) addresses ->
  exists h' out,
    CollapseAddrList h addresses complement_addresses = Ok (h', out) /\
    (length out <= length addresses)%nat /\
    forall x, valid_address x -> covered h' out x <-> covered h addresses x.
Proof.
  intros Hwf Hv Hcls.
  destruct (CollapseAddrList_run_C h addresses complement_addresses c Hwf Hv Hcls)
    as (h' & out & Hrun & _ & _ & Hlen & Hcov & _).
  eauto.
Qed.

Definition ex_compl : heap :=
  [ip4 10 0 0 0 8 "a" ""; ip4 10 0 0 0 10 "b" ""; ip4 10 0 0 0 9 "x" ""].

Lemma CollapseAddrList_complements_witness :
  exists h' out,
    CollapseAddrList ex_compl [0%nat; 1%nat] [2%nat] = Ok (h', out) /\
    (length out <= length [0%nat; 1%nat])%nat /\
    forall x, valid_address x -> covered h' out x <-> covered ex_compl [0%nat; 1%nat] x.
Proof.
  apply (CollapseAddrList_complements ex_compl [0%nat; 1%nat] [2%nat] IPv4).
  - repeat constructor; by vm_compute.
  - repeat constructor.
  - repeat constructor.
Defined.

(** X28: with complements too, [CollapseAddrList] on prefixes of one
    version removes no object, changes of an existing object only the comment
    (by extending it), and loses no comment: every input prefix lies within a
    prefix of the result whose comment contains the input prefix's comment. *)
Theorem CollapseAddrList_complements_comments (h : heap)
    (addresses complement_addresses : list ref) (c : ipclass) :
  Forall wf h -> valid_refs h addresses ->
  Forall (fun r => cls (h !!! r) = c) addresses ->
  exists h' out,
    CollapseAddrList h addresses complement_addresses = Ok (h', out) /\
    heap_frame h h' /\
    forall r0, r0 ∈ addresses ->
      exists r, r ∈ out /\ subnet_of (h !!! r0) (h' !!! r) = true /\
                str_in (text (h !!! r0)) (text (h' !!! r)) = true.
Proof.
  intros Hwf Hv Hcls.
  destruct (CollapseAddrList_run_C h addresses complement_addresses c Hwf Hv Hcls)
    as (h' & out & Hrun & Hwf' & Hfr & _ & _ & Hw).
  exists h', out. split; [done |]. split; [done |].
  intros r0 Hr0. destruct (Hw r0 Hr0) as (r & Hr & Hc & Hlo & Hhi & Hs).
  exists r. split; [done |]. split; [| done].
  apply subnet_of_spec; [by apply wf_lookup_total | by apply wf_lookup_total | done].
Qed.

Lemma CollapseAddrList_complements_comments_witness :
  exists h' out,
    CollapseAddrList ex_compl [0%nat; 1%nat] [2%nat] = Ok (h', out) /\
    heap_frame ex_compl h' /\
    forall r0, r0 ∈ [0%nat; 1%nat] ->
      exists r, r ∈ out /\ subnet_of (ex_compl !!! r0) (h' !!! r) = true /\
                str_in (text (ex_compl !!! r0)) (text (h' !!! r)) = true.
Proof.
  apply (CollapseAddrList_complements_comments ex_compl [0%nat; 1%nat] [2%nat] IPv4).
  - repeat constructor; by vm_compute.
  - repeat constructor.
  - repeat constructor.
Defined.

(** X29: complements only make the result finer: every prefix returned by
    [CollapseAddrList] with complements is a subnet of a prefix returned
    without them. *)
Theorem CollapseAddrList_complements_finer (h : heap)
    (addresses complement_addresses : list ref) (c : ipclass) :
  Forall wf h -> valid_refs h addresses ->
  Forall (fun r => cls (h !!! r) = c) addresses ->
  exists h' out h0 out0,
    CollapseAddrList h addresses complement_addresses = Ok (h', out) /\
    CollapseAddrList h addresses [] = Ok (h0, out0) /\
    forall r, r ∈ out -> exists r0, r0 ∈ out0 /\ subnet_of (h' !!! r) (h0 !!! r0) = true.
Proof.
  intros Hwf Hv Hcls.
  destruct (CollapseAddrList_run_C h addresses complement_addresses c Hwf Hv Hcls)
    as (h' & out & Hrun & Hwf' & _ & _ & Hcov & _).
  destruct (CollapseAddrList_run h addresses Hwf Hv)
    as (h0 & out0 & Hrun0 & Hwf0 & _ & _ & Hcov0 & Hcol0 & _).
  exists h', out, h0, out0. split; [done |]. split; [done |].
  intros r Hr.
  pose proof (wf_lookup_total h' r Hwf') as Hq.
  apply (collapsed_inside h0 out0 Hwf0 Hcol0
           (Z.to_nat (max_prefixlen (h' !!! r) - prefixlen (h' !!! r))) _ Hq).
  - destruct Hq as (? & _). lia.
  - intros x Hx Hc. apply Hcov0; [done |]. apply Hcov; [done |]. by exists r.
Qed.

Lemma CollapseAddrList_complements_finer_witness :
  exists h' out h0 out0,
    CollapseAddrList ex_compl [0%nat; 1%nat] [2%nat] = Ok (h', out) /\
    CollapseAddrList ex_compl [0%nat; 1%nat] [] = Ok (h0, out0) /\
    forall r, r ∈ out -> exists r0, r0 ∈ out0 /\ subnet_of (h' !!! r) (h0 !!! r0) = true.
Proof.
  apply (CollapseAddrList_complements_finer ex_compl [0%nat; 1%nat] [2%nat] IPv4).
  - repeat constructor; by vm_compute.
  - repeat constructor.
  - repeat constructor.
Defined.

(** The example of the documentation of [CollapseAddrList]: with the
    complement 10.0.0.0/9, the prefixes 10.0.0.0/8 and 10.0.0.0/10 are both
    kept; without it, 10.0.0.0/10 is absorbed. *)
Lemma CollapseAddrList_complements_example :
  (exists h', CollapseAddrList ex_compl [0%nat; 1%nat] [2%nat] = Ok (h', [0%nat; 1%nat])) /\
  (exists h', CollapseAddrList ex_compl [0%nat; 1%nat] [] = Ok (h', [0%nat])).
Proof. split; eexists; by vm_compute. Qed.

(** ** Lists of both versions *)

(** X30: [RemoveAddressFromList] raises [TypeError] when prefixes of both
    IP versions are left in the list: if the superset holds two prefixes of
    different versions that do not overlap [exclude], the final [sorted]
    compares networks of different versions. *)
Theorem RemoveAddressFromList_mixed (h : heap) (superset : list ref) (e a b : ref) :
  Forall wf h -> valid_refs h superset -> (e < length h)%nat ->
  a ∈ superset -> b ∈ superset ->
  version (h !!! a) <> version (h !!! b) ->
  overlaps (h !!! a) (h !!! e) = false -> overlaps (h !!! b) (h !!! e) = false ->
  RemoveAddressFromList h superset e = Raise TypeError.
Proof.
  intros Hwf Hvs He Ha Hb Hv Hoa Hob. unfold RemoveAddressFromList.
  destruct (RemoveAddressFromList_loop_spec superset e h [] Hwf Hvs He)
    as (xs & out & Hrun & _ & _ & _ & Hkeep & _); [constructor |].
  rewrite Hrun, bind_Ok. cbv beta iota.
  assert (forall r, r ∈ superset -> (h ++ xs) !!! r = h !!! r) as Hold.
  { intros r Hr. unfold valid_refs in Hvs. rewrite Forall_forall in Hvs.
    rewrite lookup_total_app_l; [done | by apply Hvs]. }
  pose proof (Hkeep a (or_intror (conj Ha Hoa))) as Hina.
  pose proof (Hkeep b (or_intror (conj Hb Hob))) as Hinb.
  unfold sorted_networks.
  assert (same_versions (h ++ xs) out = false) as ->; [| done].
  apply not_true_iff_false. intros Hsame.
  destruct out as [| r0 out]; [set_solver |]. simpl in Hsame.
  rewrite forallb_forall in Hsame.
  assert (forall r, r ∈ r0 :: out ->
            version ((h ++ xs) !!! r) = version ((h ++ xs) !!! r0)) as Hall.
  { intros r Hr. apply elem_of_cons in Hr as [-> | Hr]; [done |].
    apply list_elem_of_In in Hr. apply Hsame in Hr.
    by apply bool_decide_eq_true in Hr. }
  pose proof (Hall a Hina) as H1. pose proof (Hall b Hinb) as H2.
  rewrite (Hold a Ha) in H1. rewrite (Hold b Hb) in H2. congruence.
Qed.

Definition ex_mixed_cut : heap :=
  [ip4 10 0 0 0 8 "" ""; new_net IPv6 0 64 "" ""; ip4 192 168 0 0 16 "" "";
   ip4 192 168 1 0 24 "" ""].

Lemma RemoveAddressFromList_mixed_witness :
  RemoveAddressFromList ex_mixed_cut [0%nat; 1%nat; 2%nat] 3%nat = Raise TypeError.
Proof.
  apply (RemoveAddressFromList_mixed ex_mixed_cut [0%nat; 1%nat; 2%nat] 3%nat 0%nat 1%nat).
  - repeat constructor; by vm_compute.
  - repeat constructor; simpl; lia.
  - simpl. lia.
  - set_solver.
  - set_solver.
  - intros H. vm_compute in H. discriminate.
  - by vm_compute.
  - by vm_compute.
Defined.

(** ** The oracle across versions *)

(** C1, where the code departs from it: for the merge target 10.0.0.0/8 and
    the candidate ::/64 with the complement ::/32, the index that
    [CollapseAddrList] builds holds the complement at the candidate's network
    address and, as numbers, [m.netmask <= c.netmask < a.netmask] holds; yet
    [_SafeToMerge] does not return [False]: comparing the IPv4 netmask of the
    target with the IPv6 netmask of the complement raises [TypeError], and
    [CollapseAddrList] on this mixed list raises with it. *)
Theorem SafeToMerge_raises_across_versions :
  let m := ex_mixed !!! 0%nat in
  let a := ex_mixed !!! 1%nat in
  let c := ex_mixed !!! 2%nat in
  let C := complements_dict ex_mixed [0%nat; 1%nat] [2%nat] in
  version m = 4 /\ version a = 6 /\
  C !! network_address a = Some [c] /\
  (netmask m).2 <= (netmask c).2 < (netmask a).2 /\
  _SafeToMerge a m C = Raise TypeError /\
  CollapseAddrList ex_mixed [0%nat; 1%nat] [2%nat] = Raise TypeError.
Proof. repeat split; by vm_compute. Qed.

(** ** What a call changes and what it depends on *)

(** The comment texts that [AddComment] can build from the comments of the
    input prefixes. *)
Inductive merged (h : heap) (inputs : list ref) : string -> Prop :=
| merged_empty : merged h inputs ""
| merged_input r : r ∈ inputs -> merged h inputs (text (h !!! r))
| merged_add o c :
    merged h inputs (text o) -> merged h inputs c ->
    merged h inputs (text (AddComment o c)).

(** No object is removed; an object outside [inputs] is left as it was; an
    object of [inputs] is its old self after some calls of [AddComment] with
    comments built from the inputs' comments. *)
Definition changed_only (h : heap) (inputs : list ref) (h' : heap) : Prop :=
  (length h <= length h')%nat /\
  forall r, (r < length h)%nat ->
    (r ∉ inputs -> h' !!! r = h !!! r) /\
    exists comments,
      h' !!! r = foldl AddComment (h !!! r) comments /\
      Forall (merged h inputs) comments.

(** Two stores of one size that hold the same objects at the references
    in [l]. *)
Definition same_at (l : list ref) (h g : heap) : Prop :=
  length h = length g /\ forall r, r ∈ l -> h !!! r = g !!! r.

(** Two outcomes that cannot be told apart through the inputs and the
    result: the same exception, or the same list of references with the same
    objects behind the inputs and the result. *)
Definition same_result (inputs : list ref) (x y : result (heap * list ref)) : Prop :=
  match x, y with
  | Ok (h', out), Ok (g', out') => out = out' /\ same_at (inputs ++ out) h' g'
  | Raise e, Raise e' => e = e'
  | _, _ => False
  end.

Definition res_rel {A B : Type} (P : A -> B -> Prop) (x : result A) (y : result B) : Prop :=
  match x, y with
  | Ok a, Ok b => P a b
  | Raise e, Raise e' => e = e'
  | _, _ => False
  end.

Lemma res_rel_bind {A B A' B' : Type} (P : A -> A' -> Prop) (Q : B -> B' -> Prop)
    (x : result A) (y : result A') (f : A -> result B) (g : A' -> result B') :
  res_rel P x y -> (forall a a', P a a' -> res_rel Q (f a) (g a')) ->
  res_rel Q (x ≫= f) (y ≫= g).
Proof. destruct x, y; simpl; intros H Hf; try done. by apply Hf. Qed.

Lemma res_rel_refl {A B : Type} (Q : B -> B -> Prop) (x : result A)
    (f g : A -> result B) :
  (forall a, res_rel Q (f a) (g a)) -> res_rel Q (x ≫= f) (x ≫= g).
Proof. destruct x; simpl; intros Hf; [apply Hf | done]. Qed.

Lemma res_rel_impl {A B : Type} (P Q : A -> B -> Prop) (x : result A) (y : result B) :
  res_rel P x y -> (forall a b, P a b -> Q a b) -> res_rel Q x y.
Proof. destruct x, y; simpl; auto. Qed.

Lemma foldl_AddComment_frame (o : nacaddr) (cs : list string) :
  obj_frame o (foldl AddComment o cs).
Proof.
  revert o. induction cs as [| c cs IH]; intros o; simpl; [apply obj_frame_refl |].
  eapply obj_frame_trans; [apply AddComment_frame | apply IH].
Qed.

Lemma changed_only_frame (h : heap) (inputs : list ref) (h' : heap) :
  changed_only h inputs h' -> heap_frame h h'.
Proof.
  intros [Hl H]. split; [done |]. intros r Hr.
  destruct (H r Hr) as (_ & cs & -> & _). apply foldl_AddComment_frame.
Qed.

Lemma heap_AddComment_lookup_eq (h : heap) (p : ref) (c : string) :
  (p < length h)%nat -> heap_AddComment h p c !!! p = AddComment (h !!! p) c.
Proof. intros Hp. unfold heap_AddComment. by rewrite list_lookup_total_insert_eq. Qed.

Lemma heap_AddComment_lookup_ne (h : heap) (p r : ref) (c : string) :
  r <> p -> heap_AddComment h p c !!! r = h !!! r.
Proof. intros Hp. unfold heap_AddComment. by rewrite list_lookup_total_insert_ne. Qed.

Lemma heap_AddComment_ge (h : heap) (p : ref) (c : string) :
  (length h <= p)%nat -> heap_AddComment h p c = h.
Proof. intros Hp. unfold heap_AddComment. by rewrite list_insert_ge. Qed.

Section effects.
Context (h0 : heap) (W R : list ref).
Hypothesis W_R : forall r, r ∈ W -> r ∈ R.

(** References the call may write to, and references it may read: the
    inputs and every object made during the call. *)
Definition own (r : ref) : Prop := r ∈ W \/ (length h0 <= r)%nat.
Definition vis (r : ref) : Prop := r ∈ R \/ (length h0 <= r)%nat.

Definition touched (h : heap) : Prop :=
  changed_only h0 W h /\
  forall r, (length h0 <= r)%nat -> merged h0 W (text (h !!! r)).

Definition agree (h1 h2 : heap) : Prop :=
  length h1 = length h2 /\ forall r, vis r -> h1 !!! r = h2 !!! r.

Definition rel (h1 h2 : heap) : Prop := touched h1 /\ agree h1 h2.

Lemma own_vis (r : ref) : own r -> vis r.
Proof. intros [? | ?]; [left; auto | by right]. Qed.

Lemma foldl_merged (o : nacaddr) (cs : list string) :
  merged h0 W (text o) -> Forall (merged h0 W) cs ->
  merged h0 W (text (foldl AddComment o cs)).
Proof.
  intros Ho Hcs. revert o Ho. induction Hcs as [| c cs Hc Hcs IH]; intros o Ho; [done |].
  simpl. apply IH. by apply merged_add.
Qed.

Lemma touched_text (h : heap) (r : ref) :
  touched h -> own r -> merged h0 W (text (h !!! r)).
Proof.
  intros [[_ Hc] Hf] Hr.
  destruct (decide (r < length h0)%nat) as [Hlt | Hge]; [| apply Hf; lia].
  destruct Hr as [Hr | ?]; [| lia].
  destruct (Hc r Hlt) as (_ & cs & -> & Hcs).
  apply foldl_merged; [by apply merged_input | done].
Qed.

Lemma touched_length (h : heap) : touched h -> (length h0 <= length h)%nat.
Proof. by intros [[? _] _]. Qed.

Lemma rel_text (h1 h2 : heap) (r : ref) : rel h1 h2 -> own r -> h2 !!! r = h1 !!! r.
Proof. intros [_ [_ Ha]] Hr. symmetry. by apply Ha, own_vis. Qed.

Lemma rel_vis (h1 h2 : heap) (r : ref) : rel h1 h2 -> vis r -> h2 !!! r = h1 !!! r.
Proof. intros [_ [_ Ha]] Hr. symmetry. by apply Ha. Qed.

Lemma rel_length (h1 h2 : heap) : rel h1 h2 -> length h2 = length h1.
Proof. by intros [_ [-> _]]. Qed.

Lemma touched_AddComment (h : heap) (p : ref) (c : string) :
  touched h -> own p -> merged h0 W c -> touched (heap_AddComment h p c).
Proof.
  intros Ht Hp Hc.
  destruct (decide (p < length h)%nat) as [Hlt | Hge];
    [| rewrite heap_AddComment_ge by lia; done].
  pose proof (touched_text h p Ht Hp) as Hm.
  destruct Ht as [[Hl Hch] Hf]. split; [split |].
  - by rewrite heap_AddComment_length.
  - intros r Hr. destruct (Hch r Hr) as (Hun & cs & Hcs & HF).
    destruct (decide (r = p)) as [-> | Hne].
    + rewrite heap_AddComment_lookup_eq by done. split.
      * intros Hn. destruct Hp as [? | ?]; [done | lia].
      * exists (cs ++ [c]). rewrite foldl_app. simpl. rewrite <- Hcs.
        split; [done |]. apply Forall_app. split; [done | by constructor].
    + rewrite heap_AddComment_lookup_ne by done. split; [done |]. by exists cs.
  - intros r Hr. destruct (decide (r = p)) as [-> | Hne].
    + rewrite heap_AddComment_lookup_eq by done. by apply merged_add.
    + rewrite heap_AddComment_lookup_ne by done. by apply Hf.
Qed.

Lemma rel_AddComment (h1 h2 : heap) (p q : ref) :
  rel h1 h2 -> own p -> own q ->
  rel (heap_AddComment h1 p (text (h1 !!! q))) (heap_AddComment h2 p (text (h2 !!! q))).
Proof.
  intros Hr Hp Hq. rewrite (rel_text h1 h2 q Hr Hq).
  pose proof (rel_text h1 h2 p Hr Hp) as Hpp.
  destruct Hr as [Ht [Hl Ha]]. split.
  - apply touched_AddComment; [done | done |]. by apply touched_text.
  - split; [by rewrite !heap_AddComment_length |].
    intros r Hr. destruct (decide (r = p)) as [-> | Hne].
    + destruct (decide (p < length h1)%nat) as [Hlt | Hge].
      * rewrite !heap_AddComment_lookup_eq by lia. by rewrite Hpp.
      * rewrite !heap_AddComment_ge by lia. by apply Ha.
    + rewrite !heap_AddComment_lookup_ne by done. by apply Ha.
Qed.

Lemma touched_app (h l : heap) :
  touched h -> Forall (fun o => merged h0 W (text o)) l -> touched (h ++ l).
Proof.
  intros [[Hl Hch] Hf] HF. split; [split |].
  - rewrite length_app. lia.
  - intros r Hr. rewrite lookup_total_app_l by lia. by apply Hch.
  - intros r Hr. destruct (decide (r < length h)%nat) as [Hlt | Hge].
    + rewrite lookup_total_app_l by done. by apply Hf.
    + rewrite lookup_total_app_r by lia.
      destruct (decide (r - length h < length l)%nat) as [Hin | Hout].
      * rewrite Forall_lookup in HF.
        destruct (lookup_lt_is_Some_2 l (r - length h) Hin) as [o Ho].
        rewrite (list_lookup_total_correct _ _ _ Ho). by apply (HF _ _ Ho).
      * rewrite lookup_total_ge by lia. apply merged_empty.
Qed.

Lemma rel_app (h1 h2 l : heap) :
  rel h1 h2 -> Forall (fun o => merged h0 W (text o)) l -> rel (h1 ++ l) (h2 ++ l).
Proof.
  intros [Ht [Hl Ha]] HF. split; [by apply touched_app |].
  split; [by rewrite !length_app, Hl |].
  intros r Hr. destruct (decide (r < length h1)%nat) as [Hlt | Hge].
  - rewrite !lookup_total_app_l by lia. by apply Ha.
  - rewrite !lookup_total_app_r by lia. by rewrite Hl.
Qed.

Lemma rel_Supernet (h1 h2 : heap) (p : ref) :
  rel h1 h2 -> own p ->
  res_rel (fun x y => rel x.1 y.1 /\ x.2 = y.2 /\ own x.2)
    (heap_Supernet h1 p) (heap_Supernet h2 p).
Proof.
  intros Hr Hp. unfold heap_Supernet. rewrite (rel_text h1 h2 p Hr Hp).
  destruct (Supernet (h1 !!! p)) as [[| o] | e] eqn:Hs; simpl; [done | | done].
  unfold alloc. simpl. rewrite (rel_length h1 h2 Hr).
  split; [| split; [done |]].
  - apply (rel_app h1 h2 [o]); [done |]. constructor; [| constructor].
    unfold Supernet, supernet in Hs.
    destruct (bool_decide (prefixlen (h1 !!! p) = 0)); [done |].
    destruct (bool_decide (prefixlen (h1 !!! p) - 1 < 0)); [done |].
    destruct (ipaddress_supernet (h1 !!! p) 1) as [s | ?]; [| done].
    simpl in Hs. injection Hs as <-. simpl.
    apply touched_text; [by destruct Hr | done].
  - right. apply touched_length. by destruct Hr.
Qed.

(** The cells of the arena hold references of the call, and their [next]
    pointers stay inside the arena. *)
Definition good (n : nat) (c : _LinkedList) : Prop :=
  own (ll_val c) /\ forall x, ll_next c = Some x -> (x < n)%nat.

Definition arena_ok (nodes : list _LinkedList) : Prop :=
  (0 < length nodes)%nat /\ Forall (good (length nodes)) nodes.

Lemma arena_lookup (nodes : list _LinkedList) (i n : nat) :
  arena_ok nodes -> ll_next (nodes !!! i) = Some n ->
  own (ll_val (nodes !!! i)) /\ (n < length nodes)%nat /\ own (ll_val (nodes !!! n)).
Proof.
  intros [_ Ha] Hn. rewrite Forall_lookup in Ha.
  destruct (nodes !! i) as [c |] eqn:Hi.
  - rewrite (list_lookup_total_correct _ _ _ Hi) in Hn |- *.
    destruct (Ha _ _ Hi) as [Hv Hx]. pose proof (Hx _ Hn) as Hlt.
    split; [done |]. split; [done |].
    destruct (lookup_lt_is_Some_2 nodes n Hlt) as [c' Hc'].
    rewrite (list_lookup_total_correct _ _ _ Hc'). by destruct (Ha _ _ Hc').
  - rewrite list_lookup_total_alt, Hi in Hn. done.
Qed.

Lemma arena_next_next (nodes : list _LinkedList) (i n : nat) :
  arena_ok nodes -> ll_next (nodes !!! i) = Some n -> (n < length nodes)%nat.
Proof. intros Ha Hn. by destruct (arena_lookup nodes i n Ha Hn) as (_ & ? & _). Qed.

Lemma arena_alter (nodes : list _LinkedList) (f : _LinkedList -> _LinkedList) (i : nat) :
  arena_ok nodes ->
  (forall c, good (length nodes) c -> good (length nodes) (f c)) ->
  arena_ok (alter f i nodes).
Proof.
  intros [Hl Ha] Hf. unfold arena_ok. rewrite length_alter. split; [done |].
  apply Forall_alter; [done |]. intros c _. apply Hf.
Qed.

Lemma RemoveNext_arena (nodes nodes' : list _LinkedList) (self : nat) :
  RemoveNext nodes self = Ok nodes' -> arena_ok nodes -> arena_ok nodes'.
Proof.
  unfold RemoveNext. intros H Ha.
  destruct (ll_next (nodes !!! self)) as [nx |] eqn:Hnx; [| done].
  assert (forall x, ll_next (nodes !!! nx) = Some x -> (x < length nodes)%nat) as Hnn.
  { intros x Hx. by apply (arena_next_next nodes nx x). }
  set (n1 := alter (fun c => set_next c None) nx nodes) in *.
  assert (arena_ok n1) as H1.
  { apply arena_alter; [done |]. intros c [? ?]. split; [done |]. simpl. done. }
  set (n2 := alter (fun c => set_prev c None) nx n1) in *.
  assert (arena_ok n2) as H2.
  { apply arena_alter; [done |]. intros c [? ?]. split; done. }
  set (n3 := alter (fun c => set_next c (ll_next (nodes !!! nx))) self n2) in *.
  assert (length n2 = length nodes) as Hl2.
  { unfold n2, n1. by rewrite !length_alter. }
  assert (arena_ok n3) as H3.
  { apply arena_alter; [done |]. intros c [? ?]. split; [done |]. simpl.
    intros x Hx. rewrite Hl2. by apply Hnn. }
  destruct (ll_next (nodes !!! nx)) as [nn |]; injection H as <-; [| done].
  apply arena_alter; [done |]. intros c [? ?]. split; done.
Qed.

Definition state_rel (st1 st2 : state) : Prop :=
  rel (st_heap st1) (st_heap st2) /\ st_nodes st1 = st_nodes st2 /\
  st_fringe st1 = st_fringe st2 /\ arena_ok (st_nodes st1).

Lemma collapse_step_rel (C : gmap IPAddress (list nacaddr)) (h1 h2 : heap)
    (nodes : list _LinkedList) (cur : nat) (fringe : list nat) :
  rel h1 h2 -> arena_ok nodes ->
  res_rel state_rel (collapse_step C h1 nodes cur fringe)
    (collapse_step C h2 nodes cur fringe).
Proof.
  intros Hr Ha. unfold collapse_step.
  destruct (ll_next (nodes !!! cur)) as [nx |] eqn:Hnx; [| by split].
  destruct (arena_lookup nodes cur nx Ha Hnx) as (Hoc & Hlt & Hon).
  rewrite (rel_text h1 h2 _ Hr Hoc), (rel_text h1 h2 _ Hr Hon).
  apply res_rel_refl. intros safe.
  destruct safe; simpl; [| by split].
  pose proof (rel_AddComment h1 h2 _ _ Hr Hoc Hon) as HrA.
  rewrite (rel_text h1 h2 _ Hr Hon) in HrA.
  destruct (supernet_of _ _).
  - destruct (RemoveNext nodes cur) as [nodes' |] eqn:HR; simpl; [| done].
    split; [done |]. split; [done |]. split; [done |].
    by apply (RemoveNext_arena nodes _ cur).
  - apply res_rel_refl. intros c. destruct c; [| by split].
    destruct (RemoveNext nodes cur) as [nodes' |] eqn:HR; simpl; [| done].
    pose proof (RemoveNext_arena nodes _ cur HR Ha) as Ha'.
    eapply res_rel_bind; [apply rel_Supernet; [exact HrA | exact Hoc] |].
    intros [h1' r1] [h2' r2] (Hr' & Heq & Hor). simpl in *. subst r2.
    assert (arena_ok (alter (fun c => set_val c r1) cur nodes')) as Ha2.
    { apply arena_alter; [done |]. intros c [? ?]. split; done. }
    destruct (ll_prev _); simpl; by split.
Qed.

Lemma collapse_loop_rel (C : gmap IPAddress (list nacaddr)) (fuel : nat) :
  forall st1 st2, state_rel st1 st2 ->
  res_rel state_rel (collapse_loop fuel C st1) (collapse_loop fuel C st2).
Proof.
  induction fuel as [| fuel IH]; intros st1 st2 Hst;
    pose proof Hst as (Hr & Hn & Hf & Ha); simpl; rewrite <- ?Hf, <- ?Hn.
  - destruct (st_fringe st1); simpl; done.
  - destruct (st_fringe st1) as [| cur fringe]; simpl; [done |].
    eapply res_rel_bind; [by apply collapse_step_rel |].
    intros a a' Haa. by apply IH.
Qed.

Lemma Add_arena (nodes : list _LinkedList) (node : nat) (v : ref) :
  arena_ok nodes -> own v -> arena_ok (Add nodes node v).1.
Proof.
  intros [_ Ha] Hv. unfold Add. simpl. unfold arena_ok.
  rewrite length_app, length_alter. simpl. split; [lia |].
  apply Forall_app. split.
  - apply Forall_alter.
    + eapply Forall_impl; [exact Ha |]. intros c [? Hx]. split; [done |].
      intros x Hc. specialize (Hx x Hc). lia.
    + intros c _ [? _]. split; [done |]. simpl. intros x [= <-]. lia.
  - constructor; [| constructor]. split; [done |]. simpl. done.
Qed.

Lemma build_list_arena (rest : list ref) :
  forall nodes fringe node,
  arena_ok nodes -> Forall own rest ->
  arena_ok (build_list nodes fringe node rest).1.
Proof.
  induction rest as [| addr rest IH]; intros nodes fringe node Ha Hr; simpl; [done |].
  apply Forall_cons in Hr as [Hv Hr].
  pose proof (Add_arena nodes node addr Ha Hv) as Ha'.
  unfold Add in *. simpl in *.
  exact (IH _ (fringe ++ [length nodes]) (length nodes) Ha' Hr).
Qed.

Lemma package_own (fuel : nat) (nodes : list _LinkedList) :
  arena_ok nodes ->
  forall addrs out,
  (forall i, addrs = Some i -> (i < length nodes)%nat) ->
  package fuel nodes addrs = Ok out -> Forall own out.
Proof.
  intros Ha. induction fuel as [| fuel IH]; intros addrs out Hi H.
  - destruct addrs; simpl in H; [done |]. injection H as <-. constructor.
  - destruct addrs as [i |]; simpl in H; [| injection H as <-; constructor].
    destruct (package fuel nodes (ll_next (nodes !!! i))) as [rest |] eqn:Hp; [| done].
    simpl in H. injection H as <-.
    constructor.
    + specialize (Hi i eq_refl). destruct Ha as [_ Ha]. rewrite Forall_lookup in Ha.
      destruct (lookup_lt_is_Some_2 nodes i Hi) as [c Hc].
      rewrite (list_lookup_total_correct _ _ _ Hc). by destruct (Ha _ _ Hc).
    + apply (IH _ _ (fun x Hx => arena_next_next nodes i x Ha Hx) Hp).
Qed.

Definition out_rel (x y : heap * list ref) : Prop :=
  rel x.1 y.1 /\ x.2 = y.2 /\ Forall own x.2.

Lemma _CollapseAddrListInternal_rel (h1 h2 : heap) (addresses : list ref)
    (C : gmap IPAddress (list nacaddr)) :
  rel h1 h2 -> Forall own addresses ->
  res_rel out_rel (_CollapseAddrListInternal h1 addresses C)
    (_CollapseAddrListInternal h2 addresses C).
Proof.
  intros Hr Ho. unfold _CollapseAddrListInternal.
  destruct addresses as [| a0 rest]; [by split |].
  apply Forall_cons in Ho as [Ho0 Hor].
  destruct (build_list [mkNode None None a0] [0%nat] 0%nat rest) as [nodes fringe] eqn:Hb.
  assert (arena_ok nodes) as Ha.
  { pose proof (build_list_arena rest [mkNode None None a0] [0%nat] 0%nat) as H.
    rewrite Hb in H. apply H; [| done].
    split; [simpl; lia |]. constructor; [| constructor]. split; [done |]. simpl. done. }
  eapply res_rel_bind.
  - apply collapse_loop_rel. by split.
  - intros st1 st2 (Hr' & Hn & Hf & Ha'). rewrite <- Hn.
    destruct (package _ (st_nodes st1) (Some 0%nat)) as [ret |] eqn:Hp; simpl; [| done].
    split; [done |]. split; [done |]. simpl.
    apply (package_own _ _ Ha' _ _) in Hp; [done |].
    intros i [= <-]. by destruct Ha'.
Qed.

Definition key_agree {K : Type} (k1 k2 : ref -> K) (l : list ref) : Prop :=
  Forall (fun r => k1 r = k2 r) l.

Lemma sorted_insert_ext {K : Type} (k1 k2 : ref -> K) (lt : K -> K -> bool)
    (x : ref) (l : list ref) :
  k1 x = k2 x -> key_agree k1 k2 l ->
  sorted_insert k1 lt x l = sorted_insert k2 lt x l.
Proof.
  intros Hx Hl. induction Hl as [| y l Hy Hl IH]; simpl; [done |].
  by rewrite Hx, Hy, IH.
Qed.

Lemma sorted_ext {K : Type} (k1 k2 : ref -> K) (lt : K -> K -> bool) (l : list ref) :
  key_agree k1 k2 l -> sorted k1 lt l = sorted k2 lt l.
Proof.
  intros Hl. induction Hl as [| y l Hy Hl IH]; [done |].
  change (sorted_insert k1 lt y (sorted k1 lt l) = sorted_insert k2 lt y (sorted k2 lt l)).
  rewrite IH. apply sorted_insert_ext; [done |].
  unfold key_agree. by rewrite (sorted_perm k2 lt l).
Qed.

Lemma groupby_ext {K : Type} `{EqDecision K} (k1 k2 : ref -> K) (l : list ref) :
  key_agree k1 k2 l -> groupby k1 l = groupby k2 l.
Proof.
  intros Hl. induction Hl as [| y l Hy Hl IH]; simpl; [done |].
  by rewrite IH, Hy.
Qed.

Lemma agree_key (h1 h2 : heap) (l : list ref) {K : Type} (f : nacaddr -> K) :
  agree h1 h2 -> Forall vis l -> key_agree (fun r => f (h1 !!! r)) (fun r => f (h2 !!! r)) l.
Proof.
  intros [_ Ha] Hl. eapply Forall_impl; [exact Hl |]. intros r Hr. simpl.
  by rewrite (Ha r Hr).
Qed.

Lemma fold_left_ext_in {A B : Type} (f g : A -> B -> A) (l : list B) :
  (forall a b, b ∈ l -> f a b = g a b) ->
  forall a, fold_left f l a = fold_left g l a.
Proof.
  induction l as [| b l IH]; intros H a; simpl; [done |].
  rewrite H by set_solver. apply IH. intros a' b' Hb'. apply H. set_solver.
Qed.

Lemma complements_dict_ext (h1 h2 : heap) (addresses complement_addresses : list ref) :
  agree h1 h2 -> Forall vis addresses -> Forall vis complement_addresses ->
  complements_dict h1 addresses complement_addresses =
  complements_dict h2 addresses complement_addresses.
Proof.
  intros Ha HA HC. unfold complements_dict.
  assert (map (fun a => network_address (h1 !!! a)) addresses =
          map (fun a => network_address (h2 !!! a)) addresses) as ->.
  { apply map_ext_Forall. exact (agree_key h1 h2 addresses network_address Ha HA). }
  apply fold_left_ext_in. intros d ca Hca.
  rewrite Forall_forall in HC. destruct Ha as [_ Ha].
  by rewrite (Ha ca (HC ca Hca)).
Qed.

Lemma Forall_own_vis (l : list ref) : Forall own l -> Forall vis l.
Proof. intros H. eapply Forall_impl; [exact H |]. intros r. apply own_vis. Qed.

Lemma CollapseAddrList_rel (h1 h2 : heap) (addresses complement_addresses : list ref) :
  rel h1 h2 -> Forall own addresses -> Forall vis complement_addresses ->
  res_rel out_rel (CollapseAddrList h1 addresses complement_addresses)
    (CollapseAddrList h2 addresses complement_addresses).
Proof.
  intros Hr HA HC. unfold CollapseAddrList.
  pose proof (Forall_own_vis _ HA) as HAv.
  rewrite <- (complements_dict_ext h1 h2) by (done || by destruct Hr).
  unfold get_mixed_type_key.
  rewrite <- (sorted_ext _ _ key_lt addresses
               (agree_key h1 h2 addresses _get_networks_key (proj2 Hr) HAv)).
  apply _CollapseAddrListInternal_rel; [done |].
  by rewrite (sorted_perm _ key_lt addresses).
Qed.

Definition groups_rel (x y : heap * list (list ref)) : Prop :=
  rel x.1 y.1 /\ x.2 = y.2 /\ Forall (Forall own) x.2.

Lemma collapse_groups_rel (groups : list (string * list ref)) :
  forall h1 h2, rel h1 h2 -> Forall (fun g => Forall own g.2) groups ->
  res_rel groups_rel (collapse_groups h1 groups) (collapse_groups h2 groups).
Proof.
  induction groups as [| grp groups IH]; intros h1 h2 Hr Hg; simpl; [by split |].
  apply Forall_cons in Hg as [Hg1 Hg].
  eapply res_rel_bind; [apply (CollapseAddrList_rel h1 h2 grp.2 []); [done | done | constructor] |].
  intros [h1' r1] [h2' r2] (Hr' & Heq & Ho). simpl in *. subst r2.
  eapply res_rel_bind; [by apply IH |].
  intros [h1'' rs1] [h2'' rs2] (Hr'' & Heq & Hos). simpl in *. subst rs2.
  split; [done |]. split; [done |]. simpl. by constructor.
Qed.

Lemma _InNetList_ext (h1 h2 : heap) (adders : list ref) (ip : ref) :
  agree h1 h2 -> Forall vis adders -> vis ip ->
  _InNetList h2 adders ip = _InNetList h1 adders ip.
Proof.
  intros [_ Ha] Hl Hi. unfold _InNetList. rewrite (Ha ip Hi).
  induction Hl as [| a l Hv Hl IH]; simpl; [done |]. by rewrite IH, (Ha a Hv).
Qed.

Lemma IsSuperNet_ext (h1 h2 : heap) (supernets subnets : list ref) :
  agree h1 h2 -> Forall vis supernets -> Forall vis subnets ->
  IsSuperNet h2 supernets subnets = IsSuperNet h1 supernets subnets.
Proof.
  intros Ha Hs Hl. unfold IsSuperNet.
  induction Hl as [| a l Hv Hl IH]; simpl; [done |].
  by rewrite IH, (_InNetList_ext h1 h2).
Qed.

Lemma dedup_scan_Forall (P : list ref -> Prop) (fuel : nat) (h : heap) (ip : list ref) :
  forall d k to_add d',
  dedup_scan fuel h ip d k = Ok (to_add, d') -> Forall P d -> Forall P d'.
Proof.
  induction fuel as [| fuel IH]; intros d k b d' H Hd; simpl in H.
  - destruct (d !! k); [done |]. by injection H as _ <-.
  - destruct (d !! k); [| by injection H as _ <-].
    destruct (IsSuperNet h l ip); [by injection H as _ <- |].
    destruct (IsSuperNet h ip l); [| by eapply IH].
    eapply IH; [exact H |]. by apply Forall_delete.
Qed.

Lemma dedup_scan_ext (h1 h2 : heap) (fuel : nat) (ip : list ref) :
  agree h1 h2 -> Forall vis ip ->
  forall d k, Forall (Forall vis) d ->
  dedup_scan fuel h2 ip d k = dedup_scan fuel h1 ip d k.
Proof.
  intros Ha Hip. induction fuel as [| fuel IH]; intros d k Hd; simpl; [done |].
  destruct (d !! k) as [l |] eqn:Hk; [| done].
  assert (Forall vis l) as Hl.
  { rewrite Forall_lookup in Hd. by apply (Hd k). }
  rewrite !(IsSuperNet_ext h1 h2) by done.
  destruct (IsSuperNet h1 l ip); [done |].
  destruct (IsSuperNet h1 ip l); [| by apply IH].
  apply IH. by apply Forall_delete.
Qed.

Lemma dedup_loop_Forall (P : list ref -> Prop) (h : heap) (ret_array : list (list ref)) :
  forall d d', dedup_loop h ret_array d = Ok d' ->
  Forall P ret_array -> Forall P d -> Forall P d'.
Proof.
  induction ret_array as [| ip ret IH]; intros d d' H Hr Hd; simpl in H.
  - by injection H as <-.
  - apply Forall_cons in Hr as [Hip Hr].
    destruct (dedup_scan (length d) h ip d 0) as [[b d1] |] eqn:Hs; [| done].
    simpl in H. pose proof (dedup_scan_Forall P _ _ _ _ _ _ _ Hs Hd) as Hd1.
    eapply IH; [exact H | done |]. destruct b; [| done].
    apply Forall_app. split; [done | by constructor].
Qed.

Lemma dedup_loop_ext (h1 h2 : heap) (ret_array : list (list ref)) :
  agree h1 h2 ->
  forall d, Forall (Forall vis) ret_array -> Forall (Forall vis) d ->
  dedup_loop h2 ret_array d = dedup_loop h1 ret_array d.
Proof.
  intros Ha. induction ret_array as [| ip ret IH]; intros d Hr Hd; simpl; [done |].
  apply Forall_cons in Hr as [Hip Hr].
  rewrite (dedup_scan_ext h1 h2) by done.
  destruct (dedup_scan (length d) h1 ip d 0) as [[b d1] |] eqn:Hs; [| done].
  simpl. pose proof (dedup_scan_Forall _ _ _ _ _ _ _ _ Hs Hd) as Hd1.
  apply IH; [done |]. destruct b; [| done].
  apply Forall_app. split; [done | by constructor].
Qed.

Lemma CollapseAddrListPreserveTokens_rel (h1 h2 : heap) (addresses : list ref) :
  rel h1 h2 -> Forall own addresses ->
  res_rel out_rel (CollapseAddrListPreserveTokens h1 addresses)
    (CollapseAddrListPreserveTokens h2 addresses).
Proof.
  intros Hr HA. unfold CollapseAddrListPreserveTokens.
  pose proof (Forall_own_vis _ HA) as HAv.
  pose proof (agree_key h1 h2 addresses parent_token (proj2 Hr) HAv) as Hk.
  rewrite <- (sorted_ext _ _ string_lt addresses Hk).
  set (s := sorted (fun r => parent_token (h1 !!! r)) string_lt addresses).
  assert (s ≡ₚ addresses) as Hs by apply sorted_perm.
  assert (key_agree (fun r => parent_token (h1 !!! r))
            (fun r => parent_token (h2 !!! r)) s) as Hks.
  { unfold key_agree. rewrite Hs. exact Hk. }
  rewrite <- (groupby_ext _ _ s Hks).
  eapply res_rel_bind.
  - apply collapse_groups_rel; [done |]. apply groupby_Forall. by rewrite Hs.
  - intros [h1' rs] [h2' rs2] (Hr' & Heq & Ho). simpl in *. subst rs2.
    assert (Forall (Forall vis) rs) as Hv.
    { eapply Forall_impl; [exact Ho |]. apply Forall_own_vis. }
    rewrite (dedup_loop_ext h1' h2' rs (proj2 Hr') [] Hv (Forall_nil_2 _)).
    destruct (dedup_loop h1' rs []) as [d |] eqn:Hd; simpl; [| done].
    split; [done |]. split; [done |]. simpl.
    pose proof (dedup_loop_Forall _ _ _ _ _ Hd Ho (Forall_nil_2 _)) as Hd'.
    apply Forall_forall. intros r Hr0. apply elem_of_concat in Hr0 as (l & Hl & Hrl).
    rewrite Forall_forall in Hd'. specialize (Hd' l Hl).
    rewrite Forall_forall in Hd'. by apply Hd'.
Qed.

(** Properties of references that every object made during the call has. *)
Definition fresh_closed (P : ref -> Prop) : Prop :=
  forall r, (length h0 <= r)%nat -> P r.

Lemma own_fresh : fresh_closed own.
Proof. intros r Hr. by right. Qed.

Lemma vis_fresh : fresh_closed vis.
Proof. intros r Hr. by right. Qed.

Lemma same_versions_ext (h1 h2 : heap) (l : list ref) :
  agree h1 h2 -> Forall vis l -> same_versions h2 l = same_versions h1 l.
Proof.
  intros [_ Ha] Hl. unfold same_versions. destruct Hl as [| r l Hr Hl]; [done |].
  rewrite (Ha r Hr). induction Hl as [| a l Hv Hl IH]; simpl; [done |].
  by rewrite IH, (Ha a Hv).
Qed.

Lemma sorted_networks_ext (h1 h2 : heap) (l : list ref) :
  agree h1 h2 -> Forall vis l -> sorted_networks h2 l = sorted_networks h1 l.
Proof.
  intros Ha Hl. unfold sorted_networks. rewrite (same_versions_ext h1 h2) by done.
  unfold get_mixed_type_key.
  by rewrite (sorted_ext _ _ key_lt l (agree_key h1 h2 l _get_networks_key Ha Hl)).
Qed.

Lemma sorted_networks_Forall (P : ref -> Prop) (h : heap) (l out : list ref) :
  sorted_networks h l = Ok out -> Forall P l -> Forall P out.
Proof.
  unfold sorted_networks. destruct (same_versions h l); [| done].
  intros [= <-] Hl. by rewrite (sorted_perm _ key_lt l).
Qed.

Definition cut_rel (ins : list ref) (x y : heap * list ref) : Prop :=
  rel x.1 y.1 /\ x.2 = y.2 /\
  forall P, fresh_closed P -> Forall P ins -> Forall P x.2.

Lemma RemoveAddressFromList_loop_rel (superset : list ref) (e : ref) :
  forall h1 h2 ret, rel h1 h2 -> Forall vis superset -> vis e ->
  res_rel (cut_rel (ret ++ superset))
    (RemoveAddressFromList_loop h1 superset e ret)
    (RemoveAddressFromList_loop h2 superset e ret).
Proof.
  induction superset as [| addr superset IH]; intros h1 h2 ret Hr Hs He; simpl.
  - split; [done |]. split; [done |]. intros P _ HP. simpl. by rewrite app_nil_r in HP.
  - apply Forall_cons in Hs as [Ha Hs].
    rewrite (rel_vis h1 h2 addr Hr Ha), (rel_vis h1 h2 e Hr He).
    destruct (net_eq (h1 !!! e) (h1 !!! addr) || subnet_of (h1 !!! addr) (h1 !!! e)).
    { eapply res_rel_impl; [by apply IH |].
      intros x y (? & ? & HP). split; [done |]. split; [done |].
      intros P HfP HPi. apply HP; [done |].
      rewrite Forall_app in HPi |- *. destruct HPi as [? HPi].
      by apply Forall_cons in HPi as [_ ?]. }
    destruct (bool_decide (version (h1 !!! e) = version (h1 !!! addr))
              && subnet_of (h1 !!! e) (h1 !!! addr)).
    + destruct (address_exclude (h1 !!! addr) (h1 !!! e)) as [xs | ex]; simpl; [| done].
      rewrite !alloc_all_spec, (rel_length h1 h2 Hr).
      eapply res_rel_impl.
      * apply IH; [| done | done]. apply rel_app; [done |].
        apply Forall_forall. intros o Ho. apply list_elem_of_fmap in Ho as (x & -> & _).
        apply merged_empty.
      * intros x y (? & ? & HP). split; [done |]. split; [done |].
        intros P HfP HPi. apply HP; [done |].
        rewrite Forall_app in HPi. destruct HPi as [? HPi].
        apply Forall_cons in HPi as [_ ?].
        rewrite !Forall_app. split; [split; [done |] | done].
        apply Forall_forall. intros r Hr0. apply elem_of_seq in Hr0.
        apply HfP. pose proof (touched_length h1 (proj1 Hr)). lia.
    + eapply res_rel_impl; [by apply IH |].
      intros x y (? & ? & HP). split; [done |]. split; [done |].
      intros P HfP HPi. apply HP; [done |].
      rewrite Forall_app in HPi. destruct HPi as [? HPi].
      apply Forall_cons in HPi as [? ?].
      rewrite !Forall_app. split; [split; [done | by constructor] | done].
Qed.

Lemma RemoveAddressFromList_rel (h1 h2 : heap) (superset : list ref) (e : ref) :
  rel h1 h2 -> Forall vis superset -> vis e ->
  res_rel (cut_rel superset)
    (RemoveAddressFromList h1 superset e) (RemoveAddressFromList h2 superset e).
Proof.
  intros Hr Hs He. unfold RemoveAddressFromList.
  eapply res_rel_bind; [by apply (RemoveAddressFromList_loop_rel superset e h1 h2 []) |].
  intros [h1' r1] [h2' r2] (Hr' & Heq & HP). simpl in *. subst r2.
  assert (Forall vis r1) as Hv1 by (apply HP; [apply vis_fresh | done]).
  rewrite (sorted_networks_ext h1' h2' r1 (proj2 Hr') Hv1).
  destruct (sorted_networks h1' r1) as [out |] eqn:Ho; simpl; [| done].
  split; [done |]. split; [done |].
  intros P HfP HPi. simpl. eapply sorted_networks_Forall; [exact Ho |]. by apply HP.
Qed.

Definition loop_rel (ins : list ref) (x y : heap * list ref * list ref) : Prop :=
  rel x.1.1 y.1.1 /\ x.1.2 = y.1.2 /\ x.2 = y.2 /\
  forall P, fresh_closed P -> Forall P ins -> Forall P x.1.2 /\ Forall P x.2.

Lemma exclude_loop_S (fuel : nat) (h : heap) (s : ref) (superset : list ref)
    (e : ref) (excludes ret : list ref) :
  exclude_loop (S fuel) h (s :: superset) (e :: excludes) ret =
  if overlaps (h !!! s) (h !!! e) then
    '(h, rs) ← RemoveAddressFromList h [s] e;
    exclude_loop fuel h (rs ++ superset) (e :: excludes) ret
  else if key_lt (_get_networks_key (h !!! s)) (_get_networks_key (h !!! e)) then
    exclude_loop fuel h superset (e :: excludes) (ret ++ [s])
  else exclude_loop fuel h (s :: superset) excludes ret.
Proof. reflexivity. Qed.

Lemma exclude_loop_rel (fuel : nat) :
  forall h1 h2 superset excludes ret,
  rel h1 h2 -> Forall vis superset -> Forall vis excludes -> Forall vis ret ->
  res_rel (loop_rel (superset ++ ret))
    (exclude_loop fuel h1 superset excludes ret)
    (exclude_loop fuel h2 superset excludes ret).
Proof.
  assert (forall h1 h2 (superset ret : list ref), rel h1 h2 ->
            loop_rel (superset ++ ret) (h1, superset, ret) (h2, superset, ret)) as Hbase.
  { intros h1 h2 superset ret Hr. split; [done |]. split; [done |]. split; [done |].
    intros P _ HP. simpl. by apply Forall_app in HP. }
  induction fuel as [| fuel IH]; intros h1 h2 superset excludes ret Hr Hs He Hret.
  - destruct superset as [| s superset], excludes as [| e excludes]; simpl;
      try by apply Hbase. done.
  - destruct superset as [| s superset]; [simpl; by apply Hbase |].
    destruct excludes as [| e excludes]; [simpl; by apply Hbase |].
    rewrite !exclude_loop_S.
    apply Forall_cons in Hs as [Hvs Hs]. apply Forall_cons in He as [Hve He].
    rewrite (rel_vis h1 h2 s Hr Hvs), (rel_vis h1 h2 e Hr Hve).
    destruct (overlaps (h1 !!! s) (h1 !!! e)).
    + eapply res_rel_bind;
        [apply (RemoveAddressFromList_rel h1 h2 [s] e Hr); [by constructor | done] |].
      intros [h1' rs] [h2' rs2] (Hr' & Heq & HP). simpl in *. subst rs2.
      pose proof (HP vis vis_fresh ltac:(by constructor)) as Hrs.
      eapply res_rel_impl.
      * apply IH; [done | | by constructor | done].
        apply Forall_app. by split.
      * intros x y (? & ? & ? & HQ). split; [done |]. split; [done |]. split; [done |].
        intros P HfP HPi. apply HQ; [done |].
        apply Forall_cons in HPi as [? HPi]. apply Forall_app in HPi as [? ?].
        rewrite !Forall_app. split; [split; [| done] | done].
        apply HP; [done | by constructor].
    + destruct (key_lt (_get_networks_key (h1 !!! s)) (_get_networks_key (h1 !!! e))).
      * eapply res_rel_impl.
        -- apply IH; [done | done | by constructor |].
           apply Forall_app. split; [done | by constructor].
        -- intros x y (? & ? & ? & HQ). split; [done |]. split; [done |]. split; [done |].
           intros P HfP HPi. apply HQ; [done |].
           apply Forall_cons in HPi as [? HPi]. apply Forall_app in HPi as [? ?].
           rewrite !Forall_app. split; [done |]. split; [done | by constructor].
      * eapply res_rel_impl; [apply IH; [done | by constructor | done | done] |].
        intros x y (? & ? & ? & HQ). split; [done |]. split; [done |]. split; [done |].
        intros P HfP HPi. by apply HQ.
Qed.

Lemma filter_bool_ext (f g : ref -> bool) (l : list ref) :
  Forall (fun x => f x = g x) l ->
  filter (fun x => f x) l = filter (fun x => g x) l.
Proof.
  induction 1 as [| x l Hx Hl IH]; [done |].
  rewrite !filter_cons, IH.
  destruct (decide (f x)) as [H1 | H1], (decide (g x)) as [H2 | H2]; try done;
    rewrite Hx in H1; done.
Qed.

Lemma dedup_networks_ext (h1 h2 : heap) (l : list ref) :
  agree h1 h2 -> Forall vis l -> dedup_networks h2 l = dedup_networks h1 l.
Proof.
  intros [_ Ha] Hl. induction Hl as [| r l Hr Hl IH]; simpl; [done |].
  rewrite IH, (Ha r Hr). f_equal. apply filter_bool_ext.
  apply Forall_forall. intros x Hx. apply dedup_networks_sub in Hx.
  rewrite Forall_forall in Hl. by rewrite (Ha x (Hl x Hx)).
Qed.

Definition stacks_rel (Q : ref -> Prop) (x y : heap * list ref * list ref) : Prop :=
  rel x.1.1 y.1.1 /\ x.1.2 = y.1.2 /\ x.2 = y.2 /\ Forall Q x.1.2 /\ Forall Q x.2.

Definition any_rel (x y : heap * list ref) : Prop :=
  rel x.1 y.1 /\ x.2 = y.2 /\ Forall vis x.2.

Lemma AddressListExclude_rel (h1 h2 : heap) (superset excludes : list ref)
    (collapse_addrs : bool) :
  rel h1 h2 -> Forall vis superset -> Forall vis excludes ->
  (collapse_addrs = true -> Forall own superset /\ Forall own excludes) ->
  res_rel any_rel (AddressListExclude h1 superset excludes collapse_addrs)
    (AddressListExclude h2 superset excludes collapse_addrs).
Proof.
  intros Hr Hs He Hown. unfold AddressListExclude. destruct collapse_addrs.
  - destruct (Hown eq_refl) as [Hos Hoe].
    eapply (res_rel_bind (stacks_rel own)).
    + eapply res_rel_bind; [by apply (CollapseAddrList_rel h1 h2 superset []) |].
      intros [h1' s1] [h2' s2] (Hr' & Heq & Ho1). simpl in *. subst s2.
      eapply res_rel_bind; [by apply (CollapseAddrList_rel h1' h2' excludes []) |].
      intros [h1'' e1] [h2'' e2] (Hr'' & Heq & Ho2). simpl in *. subst e2.
      split; [done |]. split; [done |]. split; [done |]. by split.
    + intros [[h1' s1] e1] [[h2' s2] e2] (Hr' & Heq1 & Heq2 & Ho1 & Ho2).
      simpl in *. subst s2 e2.
      eapply res_rel_bind;
        [apply (exclude_loop_rel _ h1' h2' s1 e1 []);
           [done | by apply Forall_own_vis | by apply Forall_own_vis | constructor] |].
      intros [[h1'' s2] r1] [[h2'' s3] r2] (Hr'' & Heq1 & Heq2 & HP).
      simpl in *. subst s3 r2.
      destruct (HP own own_fresh) as [Hs2 Hr1]; [by rewrite app_nil_r |].
      eapply res_rel_impl.
      * apply (CollapseAddrList_rel h1'' h2'' _ []); [done | | constructor].
        apply Forall_app. split; [done |]. by rewrite (Permutation_rev s2) in Hs2.
      * intros x y (? & ? & ?). split; [done |]. split; [done |].
        by apply Forall_own_vis.
  - eapply (res_rel_bind (stacks_rel vis)).
    + assert (forall l : list ref, Forall vis l -> Forall vis (rev l)) as Hrev.
      { intros l Hl. by rewrite <- (Permutation_rev l). }
      rewrite (sorted_networks_ext h1 h2 (rev superset) (proj2 Hr) (Hrev _ Hs)).
      rewrite (sorted_networks_ext h1 h2 (rev excludes) (proj2 Hr) (Hrev _ He)).
      destruct (sorted_networks h1 (rev superset)) as [s1 |] eqn:H1; simpl; [| done].
      destruct (sorted_networks h1 (rev excludes)) as [e1 |] eqn:H2; simpl; [| done].
      split; [done |]. split; [done |]. split; [done |]. simpl.
      split; eapply sorted_networks_Forall; eauto.
    + intros [[h1' s1] e1] [[h2' s2] e2] (Hr' & Heq1 & Heq2 & Ho1 & Ho2).
      simpl in *. subst s2 e2.
      eapply res_rel_bind;
        [apply (exclude_loop_rel _ h1' h2' s1 e1 []); [done | done | done | constructor] |].
      intros [[h1'' s2] r1] [[h2'' s3] r2] (Hr'' & Heq1 & Heq2 & HP).
      simpl in *. subst s3 r2.
      destruct (HP vis vis_fresh) as [Hs2 Hr1]; [by rewrite app_nil_r |].
      assert (Forall vis (r1 ++ rev s2)) as Hall.
      { apply Forall_app. split; [done |]. by rewrite <- (Permutation_rev s2). }
      assert (Forall vis (dedup_networks h1'' (r1 ++ rev s2))) as Hd.
      { apply Forall_forall. intros r Hr0. apply dedup_networks_sub in Hr0.
        rewrite Forall_forall in Hall. by apply Hall. }
      rewrite (dedup_networks_ext h1'' h2'' _ (proj2 Hr'') Hall).
      rewrite (sorted_networks_ext h1'' h2'' _ (proj2 Hr'') Hd).
      destruct (sorted_networks h1'' _) as [out |] eqn:Ho; simpl; [| done].
      split; [done |]. split; [done |]. simpl.
      eapply sorted_networks_Forall; eauto.
Qed.

End effects.

Lemma touched_init (h : heap) (W : list ref) : touched h W h.
Proof.
  split; [split; [done |] |].
  - intros r Hr. split; [done |]. by exists [].
  - intros r Hr. rewrite lookup_total_ge by done. apply merged_empty.
Qed.

Lemma rel_init (h g : heap) (W R : list ref) : same_at R h g -> rel h W R h g.
Proof.
  intros [Hl Hs]. split; [apply touched_init |]. split; [done |].
  intros r [Hr | Hr]; [by apply Hs |].
  rewrite !lookup_total_ge by lia. done.
Qed.

Lemma rel_same_at (h0 : heap) (W R : list ref) (h1 h2 : heap) (out : list ref) :
  (forall r, r ∈ W -> r ∈ R) ->
  rel h0 W R h1 h2 -> Forall (vis h0 R) out -> same_at (R ++ out) h1 h2.
Proof.
  intros HWR [_ [Hl Ha]] Ho. split; [done |]. intros r Hr. apply Ha.
  apply elem_of_app in Hr as [Hr | Hr]; [by left |].
  rewrite Forall_forall in Ho. by apply Ho.
Qed.

Lemma effects_of_rel (h : heap) (W R : list ref) (x : result (heap * list ref))
    (P : heap * list ref -> heap * list ref -> Prop) :
  res_rel P x x -> (forall a b, P a b -> rel h W R a.1 b.1) ->
  forall h' out, x = Ok (h', out) -> changed_only h W h'.
Proof.
  intros Hx HP h' out ->. simpl in Hx.
  by destruct (HP _ _ Hx) as [[? _] _].
Qed.

Lemma same_result_of_rel (h0 : heap) (W R : list ref)
    (x y : result (heap * list ref)) :
  (forall r, r ∈ W -> r ∈ R) ->
  res_rel (any_rel h0 W R) x y -> same_result R x y.
Proof.
  intros HWR. destruct x as [[h1 o1] |], y as [[h2 o2] |]; simpl; try done.
  intros (Hr & Heq & Ho). simpl in *. subst o2. split; [done |].
  by apply (rel_same_at h0 W R).
Qed.

Lemma out_any_rel (h0 : heap) (W R : list ref) (x y : heap * list ref) :
  (forall r, r ∈ W -> r ∈ R) ->
  out_rel h0 W R x y -> any_rel h0 W R x y.
Proof.
  intros HWR (? & ? & Ho). split; [done |]. split; [done |].
  eapply Forall_impl; [exact Ho |]. intros r. by apply own_vis.
Qed.

Lemma Forall_own_l (h : heap) (l l' : list ref) : Forall (own h (l ++ l')) l.
Proof. apply Forall_forall. intros r Hr. left. set_solver. Qed.

Lemma Forall_own_r (h : heap) (l l' : list ref) : Forall (own h (l ++ l')) l'.
Proof. apply Forall_forall. intros r Hr. left. set_solver. Qed.

Lemma Forall_own_self (h : heap) (l : list ref) : Forall (own h l) l.
Proof. apply Forall_forall. intros r Hr. by left. Qed.

Lemma Forall_vis_l (h : heap) (l l' : list ref) : Forall (vis h (l ++ l')) l.
Proof. apply Forall_forall. intros r Hr. left. set_solver. Qed.

Lemma Forall_vis_r (h : heap) (l l' : list ref) : Forall (vis h (l ++ l')) l'.
Proof. apply Forall_forall. intros r Hr. left. set_solver. Qed.

(** ** Lists as objects *)

(** The entry points are handed Python lists and hand one back.  To say
    what happens to the lists themselves, list objects get a store of their
    own: a list is an index into it; [sorted(l)], [l[::-1]], [[x]], [[]] and
    [a + b] make a new list; [pop], [append] and [extend] update the list they
    are called on.  [CollapseAddrListPreserveTokens] and
    [RemoveAddressFromList] only read the list they are given (they iterate
    over it or pass it to [sorted]) and return a list they have built, so
    their bodies are the ones above.  [_CollapseAddrListInternal] can return
    the very list it was given, and [AddressListExclude] binds the names of
    its parameters to new lists and then changes those with [pop] and
    [extend]; these are written out on list objects. *)
Abbreviation lref := nat.
Abbreviation lstore := (list (list ref)).

Definition new_list (ls : lstore) (l : list ref) : lstore * lref :=
  (ls ++ [l], length ls).

(** [l.pop()] drops the last element; [l.append(x)] is [l.extend([x])]. *)
Definition list_pop (ls : lstore) (l : lref) : lstore :=
  alter (fun old => removelast old) l ls.

Definition list_extend (ls : lstore) (l : lref) (xs : list ref) : lstore :=
  alter (fun old => old ++ xs) l ls.

(** [_CollapseAddrListInternal(addresses, ...)]: [if not addresses: return
    addresses] hands back the list it was given; otherwise the result is the
    new [ret_array]. *)
Definition _CollapseAddrListInternal_obj (ls : lstore) (h : heap) (addresses : lref)
    (complements_by_network : gmap IPAddress (list nacaddr)) :
    result (lstore * heap * lref) :=
  match ls !!! addresses with
  | [] => Ok (ls, h, addresses)
  | _ :: _ =>
    '(h, ret_array) ←
      _CollapseAddrListInternal h (ls !!! addresses) complements_by_network;
    let '(ls, r) := new_list ls ret_array in
    Ok (ls, h, r)
  end.

(** [CollapseAddrList(addresses, complement_addresses)]: both lists are
    read, and [_CollapseAddrListInternal] gets the list that [sorted] made. *)
Definition CollapseAddrList_obj (ls : lstore) (h : heap) (addresses : lref)
    (complement_addresses : option lref) : result (lstore * heap * lref) :=
  let complements :=
    complements_dict h (ls !!! addresses)
      (from_option (fun c => ls !!! c) [] complement_addresses) in
  let '(ls1, s) :=
    new_list ls (sorted (get_mixed_type_key h) key_lt (ls !!! addresses)) in
  _CollapseAddrListInternal_obj ls1 h s complements.

Definition CollapseAddrListPreserveTokens_obj (ls : lstore) (h : heap)
    (addresses : lref) : result (lstore * heap * lref) :=
  '(h, ret) ← CollapseAddrListPreserveTokens h (ls !!! addresses);
  let '(ls, r) := new_list ls ret in
  Ok (ls, h, r).

Definition RemoveAddressFromList_obj (ls : lstore) (h : heap) (superset : lref)
    (exclude : ref) : result (lstore * heap * lref) :=
  '(h, ret) ← RemoveAddressFromList h (ls !!! superset) exclude;
  let '(ls, r) := new_list ls ret in
  Ok (ls, h, r).

(** [while superset and excludes]: [superset[-1]] and [excludes[-1]] are
    the last elements.  [superset] and [excludes] are two lists, so
    [excludes[-1]] is the same before and after [superset.pop()]. *)
Fixpoint exclude_loop_obj (fuel : nat) (ls : lstore) (h : heap)
    (superset excludes ret_array : lref) : result (lstore * heap) :=
  match last (ls !!! superset), last (ls !!! excludes) with
  | Some s, Some e =>
    match fuel with
    | O => Raise OutOfFuel
    | S fuel' =>
      if overlaps (h !!! s) (h !!! e) then
        let ls := list_pop ls superset in
        let '(ls, ip) := new_list ls [s] in
        '(ls, h, rs) ← RemoveAddressFromList_obj ls h ip e;
        let ls := list_extend ls superset (rev (ls !!! rs)) in
        exclude_loop_obj fuel' ls h superset excludes ret_array
      else if key_lt (_get_networks_key (h !!! s)) (_get_networks_key (h !!! e)) then
        let ls := list_pop ls superset in
        let ls := list_extend ls ret_array [s] in
        exclude_loop_obj fuel' ls h superset excludes ret_array
      else exclude_loop_obj fuel' (list_pop ls excludes) h superset excludes ret_array
    end
  | _, _ => Ok (ls, h)
  end.

(** [sorted(l, reverse=True)] as a Python list: the ascending stable sort
    of the reversed list, reversed. *)
Definition sorted_reverse (h : heap) (l : list ref) : result (list ref) :=
  s ← sorted_networks h (rev l);
  Ok (rev s).

Definition AddressListExclude_obj (ls : lstore) (h : heap) (superset excludes : lref)
    (collapse_addrs : bool) : result (lstore * heap * lref) :=
  '(ls1, h, sup, exc) ←
    (if collapse_addrs then
       '(ls1, h, c) ← CollapseAddrList_obj ls h superset None;
       let '(ls1, sup) := new_list ls1 (rev (ls1 !!! c)) in
       '(ls1, h, c) ← CollapseAddrList_obj ls1 h excludes None;
       let '(ls1, exc) := new_list ls1 (rev (ls1 !!! c)) in
       Ok (ls1, h, sup, exc)
     else
       s ← sorted_reverse h (ls !!! superset);
       let '(ls1, sup) := new_list ls s in
       e ← sorted_reverse h (ls1 !!! excludes);
       let '(ls1, exc) := new_list ls1 e in
       Ok (ls1, h, sup, exc));
  let '(ls1, ret_array) := new_list ls1 [] in
  '(ls1, h) ←
    exclude_loop_obj
      ((length (ls1 !!! sup) + 1) * (length (ls1 !!! exc) + 1) * 130)
      ls1 h sup exc ret_array;
  if collapse_addrs then
    let '(ls1, both) := new_list ls1 (ls1 !!! ret_array ++ ls1 !!! sup) in
    CollapseAddrList_obj ls1 h both None
  else
    ret ← sorted_networks h (dedup_networks h (ls1 !!! ret_array ++ ls1 !!! sup));
    let '(ls1, r) := new_list ls1 ret in
    Ok (ls1, h, r).

(** The call on list objects gives what the function on list values
    gives, in a list that did not exist before, and every list that existed
    before still has the elements it had. *)
Definition obj_refines (ls : lstore) (x : result (heap * list ref))
    (y : result (lstore * heap * lref)) : Prop :=
  match x, y with
  | Ok (h', out), Ok (ls', h'', r) =>
    h'' = h' /\ (exists new, ls' = ls ++ new) /\
    (length ls <= r < length ls')%nat /\ ls' !!! r = out
  | Raise e, Raise e' => e = e'
  | _, _ => False
  end.

Lemma new_list_lookup_old (ls : lstore) (l : list ref) (i : lref) :
  (i < length ls)%nat -> (ls ++ [l]) !!! i = ls !!! i.
Proof. intros Hi. by rewrite lookup_total_app_l. Qed.

Lemma new_list_lookup_new (ls : lstore) (l : list ref) :
  (ls ++ [l]) !!! length ls = l.
Proof. rewrite lookup_total_app_r by done. by rewrite Nat.sub_diag. Qed.

Lemma obj_refines_new (ls : lstore) (x : result (heap * list ref)) :
  obj_refines ls x ('(h, ret) ← x; let '(ls, r) := new_list ls ret in Ok (ls, h, r)).
Proof.
  destruct x as [[h' out] |]; simpl; [| done].
  split; [done |]. split; [by eexists |]. split; [rewrite length_app; simpl; lia |].
  apply new_list_lookup_new.
Qed.

Lemma list_pop_eq (ls : lstore) (i : lref) :
  (i < length ls)%nat -> list_pop ls i !!! i = removelast (ls !!! i).
Proof. intros Hi. unfold list_pop. by rewrite list_lookup_total_alter_eq. Qed.

Lemma list_pop_ne (ls : lstore) (i j : lref) :
  i <> j -> list_pop ls i !!! j = ls !!! j.
Proof. intros Hi. unfold list_pop. by rewrite list_lookup_total_alter_ne. Qed.

Lemma list_extend_eq (ls : lstore) (i : lref) (xs : list ref) :
  (i < length ls)%nat -> list_extend ls i xs !!! i = ls !!! i ++ xs.
Proof. intros Hi. unfold list_extend. by rewrite list_lookup_total_alter_eq. Qed.

Lemma list_extend_ne (ls : lstore) (i j : lref) (xs : list ref) :
  i <> j -> list_extend ls i xs !!! j = ls !!! j.
Proof. intros Hi. unfold list_extend. by rewrite list_lookup_total_alter_ne. Qed.

(** The three lists of the loop are distinct lists made during the call;
    [superset] and [excludes] hold the two stacks with their top last. *)
Definition stacks_ok (n0 : nat) (ls : lstore) (sup exc ret : lref)
    (S E Rt : list ref) : Prop :=
  (n0 <= sup < length ls)%nat /\ (n0 <= exc < length ls)%nat /\
  (n0 <= ret < length ls)%nat /\
  sup <> exc /\ sup <> ret /\ exc <> ret /\
  ls !!! sup = rev S /\ ls !!! exc = rev E /\ ls !!! ret = Rt.

Lemma exclude_loop_obj_spec (n0 : nat) (sup exc ret : lref) (fuel : nat) :
  forall ls h S E Rt,
  stacks_ok n0 ls sup exc ret S E Rt ->
  match exclude_loop fuel h S E Rt with
  | Ok (h', S', Rt') =>
    exists ls',
      exclude_loop_obj fuel ls h sup exc ret = Ok (ls', h') /\
      take n0 ls' = take n0 ls /\ (length ls <= length ls')%nat /\
      ls' !!! sup = rev S' /\ ls' !!! ret = Rt'
  | Raise e => exclude_loop_obj fuel ls h sup exc ret = Raise e
  end.
Proof.
  assert (forall fuel ls h (S E Rt : list ref),
            stacks_ok n0 ls sup exc ret S E Rt -> S = [] \/ E = [] ->
            exclude_loop fuel h S E Rt = Ok (h, S, Rt) /\
            exclude_loop_obj fuel ls h sup exc ret = Ok (ls, h)) as Hdone.
  { intros fuel' ls h S E Rt (_ & _ & _ & _ & _ & _ & HS & HE & _) Hor.
    split.
    - destruct fuel', S, E; simpl; try done; by destruct Hor.
    - destruct fuel'; simpl; rewrite HS, HE;
        destruct S as [| s S], E as [| e E]; simpl; try done;
        try (by destruct Hor); rewrite ?last_snoc; try done;
        by destruct (last (rev S ++ [s])). }
  induction fuel as [| fuel IH]; intros ls h S E Rt Hok.
  - destruct S as [| s S]; [| destruct E as [| e E]].
    + destruct (Hdone 0%nat ls h [] E Rt Hok) as [-> ->]; [by left |].
      exists ls. by destruct Hok as (_ & _ & _ & _ & _ & _ & ? & _ & ?).
    + destruct (Hdone 0%nat ls h (s :: S) [] Rt Hok) as [-> ->]; [by right |].
      exists ls. by destruct Hok as (_ & _ & _ & _ & _ & _ & ? & _ & ?).
    + destruct Hok as (_ & _ & _ & _ & _ & _ & HS & HE & _). simpl.
      rewrite HS, HE. simpl. by rewrite !last_snoc.
  - destruct S as [| s S]; [| destruct E as [| e E]].
    + destruct (Hdone (Datatypes.S fuel) ls h [] E Rt Hok) as [-> ->]; [by left |].
      exists ls. by destruct Hok as (_ & _ & _ & _ & _ & _ & ? & _ & ?).
    + destruct (Hdone (Datatypes.S fuel) ls h (s :: S) [] Rt Hok) as [-> ->]; [by right |].
      exists ls. by destruct Hok as (_ & _ & _ & _ & _ & _ & ? & _ & ?).
    + pose proof Hok as (Hsup & Hexc & Hret & Hse & Hsr & Her & HS & HE & HR).
      rewrite exclude_loop_S.
      change (exclude_loop_obj (Datatypes.S fuel) ls h sup exc ret) with
        (match last (ls !!! sup), last (ls !!! exc) with
         | Some s, Some e =>
           if overlaps (h !!! s) (h !!! e) then
             let ls := list_pop ls sup in
             let '(ls, ip) := new_list ls [s] in
             '(ls, h, rs) ← RemoveAddressFromList_obj ls h ip e;
             let ls := list_extend ls sup (rev (ls !!! rs)) in
             exclude_loop_obj fuel ls h sup exc ret
           else if key_lt (_get_networks_key (h !!! s)) (_get_networks_key (h !!! e)) then
             let ls := list_pop ls sup in
             let ls := list_extend ls ret [s] in
             exclude_loop_obj fuel ls h sup exc ret
           else exclude_loop_obj fuel (list_pop ls exc) h sup exc ret
         | _, _ => Ok (ls, h)
         end).
      rewrite HS, HE. simpl rev. rewrite !last_snoc.
      assert (length (list_pop ls sup) = length ls) as Hlp
        by (unfold list_pop; by rewrite length_alter).
      destruct (overlaps (h !!! s) (h !!! e)).
      * unfold new_list, RemoveAddressFromList_obj. cbv beta iota zeta.
        rewrite new_list_lookup_new.
        destruct (RemoveAddressFromList h [s] e) as [[h1 rs] |] eqn:HRm;
          simpl; [| done].
        set (ls2 := (list_pop ls sup ++ [[s]]) ++ [rs]).
        assert (length ls2 = Datatypes.S (Datatypes.S (length ls))) as Hl2.
        { unfold ls2. rewrite !length_app, Hlp. simpl. lia. }
        assert (forall i, (i < length ls)%nat -> ls2 !!! i = list_pop ls sup !!! i) as Hold.
        { intros i Hi. unfold ls2. rewrite !lookup_total_app_l; [done | lia |].
          rewrite length_app. lia. }
        assert (ls2 !!! length (list_pop ls sup ++ [[s]]) = rs) as Hrs
          by apply new_list_lookup_new.
        rewrite Hrs.
        set (ls3 := list_extend ls2 sup (rev rs)).
        assert (stacks_ok n0 ls3 sup exc ret (rs ++ S) (e :: E) Rt) as Hok3.
        { assert (length ls3 = length ls2) as Hl3
            by (unfold ls3, list_extend; by rewrite length_alter).
          unfold stacks_ok. rewrite Hl3, Hl2.
          split; [lia |]. split; [lia |]. split; [lia |].
          split; [done |]. split; [done |]. split; [done |].
          unfold ls3. rewrite list_extend_eq by lia.
          rewrite !list_extend_ne by done. rewrite !Hold by lia.
          rewrite list_pop_eq by lia. rewrite !list_pop_ne by done.
          rewrite HS. simpl rev. rewrite removelast_last, rev_app_distr. done. }
        specialize (IH ls3 h1 (rs ++ S) (e :: E) Rt Hok3).
        destruct (exclude_loop fuel h1 (rs ++ S) (e :: E) Rt) as [[[h' S'] Rt'] |];
          [| done].
        destruct IH as (ls' & Hrun & Htk & Hlen & ? & ?).
        exists ls'. split; [done |]. split; [| split; [| done]].
        -- rewrite Htk. unfold ls3, list_extend. rewrite take_alter_ge by lia.
           unfold ls2. rewrite <- app_assoc, take_app_le by lia.
           unfold list_pop. by rewrite take_alter_ge by lia.
        -- assert (length ls3 = length ls2) as Hl3
             by (unfold ls3, list_extend; by rewrite length_alter).
           lia.
      * destruct (key_lt (_get_networks_key (h !!! s)) (_get_networks_key (h !!! e))).
        -- set (ls3 := list_extend (list_pop ls sup) ret [s]).
           assert (length ls3 = length ls) as Hl3
             by (unfold ls3, list_extend; by rewrite length_alter).
           assert (stacks_ok n0 ls3 sup exc ret S (e :: E) (Rt ++ [s])) as Hok3.
           { unfold stacks_ok. rewrite Hl3.
             split; [lia |]. split; [lia |]. split; [lia |].
             split; [done |]. split; [done |]. split; [done |].
             unfold ls3. rewrite list_extend_eq by lia.
             rewrite !list_extend_ne by done.
             rewrite list_pop_eq by lia. rewrite !list_pop_ne by done.
             rewrite HS, HR. simpl rev. by rewrite removelast_last. }
           specialize (IH ls3 h S (e :: E) (Rt ++ [s]) Hok3).
           destruct (exclude_loop fuel h S (e :: E) (Rt ++ [s])) as [[[h' S'] Rt'] |];
             [| done].
           destruct IH as (ls' & Hrun & Htk & Hlen & ? & ?).
           exists ls'. split; [done |]. split; [| split; [lia | done]].
           rewrite Htk. unfold ls3, list_extend, list_pop.
           by rewrite !take_alter_ge by lia.
        -- set (ls3 := list_pop ls exc).
           assert (length ls3 = length ls) as Hl3
             by (unfold ls3, list_pop; by rewrite length_alter).
           assert (stacks_ok n0 ls3 sup exc ret (s :: S) E Rt) as Hok3.
           { unfold stacks_ok. rewrite Hl3.
             split; [lia |]. split; [lia |]. split; [lia |].
             split; [done |]. split; [done |]. split; [done |].
             unfold ls3. rewrite list_pop_eq by lia.
             rewrite !list_pop_ne by done.
             rewrite HS, HE. simpl rev. by rewrite removelast_last. }
           specialize (IH ls3 h (s :: S) E Rt Hok3).
           destruct (exclude_loop fuel h (s :: S) E Rt) as [[[h' S'] Rt'] |];
             [| done].
           destruct IH as (ls' & Hrun & Htk & Hlen & ? & ?).
           exists ls'. split; [done |]. split; [| split; [lia | done]].
           rewrite Htk. unfold ls3, list_pop. by rewrite take_alter_ge by lia.
Qed.

Lemma store_ext (ls ls' : lstore) :
  take (length ls) ls' = ls -> exists new, ls' = ls ++ new.
Proof.
  intros H. exists (drop (length ls) ls'). rewrite <- H at 1. by rewrite take_drop.
Qed.

Lemma store_lookup_new (ls new : lstore) (k : nat) :
  (ls ++ new) !!! (length ls + k)%nat = new !!! k.
Proof. rewrite lookup_total_app_r by lia. f_equal. lia. Qed.

Lemma store_lookup_new0 (ls new : lstore) :
  (ls ++ new) !!! length ls = new !!! 0%nat.
Proof. rewrite lookup_total_app_r by lia. f_equal. lia. Qed.

Lemma CollapseAddrList_obj_spec (ls : lstore) (h : heap) (a : lref) (c : option lref) :
  obj_refines ls
    (CollapseAddrList h (ls !!! a) (from_option (fun c => ls !!! c) [] c))
    (CollapseAddrList_obj ls h a c).
Proof.
  unfold CollapseAddrList, CollapseAddrList_obj, _CollapseAddrListInternal_obj, new_list.
  rewrite new_list_lookup_new.
  set (C := complements_dict h (ls !!! a) (from_option (fun c => ls !!! c) [] c)).
  destruct (sorted (get_mixed_type_key h) key_lt (ls !!! a)) as [| a0 s].
  - simpl. split; [done |]. split; [by eexists |].
    split; [rewrite length_app; simpl; lia |]. apply new_list_lookup_new.
  - destruct (_CollapseAddrListInternal h (a0 :: s) C) as [[h' out] |]; [| done].
    rewrite bind_Ok. cbv beta iota.
    split; [done |]. split; [exists [a0 :: s; out]; by rewrite <- app_assoc |].
    split; [rewrite !length_app; simpl; lia |]. apply new_list_lookup_new.
Qed.

(** What a caller sees of a call that returns. *)
Lemma obj_refines_inv (ls : lstore) (x : result (heap * list ref))
    (y : result (lstore * heap * lref)) :
  obj_refines ls x y ->
  match x with
  | Ok (h', out) =>
    exists new r, y = Ok (ls ++ new, h', r) /\
      (length ls <= r < length (ls ++ new))%nat /\ (ls ++ new) !!! r = out
  | Raise e => y = Raise e
  end.
Proof.
  destruct x as [[h' out] |], y as [[[ls' h''] r] |]; simpl; try done.
  - intros (-> & [new ->] & ? & ?). by exists new, r.
  - by intros ->.
Qed.

Lemma exclude_tail_spec (ls0 ls : lstore) (h : heap) (sup exc ret : lref)
    (S E : list ref) (fuel : nat) (collapse_addrs : bool) :
  take (length ls0) ls = ls0 ->
  stacks_ok (length ls0) ls sup exc ret S E [] ->
  obj_refines ls0
    ('(h, superset, ret_array) ← exclude_loop fuel h S E [];
     if collapse_addrs then CollapseAddrList h (ret_array ++ rev superset) []
     else
       out ← sorted_networks h (dedup_networks h (ret_array ++ rev superset));
       Ok (h, out))
    ('(ls1, h) ← exclude_loop_obj fuel ls h sup exc ret;
     if collapse_addrs then
       let '(ls1, both) := new_list ls1 (ls1 !!! ret ++ ls1 !!! sup) in
       CollapseAddrList_obj ls1 h both None
     else
       out ← sorted_networks h (dedup_networks h (ls1 !!! ret ++ ls1 !!! sup));
       let '(ls1, r) := new_list ls1 out in
       Ok (ls1, h, r)).
Proof.
  intros Htk0 Hok.
  pose proof (exclude_loop_obj_spec (length ls0) sup exc ret fuel ls h S E [] Hok) as H.
  destruct (exclude_loop fuel h S E []) as [[[h' S'] Rt'] |]; [| by rewrite H].
  destruct H as (ls' & -> & Htk & Hlen & HS' & HR').
  rewrite !bind_Ok. cbv beta iota. rewrite HS', HR'.
  destruct (store_ext ls0 ls') as [new Hnew]; [congruence |].
  assert (length ls0 <= length ls')%nat as Hl0.
  { rewrite Hnew, length_app. lia. }
  destruct collapse_addrs.
  - unfold new_list.
    pose proof (obj_refines_inv _ _ _
      (CollapseAddrList_obj_spec (ls' ++ [Rt' ++ rev S']) h' (length ls') None)) as H.
    rewrite new_list_lookup_new in H. simpl from_option in H.
    destruct (CollapseAddrList h' (Rt' ++ rev S') []) as [[h'' out] |]; [| by rewrite H].
    destruct H as (new' & r & -> & Hr & Hout).
    rewrite length_app in Hr. simpl in Hr.
    split; [done |]. split; [| split; [| done]].
    + exists (new ++ [Rt' ++ rev S'] ++ new'). rewrite Hnew.
      by rewrite <- !app_assoc.
    + rewrite !length_app in *. simpl in *. lia.
  - destruct (sorted_networks h' (dedup_networks h' (Rt' ++ rev S'))) as [out |];
      [| done].
    rewrite !bind_Ok. unfold new_list.
    split; [done |]. split; [| split].
    + exists (new ++ [out]). rewrite Hnew. by rewrite <- !app_assoc.
    + rewrite length_app. simpl. lia.
    + apply new_list_lookup_new.
Qed.

Lemma AddressListExclude_obj_spec (ls : lstore) (h : heap) (superset excludes : lref)
    (collapse_addrs : bool) :
  (superset < length ls)%nat -> (excludes < length ls)%nat ->
  obj_refines ls
    (AddressListExclude h (ls !!! superset) (ls !!! excludes) collapse_addrs)
    (AddressListExclude_obj ls h superset excludes collapse_addrs).
Proof.
  intros Hs He. unfold AddressListExclude, AddressListExclude_obj.
  destruct collapse_addrs.
  - pose proof (obj_refines_inv _ _ _ (CollapseAddrList_obj_spec ls h superset None))
      as H1. simpl from_option in H1.
    destruct (CollapseAddrList h (ls !!! superset) []) as [[h1 c1] |];
      [| by rewrite H1].
    destruct H1 as (new1 & r1 & -> & Hr1 & Hc1).
    rewrite !bind_Ok. cbv beta iota zeta. unfold new_list. cbv beta iota zeta.
    rewrite Hc1.
    assert (take (length ls) (ls ++ new1) = ls) as Htk1 by apply take_app_length.
    assert (length ls <= length (ls ++ new1))%nat as Hl1
      by (rewrite length_app; lia).
    assert ((ls ++ new1) !!! excludes = ls !!! excludes) as Hex1
      by (by rewrite lookup_total_app_l).
    set (L1 := ls ++ new1) in *.
    set (ls2 := L1 ++ [rev c1]).
    assert (length ls2 = Datatypes.S (length L1)) as Hl2
      by (unfold ls2; rewrite length_app; simpl; lia).
    assert (ls2 !!! excludes = ls !!! excludes) as Hex.
    { unfold ls2. rewrite lookup_total_app_l by lia. done. }
    pose proof (obj_refines_inv _ _ _ (CollapseAddrList_obj_spec ls2 h1 excludes None))
      as H2. simpl from_option in H2. rewrite Hex in H2.
    destruct (CollapseAddrList h1 (ls !!! excludes) []) as [[h2 c2] |];
      [| by rewrite H2].
    destruct H2 as (new2 & r2 & -> & Hr2 & Hc2).
    rewrite !bind_Ok. cbv beta iota zeta. rewrite Hc2.
    assert (length ls2 <= length (ls2 ++ new2))%nat as Hl3
      by (rewrite length_app; lia).
    set (ls3 := ls2 ++ new2) in *.
    set (ls4 := ls3 ++ [rev c2]).
    assert (length ls4 = Datatypes.S (length ls3)) as Hl4
      by (unfold ls4; rewrite length_app; simpl; lia).
    set (ls5 := ls4 ++ [[]]).
    assert (length ls5 = Datatypes.S (length ls4)) as Hl5
      by (unfold ls5; rewrite length_app; simpl; lia).
    assert (ls5 !!! length L1 = rev c1) as Hsup.
    { unfold ls5. rewrite lookup_total_app_l by lia.
      unfold ls4. rewrite lookup_total_app_l by lia.
      unfold ls3. rewrite lookup_total_app_l by lia.
      apply new_list_lookup_new. }
    assert (ls5 !!! length ls3 = rev c2) as Hexc.
    { unfold ls5. rewrite lookup_total_app_l by lia. apply new_list_lookup_new. }
    assert (ls5 !!! length ls4 = []) as Hret by apply new_list_lookup_new.
    rewrite Hsup, Hexc, !length_rev.
    apply (exclude_tail_spec ls ls5 h2 _ _ _ c1 c2 _ true).
    + unfold ls5. rewrite take_app_le by lia.
      unfold ls4. rewrite take_app_le by lia.
      unfold ls3. rewrite take_app_le by lia.
      unfold ls2. rewrite take_app_le by lia. done.
    + unfold stacks_ok. rewrite Hsup, Hexc, Hret.
      repeat split; try lia; done.
  - unfold sorted_reverse, new_list.
    destruct (sorted_networks h (rev (ls !!! superset))) as [s1 |]; [| done].
    rewrite !bind_Ok. cbv beta iota zeta.
    rewrite !lookup_total_app_l by (rewrite ?length_app; simpl; lia).
    destruct (sorted_networks h (rev (ls !!! excludes))) as [s2 |]; [| done].
    rewrite !bind_Ok. cbv beta iota zeta.
    rewrite <- !app_assoc. simpl app.
    rewrite !length_app. simpl length.
    rewrite !store_lookup_new, !store_lookup_new0. simpl lookup_total.
    rewrite !length_rev.
    apply (exclude_tail_spec ls _ h _ _ _ s1 s2 _ false).
    + by rewrite take_app_length.
    + unfold stacks_ok. rewrite length_app. simpl length.
      rewrite !store_lookup_new, !store_lookup_new0. simpl lookup_total.
      repeat split; try lia; done.
Qed.

(** C9, amended: on well-formed prefixes the three entry points return
    (with complements too when the prefixes are of one version), and
    whenever one of them returns (with any complements, with
    [collapse_addrs] true or false) no object has been removed, every object
    that is not in an input list is exactly as before, and an object of an
    input list has its network, token and parent token unchanged and is its
    old self after some calls of [AddComment] whose arguments are comments
    built from the inputs' own comments; with [collapse_addrs=False] no
    existing object changes at all.  The outcome depends on the inputs only:
    in two stores that hold the same objects at the input references the call
    returns the same list, with the same objects behind the inputs and the
    result, or raises the same exception.  The lists passed in keep their
    elements, and the result is a list that did not exist before. *)
Theorem entry_points_frame (h : heap) (A E C : list ref) :
  (Forall wf h -> valid_refs h A -> valid_refs h E ->
   (exists h' out, CollapseAddrList h A [] = Ok (h', out)) /\
   (exists h' out, CollapseAddrListPreserveTokens h A = Ok (h', out)) /\
   (exists h' out, AddressListExclude h A E true = Ok (h', out)) /\
   (forall c, Forall (fun r => cls (h !!! r) = c) A ->
      exists h' out, CollapseAddrList h A C = Ok (h', out))) /\
  (forall h' out, CollapseAddrList h A C = Ok (h', out) ->
     changed_only h A h' /\ heap_frame h h') /\
  (forall h' out, CollapseAddrListPreserveTokens h A = Ok (h', out) ->
     changed_only h A h' /\ heap_frame h h') /\
  (forall h' out, AddressListExclude h A E true = Ok (h', out) ->
     changed_only h (A ++ E) h' /\ heap_frame h h') /\
  (forall h' out, AddressListExclude h A E false = Ok (h', out) ->
     changed_only h [] h') /\
  (forall g, same_at (A ++ C) h g ->
     same_result (A ++ C) (CollapseAddrList h A C) (CollapseAddrList g A C)) /\
  (forall g, same_at A h g ->
     same_result A (CollapseAddrListPreserveTokens h A)
       (CollapseAddrListPreserveTokens g A)) /\
  (forall g collapse_addrs, same_at (A ++ E) h g ->
     same_result (A ++ E) (AddressListExclude h A E collapse_addrs)
       (AddressListExclude g A E collapse_addrs)) /\
  (forall (ls : lstore) (a : lref) (c : option lref),
     obj_refines ls
       (CollapseAddrList h (ls !!! a) (from_option (fun c => ls !!! c) [] c))
       (CollapseAddrList_obj ls h a c)) /\
  (forall (ls : lstore) (a : lref),
     obj_refines ls (CollapseAddrListPreserveTokens h (ls !!! a))
       (CollapseAddrListPreserveTokens_obj ls h a)) /\
  (forall (ls : lstore) (a e : lref) collapse_addrs,
     (a < length ls)%nat -> (e < length ls)%nat ->
     obj_refines ls (AddressListExclude h (ls !!! a) (ls !!! e) collapse_addrs)
       (AddressListExclude_obj ls h a e collapse_addrs)).
Proof.
  assert (forall l : list ref, same_at l h h) as Hrefl by (by split).
  repeat apply conj.
  - intros Hwf HvA HvE. split; [| split; [| split]].
    + destruct (CollapseAddrList_run h A Hwf HvA) as (h' & out & Hrun & _). eauto.
    + destruct (CollapseAddrListPreserveTokens_run h A Hwf HvA) as (h' & out & Hrun & _).
      eauto.
    + destruct (AddressListExclude_run h A E Hwf HvA HvE) as (h' & out & Hrun & _). eauto.
    + intros c Hc.
      destruct (CollapseAddrList_run_C h A C c Hwf HvA Hc) as (h' & out & Hrun & _). eauto.
  - intros h' out Hrun.
    assert (changed_only h A h') as Hc; [| split; [done | by eapply changed_only_frame]].
    eapply (effects_of_rel h A (A ++ C)); [| | exact Hrun].
    + apply (CollapseAddrList_rel h A (A ++ C)); [set_solver | by apply rel_init | |].
      * apply Forall_own_self.
      * apply Forall_vis_r.
    + by intros a b [? _].
  - intros h' out Hrun.
    assert (changed_only h A h') as Hc; [| split; [done | by eapply changed_only_frame]].
    eapply (effects_of_rel h A A); [| | exact Hrun].
    + apply (CollapseAddrListPreserveTokens_rel h A A); [done | by apply rel_init |].
      apply Forall_own_self.
    + by intros a b [? _].
  - intros h' out Hrun.
    assert (changed_only h (A ++ E) h') as Hc;
      [| split; [done | by eapply changed_only_frame]].
    eapply (effects_of_rel h (A ++ E) (A ++ E)); [| | exact Hrun].
    + apply (AddressListExclude_rel h (A ++ E) (A ++ E)); [done | by apply rel_init | | |].
      * apply Forall_vis_l.
      * apply Forall_vis_r.
      * intros _. split; [apply Forall_own_l | apply Forall_own_r].
    + by intros a b [? _].
  - intros h' out Hrun.
    eapply (effects_of_rel h [] (A ++ E)); [| | exact Hrun].
    + apply (AddressListExclude_rel h [] (A ++ E)); [set_solver | by apply rel_init | | |].
      * apply Forall_vis_l.
      * apply Forall_vis_r.
      * done.
    + by intros a b [? _].
  - intros g Hg. apply (same_result_of_rel h A (A ++ C)); [set_solver |].
    eapply res_rel_impl.
    + apply (CollapseAddrList_rel h A (A ++ C)); [set_solver | by apply rel_init | |].
      * apply Forall_own_self.
      * apply Forall_vis_r.
    + intros a b. apply out_any_rel. set_solver.
  - intros g Hg. apply (same_result_of_rel h A A); [done |].
    eapply res_rel_impl.
    + apply (CollapseAddrListPreserveTokens_rel h A A); [done | by apply rel_init |].
      apply Forall_own_self.
    + intros a b. by apply out_any_rel.
  - intros g b Hg. apply (same_result_of_rel h (if b then A ++ E else []) (A ++ E)).
    { destruct b; set_solver. }
    apply (AddressListExclude_rel h _ (A ++ E)).
    + destruct b; set_solver.
    + by apply rel_init.
    + apply Forall_vis_l.
    + apply Forall_vis_r.
    + intros ->. split; [apply Forall_own_l | apply Forall_own_r].
  - intros ls a c. apply CollapseAddrList_obj_spec.
  - intros ls a. apply obj_refines_new.
  - intros ls a e b Ha He. by apply AddressListExclude_obj_spec.
Qed.

(** The same nested pair in two stores that differ in an object the call is
    not given. *)
Definition ex_nested_g : heap := ex_nested ++ [ip4 192 168 0 0 16 "g" "t"].
Definition ex_nested_h : heap := ex_nested ++ [ip4 172 16 0 0 12 "h" "u"].

Lemma entry_points_frame_witness :
  ((exists h' out, CollapseAddrList ex_nested_h [0%nat; 1%nat] [] = Ok (h', out)) /\
   (exists h' out,
      CollapseAddrListPreserveTokens ex_nested_h [0%nat; 1%nat] = Ok (h', out)) /\
   (exists h' out,
      AddressListExclude ex_nested_h [0%nat; 1%nat] [1%nat] true = Ok (h', out)) /\
   (forall c, Forall (fun r => cls (ex_nested_h !!! r) = c) [0%nat; 1%nat] ->
      exists h' out, CollapseAddrList ex_nested_h [0%nat; 1%nat] [] = Ok (h', out))) /\
  (exists h',
     changed_only ex_nested_h [0%nat; 1%nat] h' /\ heap_frame ex_nested_h h' /\
     text (h' !!! 0%nat) = "a, b" /\ h' !!! 2%nat = ex_nested_h !!! 2%nat) /\
  same_result ([0%nat; 1%nat] ++ [])
    (CollapseAddrList ex_nested_h [0%nat; 1%nat] [])
    (CollapseAddrList ex_nested_g [0%nat; 1%nat] []).
Proof.
  destruct (entry_points_frame ex_nested_h [0%nat; 1%nat] [1%nat] [])
    as (Hret & Hc & _ & _ & _ & Hloc & _).
  split; [| split].
  - apply Hret.
    + repeat constructor; by vm_compute.
    + repeat constructor; simpl; lia.
    + repeat constructor; simpl; lia.
  - eexists. split; [| split; [| split]].
    + eapply Hc. by vm_compute.
    + eapply Hc. by vm_compute.
    + by vm_compute.
    + by vm_compute.
  - apply Hloc. split; [done |].
    intros r Hr. rewrite app_nil_r in Hr.
    apply elem_of_cons in Hr as [-> | Hr]; [done |].
    apply elem_of_cons in Hr as [-> | Hr]; [done |].
    by apply elem_of_nil in Hr.
Defined.
